(* ===== verification/_CoqProject ===== *)
-Q . S2P
Prelude.v
Float.v
ExactFloat.v
DualQuat.v
Codec.v
Channel.v
Evaluator.v
Skeleton.v
Animator.v
InitBake.v
Persist.v
SaveLoad.v
LoadBake.v
