(* ===== verification/Prelude.v ===== *)
(** * A verification development for the skeletal animation controller

    The program is [src/DX11/Core/Model/cAnimationController.{h,cpp}]: the
    skeletal animation of a model imported with assimp.  Its parts are:
    - [cBone], a node of the bone tree (a name, an offset, a local, a global
      and an original local transform, a [Parent] pointer, owned
      [Children]);
    - [cAnimationChannel], the position, rotation and scaling keys of one
      bone in one animation;
    - [cAnimEvaluator], one animation: its channels, a cursor per track
      (the frame where the last key search stopped), the time of the last
      evaluation and the frames baked for it; [Evaluate(t, bones)] writes
      the local transform of every animated bone, [GetFrameIndexAt] and
      [GetTransforms] look a baked frame up;
    - [SceneAnimator], which owns the tree and the evaluators: [Init] builds
      the tree from the scene ([CreateBoneTree]), extracts the animations,
      attaches the bones the meshes are skinned to ([Bones], in first
      encounter order) and bakes every animation at 30 frames per second
      (each frame: [Calculate] = [Evaluate] then [UpdateTransforms], which
      propagates the global transforms from the root, then
      [Offset * GlobalTransform] per attached bone); the queries return a
      baked frame; [Save]/[Load] write and read all of it;
    - the free function [UQTtoUDQ], which converts a rotation and a
      translation to a unit dual quaternion for dual-quaternion skinning
      (its call in [CalcBoneMatrices] is commented out).

    ** Files
    - [Prelude.v] (this file): the option notation for undefined behaviour,
      the loops of the code as folds that may fault ([foldi_opt],
      [fold_opt]) with their invariant rules, writes into a vector by index
      ([vec_alter], undefined out of range), shared tactics ([invc],
      [break_matches], [Z_cases]) and the hint databases [anim], [anim_rw].
    - [Float.v]: [float] and [double] as the interface [FloatOps] (the
      operations the code uses) with the IEEE facts the proofs need
      ([FloatLaws]); assimp's vectors, quaternions, matrices and keys;
      [aiQuaternion::Interpolate] ([aiQuaternion_Interpolate]) over the
      libm functions [acos] and [sin] ([FloatTrans]); the theorems of the
      evaluator hold for any interpolation ([QuatInterp]).
    - [ExactFloat.v]: an instance of [FloatOps] that computes: exact
      rationals with IEEE's NaN and infinities, used by every concrete
      example.  Rounding is not modelled: a theorem proved for every
      [FloatOps] holds for IEEE arithmetic; a theorem stated on [ExactFloat]
      (the frame lookup after [Init], the examples) holds for the exact
      values, which are those of the code only when every result is
      representable, as in the examples (small integers, halves,
      thirtieths).  The bake loop's frame count is not one of them: it is
      stated for every [FloatOps] as the iteration count of the float loop
      over the ticks ([tick_count]).
    - [DualQuat.v]: [UQTtoUDQ] (lines 395-404) over a memory of [vec4]
      objects (a [gmap] from addresses), its eight assignments in order so
      that a [tran] aliasing [dual] is followed; a reference semantics
      (Hamilton's product on rational quaternions, [udq_ref]) and the
      translation a reader recovers ([dq_translation]).
    - [Channel.v]: [cAnimationChannel] and the per-track part of
      [Evaluate]: the key search [seek_loop] (the [while] loop, lines
      163-168 and its two copies), which reports running out of fuel, and
      the interpolation of a track.
    - [Evaluator.v]: [cAnimEvaluator], its constructors, [Evaluate] (lines
      139-236, the bone writes through the class [BoneHeap]),
      [GetFrameIndexAt], [GetTransforms]; the stateless specification
      [Evaluate_ref] and the cursor invariant [evaluator_inv].
    - [Skeleton.v]: [cBone] in a heap (a [gmap] from addresses to cells;
      pointers are addresses, [NULL] is [None]); [CreateBoneTree] (lines
      427-443), [CalculateBoneToWorldTransform] (455-462),
      [UpdateTransforms] (447-451); the well-formedness [heap_wf] (parents
      at smaller, children at larger addresses) and the specification
      [global_ok] (the global transform is the product of the local
      transforms up the [Parent] chain, [chain]).  The heap implements
      [BoneHeap].
    - [Animator.v]: [SceneAnimator] as a record over that heap (module
      [Scene]): [Release] with the recursive destructor, [Init] (lines
      244-293) with the bone attachment and the bake loop, [SetAnimIndex],
      [SetAnimation], [ExtractAnimations], [Calculate], [CalcBoneMatrices]
      and the inline queries of the header; [int32_t] and [size_t] are
      integers with their conversions ([to_int32], [to_size]).
    - [InitBake.v]: [Init] from a new [SceneAnimator] end to end: the
      composition of [Release], [CreateBoneTree], [ExtractAnimations] with
      the evaluator constructor, the bone attachment and the loop over the
      animations ([Init_prebake], [bake_all_frames], [Init_bakes]); the
      queries after [PlayAnimationForward]; a second [Init] on the scene
      the first one left.
    - [Codec.v]: the bytes of a float in memory ([FloatCodec]:
      [reinterpret_cast<char*>(&x)]), with the IEEE 754 little-endian
      binary32/binary64 encoding for the exact floats.
    - [Persist.v]: the binary files.  A file is a list of bytes; the writers
      [cAnimEvaluator_Save] (lines 56-91), [SaveSkeleton] (465-475) and
      [Save] (294-314) append to it; the readers [cAnimEvaluator_Load]
      (92-136), [LoadSkeleton] (476-500) and [Load] (315-361, [Load_data]
      up to the bake, then [bake_all] of [Animator.v]) are parsers in an
      error monad of their own ([parser], with [Undefined] for the overflow
      of [char temp[250]] or the dereference of [BonesByName.end()], and
      [ShortRead] for a file that ends early).  The round trips of the
      values, the fuel of [LoadSkeleton] (any fuel above the bytes left
      gives the same result) and the safety of [Load] on any input are
      proved here.
    - [LoadBake.v]: the bake at the end of [Load], on the speeds the file
      holds: [Load] bakes like [Init] ([Load_bakes_tick_loop]) and
      never ends on a file with a speed [<= 0]
      ([Load_nonpositive_speed_hangs]).
    - [SaveLoad.v]: the skeleton of a file as a tree ([btree],
      [tree_bytes]); [LoadSkeleton] rebuilds the saved tree
      ([LoadSkeleton_ok]) and a scene reads back ([Save_Load_roundtrip]).

    Undefined behaviour (an index out of range, a dangling or null pointer,
    an indeterminate [bool], a float converted to [unsigned int] out of
    range) makes an operation return [None]; a defined result is [Some].

    ** What is proved
    - The key-search optimisation is invisible: under [evaluator_inv],
      [Evaluate] equals the stateless [Evaluate_ref] that searches every
      track from frame 0, call after call ([Evaluate_seek_transparent],
      [Evaluate_run_refines]); the search stops at the first frame where
      its loop condition fails ([seek_correct]); [Evaluate] is defined and
      keeps the invariant ([Evaluate_defined_inv]).
    - The bone tree: [CreateBoneTree] keeps the heap well formed, registers
      live bones by name and gives every bone it builds a correct global
      transform ([CreateBoneTree_correct]); [UpdateTransforms] terminates
      and makes every global transform under the root correct
      ([UpdateTransforms_correct]).
    - The scene: [Calculate] keeps the scene invariant [scene_inv] and
      leaves the skeleton's global transforms correct
      ([Calculate_correct]); the bone attachment keeps each found bone once,
      at its first occurrence ([attach_meshes_order]); the bake loop runs
      exactly as the float loop over the ticks ([bake_loop_frames]), which
      never ends for a speed [<= 0] ([bake_loop_diverges]) nor once the
      float addition absorbs the step ([bake_loop_absorbed]); [Init] on a
      new animator composes these: when the loop over the ticks of each
      animation ends within the fuel it is defined, leaves [scene_inv] and
      bakes into every animation one frame of one matrix per attached bone
      per iteration of that loop ([Init_bakes_tick_loop]); on exact values
      (where the count is [ceil(30 d / tps)]) after [PlayAnimationForward]
      every [GetTransforms(t)] with [t >= 0] returns a baked frame of
      [Bones.size()] matrices ([Init_play_forward_frames]); its table of animation names maps
      each name to its first occurrence ([Init_animation_ids]);
      [SetAnimIndex] rejects a negative index
      through its conversion to [size_t] ([SetAnimIndex_range]).
    - Frame lookup: [GetFrameIndexAt] is in range for forward playback.
    - Persistence: [Load] into a new [SceneAnimator] reads back what [Save]
      wrote (the skeleton tree, the saved fields of the animations, the
      attached bones in order) when names are shorter than 250 bytes
      without a NUL, floats read back exactly and counts fit [uint32_t]
      ([Save_Load_roundtrip]); on any bytes, a [Load] that returns leaves no
      dangling pointer ([Load_data_safe]); [Load] bakes into every loaded
      animation one frame per iteration of its loop over the ticks, as
      [Init] does ([Load_bakes_tick_loop]), but runs for ever on a file holding
      a speed [<= 0], which [Save] writes after
      [AdjustAnimationSpeedTo(0)] ([Load_nonpositive_speed_hangs]).  A name of 250 bytes overflows the read
      buffer and a name with a NUL comes back truncated
      ([read_name_write_string]), a scene without a
      skeleton saves a file [Load] misreads, and quaternions are stored
      [w, x, y, z].
    - Dual quaternions: [UQTtoUDQ] is defined exactly when its three
      objects exist ([UQTtoUDQ_undefined]) and writes nothing but
      [dual[0..1]] ([UQTtoUDQ_frame]); on exact values and a [tran] apart
      from [dual] it computes the reference [udq_ref]
      ([UQTtoUDQ_refines]), the result is a unit dual quaternion for a
      unit rotation ([UQTtoUDQ_unit]) and gives the translation back
      ([UQTtoUDQ_translation_roundtrip]); a [tran] aliasing [dual[0]] is
      overwritten before it is read ([UQTtoUDQ_alias_loses_translation]).
    - The behaviours the modelling exposed, each proved on a concrete scene
      or in general: backward playback at time 0 reads one frame past the
      end; a negative time or a zero duration makes the float-to-unsigned
      conversion undefined; the constructor from an [aiAnimation] leaves
      [PlayAnimationForward] indeterminate; the scaling track is not
      interpolated (an example); the baked frames are one step (1/30 s) late; [Init]
      ends with the last animation selected ([Init_selects_last_animation]);
      [Release] frees the whole skeleton through the recursive destructor
      but leaves [Bones] dangling ([Release_frees]), so that a second
      [Init] reads a freed bone in its duplicate scan and is undefined
      ([Init_again_use_after_free]: [CreateBoneTree] allocates only fresh
      addresses) and stale [AnimationNameToId] entries
      ([Init_stale_animation_ids]); the queries
      index [Animations[-1]] when no animation is loaded
      ([no_animation_queries_undefined]).

    ** Fuel
    Loops whose termination depends on the data carry a fuel argument, and
    running out of it is a result of its own ([None]) wherever the
    loop's termination is a claim: the key search exits by its condition
    after exactly [n <= keys.size() - 1 - start] iterations and returns
    with any fuel above [n] ([seek_loop_exits]; [seek] gives
    [keys.size() + 1]); the parent walk and the recursion over children follow
    strictly decreasing or increasing addresses on a well-formed heap, so
    [next_addr] (the number of bones ever allocated) bounds them; the
    destructor recursion is given [next_addr + 1] (enough on a tree, where
    no bone is shared; [Release_frees] assumes [Release] returns); the bake
    loop is given the fuel of [Init]'s argument, and [bake_loop_frames]
    says how much is needed (more than the iterations of the loop over the
    ticks; for [Init], more than each animation's: [Init_bakes_tick_loop]);
    running out of it stands for a loop that does not end, and [Load]
    reports it as [Undefined].

    ** Not modelled
    The state of the C++ streams after a short read is not followed: the
    model stops with [ShortRead] where the code would go on with fields
    left unread, and the [&& file] of the children loop of [LoadSkeleton]
    is therefore always true.  Float rounding is abstract ([FloatOps]):
    no theorem depends on a particular rounding, and the exact instance
    does not round.  [size_t] is taken as 64 bits ([to_size]) and the
    engine's [mat4()] as the identity.  [CalculateBoneToWorldTransform]
    computes the product up the [Parent] chain and writes it once, where
    the code accumulates into [GlobalTransform]: the loop reads only
    [LocalTransform] fields, so no write is observed before the last.  [acos] and [sin] are abstract operations, which the
    exact instance does not compute (its witnesses interpolate between
    equal rotations, where assimp takes the linear branch:
    [interp_quat_constant]); the engine's [quat::frommatrix]
    and the commented-out call of [UQTtoUDQ] are not part of the program;
    the renderer, the importer and [OUTPUT_DEBUG_MSG] are outside the
    program. *)

From stdpp Require Import base list sets.
From Stdlib Require Import ZArith Lia.

(** ** Notation: defined behaviour as an option

    Throughout the development an operation of the C++ code that can
    perform an out-of-range access or an undefined conversion returns
    [option]: [Some r] is the defined result and [None] marks undefined
    behaviour.  The notations below are the option monad of stdpp, kept in
    a scope of the development's own for the shapes used by the loops of
    the code. *)

Declare Scope anim_scope.
Delimit Scope anim_scope with anim.
Open Scope anim_scope.

Notation "'UB'" := (@None _) (only parsing) : anim_scope.
Notation "'ok' x" := (@Some _ x) (at level 10, only parsing) : anim_scope.

(** ** Tactics shared by the components *)

Ltac invc H := inversion H; subst; clear H.

(** Split every [match] on an option or a boolean test in a hypothesis or
    in the goal, keeping the equation. *)
Ltac break_match :=
  match goal with
  | |- context [match ?e with _ => _ end] =>
      let E := fresh "E" in destruct e eqn:E
  | H : context [match ?e with _ => _ end] |- _ =>
      let E := fresh "E" in destruct e eqn:E
  end.

Ltac break_matches := repeat (break_match; simplify_eq/=).

(** Case on every comparison of integers in the goal, closing the cases
    [lia] refutes: the comparisons of C++ indices with sizes. *)
Ltac Z_cases :=
  repeat match goal with
  | |- context [Z.leb ?a ?b] => destruct (Z.leb_spec a b)
  | |- context [Z.ltb ?a ?b] => destruct (Z.ltb_spec a b)
  | |- context [Z.eqb ?a ?b] => destruct (Z.eqb_spec a b)
  end; try lia.

Create HintDb anim discriminated.
Create Rewrite HintDb anim_rw.

(** ** Indexed loops that may fault

    [foldi_opt f l s] is the C++ loop
    [for (size_t a = 0; a < l.size(); ++a) s = f(a, l[a], s);]
    in which the body may perform an undefined operation ([None]); the
    first fault aborts the whole loop. *)

Section LoopDefs.
  Context {A St : Type}.

Fixpoint foldi_opt_from (i : nat) (f : nat -> A -> St -> option St)
      (l : list A) (s : St) : option St :=
    match l with
    | [] => Some s
    | x :: l' => s' ← f i x s; foldi_opt_from (S i) f l' s'
    end.

Definition foldi_opt (f : nat -> A -> St -> option St) (l : list A) (s : St)
    : option St := foldi_opt_from 0 f l s.

  (** The same loop when the body does not use the index. *)
Fixpoint fold_opt (w : A -> St -> option St) (l : list A) (s : St) : option St :=
    match l with
    | [] => Some s
    | x :: l' => s' ← w x s; fold_opt w l' s'
    end.

End LoopDefs.

(** ** Vectors updated in place

    [v[i] = f(v[i])] on a [std::vector]: undefined out of range, where
    stdpp's [alter] would leave the list unchanged. *)

Definition vec_alter {A} (i : nat) (f : A -> A) (l : list A) : option (list A) :=
  if i <? length l then Some (alter f i l) else None.

(** ** Loop lemmas *)

Section Loops.
  Context {A St : Type}.

  (** The loop-invariant rule: an invariant that every iteration keeps and
      that makes every iteration defined makes the loop defined. *)
Lemma foldi_opt_from_inv (P : St -> Prop) f (l : list A) i s :
    (forall k x s, l !! k = Some x -> P s ->
       exists s', f (i + k) x s = Some s' /\ P s') ->
    P s -> exists s', foldi_opt_from i f l s = Some s' /\ P s'.
  Proof.
    revert i s. induction l as [|x l IH]; intros i s Hstep Hs; simpl.
    - eauto.
    - destruct (Hstep 0 x s) as (s1 & E1 & Hs1); [done|done|].
      rewrite Nat.add_0_r in E1. rewrite E1. simpl.
      apply IH; [|done]. intros k y t Hk Ht.
      replace (S i + k) with (i + S k) by lia. apply (Hstep (S k)); done.
  Qed.

Lemma foldi_opt_inv (P : St -> Prop) f (l : list A) s :
    (forall k x s, l !! k = Some x -> P s ->
       exists s', f k x s = Some s' /\ P s') ->
    P s -> exists s', foldi_opt f l s = Some s' /\ P s'.
  Proof. intros H. apply foldi_opt_from_inv. exact H. Qed.

  (** A loop whose body is always defined computes the pure fold. *)
Lemma foldi_opt_from_total (g : nat -> A -> St -> St) (l : list A) i s :
    foldi_opt_from i (fun k x t => Some (g k x t)) l s
    = Some (fold_left (fun t '(k, x) => g k x t) (zip (seq i (length l)) l) s).
  Proof.
    revert i s. induction l as [|x l IH]; intros i s; simpl; [done|].
    apply IH.
  Qed.
Lemma fold_opt_inv (P : St -> Prop) w (l : list A) s :
    (forall x s, x ∈ l -> P s -> exists s', w x s = Some s' /\ P s') ->
    P s -> exists s', fold_opt w l s = Some s' /\ P s'.
  Proof.
    revert s. induction l as [|x l IH]; intros s Hstep Hs; simpl; [eauto|].
    destruct (Hstep x s) as (s1 & -> & Hs1); [set_solver|done|]. simpl.
    apply IH; [|done]. intros y t Hy Ht. apply Hstep; [set_solver|done].
  Qed.
  (** A property kept by every iteration that succeeds holds after the loop. *)
Lemma fold_opt_preserve (P : St -> Prop) w (l : list A) s s' :
    (forall x t t', x ∈ l -> w x t = Some t' -> P t -> P t') ->
    fold_opt w l s = Some s' -> P s -> P s'.
  Proof.
    revert s. induction l as [|x l IH]; intros s Hstep E Hs; simpl in E; [by simplify_eq|].
    destruct (w x s) as [t|] eqn:Ew; simpl in E; [|done].
    apply (IH t); [intros y u u' Hy; apply Hstep; apply elem_of_cons; by right | done | ].
    eapply Hstep; [apply elem_of_cons; by left | done | done].
  Qed.

  (** Induction over a loop that ended: an invariant on the prefix
      processed and the state holds at the end. *)
Lemma fold_opt_Some_ind (P : list A -> St -> Prop) (w : A -> St -> option St) (l : list A) s s' :
    P [] s ->
    (forall pre x post t t', l = pre ++ x :: post -> P pre t -> w x t = Some t' -> P (pre ++ [x]) t') ->
    fold_opt w l s = Some s' -> P l s'.
  Proof.
    intros H0 Hstep. cut (forall l' pre t, l = pre ++ l' -> P pre t ->
      fold_opt w l' t = Some s' -> P l s').
    { intros Hc. exact (Hc l [] s eq_refl H0). }
    induction l' as [|x l' IH]; intros pre t El Ht E; simpl in E.
    - simplify_eq. by rewrite app_nil_r.
    - destruct (w x t) as [t1|] eqn:Ew; simpl in E; [|done].
      apply (IH (pre ++ [x]) t1); [by rewrite <- app_assoc|eapply Hstep; eauto|done].
  Qed.

  (** A loop over [l1 ++ l2] runs over [l1], then over [l2]. *)
Lemma fold_opt_app (w : A -> St -> option St) (l1 l2 : list A) s :
    fold_opt w (l1 ++ l2) s = fold_opt w l1 s ≫= fold_opt w l2.
  Proof.
    revert s. induction l1 as [|x l1 IH]; intros s; simpl; [done|].
    destruct (w x s); simpl; [apply IH|done].
  Qed.

  (** A loop whose invariant depends on the prefix already processed. *)
Lemma fold_opt_prefix (P : list A -> St -> Prop) w (l : list A) s :
    P [] s ->
    (forall pre x post t, l = pre ++ x :: post -> P pre t -> exists t', w x t = Some t' /\ P (pre ++ [x]) t') ->
    exists s', fold_opt w l s = Some s' /\ P l s'.
  Proof.
    intros H0 Hstep. cut (forall l' pre t, l = pre ++ l' -> P pre t ->
      exists t', fold_opt w l' t = Some t' /\ P (pre ++ l') t').
    { intros Hc. exact (Hc l [] s eq_refl H0). }
    induction l' as [|x l' IH]; intros pre t El Ht; simpl.
    - exists t. by rewrite app_nil_r.
    - destruct (Hstep pre x l' t El Ht) as (t1 & -> & Ht1). simpl.
      destruct (IH (pre ++ [x]) t1) as (t2 & Ef & Ht2); [by rewrite <- app_assoc|done|].
      exists t2. by rewrite <- app_assoc in Ht2.
  Qed.
End Loops.

Section Vectors.
  Context {A : Type}.

Lemma alter_middle (f : A -> A) (pre rest : list A) x :
    alter f (length pre) (pre ++ x :: rest) = pre ++ f x :: rest.
  Proof. rewrite <- (Nat.add_0_r (length pre)), alter_app_r. done. Qed.

Lemma vec_alter_middle (f : A -> A) (pre rest : list A) x :
    vec_alter (length pre) f (pre ++ x :: rest) = Some (pre ++ f x :: rest).
  Proof.
    unfold vec_alter. rewrite length_app. simpl.
    destruct (Nat.ltb_spec (length pre) (length pre + S (length rest))); [|lia].
    by rewrite alter_middle.
  Qed.

  (** A loop over a vector [l] whose body, at index [k], rewrites only the
      [k]-th cell of a state vector (to [g x]) and threads a second
      component through [w], provided the cell satisfies [P]: the loop
      computes the vector [map g l] and the fold of [w]. *)
Lemma foldi_opt_from_pointwise {C H} (P : nat -> A -> C -> Prop)
      (f : nat -> A -> list C * H -> option (list C * H)) (g : A -> C)
      (w : A -> H -> option H) (l : list A) i (pre rest : list C) h :
    length pre = i -> length rest = length l ->
    (forall k x c (pre' rest' : list C) h', l !! k = Some x ->
       length pre' = i + k -> P (i + k) x c ->
       f (i + k) x (pre' ++ c :: rest', h') = (fun h'' => (pre' ++ g x :: rest', h'')) <$> w x h') ->
    (forall k x c, l !! k = Some x -> rest !! k = Some c -> P (i + k) x c) ->
    foldi_opt_from i f l (pre ++ rest, h) = (fun h' => (pre ++ map g l, h')) <$> fold_opt w l h.
  Proof.
    revert i pre rest h. induction l as [|x l IH]; intros i pre rest h Hpre Hrest Hstep HP.
    - destruct rest; [|done]. done.
    - destruct rest as [|c rest]; [done|]. simpl in *.
      pose proof (Hstep 0 x c pre rest h eq_refl) as E.
      pose proof (HP 0 x c eq_refl eq_refl) as HP0.
      rewrite Nat.add_0_r in E, HP0. rewrite E by done.
      destruct (w x h) as [h1|]; simpl; [|done].
      replace (pre ++ g x :: rest) with ((pre ++ [g x]) ++ rest) by (rewrite <- app_assoc; done).
      rewrite (IH (S i) (pre ++ [g x]) rest h1).
      + destruct (fold_opt w l h1); simpl; [|done]. by rewrite <- app_assoc.
      + rewrite length_app. simpl. lia.
      + lia.
      + intros k y c' pre' rest' h' Hk Hl HPk. replace (S i + k) with (i + S k) by lia.
        apply Hstep; [done|lia|]. by replace (i + S k) with (S i + k) by lia.
      + intros k y c' Hk Hc. replace (S i + k) with (i + S k) by lia. by apply HP.
  Qed.
End Vectors.

(** ** Generic list lemmas used by the components *)

Lemma lookup_seq_lt (i n k : nat) : k < n -> seq i n !! k = Some (i + k).
Proof. intros Hk. apply lookup_seq. lia. Qed.

Lemma length_insert_eq {A} (l : list A) i x : length (<[i:=x]> l) = length l.
Proof. apply length_insert. Qed.

  (** A relation total on the elements of a list relates it to a list. *)
Lemma Forall_choose {A B} (R : A -> B -> Prop) (l : list A) :
    Forall (fun x => exists y, R x y) l -> exists l', Forall2 R l l'.
Proof. induction 1 as [|x l [y Hy] _ [l' IH]]; [by exists []|]. exists (y :: l'). by constructor. Qed.

#[export] Hint Rewrite @length_insert_eq : anim_rw.
#[export] Hint Resolve lookup_lt_Some : anim.
