(* ===== verification/Float.v ===== *)
(** * Float.v: the floating-point interface of the animation code

    The C++ code computes with [float] (times after scaling, durations,
    ticks per second, vector components) and [double] (key times and the
    interpolation span).  This file states, as the classes [FloatOps] and
    [FloatLaws], the operations the code applies to them and the facts of
    IEEE 754 arithmetic the proofs rely on; the components are written and
    proved against these classes.  [ExactFloat.v] gives an instance that
    computes, for the witnesses.

    It also holds assimp's value types used by the code ([aiVector3D],
    [aiQuaternion], [aiMatrix4x4] and the keys [aiVectorKey], [aiQuatKey])
    and their operators.  These belong to the assimp library, not to this
    repository: they are modelled from assimp's documented definitions. *)

From S2P Require Import Prelude.
From stdpp Require Import base.
From Stdlib Require Import ZArith NArith.

(** ** Operations *)

Class FloatOps := {
  f32 : Type;                       (** C++ [float] *)
  f64 : Type;                       (** C++ [double] *)
  f_of_Z : Z -> f32;                (** integer literal, [static_cast<float>(n)] *)
  fadd : f32 -> f32 -> f32;
  fsub : f32 -> f32 -> f32;
  fmul : f32 -> f32 -> f32;
  fdiv : f32 -> f32 -> f32;
  fneg : f32 -> f32;                (** unary [-a]: flips the sign, exact *)
  fmod : f32 -> f32 -> f32;         (** C [fmodf] *)
  flt : f32 -> f32 -> bool;         (** [a < b] *)
  fle : f32 -> f32 -> bool;         (** [a <= b] *)
  f_to_u32 : f32 -> option N;       (** [static_cast<unsigned int>(a)]; [None]: undefined *)
  d_of_f : f32 -> f64;              (** promotion [float] to [double] *)
  f_of_d : f64 -> f32;              (** conversion [double] to [float] *)
  d_of_Z : Z -> f64;
  dadd : f64 -> f64 -> f64;
  dsub : f64 -> f64 -> f64;
  ddiv : f64 -> f64 -> f64;
  dlt : f64 -> f64 -> bool;         (** [a < b] *)
  deqb : f64 -> f64 -> bool;        (** [a == b] *)
}.

Declare Scope float_scope.
Delimit Scope float_scope with fl.
Notation "a +. b" := (fadd a b) (at level 50, left associativity) : float_scope.
Notation "a -. b" := (fsub a b) (at level 50, left associativity) : float_scope.
Notation "a *. b" := (fmul a b) (at level 40, left associativity) : float_scope.
Notation "a /. b" := (fdiv a b) (at level 40, left associativity) : float_scope.
Notation "a <. b" := (flt a b) (at level 70, no associativity) : float_scope.
Notation "a <=. b" := (fle a b) (at level 70, no associativity) : float_scope.
Notation "a <.. b" := (dlt a b) (at level 70, no associativity) : float_scope.
Notation "-. a" := (fneg a) (at level 35, right associativity) : float_scope.
Notation "# n" := (f_of_Z n) (at level 1, format "# n") : float_scope.
Open Scope float_scope.

(** ** Laws

    Facts of IEEE 754 binary arithmetic (with round-to-nearest) that hold
    for every operand, NaN and infinities included: a comparison with NaN
    is false, promotion to [double] is exact. *)

Class FloatLaws `{FloatOps} := {
  (** [a <= b] and [not (a < k)] give [not (b < k)]: if [k] is NaN both
      tests are false, otherwise [k <= a <= b]. *)
  fle_dlt_trans : forall a b k,
    fle a b = true -> dlt (d_of_f a) k = false -> dlt (d_of_f b) k = false;
  (** [<] is irreflexive and [<=] reflexive on non-NaN values. *)
  fle_refl_of_lt : forall a b, flt a b = true -> fle a a = true;
}.

(** ** assimp's value types *)

Section Values.
  Context `{FloatOps}.

  (** [aiVector3D] *)
Record vec3 := Vec3 { vx : f32; vy : f32; vz : f32 }.

  (** [aiQuaternion]: the constructor takes [(w, x, y, z)]. *)
Record quat := Quat { qw : f32; qx : f32; qy : f32; qz : f32 }.

  (** [aiMatrix4x4], row-major: [a1 a2 a3 a4] is the first row.  The
      engine's [mat4] has the same layout, which is why
      [TransformMatrix] copies field by field. *)
Record mat4 := Mat4 {
    a1 : f32; a2 : f32; a3 : f32; a4 : f32;
    b1 : f32; b2 : f32; b3 : f32; b4 : f32;
    c1 : f32; c2 : f32; c3 : f32; c4 : f32;
    d1 : f32; d2 : f32; d3 : f32; d4 : f32 }.

  (** [aiVectorKey] and [aiQuatKey]: a key time in ticks and a value. *)
Record vkey := VKey { vk_time : f64; vk_value : vec3 }.
Record qkey := QKey { qk_time : f64; qk_value : quat }.

  (** [aiVector3D] operators [+], [-] and [* float]. *)
Definition vadd (u v : vec3) : vec3 := Vec3 (vx u +. vx v) (vy u +. vy v) (vz u +. vz v).
Definition vsub (u v : vec3) : vec3 := Vec3 (vx u -. vx v) (vy u -. vy v) (vz u -. vz v).
Definition vscale (u : vec3) (f : f32) : vec3 := Vec3 (vx u *. f) (vy u *. f) (vz u *. f).

  (** The default values of the code: [aiVector3D(0,0,0)],
      [aiVector3D(1,1,1)] and [aiQuaternion(1,0,0,0)]. *)
Definition vzero : vec3 := Vec3 (#0) (#0) (#0).
Definition vone : vec3 := Vec3 (#1) (#1) (#1).
Definition qidentity : quat := Quat (#1) (#0) (#0) (#0).

  (** [aiQuaternion::GetMatrix] followed by the [aiMatrix4x4] constructor
      from a 3x3 matrix (last row and column of the identity). *)
Definition quat_matrix (q : quat) : mat4 :=
    let '(Quat w x y z) := q in
    let two := #2 in
    Mat4 (#1 -. two *. (y *. y +. z *. z)) (two *. (x *. y -. z *. w)) (two *. (x *. z +. y *. w)) (#0)
         (two *. (x *. y +. z *. w)) (#1 -. two *. (x *. x +. z *. z)) (two *. (y *. z -. x *. w)) (#0)
         (two *. (x *. z -. y *. w)) (two *. (y *. z +. x *. w)) (#1 -. two *. (x *. x +. y *. y)) (#0)
         (#0) (#0) (#0) (#1).

  (** [aiMatrix4x4::Transpose] (and the engine's [mat4::Transpose]). *)
Definition transpose (m : mat4) : mat4 :=
    Mat4 (a1 m) (b1 m) (c1 m) (d1 m)
         (a2 m) (b2 m) (c2 m) (d2 m)
         (a3 m) (b3 m) (c3 m) (d3 m)
         (a4 m) (b4 m) (c4 m) (d4 m).

  (** The engine's [mat4()] default constructor: the identity. *)
Definition mat_identity : mat4 :=
    Mat4 (#1) (#0) (#0) (#0) (#0) (#1) (#0) (#0) (#0) (#0) (#1) (#0) (#0) (#0) (#0) (#1).

  (** The engine's [mat4 operator*] (row-major, [r_ij = sum_k l_ik m_kj],
      summed left to right) and [*=] as [m = m * n]. *)
Definition dot4 (x1 x2 x3 x4 y1 y2 y3 y4 : f32) : f32 :=
    x1 *. y1 +. x2 *. y2 +. x3 *. y3 +. x4 *. y4.

Definition mat_mul (l m : mat4) : mat4 :=
    Mat4 (dot4 (a1 l) (a2 l) (a3 l) (a4 l) (a1 m) (b1 m) (c1 m) (d1 m))
         (dot4 (a1 l) (a2 l) (a3 l) (a4 l) (a2 m) (b2 m) (c2 m) (d2 m))
         (dot4 (a1 l) (a2 l) (a3 l) (a4 l) (a3 m) (b3 m) (c3 m) (d3 m))
         (dot4 (a1 l) (a2 l) (a3 l) (a4 l) (a4 m) (b4 m) (c4 m) (d4 m))
         (dot4 (b1 l) (b2 l) (b3 l) (b4 l) (a1 m) (b1 m) (c1 m) (d1 m))
         (dot4 (b1 l) (b2 l) (b3 l) (b4 l) (a2 m) (b2 m) (c2 m) (d2 m))
         (dot4 (b1 l) (b2 l) (b3 l) (b4 l) (a3 m) (b3 m) (c3 m) (d3 m))
         (dot4 (b1 l) (b2 l) (b3 l) (b4 l) (a4 m) (b4 m) (c4 m) (d4 m))
         (dot4 (c1 l) (c2 l) (c3 l) (c4 l) (a1 m) (b1 m) (c1 m) (d1 m))
         (dot4 (c1 l) (c2 l) (c3 l) (c4 l) (a2 m) (b2 m) (c2 m) (d2 m))
         (dot4 (c1 l) (c2 l) (c3 l) (c4 l) (a3 m) (b3 m) (c3 m) (d3 m))
         (dot4 (c1 l) (c2 l) (c3 l) (c4 l) (a4 m) (b4 m) (c4 m) (d4 m))
         (dot4 (d1 l) (d2 l) (d3 l) (d4 l) (a1 m) (b1 m) (c1 m) (d1 m))
         (dot4 (d1 l) (d2 l) (d3 l) (d4 l) (a2 m) (b2 m) (c2 m) (d2 m))
         (dot4 (d1 l) (d2 l) (d3 l) (d4 l) (a3 m) (b3 m) (c3 m) (d3 m))
         (dot4 (d1 l) (d2 l) (d3 l) (d4 l) (a4 m) (b4 m) (c4 m) (d4 m)).
End Values.

Arguments vec3 {_}.
Arguments quat {_}.
Arguments mat4 {_}.
Arguments vkey {_}.
Arguments qkey {_}.

(** The interpolation of two rotation keys.  The code calls
    [aiQuaternion::Interpolate]; the theorems of the evaluator hold for any
    interpolation and are stated over this class, whose instance
    [assimp_quat_interp] below is assimp's function. *)
Class QuatInterp `{FloatOps} := {
  quat_interpolate : quat -> quat -> f32 -> quat
}.

(** The C library's [acos] and [sin] on [float]: transcendental functions
    of libm, outside the program, given as operations of their own. *)
Class FloatTrans `{FloatOps} := {
  facos : f32 -> f32;
  fsin : f32 -> f32
}.

Section Interpolate.
  Context `{FloatOps} `{!FloatTrans}.

  (** The literal [0.0001f]: the float nearest to [1/10000], which is
      also the correctly rounded quotient [1.0f / 10000.0f]. *)
Definition interp_eps : f32 := #1 /. #10000.

  (** [aiQuaternion::Interpolate(pOut, pStart, pEnd, pFactor)]
      (assimp's aiQuaternion.h): the cosine of the angle, the signs of
      [pEnd] reversed when it is negative, then the slerp coefficients, or
      the linear ones when [1 - cosom <= 0.0001]. *)
Definition aiQuaternion_Interpolate (pStart pEnd : quat) (pFactor : f32) : quat :=
    let cosom := qx pStart *. qx pEnd +. qy pStart *. qy pEnd
                 +. qz pStart *. qz pEnd +. qw pStart *. qw pEnd in
    let '(cosom, end_) :=
      if cosom <. #0
      then (-. cosom, Quat (-. qw pEnd) (-. qx pEnd) (-. qy pEnd) (-. qz pEnd))
      else (cosom, pEnd) in
    let '(sclp, sclq) :=
      if interp_eps <. #1 -. cosom
      then let omega := facos cosom in
           let sinom := fsin omega in
           (fsin ((#1 -. pFactor) *. omega) /. sinom, fsin (pFactor *. omega) /. sinom)
      else (#1 -. pFactor, pFactor) in
    Quat (sclp *. qw pStart +. sclq *. qw end_) (sclp *. qx pStart +. sclq *. qx end_)
         (sclp *. qy pStart +. sclq *. qy end_) (sclp *. qz pStart +. sclq *. qz end_).
End Interpolate.

(** assimp's interpolation as the instance of the code. *)
Definition assimp_quat_interp `{FloatOps} `{!FloatTrans} : QuatInterp :=
  {| quat_interpolate := aiQuaternion_Interpolate |}.

Lemma transpose_involutive `{FloatOps} (m : mat4) : transpose (transpose m) = m.
Proof. destruct m; reflexivity. Qed.
