(* ===== verification/ExactFloat.v ===== *)
(** * ExactFloat.v: a computable instance of the floating-point interface

    [xq] is the extended rationals of IEEE 754 without rounding: a finite
    value is an exact rational (kept reduced, so that equal values are
    equal terms), and NaN and the two infinities follow IEEE's rules for
    the operations of [FloatOps] (a comparison with NaN is false, [0/0]
    and [fmod(x, 0)] are NaN, [x/0] is an infinity).  Signed zeros are
    identified and no result is rounded: the instance is the exact
    behaviour of [float] and [double] arithmetic on values whose results
    are representable, which is the case of every witness of the
    development (small integers, halves, thirtieths are compared and
    combined only through exact steps).  It evaluates the model on
    concrete inputs; a theorem stated on it holds for the exact values.
    [acos] and [sin] are not computed (NaN). *)

From S2P Require Import Prelude Float.
From stdpp Require Import base tactics decidable.
From Stdlib Require Import ZArith NArith QArith Qround Lqa.

Inductive xq := XFin (q : Q) | XNaN | XInf (neg : bool).

Definition fin (q : Q) : xq := XFin (Qred q).

(** C's truncation toward zero. *)
Definition qtrunc (q : Q) : Z :=
  if Qle_bool 0 q then Qfloor q else (- Qfloor (- q))%Z.

Definition qneg_b (q : Q) : bool := negb (Qle_bool 0 q).
Definition qzero_b (q : Q) : bool := Qeq_bool q 0.

Definition xneg (x : xq) : xq :=
  match x with XFin q => fin (- q) | XNaN => XNaN | XInf s => XInf (negb s) end.

Definition xadd (x y : xq) : xq :=
  match x, y with
  | XFin a, XFin b => fin (a + b)
  | XNaN, _ | _, XNaN => XNaN
  | XInf s, XInf t => if Bool.eqb s t then XInf s else XNaN
  | XInf s, XFin _ | XFin _, XInf s => XInf s
  end.

Definition xsub (x y : xq) : xq := xadd x (xneg y).

Definition xmul (x y : xq) : xq :=
  match x, y with
  | XFin a, XFin b => fin (a * b)
  | XNaN, _ | _, XNaN => XNaN
  | XInf s, XInf t => XInf (xorb s t)
  | XInf s, XFin b | XFin b, XInf s =>
      if qzero_b b then XNaN else XInf (xorb s (qneg_b b))
  end.

Definition xdiv (x y : xq) : xq :=
  match x, y with
  | XFin a, XFin b =>
      if qzero_b b then (if qzero_b a then XNaN else XInf (qneg_b a))
      else fin (a / b)
  | XNaN, _ | _, XNaN => XNaN
  | XFin _, XInf _ => XFin 0
  | XInf s, XFin b => XInf (xorb s (qneg_b b))
  | XInf _, XInf _ => XNaN
  end.

(** C [fmod]: [x - trunc(x/y) * y], NaN for an infinite [x] or a zero [y],
    [x] itself for an infinite [y]. *)
Definition xmod (x y : xq) : xq :=
  match x, y with
  | XFin a, XFin b => if qzero_b b then XNaN else fin (a - inject_Z (qtrunc (a / b)) * b)
  | XFin a, XInf _ => XFin a
  | _, _ => XNaN
  end.

Definition xlt (x y : xq) : bool :=
  match x, y with
  | XNaN, _ | _, XNaN => false
  | XFin a, XFin b => negb (Qle_bool b a)
  | XInf s, XInf t => s && negb t
  | XInf s, XFin _ => s
  | XFin _, XInf t => negb t
  end.

Definition xle (x y : xq) : bool :=
  match x, y with
  | XNaN, _ | _, XNaN => false
  | XFin a, XFin b => Qle_bool a b
  | XInf s, XInf t => s || negb t
  | XInf s, XFin _ => s
  | XFin _, XInf t => negb t
  end.

Definition xeqb (x y : xq) : bool :=
  match x, y with
  | XFin a, XFin b => Qeq_bool a b
  | XInf s, XInf t => Bool.eqb s t
  | _, _ => false
  end.

(** [static_cast<unsigned int>]: defined when the truncated value is in
    [[0, 2^32)]. *)
Definition xto_u32 (x : xq) : option N :=
  match x with
  | XFin q => let t := qtrunc q in
              if (0 <=? t)%Z && (t <? 2 ^ 32)%Z then Some (Z.to_N t) else None
  | _ => None
  end.

#[export] Instance exact_float_ops : FloatOps := {|
  f32 := xq; f64 := xq;
  f_of_Z z := XFin (inject_Z z);
  fadd := xadd; fsub := xsub; fmul := xmul; fdiv := xdiv; fneg := xneg; fmod := xmod;
  flt := xlt; fle := xle; f_to_u32 := xto_u32;
  d_of_f x := x; f_of_d x := x; d_of_Z z := XFin (inject_Z z);
  dadd := xadd; dsub := xsub; ddiv := xdiv; dlt := xlt; deqb := xeqb |}.

(** Literals of the witnesses: [q // d] is the exact float [q/d]. *)
Definition xfrac (n : Z) (d : positive) : xq := fin {| Qnum := n; Qden := d |}.

(** [acos] and [sin] have no exact rational values: the instance does
    not compute them and answers NaN.  Only the slerp branch of
    [aiQuaternion::Interpolate] calls them; the witnesses interpolate
    between equal rotations, where assimp takes the linear branch. *)
#[export] Instance exact_float_trans : FloatTrans := {|
  facos _ := XNaN; fsin _ := XNaN |}.

(** The interpolation of the witnesses is assimp's. *)
#[export] Instance exact_quat_interp : QuatInterp := assimp_quat_interp.

Lemma Qle_bool_false_iff (a b : Q) : Qle_bool a b = false <-> b < a.
Proof.
  split; intros H.
  - apply Qnot_le_lt. intros Hle. apply Qle_bool_iff in Hle. congruence.
  - destruct (Qle_bool a b) eqn:E; [|done]. apply Qle_bool_iff in E. lra.
Qed.

Ltac xq_bools :=
  repeat match goal with
  | H : Qle_bool _ _ = true |- _ => apply Qle_bool_iff in H
  | H : Qle_bool _ _ = false |- _ => apply Qle_bool_false_iff in H
  | H : negb _ = true |- _ => apply negb_true_iff in H
  | H : negb _ = false |- _ => apply negb_false_iff in H
  | |- negb _ = false => apply negb_false_iff
  | |- Qle_bool _ _ = true => apply Qle_bool_iff
  end.

#[export] Instance exact_float_laws : FloatLaws.
Proof.
  split.
  - intros [a| |[]] [b| |[]] [k| |[]]; simpl; intros H1 H2;
      try discriminate; try reflexivity; xq_bools; try lra.
  - intros [a| |[]] [b| |[]]; simpl; intros H; try discriminate; try reflexivity;
      apply Qle_bool_iff; lra.
Qed.


(** ** Arithmetic on finite values

    On finite operands the operations of the instance are the rational
    ones; [fin] identifies rationals equal as numbers. *)

Section FinArith.
  Local Open Scope Q_scope.

Lemma fin_Qeq a b : a == b -> fin a = fin b.
  Proof. intros E. unfold fin. f_equal. by apply Qred_complete. Qed.

Lemma fin_add a b : (fin a +. fin b) = fin (a + b).
  Proof. apply fin_Qeq. by rewrite !Qred_correct. Qed.

Lemma fin_sub a b : (fin a -. fin b) = fin (a - b).
  Proof. apply fin_Qeq. rewrite !Qred_correct. ring. Qed.

Lemma fin_mul a b : (fin a *. fin b) = fin (a * b).
  Proof. apply fin_Qeq. by rewrite !Qred_correct. Qed.

Lemma fin_neg a : (-. fin a) = fin (- a).
  Proof. apply fin_Qeq. by rewrite !Qred_correct. Qed.
End FinArith.

Create Rewrite HintDb fin_arith.
#[export] Hint Rewrite fin_add fin_sub fin_mul fin_neg : fin_arith.

(** ** Bounds of the operations used by [GetFrameIndexAt] *)

Section QBounds.
  Local Open Scope Q_scope.

Lemma qzero_b_pos d : 0 < d -> qzero_b d = false.
  Proof.
    intros Hd. unfold qzero_b. apply not_true_iff_false. intros E.
    apply Qeq_bool_iff in E. lra.
  Qed.

Lemma qtrunc_nonneg q : 0 <= q -> qtrunc q = Qfloor q.
  Proof. intros Hq. unfold qtrunc. by rewrite (proj2 (Qle_bool_iff _ _) Hq). Qed.

  (** [fmod] of a non-negative value by a positive one lies in [[0, d)]. *)
Lemma xmod_pos_range x d :
    0 <= x -> 0 < d -> exists r, xmod (XFin x) (XFin d) = XFin r /\ 0 <= r /\ r < d.
  Proof.
    intros Hx Hd. unfold xmod. rewrite qzero_b_pos by done. unfold fin.
    eexists. split; [reflexivity|]. rewrite Qred_correct.
    assert (Hi : 0 < / d) by (apply Qinv_lt_0_compat; lra).
    assert (Hdi : d * / d == 1) by (apply Qmult_inv_r; lra).
    assert (Hy : 0 <= x / d) by (unfold Qdiv; nra).
    rewrite qtrunc_nonneg by done.
    pose proof (Qfloor_le (x / d)) as Hk1. pose proof (Qlt_floor (x / d)) as Hk2.
    rewrite inject_Z_plus in Hk2. unfold Qdiv in Hy, Hk1, Hk2; unfold Qdiv.
    remember (inject_Z (Qfloor (x * / d))) as k eqn:Ek; clear Ek.
    assert (Hx' : x == x * / d * d) by (rewrite <- Qmult_assoc, (Qmult_comm (/ d)), Hdi; ring).
    remember (x * / d) as y eqn:Ey; clear Ey. change (inject_Z 1) with 1 in Hk2.
    split; nra.
  Qed.

Lemma xdiv_unit r d :
    0 <= r -> r < d -> exists p, xdiv (XFin r) (XFin d) = XFin p /\ 0 <= p /\ p < 1.
  Proof.
    intros Hr Hrd. unfold xdiv. rewrite qzero_b_pos by lra. unfold fin.
    eexists. split; [reflexivity|]. rewrite Qred_correct.
    assert (Hi : 0 < / d) by (apply Qinv_lt_0_compat; lra).
    assert (Hdi : d * / d == 1) by (apply Qmult_inv_r; lra).
    unfold Qdiv. split; nra.
  Qed.

Lemma xmul_count_lt (n : Z) p :
    (0 < n)%Z -> 0 <= p -> p < 1 ->
    exists m, xmul (XFin (inject_Z n)) (XFin p) = XFin m /\ 0 <= m /\ m < inject_Z n.
  Proof.
    intros Hn Hp Hp1. simpl. unfold fin. eexists. split; [reflexivity|].
    rewrite Qred_correct. assert (0 < inject_Z n) by (change 0 with (inject_Z 0); rewrite <- Zlt_Qlt; done).
    split; nra.
  Qed.

Lemma xto_u32_lt m (n : Z) :
    0 <= m -> m < inject_Z n -> (n <= 2 ^ 32)%Z ->
    exists i, xto_u32 (XFin m) = Some i /\ (Z.of_N i < n)%Z.
  Proof.
    intros Hm Hmn Hn. unfold xto_u32. rewrite qtrunc_nonneg by done.
    pose proof (Qfloor_le m) as Hf. 
    assert (H0 : (0 <= Qfloor m)%Z).
    { change 0%Z with (Qfloor 0). apply Qfloor_resp_le. done. }
    assert (H1 : (Qfloor m < n)%Z) by (rewrite Zlt_Qlt; lra).
    destruct (Z.leb_spec 0 (Qfloor m)); [|lia]. destruct (Z.ltb_spec (Qfloor m) (2 ^ 32)); [|lia].
    simpl. eexists. split; [reflexivity|]. lia.
  Qed.
  (** Truncation toward zero of a value in [(-1, 1)] is 0. *)
Lemma qtrunc_small q : -1 < q -> q < 1 -> qtrunc q = 0%Z.
  Proof.
    intros H1 H2. pose proof (Qfloor_le q). pose proof (Qlt_floor q).
    pose proof (Qfloor_le (- q)). pose proof (Qlt_floor (- q)).
    rewrite inject_Z_plus in * . change (inject_Z 1) with 1 in * .
    unfold qtrunc. destruct (Qle_bool 0 q) eqn:E; xq_bools.
    - assert (Qfloor q < 1)%Z by (rewrite Zlt_Qlt; change (inject_Z 1) with 1; lra).
      assert (-1 < Qfloor q)%Z by (rewrite Zlt_Qlt; change (inject_Z (-1)) with (-1); lra).
      lia.
    - assert (Qfloor (- q) < 1)%Z by (rewrite Zlt_Qlt; change (inject_Z 1) with 1; lra).
      assert (-1 < Qfloor (- q))%Z by (rewrite Zlt_Qlt; change (inject_Z (-1)) with (-1); lra).
      lia.
  Qed.

  (** [fmod(a, d)] of [a] in [(-d, 0]] is [a] itself: the sign of a
      negative dividend is kept. *)
Lemma xmod_neg_small a d : 0 < d -> - d < a -> a <= 0 -> xmod (XFin a) (XFin d) = fin a.
  Proof.
    intros Hd Ha1 Ha2. unfold xmod. rewrite qzero_b_pos by done.
    rewrite qtrunc_small.
    - apply fin_Qeq. ring.
    - apply Qlt_shift_div_l; lra.
    - apply Qlt_shift_div_r; lra.
  Qed.

  (** A value [<= -1] has no conversion to [unsigned int]. *)
Lemma xto_u32_neg q : q <= -1 -> xto_u32 (XFin q) = None.
  Proof.
    intros Hq. unfold xto_u32, qtrunc.
    rewrite (proj2 (Qle_bool_false_iff _ _)) by lra.
    pose proof (Qfloor_le (- q)). pose proof (Qlt_floor (- q)).
    rewrite inject_Z_plus in * . change (inject_Z 1) with 1 in * .
    assert (0 < Qfloor (- q))%Z by (rewrite Zlt_Qlt; change (inject_Z 0) with 0; lra).
    destruct (Z.leb_spec 0 (- Qfloor (- q))); [lia|done].
  Qed.
  (** Truncation of an integer value is that integer. *)
Lemma qtrunc_int q k : q == inject_Z k -> qtrunc q = k.
  Proof.
    intros Hq. unfold qtrunc. rewrite (Qfloor_comp _ _ Hq).
    destruct (Qle_bool 0 q) eqn:E; [apply Qfloor_Z|].
    assert (E' : - q == inject_Z (- k)) by (rewrite inject_Z_opp, Hq; ring).
    rewrite (Qfloor_comp _ _ E'), Qfloor_Z. lia.
  Qed.

  (** [fmod] of a whole multiple of [d] is 0. *)
Lemma xmod_multiple a d k : 0 < d -> a == inject_Z k * d -> xmod (XFin a) (XFin d) = XFin 0.
  Proof.
    intros Hd Ha. unfold xmod. rewrite qzero_b_pos by done.
    rewrite (qtrunc_int _ k) by (rewrite Ha; field; lra).
    apply (fin_Qeq _ 0). rewrite Ha. ring.
  Qed.

  (** An integer in [[0, 2^32)] converts to itself. *)
Lemma xto_u32_int (n : Z) : (0 <= n < 2 ^ 32)%Z -> xto_u32 (fin (inject_Z n)) = Some (Z.to_N n).
  Proof.
    intros Hn. unfold xto_u32, fin. rewrite (qtrunc_int _ n) by apply Qred_correct.
    destruct (Z.leb_spec 0 n), (Z.ltb_spec n (2 ^ 32)); [done|lia..].
  Qed.
End QBounds.


(** ** Interpolation between equal rotations

    For a rotation of norm 1, [cosom] is 1: assimp's interpolation takes
    the linear branch, whatever [acos] and [sin] are, and returns the
    rotation itself. *)

Lemma fin_one : @f_of_Z exact_float_ops 1 = fin 1.
Proof. reflexivity. Qed.

Lemma Interpolate_same_rotation `{!FloatTrans} (w x y z f : Q) :
  (w * w + x * x + y * y + z * z == 1)%Q ->
  let q := Quat (fin w) (fin x) (fin y) (fin z) in
  aiQuaternion_Interpolate q q (fin f) = q.
Proof.
  intros Hn q. unfold aiQuaternion_Interpolate, q. cbn [qw qx qy qz].
  autorewrite with fin_arith.
  rewrite (fin_Qeq _ 1) by lra.
  assert (E1 : @flt exact_float_ops (fin 1) (#0) = false) by reflexivity.
  assert (E2 : @flt exact_float_ops interp_eps (#1 -. fin 1) = false) by reflexivity.
  rewrite E1, E2.
  cbn [qw qx qy qz]. rewrite fin_one. autorewrite with fin_arith.
  f_equal; apply fin_Qeq; ring.
Qed.
