(* ===== verification/DualQuat.v ===== *)
(** * DualQuat.v: the conversion [UQTtoUDQ] to a unit dual quaternion

    [UQTtoUDQ(vec4* dual, quat q, vec4& tran)] (cAnimationController.cpp)
    writes the unit dual quaternion of the rigid motion "rotate by [q],
    then translate by [tran]" into the array [dual]: the real part [q]
    into [dual[0]] and the dual part [1/2 (0, tran) q] into [dual[1]].
    Its one use, in [SceneAnimator::CalcBoneMatrices], is commented out.

    The engine's [vec4] (MyMath.h, not part of the repository) is a record
    of four floats [x, y, z, w] indexed by [operator[]] in that order.
    [dual] is a pointer and [tran] a reference into the same memory, a map
    from addresses to [vec4] objects; the eight assignments are performed
    in the order of the code, each reading [tran] as it is at that point,
    so that an argument [tran] that aliases [dual[0]] or [dual[1]] is
    followed.  The reference semantics (Hamilton's product on rational
    quaternions) is in Section [Reference]. *)

From stdpp Require Import base list option gmap.
From Stdlib Require Import ZArith QArith Lqa.
From S2P Require Import Prelude Float ExactFloat.
Close Scope Q_scope.

Section Code.
  Context `{FloatOps}.

  (** MyMath's [vec4]. *)
Record vec4 := Vec4 { v4x : f32; v4y : f32; v4z : f32; v4w : f32 }.

  (** [vec4::operator[]]: the components in the order [x, y, z, w];
      another index is out of the object ([None]). *)
Definition vec4_index (v : vec4) (i : nat) : option f32 :=
    match i with
    | 0 => Some (v4x v)
    | 1 => Some (v4y v)
    | 2 => Some (v4z v)
    | 3 => Some (v4w v)
    | _ => None
    end.

  (** Assignments to one member. *)
Definition set_x (v : vec4) (e : f32) : vec4 := Vec4 e (v4y v) (v4z v) (v4w v).
Definition set_y (v : vec4) (e : f32) : vec4 := Vec4 (v4x v) e (v4z v) (v4w v).
Definition set_z (v : vec4) (e : f32) : vec4 := Vec4 (v4x v) (v4y v) e (v4w v).
Definition set_w (v : vec4) (e : f32) : vec4 := Vec4 (v4x v) (v4y v) (v4z v) e.

  (** The [vec4] objects of memory by address, [gmap nat vec4]; [dual[i]]
      is the object at [dual + i]. *)
Local Abbreviation vmem := (gmap nat vec4).

  (** [a[i]] for the object at address [a]. *)
Definition read_elem (m : vmem) (a i : nat) : option f32 :=
    v ← m !! a; vec4_index v i.

  (** [a.f = e]: the object must exist. *)
Definition write_field (set : vec4 -> f32 -> vec4) (m : vmem) (a : nat) (e : f32)
    : option vmem :=
    v ← m !! a; Some (<[a := set v e]> m).

  (** The literal [0.5f], exact in binary. *)
Definition half : f32 := #1 /. #2.

  (** The right-hand sides of the four assignments to [dual[1]], as
      functions of [tran[0]], [tran[1]], [tran[2]]. *)
Definition dual_x (q : quat) (t0 t1 t2 : f32) : f32 :=
    half *. (t0 *. qw q +. t1 *. qz q -. t2 *. qy q).
Definition dual_y (q : quat) (t0 t1 t2 : f32) : f32 :=
    half *. ((-. t0) *. qz q +. t1 *. qw q +. t2 *. qx q).
Definition dual_z (q : quat) (t0 t1 t2 : f32) : f32 :=
    half *. (t0 *. qy q -. t1 *. qx q +. t2 *. qw q).
Definition dual_w (q : quat) (t0 t1 t2 : f32) : f32 :=
    (-. half) *. (t0 *. qx q +. t1 *. qy q +. t2 *. qz q).

  (** One assignment [dual[1].f = rhs(tran[0], tran[1], tran[2])]: the
      right-hand side reads [tran] before the member is written. *)
Definition assign_from_tran (set : vec4 -> f32 -> vec4) (rhs : f32 -> f32 -> f32 -> f32)
    (m : vmem) (a tran : nat) : option vmem :=
    t0 ← read_elem m tran 0;
    t1 ← read_elem m tran 1;
    t2 ← read_elem m tran 2;
    write_field set m a (rhs t0 t1 t2).

  (** [UQTtoUDQ(dual, q, tran)], statement by statement. *)
Definition UQTtoUDQ (m : vmem) (dual : nat) (q : quat) (tran : nat) : option vmem :=
    m ← write_field set_x m dual (qx q);
    m ← write_field set_y m dual (qy q);
    m ← write_field set_z m dual (qz q);
    m ← write_field set_w m dual (qw q);
    m ← assign_from_tran set_x (dual_x q) m (S dual) tran;
    m ← assign_from_tran set_y (dual_y q) m (S dual) tran;
    m ← assign_from_tran set_z (dual_z q) m (S dual) tran;
    assign_from_tran set_w (dual_w q) m (S dual) tran.

  (** The real part written to [dual[0]]: [q] as [(x, y, z, w)]. *)
Definition real_part (q : quat) : vec4 := Vec4 (qx q) (qy q) (qz q) (qw q).

  (** The dual part written to [dual[1]] for a translation [t] read once. *)
Definition dual_part (q : quat) (t0 t1 t2 : f32) : vec4 :=
    Vec4 (dual_x q t0 t1 t2) (dual_y q t0 t1 t2) (dual_z q t0 t1 t2) (dual_w q t0 t1 t2).
End Code.

Arguments vec4 {_}.
Abbreviation vmem := (gmap nat vec4).

(** ** Reference semantics

    Quaternions over the rationals, [w + x i + y j + z k], with Hamilton's
    product.  The unit dual quaternion of "rotate by [r], then translate by
    [t]" is [r + eps (1/2) (0, t) r]; its translation is recovered as the
    vector part of [2 d r*]. *)

Section Reference.
  Local Open Scope Q_scope.

Record qq := QQ { qq_w : Q; qq_x : Q; qq_y : Q; qq_z : Q }.

Definition hamilton (a b : qq) : qq :=
    QQ (qq_w a * qq_w b - qq_x a * qq_x b - qq_y a * qq_y b - qq_z a * qq_z b)
       (qq_w a * qq_x b + qq_x a * qq_w b + qq_y a * qq_z b - qq_z a * qq_y b)
       (qq_w a * qq_y b - qq_x a * qq_z b + qq_y a * qq_w b + qq_z a * qq_x b)
       (qq_w a * qq_z b + qq_x a * qq_y b - qq_y a * qq_x b + qq_z a * qq_w b).

Definition qq_conj (a : qq) : qq := QQ (qq_w a) (- qq_x a) (- qq_y a) (- qq_z a).
Definition qq_scale (k : Q) (a : qq) : qq := QQ (k * qq_w a) (k * qq_x a) (k * qq_y a) (k * qq_z a).
Definition qq_dot (a b : qq) : Q :=
    qq_w a * qq_w b + qq_x a * qq_x b + qq_y a * qq_y b + qq_z a * qq_z b.
Definition qq_norm2 (a : qq) : Q := qq_dot a a.

  (** The pure quaternion [(0, t)]. *)
Definition pure (t0 t1 t2 : Q) : qq := QQ 0 t0 t1 t2.

  (** The unit dual quaternion of a rotation [r] and a translation [t]:
      real part and dual part. *)
Definition udq_ref (r : qq) (t0 t1 t2 : Q) : qq * qq :=
    (r, qq_scale (Qmake 1 2) (hamilton (pure t0 t1 t2) r)).
End Reference.

(** ** Exact floats as rationals *)

(** A finite value as a rational. *)
Definition xq_val (x : xq) : option Q :=
  match x with XFin q => Some q | _ => None end.

(** A quaternion of exact floats: [aiQuaternion]'s [(w, x, y, z)] order. *)
Definition quat_of_qq (a : qq) : @quat exact_float_ops :=
  Quat (fin (qq_w a)) (fin (qq_x a)) (fin (qq_y a)) (fin (qq_z a)).

(** The [vec4] that holds a quaternion: [(x, y, z, w)]. *)
Definition vec4_of_qq (a : qq) : @vec4 exact_float_ops :=
  Vec4 (fin (qq_x a)) (fin (qq_y a)) (fin (qq_z a)) (fin (qq_w a)).

Definition qq_of_vec4 (v : @vec4 exact_float_ops) : option qq :=
  x ← xq_val (v4x v); y ← xq_val (v4y v); z ← xq_val (v4z v); w ← xq_val (v4w v);
  Some (QQ w x y z).

(** The array [dual[0..1]] read back. *)
Definition read_dq `{FloatOps} (m : vmem) (dual : nat) : option (vec4 * vec4) :=
  r ← m !! dual; d ← m !! S dual; Some (r, d).

(** [dual[0..1]] holds a unit dual quaternion: finite values, a real
    part of norm 1 and a dual part orthogonal to it. *)
Definition unit_dq (r d : @vec4 exact_float_ops) : bool :=
  match qq_of_vec4 r, qq_of_vec4 d with
  | Some a, Some b => Qeq_bool (qq_norm2 a) 1 && Qeq_bool (qq_dot a b) 0
  | _, _ => false
  end.

(** The translation of a dual quaternion in float arithmetic, as a
    skinning shader computes it: the vector part of [2 d r*]. *)
Definition dq_translation `{FloatOps} (r d : vec4) : vec3 :=
  let two := #2 in
  Vec3 (two *. (v4w r *. v4x d -. v4w d *. v4x r -. (v4y d *. v4z r -. v4z d *. v4y r)))
       (two *. (v4w r *. v4y d -. v4w d *. v4y r -. (v4z d *. v4x r -. v4x d *. v4z r)))
       (two *. (v4w r *. v4z d -. v4w d *. v4z r -. (v4x d *. v4y r -. v4y d *. v4x r))).

(** ** Scenarios

    Memory with [vec4 dual[2]] at addresses 0 and 1 and a translation row
    [(5, 6, 7, 1)] at address 2, and the rotation
    [r = 1/2 + 1/2 i + 1/2 j + 1/2 k] (a third of a turn about
    [(1, 1, 1)]), of norm 1. *)

Module DualScenarios.
  Local Open Scope Q_scope.

Definition zero4 : @vec4 exact_float_ops := Vec4 (fin 0) (fin 0) (fin 0) (fin 0).

Definition row3 : @vec4 exact_float_ops := Vec4 (fin 5) (fin 6) (fin 7) (fin 1).

Definition mem0 : gmap nat (@vec4 exact_float_ops) :=
  <[0%nat := zero4]> (<[1%nat := zero4]> (<[2%nat := row3]> ∅)).

  (** [dual[0..1]] alone: [tran] is [dual[0]] itself. *)
Definition mem_alias : gmap nat (@vec4 exact_float_ops) :=
  <[0%nat := row3]> (<[1%nat := zero4]> ∅).

Definition third_turn : qq := QQ (Qmake 1 2) (Qmake 1 2) (Qmake 1 2) (Qmake 1 2).
End DualScenarios.

Section CodeFacts.
  Context `{FloatOps}.
  Implicit Types (m : vmem) (q : quat).

Lemma write_field_lookup set m a e v :
  m !! a = Some v -> write_field set m a e = Some (<[a := set v e]> m).
Proof. unfold write_field. by intros ->. Qed.

Lemma write_field_frame set m m' a e b :
  write_field set m a e = Some m' -> b ≠ a -> m' !! b = m !! b.
Proof. unfold write_field. intros (v & _ & [= <-])%bind_Some ?. by rewrite lookup_insert_ne. Qed.

Lemma write_field_dom set m m' a e b :
  write_field set m a e = Some m' -> is_Some (m' !! b) <-> is_Some (m !! b).
Proof.
  unfold write_field. intros (v & Hv & [= <-])%bind_Some.
  destruct (decide (b = a)) as [->|]; [rewrite lookup_insert_eq, Hv; split; eauto|by rewrite lookup_insert_ne].
Qed.

Lemma assign_from_tran_frame set rhs m m' a tran b :
  assign_from_tran set rhs m a tran = Some m' -> b ≠ a -> m' !! b = m !! b.
Proof.
  unfold assign_from_tran. intros (? & _ & (? & _ & (? & _ & Hw)%bind_Some)%bind_Some)%bind_Some.
  by eapply write_field_frame.
Qed.

Lemma assign_from_tran_lookup set rhs m a tran va t :
  m !! a = Some va -> m !! tran = Some t ->
  assign_from_tran set rhs m a tran = Some (<[a := set va (rhs (v4x t) (v4y t) (v4z t))]> m).
Proof. unfold assign_from_tran, read_elem. intros ? ->. cbn. by apply write_field_lookup. Qed.

End CodeFacts.

(** Run the statements of [UQTtoUDQ] whose objects exist: each lookup is
    discharged in the map built so far. *)
Lemma assign_from_tran_obj `{FloatOps} set rhs (m : vmem) a tran :
  m !! a = None -> assign_from_tran set rhs m a tran = None.
Proof.
  unfold assign_from_tran, write_field. intros Ha.
  destruct (read_elem m tran 0), (read_elem m tran 1), (read_elem m tran 2); cbn [mbind option_bind]; try reflexivity.
  by rewrite Ha.
Qed.

Lemma assign_from_tran_tran `{FloatOps} set rhs (m : vmem) a tran :
  m !! tran = None -> assign_from_tran set rhs m a tran = None.
Proof. unfold assign_from_tran, read_elem. by intros ->. Qed.

Ltac udq_run :=
  repeat (first [ erewrite write_field_lookup by (simplify_map_eq; reflexivity)
                | erewrite assign_from_tran_lookup by (simplify_map_eq; reflexivity) ];
          cbn [mbind option_bind]);
  rewrite ?insert_insert_eq.


Section Behaviour.
  Context `{FloatOps}.
  Implicit Types (m : vmem) (q : quat).

Theorem UQTtoUDQ_spec m d q tran v0 v1 t :
  tran ≠ d -> tran ≠ S d ->
  m !! d = Some v0 -> m !! S d = Some v1 -> m !! tran = Some t ->
  UQTtoUDQ m d q tran =
    Some (<[S d := dual_part q (v4x t) (v4y t) (v4z t)]> (<[d := real_part q]> m)).
Proof.
  intros ?????. assert (S d ≠ d) by lia. unfold UQTtoUDQ. udq_run. reflexivity.
Qed.

Theorem UQTtoUDQ_alias_real m d q v0 v1 :
  m !! d = Some v0 -> m !! S d = Some v1 ->
  UQTtoUDQ m d q d =
    Some (<[S d := dual_part q (qx q) (qy q) (qz q)]> (<[d := real_part q]> m)).
Proof. intros ??. assert (S d ≠ d) by lia. unfold UQTtoUDQ. udq_run. reflexivity. Qed.

Lemma UQTtoUDQ_alias_dual m d q v0 v1 :
  m !! d = Some v0 -> m !! S d = Some v1 ->
  let x' := dual_x q (v4x v1) (v4y v1) (v4z v1) in
  let y' := dual_y q x' (v4y v1) (v4z v1) in
  let z' := dual_z q x' y' (v4z v1) in
  UQTtoUDQ m d q (S d) =
    Some (<[S d := Vec4 x' y' z' (dual_w q x' y' z')]> (<[d := real_part q]> m)).
Proof. intros ??. assert (S d ≠ d) by lia. unfold UQTtoUDQ. udq_run. reflexivity. Qed.

Lemma UQTtoUDQ_defined m d q tran :
  is_Some (m !! d) -> is_Some (m !! S d) -> is_Some (m !! tran) ->
  is_Some (UQTtoUDQ m d q tran).
Proof.
  intros [v0 ?] [v1 ?] [t ?].
  destruct (decide (tran = d)) as [->|]; [erewrite UQTtoUDQ_alias_real by eauto; eauto|].
  destruct (decide (tran = S d)) as [->|]; [erewrite UQTtoUDQ_alias_dual by eauto; eauto|].
  erewrite UQTtoUDQ_spec by eauto; eauto.
Qed.

Lemma UQTtoUDQ_no_object m d q tran :
  m !! d = None \/ m !! S d = None \/ m !! tran = None -> UQTtoUDQ m d q tran = None.
Proof.
  assert (S d ≠ d) by lia. unfold UQTtoUDQ.
  destruct (m !! d) as [v0|] eqn:Hd; [|intros _; unfold write_field; by rewrite Hd].
  intros Hnone. udq_run.
  destruct (decide (tran = d)) as [->|]; [destruct Hnone as [|[|]]; simplify_map_eq|].
  - by rewrite assign_from_tran_obj by by simplify_map_eq.
  - destruct Hnone as [|[|]]; [simplify_map_eq| |].
    + by rewrite assign_from_tran_obj by by simplify_map_eq.
    + destruct (decide (tran = S d)) as [->|].
      * by rewrite assign_from_tran_obj by by simplify_map_eq.
      * by rewrite assign_from_tran_tran by by simplify_map_eq.
Qed.
(** [UQTtoUDQ] is undefined exactly when [dual[0]], [dual[1]] or
    [tran] is not an object of memory; it never faults otherwise, whatever
    the aliasing of [tran]. *)
Theorem UQTtoUDQ_undefined m d q tran :
  UQTtoUDQ m d q tran = None <-> m !! d = None \/ m !! S d = None \/ m !! tran = None.
Proof.
  split; [|apply UQTtoUDQ_no_object]. intros Hn.
  destruct (m !! d) eqn:?, (m !! S d) eqn:?, (m !! tran) eqn:?; auto.
  destruct (UQTtoUDQ_defined m d q tran) as [? E]; eauto. congruence.
Qed.

(** [UQTtoUDQ] writes no object but [dual[0]] and [dual[1]]. *)
Theorem UQTtoUDQ_frame m d q tran m' b :
  UQTtoUDQ m d q tran = Some m' -> b ≠ d -> b ≠ S d -> m' !! b = m !! b.
Proof.
  intros Hm ??.
  destruct (m !! d) eqn:?, (m !! S d) eqn:?, (m !! tran) eqn:?;
    try (rewrite UQTtoUDQ_no_object in Hm by auto; discriminate).
  destruct (decide (tran = d)) as [->|]; [erewrite UQTtoUDQ_alias_real in Hm by eauto|].
  2: destruct (decide (tran = S d)) as [->|]; [erewrite UQTtoUDQ_alias_dual in Hm by eauto
                                              |erewrite UQTtoUDQ_spec in Hm by eauto].
  all: injection Hm as <-; by simplify_map_eq.
Qed.
End Behaviour.

(** ** The conversion on exact values *)

Section Exact.
  Local Open Scope Q_scope.
  Implicit Types (m : gmap nat (@vec4 exact_float_ops)) (r : qq).

Lemma half_exact : @half exact_float_ops = fin (Qmake 1 2).
Proof. reflexivity. Qed.

Lemma two_exact : @f_of_Z exact_float_ops 2 = fin 2.
Proof. reflexivity. Qed.

Lemma dual_part_exact r t0 t1 t2 :
  dual_part (quat_of_qq r) (fin t0) (fin t1) (fin t2) = vec4_of_qq (udq_ref r t0 t1 t2).2.
Proof.
  destruct r. unfold dual_part, dual_x, dual_y, dual_z, dual_w. rewrite half_exact.
  cbn [quat_of_qq qx qy qz qw qq_w qq_x qq_y qq_z]. autorewrite with fin_arith.
  unfold vec4_of_qq, udq_ref. cbn. f_equal; apply fin_Qeq; ring.
Qed.

Lemma qq_of_vec4_of_qq r :
  qq_of_vec4 (vec4_of_qq r) = Some (QQ (Qred (qq_w r)) (Qred (qq_x r)) (Qred (qq_y r)) (Qred (qq_z r))).
Proof. reflexivity. Qed.

(** C14. Refinement: when [tran] is a third object holding a finite
    translation [t] and [q] is finite, [UQTtoUDQ] stores in [dual[0]] the
    rotation [r] and in [dual[1]] the dual part [1/2 (0, t) r] of the unit
    dual quaternion of the reference, and changes nothing else. *)
Theorem UQTtoUDQ_refines m d tran r t0 t1 t2 tw v0 v1 :
  tran ≠ d -> tran ≠ S d -> m !! d = Some v0 -> m !! S d = Some v1 ->
  m !! tran = Some (Vec4 (fin t0) (fin t1) (fin t2) tw) ->
  UQTtoUDQ m d (quat_of_qq r) tran =
    Some (<[S d := vec4_of_qq (udq_ref r t0 t1 t2).2]> (<[d := vec4_of_qq (udq_ref r t0 t1 t2).1]> m)).
Proof.
  intros. erewrite UQTtoUDQ_spec by eauto. cbn [v4x v4y v4z].
  rewrite dual_part_exact. by destruct r.
Qed.

Lemma UQTtoUDQ_read_dq m d tran r t0 t1 t2 tw v0 v1 :
  tran ≠ d -> tran ≠ S d -> m !! d = Some v0 -> m !! S d = Some v1 ->
  m !! tran = Some (Vec4 (fin t0) (fin t1) (fin t2) tw) ->
  (UQTtoUDQ m d (quat_of_qq r) tran ≫= λ m', read_dq m' d) =
    Some (vec4_of_qq r, vec4_of_qq (udq_ref r t0 t1 t2).2).
Proof.
  intros. assert (S d ≠ d) by lia.
  destruct r. erewrite UQTtoUDQ_spec by eauto. cbn [v4x v4y v4z mbind option_bind].
  rewrite dual_part_exact. unfold read_dq. by simplify_map_eq.
Qed.

  (** With [tran] at [dual[0]], [UQTtoUDQ] reads the rotation's vector
      part [(x, y, z)] as the translation. *)
Lemma UQTtoUDQ_read_dq_alias m d r v0 v1 :
  m !! d = Some v0 -> m !! S d = Some v1 ->
  (UQTtoUDQ m d (quat_of_qq r) d ≫= λ m', read_dq m' d) =
    Some (vec4_of_qq r, vec4_of_qq (udq_ref r (qq_x r) (qq_y r) (qq_z r)).2).
Proof.
  intros. assert (S d ≠ d) by lia.
  erewrite UQTtoUDQ_alias_real by eauto. cbn [mbind option_bind quat_of_qq qx qy qz].
  rewrite dual_part_exact. unfold read_dq. destruct r. by simplify_map_eq.
Qed.
End Exact.

(** [t |r|^2 = t] under [|r|^2 = 1]: close a polynomial identity that holds
    up to the factor [|r|^2]. *)
Ltac by_unit_norm Hn :=
  match type of Hn with (?n == 1)%Q =>
  match goal with |- (_ == ?t)%Q =>
    transitivity (t * n)%Q; [ring | rewrite Hn; ring] end end.

Section ExactClaims.
  Local Open Scope Q_scope.
  Implicit Types (m : gmap nat (@vec4 exact_float_ops)) (r : qq).

  (** The vector part of [2 d r*] for the reference dual quaternion of a
      unit rotation is its translation. *)
Lemma dq_translation_exact r t0 t1 t2 :
  qq_norm2 r == 1 ->
  dq_translation (vec4_of_qq r) (vec4_of_qq (udq_ref r t0 t1 t2).2) = Vec3 (fin t0) (fin t1) (fin t2).
Proof.
  intros Hn. destruct r as [w x y z]. unfold qq_norm2, qq_dot in Hn; cbn in Hn.
  unfold dq_translation, vec4_of_qq, udq_ref. rewrite two_exact.
  cbn [v4x v4y v4z v4w qq_w qq_x qq_y qq_z fst snd qq_scale hamilton pure].
  autorewrite with fin_arith. f_equal; apply fin_Qeq; by_unit_norm Hn.
Qed.

(** C15. Round trip: the translation recovered from the dual quaternion
    that [UQTtoUDQ] writes, as the vector part of [2 d r*], is the
    translation [tran] it was given, for every unit rotation [r]. *)
Theorem UQTtoUDQ_translation_roundtrip m d tran r t0 t1 t2 tw v0 v1 :
  tran ≠ d -> tran ≠ S d -> m !! d = Some v0 -> m !! S d = Some v1 ->
  m !! tran = Some (Vec4 (fin t0) (fin t1) (fin t2) tw) -> qq_norm2 r == 1 ->
  uncurry dq_translation <$> (UQTtoUDQ m d (quat_of_qq r) tran ≫= λ m', read_dq m' d) =
    Some (Vec3 (fin t0) (fin t1) (fin t2)).
Proof.
  intros ????? Hn. erewrite UQTtoUDQ_read_dq by eauto. cbn [fmap option_fmap option_map uncurry].
  by rewrite dq_translation_exact.
Qed.

(** C30. With [tran] aliasing [dual[0]], the translation is overwritten by
    the rotation before it is read: for every unit rotation [r], whatever
    [dual[0]] held, the translation a reader recovers from what
    [UQTtoUDQ] writes is the vector part [(x, y, z)] of [r]. *)
Theorem UQTtoUDQ_alias_loses_translation m d r v0 v1 :
  m !! d = Some v0 -> m !! S d = Some v1 -> qq_norm2 r == 1 ->
  uncurry dq_translation <$> (UQTtoUDQ m d (quat_of_qq r) d ≫= λ m', read_dq m' d) =
    Some (Vec3 (fin (qq_x r)) (fin (qq_y r)) (fin (qq_z r))).
Proof.
  intros ?? Hn. erewrite UQTtoUDQ_read_dq_alias by eauto. cbn [fmap option_fmap option_map uncurry].
  by rewrite dq_translation_exact.
Qed.

(** C21. Type: what [UQTtoUDQ] writes for a unit rotation is a unit dual
    quaternion: finite, a real part of norm 1 and a dual part orthogonal
    to it. *)
Theorem UQTtoUDQ_unit m d tran r t0 t1 t2 tw v0 v1 :
  tran ≠ d -> tran ≠ S d -> m !! d = Some v0 -> m !! S d = Some v1 ->
  m !! tran = Some (Vec4 (fin t0) (fin t1) (fin t2) tw) -> qq_norm2 r == 1 ->
  uncurry unit_dq <$> (UQTtoUDQ m d (quat_of_qq r) tran ≫= λ m', read_dq m' d) = Some true.
Proof.
  intros ????? Hn. erewrite UQTtoUDQ_read_dq by eauto. cbn [fmap option_fmap option_map uncurry].
  unfold unit_dq. rewrite !qq_of_vec4_of_qq. f_equal. apply andb_true_iff.
  destruct r as [w x y z]. unfold qq_norm2, qq_dot in *;
    cbn [qq_w qq_x qq_y qq_z fst snd udq_ref qq_scale hamilton pure] in * .
  split; apply Qeq_bool_iff; rewrite ?Qred_correct; [done|ring].
Qed.
End ExactClaims.

Module DualClaims.
  Import DualScenarios.
  Local Open Scope Q_scope.

(** For the third turn, the translation [(5, 6, 7)] held in [dual[0]]
    comes back as [(1/2, 1/2, 1/2)]. *)
Lemma UQTtoUDQ_alias_third_turn :
  uncurry dq_translation <$> (UQTtoUDQ mem_alias 0 (quat_of_qq third_turn) 0 ≫= λ m', read_dq m' 0) =
    Some (Vec3 (fin (Qmake 1 2)) (fin (Qmake 1 2)) (fin (Qmake 1 2))).
Proof. apply (UQTtoUDQ_alias_loses_translation mem_alias 0 third_turn row3 zero4); reflexivity. Defined.

Lemma UQTtoUDQ_refines_third_turn :
  UQTtoUDQ mem0 0 (quat_of_qq third_turn) 2 =
    Some (<[1%nat := vec4_of_qq (udq_ref third_turn 5 6 7).2]> (<[0%nat := vec4_of_qq (udq_ref third_turn 5 6 7).1]> mem0)).
Proof. apply (UQTtoUDQ_refines _ _ _ _ _ _ _ (fin 1) zero4 zero4); done. Defined.

Lemma UQTtoUDQ_translation_roundtrip_third_turn :
  uncurry dq_translation <$> (UQTtoUDQ mem0 0 (quat_of_qq third_turn) 2 ≫= λ m', read_dq m' 0) =
    Some (Vec3 (fin 5) (fin 6) (fin 7)).
Proof. apply (UQTtoUDQ_translation_roundtrip _ _ _ _ _ _ _ (fin 1) zero4 zero4); done. Defined.

Lemma UQTtoUDQ_unit_third_turn :
  uncurry unit_dq <$> (UQTtoUDQ mem0 0 (quat_of_qq third_turn) 2 ≫= λ m', read_dq m' 0) = Some true.
Proof. apply (UQTtoUDQ_unit _ _ _ _ 5 6 7 (fin 1) zero4 zero4); done. Defined.

End DualClaims.
