(* ===== verification/Codec.v ===== *)
(** * Codec.v: the bytes of a float in memory

    [Save] writes floats with [file.write(reinterpret_cast<char*>(&x),
    sizeof(x))]: the bytes of their object representation, and [Load]
    reads them back the same way.  The class [FloatCodec] gives these
    bytes for the two float types of [FloatOps]; a float whose bytes read
    back as itself is [f32_exact] (for IEEE arithmetic, every float).

    For the exact values of [ExactFloat.v], the instance is IEEE 754's
    binary32 and binary64 interchange formats, little-endian (the layout of
    the x86 targets of this code): sign, biased exponent, fraction;
    subnormals, infinities and a quiet NaN.  A finite value that is not
    representable is truncated to the fraction bits; the values of the
    scenarios read back exactly, which [Persist.v] checks by computation. *)

From S2P Require Import Prelude Float ExactFloat.
From stdpp Require Import base list.
From coqutil Require Import Byte Word.LittleEndianList.
From Stdlib Require Import ZArith QArith Lia.
Close Scope Q_scope.

Class FloatCodec `{FloatOps} := {
  f32_bytes : f32 -> list byte;
  f32_of_bytes : list byte -> f32;
  f64_bytes : f64 -> list byte;
  f64_of_bytes : list byte -> f64;
  length_f32_bytes : forall x, length (f32_bytes x) = 4;
  length_f64_bytes : forall x, length (f64_bytes x) = 8 }.

Section Exactness.
  Context `{FloatCodec}.

  (** A value that reads back as itself. *)
Definition f32_exact (x : f32) : Prop := f32_of_bytes (f32_bytes x) = x.
Definition f64_exact (x : f64) : Prop := f64_of_bytes (f64_bytes x) = x.
End Exactness.

(** ** IEEE 754 binary interchange formats on exact values

    [p] fraction bits and [w] exponent bits: binary32 is [p = 23, w = 8],
    binary64 [p = 52, w = 11]. *)

Section IEEE.
  Local Open Scope Z_scope.
  Variables (p w : Z).

Definition ieee_bias : Z := 2 ^ (w - 1) - 1.

  (** [n * 2^k] as a rational. *)
Definition q_pow2 (n k : Z) : Q :=
    if 0 <=? k then inject_Z (n * 2 ^ k) else Qmake n (Z.to_pos (2 ^ (- k))).

  (** The value of a bit pattern. *)
Definition ieee_decode (b : Z) : xq :=
    let m := Z.land b (2 ^ p - 1) in
    let e := Z.land (Z.shiftr b p) (2 ^ w - 1) in
    let s := Z.testbit b (p + w) in
    if e =? 2 ^ w - 1 then (if m =? 0 then XInf s else XNaN)
    else
      let mant := if e =? 0 then m else m + 2 ^ p in
      let ex := (if e =? 0 then 1 else e) - ieee_bias - p in
      let mag := q_pow2 mant ex in
      fin (if s then Qopp mag else mag).

  (** [d * 2^k <= n] for [d > 0]. *)
Definition pow2_le (d k n : Z) : bool :=
    if 0 <=? k then d * 2 ^ k <=? n else d <=? n * 2 ^ (- k).

  (** [floor (n/d * 2^k)]. *)
Definition floor_pow2 (n d k : Z) : Z :=
    if 0 <=? k then (n * 2 ^ k) / d else n / (d * 2 ^ (- k)).

  (** The bit pattern of a value: the exponent [E] with
      [2^E <= |q| < 2^(E+1)], biased; below the normal range the value is
      subnormal, above it infinite. *)
Definition ieee_encode (x : xq) : Z :=
    let sign (s : bool) := if s then 2 ^ (p + w) else 0 in
    match x with
    | XNaN => (2 ^ w - 1) * 2 ^ p + 2 ^ (p - 1)
    | XInf s => sign s + (2 ^ w - 1) * 2 ^ p
    | XFin q =>
        let n := Z.abs (Qnum q) in
        let d := Zpos (Qden q) in
        let s := Qnum q <? 0 in
        if n =? 0 then 0 else
        let E0 := Z.log2 n - Z.log2 d in
        let E := if pow2_le d E0 n then E0 else E0 - 1 in
        let be := E + ieee_bias in
        if 2 ^ w - 1 <=? be then sign s + (2 ^ w - 1) * 2 ^ p
        else if be <=? 0 then sign s + floor_pow2 n d (ieee_bias - 1 + p)
        else sign s + be * 2 ^ p + (floor_pow2 n d (p - E) - 2 ^ p)
    end.
End IEEE.

#[export] Instance exact_float_codec : FloatCodec := {|
  f32_bytes x := le_split 4 (ieee_encode 23 8 x);
  f32_of_bytes bs := ieee_decode 23 8 (le_combine bs);
  f64_bytes x := le_split 8 (ieee_encode 52 11 x);
  f64_of_bytes bs := ieee_decode 52 11 (le_combine bs);
  length_f32_bytes x := length_le_split 4 _;
  length_f64_bytes x := length_le_split 8 _ |}.
