(* ===== verification/Channel.v ===== *)
(** * Channel.v: animation channels and the key search of [Evaluate]

    [cAnimationChannel] (cAnimationController.h) holds the three key tracks
    of one bone.  [cAnimEvaluator::Evaluate] (cAnimationController.cpp,
    lines 157-223) treats each track the same way: it chooses where to
    start searching (the cursor kept from the previous call when time has
    not gone backwards, else 0), advances the frame while the next key is
    not after the current time, and interpolates between the frame's key
    and the next one (wrapping to the first key at the end).  This file
    models what is common to the tracks: [seek_loop] is the search loop
    (with fuel; running out of it gives [None]) and [seek] runs it with
    [keys.size() + 1] units,
    [interp_vec] and [interp_quat] the interpolation of a position and a
    rotation track, [scale_value] the value of a scaling track.  The block
    that reads and writes the cursor is [eval_track] of [Evaluator.v].

    The theorems say what the search computes (the first frame at or after
    the start where the loop condition fails), that it exits by its own
    condition within [keys.size() - 1 - start] iterations
    ([seek_loop_exits]), and that starting from the cursor gives the same frame as
    starting from 0 whenever the cursor invariant holds: the seek
    optimisation never changes the pose. *)

From stdpp Require Import base list strings.
From Stdlib Require Import Lia QArith.
From S2P Require Import Prelude Float ExactFloat.
Close Scope Q_scope.

Section Channel.
  Context `{FloatOps}.

  (** [class cAnimationChannel] *)
Record cAnimationChannel := mkChannel {
    Name : string;
    mPositionKeys : list vkey;
    mRotationKeys : list qkey;
    mScalingKeys : list vkey }.

  (** ** The search loop

      [while (frame < keys.size() - 1) {
         if (time < keys[frame+1].mTime) break;
         frame++; }]
      with [keys.size() > 0] (the caller tests it).  The key type is a
      parameter, with its time projection, so that the same loop serves the
      three tracks.  The loop runs at most [keys.size() - 1] times; the
      model gives it one more unit of fuel than that, and a loop that runs
      out of fuel returns [None], so that a loop that never exits is seen
      (theorem [seek_loop_exits]: it never runs out). *)

  Section Seek.
    Context {K : Type} (ktime : K -> f64).

Fixpoint seek_loop (fuel : nat) (time : f32) (keys : list K) (frame : nat) : option nat :=
      match fuel with
      | O => None
      | S fuel' =>
          if frame <? length keys - 1 then
            match keys !! S frame with
            | Some k =>
                if d_of_f time <.. ktime k then Some frame
                else seek_loop fuel' time keys (S frame)
            | None => Some frame
            end
          else Some frame
      end.

Definition seek (time : f32) (keys : list K) (start : nat) : option nat :=
      seek_loop (S (length keys)) time keys start.

    (** The frame [seek] returns, for the statements of the specification
        ([seek] always returns: [seek_Some]). *)
Definition seek_frame (time : f32) (keys : list K) (start : nat) : nat :=
      default start (seek time keys start).

    (** The loop exits at [frame] when [frame] is past the second-to-last
        key or the next key is after [time]. *)
Definition seek_stops (time : f32) (keys : list K) (frame : nat) : Prop :=
      length keys - 1 <= frame \/
      exists k, keys !! S frame = Some k /\ (d_of_f time <.. ktime k) = true.

    (** The loop steps over [frame] when the next key is not after [time]. *)
Definition seek_passes (time : f32) (keys : list K) (frame : nat) : Prop :=
      exists k, keys !! S frame = Some k /\ (d_of_f time <.. ktime k) = false.

    (** The cursor invariant: every key the cursor has stepped over is not
        after [t].  It holds for the cursor 0 and for every cursor [seek]
        returns at time [t] (lemma [seek_cursor_ok]). *)
Definition cursor_ok (t : f32) (keys : list K) (c : nat) : Prop :=
      forall j, j < c -> seek_passes t keys j.

    (** The invariant as a test. *)
Definition cursor_okb (t : f32) (keys : list K) (c : nat) : bool :=
      forallb (fun j => match keys !! S j with
                        | Some k => negb (d_of_f t <.. ktime k)
                        | None => false
                        end) (seq 0 c).

    (** The specification of the search: [r] is the first frame at or
        after [start] where the loop stops. *)
Definition first_stop (t : f32) (keys : list K) (start r : nat) : Prop :=
      start <= r /\ seek_stops t keys r /\
      (forall j, start <= j < r -> seek_passes t keys j).
  End Seek.

  (** ** Interpolation within a track

      [nextFrame = (frame + 1) % keys.size()]; the span between the two
      keys, made positive by adding [Duration] when the next key is the
      first one of the track (the loop seam); the value is interpolated
      when the span is positive and is the key's value otherwise.  An
      out-of-range [frame] is undefined behaviour. *)

Definition span (Duration : f32) (t0 t1 : f64) : f64 :=
    let diff := dsub t1 t0 in
    if diff <.. d_of_Z 0 then dadd diff (d_of_f Duration) else diff.

Definition interp_factor (time : f32) (t0 diff : f64) : f32 :=
    f_of_d (ddiv (dsub (d_of_f time) t0) diff).

Definition interp_vec (Duration time : f32) (keys : list vkey) (frame : nat)
    : option vec3 :=
    key ← keys !! frame;
    next ← keys !! ((frame + 1) mod length keys);
    let diff := span Duration (vk_time key) (vk_time next) in
    if d_of_Z 0 <.. diff then
      let factor := interp_factor time (vk_time key) diff in
      Some (vadd (vk_value key) (vscale (vsub (vk_value next) (vk_value key)) factor))
    else Some (vk_value key).

Definition interp_quat `{!QuatInterp} (Duration time : f32) (keys : list qkey)
      (frame : nat) : option quat :=
    key ← keys !! frame;
    next ← keys !! ((frame + 1) mod length keys);
    let diff := span Duration (qk_time key) (qk_time next) in
    if d_of_Z 0 <.. diff then
      Some (quat_interpolate (qk_value key) (qk_value next)
              (interp_factor time (qk_time key) diff))
    else Some (qk_value key).

  (** The scaling block does not interpolate: its value is the key at the
      frame found ([presentScaling = keys[frame].mValue]). *)
Definition scale_value (keys : list vkey) (frame : nat) : option vec3 :=
    vk_value <$> keys !! frame.
End Channel.

Arguments cAnimationChannel {_}.

(** A concrete track for the witnesses: keys at ticks 0, 1, 2. *)
Definition three_keys : list vkey :=
  [VKey (#0) vzero; VKey (#1) vzero; VKey (#2) vzero].

(** A rotation track holding the third of a turn about [(1, 1, 1)],
    [1/2 + 1/2 i + 1/2 j + 1/2 k], at ticks 0 and 1. *)
Definition half_q : xq := xfrac 1 2.
Definition turn_keys : list qkey :=
  [QKey (#0) (Quat half_q half_q half_q half_q); QKey (#1) (Quat half_q half_q half_q half_q)].

(** ** The search: correctness, termination, cursor equivalence *)

Section SeekProofs.
  Context `{FloatOps} `{!FloatLaws} {K : Type} (ktime : K -> f64).

Lemma stops_passes_excl t (keys : list K) j :
    seek_stops ktime t keys j -> seek_passes ktime t keys j -> False.
  Proof.
    intros [Hn | (k & Hk & Hlt)] (k' & Hk' & Hge).
    - apply lookup_lt_Some in Hk'. lia.
    - congruence.
  Qed.

Lemma passes_lt t (keys : list K) j :
    seek_passes ktime t keys j -> S j < length keys.
  Proof. intros (k & Hk & _). eapply lookup_lt_Some; eauto. Qed.

  (** The search has at most one answer. *)
Lemma first_stop_unique t (keys : list K) s r1 r2 :
    first_stop ktime t keys s r1 -> first_stop ktime t keys s r2 -> r1 = r2.
  Proof.
    intros (H1 & S1 & P1) (H2 & S2 & P2).
    destruct (Nat.lt_total r1 r2) as [Hlt|[Heq|Hlt]]; [|done|].
    - exfalso. eapply stops_passes_excl; [exact S1 | apply P2; lia].
    - exfalso. eapply stops_passes_excl; [exact S2 | apply P1; lia].
  Qed.

  (** Every search has an answer, at most [keys.size() - 1 - s] frames
      after its start. *)
Lemma first_stop_exists t (keys : list K) s :
    exists r, first_stop ktime t keys s r /\ r - s <= length keys - 1 - s.
  Proof.
    remember (length keys - 1 - s) as n eqn:Hn. revert s Hn.
    induction n as [|n IH]; intros s Hn;
      destruct (Nat.ltb_spec s (length keys - 1)) as [Hlt|Hge];
      try (exists s; split; [split; [lia|]; split; [left; lia|intros; lia]|lia]).
    destruct (lookup_lt_is_Some_2 keys (S s)) as [k Hk]; [lia|].
    destruct (d_of_f t <.. ktime k) eqn:Ht.
    - exists s. split; [|lia]. split; [lia|]. split; [right; eauto|intros; lia].
    - destruct (IH (S s)) as (r & (Hle & Hstop & Hpass) & Hr); [lia|].
      exists r. split; [|lia]. split; [lia|]. split; [done|].
      intros j Hj. destruct (decide (j = s)) as [->|Hne]; [by exists k|]. apply Hpass. lia.
  Qed.

  (** The loop started at [s] with answer [r] runs [r - s] iterations and
      exits by its own condition: it returns [r] when the fuel exceeds
      them and runs out of fuel otherwise. *)
Lemma seek_loop_count t (keys : list K) s r :
    first_stop ktime t keys s r ->
    forall fuel, seek_loop ktime fuel t keys s = if r - s <? fuel then Some r else None.
  Proof.
    intros Hr fuel. revert s Hr. induction fuel as [|f IH]; intros s Hr; simpl.
    { destruct (Nat.ltb_spec (r - s) 0); [lia|done]. }
    assert (Hat : seek_stops ktime t keys s -> r = s).
    { intros Hs. eapply first_stop_unique; [exact Hr|]. split; [lia|]. split; [done|intros; lia]. }
    destruct (Nat.ltb_spec s (length keys - 1)) as [Hlt|Hge].
    - destruct (lookup_lt_is_Some_2 keys (S s)) as [k Hk]; [lia|]. rewrite Hk.
      destruct (d_of_f t <.. ktime k) eqn:Ht.
      + rewrite Hat by (right; eauto). by rewrite Nat.sub_diag.
      + destruct Hr as (Hle & Hstop & Hpass).
        assert (Hne : r <> s).
        { intros ->. eapply stops_passes_excl; [exact Hstop|by exists k]. }
        rewrite (IH (S s)).
        * destruct (Nat.ltb_spec (r - S s) f), (Nat.ltb_spec (r - s) (S f)); done || lia.
        * split; [lia|]. split; [done|]. intros j Hj. apply Hpass. lia.
    - rewrite Hat by (left; lia). by rewrite Nat.sub_diag.
  Qed.

Lemma first_stop_bound t (keys : list K) s r :
    s < length keys -> first_stop ktime t keys s r -> r < length keys.
  Proof.
    intros Hs (Hle & _ & Hpass).
    destruct (decide (r = s)) as [->|Hne]; [done|].
    pose proof (passes_lt t keys (r - 1) (Hpass (r - 1) ltac:(lia))). lia.
  Qed.

Lemma cursor_ok_mono lastTime time (keys : list K) c :
    (lastTime <=. time) = true ->
    cursor_ok ktime lastTime keys c -> cursor_ok ktime time keys c.
  Proof.
    intros Hle Hc j Hj. destruct (Hc j Hj) as (k & Hk & Hge).
    exists k. split; [done|]. eapply fle_dlt_trans; eauto.
  Qed.

Lemma cursor_ok_0 t (keys : list K) : cursor_ok ktime t keys 0.
  Proof. intros j Hj. lia. Qed.

Lemma cursor_okb_sound t (keys : list K) c :
    cursor_okb ktime t keys c = true -> cursor_ok ktime t keys c.
  Proof.
    unfold cursor_okb. rewrite forallb_forall. intros Hall j Hj.
    specialize (Hall j). rewrite in_seq in Hall. specialize (Hall ltac:(lia)).
    destruct (keys !! S j) as [k|] eqn:Hk; [|done].
    exists k. split; [done|]. by apply negb_true_iff.
  Qed.

Lemma first_stop_from_cursor t (keys : list K) c r :
    cursor_ok ktime t keys c -> first_stop ktime t keys c r ->
    first_stop ktime t keys 0 r.
  Proof.
    intros Hc (Hle & Hstop & Hpass). split; [lia|]. split; [done|].
    intros j Hj. destruct (decide (j < c)); [by apply Hc | apply Hpass; lia].
  Qed.
End SeekProofs.

#[export] Hint Resolve cursor_ok_0 : anim.

Section SeekLemmas.
  Context `{FloatOps} `{!FloatLaws} {K : Type} (ktime : K -> f64).

  (** [seek] returns, the first frame where the loop stops. *)
Lemma seek_Some t (keys : list K) s :
    seek ktime t keys s = Some (seek_frame ktime t keys s) /\
    first_stop ktime t keys s (seek_frame ktime t keys s).
  Proof.
    destruct (first_stop_exists ktime t keys s) as (r & Hr & Hb).
    unfold seek_frame, seek. rewrite (seek_loop_count ktime t keys s r Hr).
    rewrite (proj2 (Nat.ltb_lt _ _)) by lia. by split.
  Qed.

Lemma seek_first t (keys : list K) s :
    first_stop ktime t keys s (seek_frame ktime t keys s).
  Proof. apply seek_Some. Qed.

Lemma seek_lt t (keys : list K) s :
    s < length keys -> seek_frame ktime t keys s < length keys.
  Proof. intros Hs. eapply first_stop_bound; [done|apply seek_first]. Qed.

Lemma seek_cursor_ok t (keys : list K) s :
    cursor_ok ktime t keys s -> cursor_ok ktime t keys (seek_frame ktime t keys s).
  Proof.
    intros Hs. pose proof (first_stop_from_cursor ktime t keys s _ Hs (seek_first t keys s))
      as (_ & _ & Hpass).
    intros j Hj. apply Hpass. lia.
  Qed.

Lemma seek_from_cursor t (keys : list K) c :
    cursor_ok ktime t keys c -> seek_frame ktime t keys c = seek_frame ktime t keys 0.
  Proof.
    intros Hc. eapply first_stop_unique.
    - apply (first_stop_from_cursor ktime t keys c); [done|apply seek_first].
    - apply seek_first.
  Qed.

Lemma cursor_ok_lt t (keys : list K) c :
    cursor_ok ktime t keys c -> 0 < length keys -> c < length keys.
  Proof.
    intros Hc Hn. destruct c as [|c]; [lia|].
    pose proof (passes_lt ktime t keys c (Hc c ltac:(lia))). lia.
  Qed.

Lemma cursor_ok_nil t c : cursor_ok ktime t (@nil K) c -> c = 0.
  Proof.
    intros Hc. destruct c as [|c]; [done|].
    destruct (Hc 0 ltac:(lia)) as (k & Hk & _). done.
  Qed.

End SeekLemmas.


Section SeekTheorems.
  Context `{FloatOps} `{!FloatLaws} {K : Type} (ktime : K -> f64).

  (** C17. Functional correctness of the key search of [Evaluate]: the loop
      [while (frame < keys.size()-1) { if (time < keys[frame+1].mTime)
      break; frame++; }] started at [s] returns, and returns [r] exactly
      when [r] is the first frame at or after [s] where the loop condition
      fails. *)
Theorem seek_correct t (keys : list K) s r :
    seek ktime t keys s = Some r <-> first_stop ktime t keys s r.
  Proof.
    destruct (seek_Some ktime t keys s) as [-> Hf]. split; [by intros [= <-]|].
    intros Hr. f_equal. eapply (first_stop_unique ktime); [exact Hf|exact Hr].
  Qed.

  (** C18. Termination of the key search: the loop started at [s] exits by
      its own condition after exactly [n <= keys.size() - 1 - s]
      iterations, at the first frame [r] where the condition fails: with
      more than [n] units of fuel it returns [r], with fewer it runs out.
      A loop that did not advance [frame] would run out for every fuel. *)
Theorem seek_loop_exits t (keys : list K) s :
    exists n r, n <= length keys - 1 - s /\ first_stop ktime t keys s r /\
      forall fuel, seek_loop ktime fuel t keys s = if n <? fuel then Some r else None.
  Proof.
    destruct (first_stop_exists ktime t keys s) as (r & Hr & Hb).
    exists (r - s), r. split_and!; [done|done|]. by apply seek_loop_count.
  Qed.
End SeekTheorems.

(** ** The three track blocks *)

Section Tracks.
  Context `{FloatOps} `{!FloatLaws} `{!QuatInterp}.

Lemma interp_vec_defined D time (keys : list vkey) f :
    f < length keys -> is_Some (interp_vec D time keys f).
  Proof.
    intros Hf. unfold interp_vec.
    destruct (lookup_lt_is_Some_2 keys f Hf) as [k ->]. simpl.
    destruct (lookup_lt_is_Some_2 keys ((f + 1) mod length keys)) as [k' ->];
      [apply Nat.mod_upper_bound; lia|].
    simpl. case_match; eauto.
  Qed.

Lemma interp_quat_defined D time (keys : list qkey) f :
    f < length keys -> is_Some (interp_quat D time keys f).
  Proof.
    intros Hf. unfold interp_quat.
    destruct (lookup_lt_is_Some_2 keys f Hf) as [k ->]. simpl.
    destruct (lookup_lt_is_Some_2 keys ((f + 1) mod length keys)) as [k' ->];
      [apply Nat.mod_upper_bound; lia|].
    simpl. case_match; eauto.
  Qed.

Lemma scale_value_defined (keys : list vkey) f :
    f < length keys -> is_Some (scale_value keys f).
  Proof.
    intros Hf. unfold scale_value.
    destruct (lookup_lt_is_Some_2 keys f Hf) as [k ->]. simpl. eauto.
  Qed.
End Tracks.

(** ** A constant rotation track

    On exact values, whatever [acos] and [sin] are, a track whose keys all
    hold one rotation of norm 1 (at finite times, for a finite time and
    duration) interpolates to that rotation: assimp's interpolation takes
    its linear branch. *)

Section ConstantRotation.
  Context `{!@FloatTrans exact_float_ops}.
  Local Open Scope Q_scope.

Lemma span_fin D a b : exists s, span (fin D) (fin a) (fin b) = fin s.
  Proof. unfold span. cbn. case_match; eexists; reflexivity. Qed.

Lemma interp_factor_fin tm a s :
    dlt (d_of_Z 0) (fin s) = true -> exists f, interp_factor (fin tm) (fin a) (fin s) = fin f.
  Proof.
    cbn. intros Hs. apply negb_true_iff, Qle_bool_false_iff in Hs.
    rewrite (qzero_b_pos (Qred s)) by done. eexists. reflexivity.
  Qed.

  (** A rotation track whose keys all hold the same rotation [q] of
      norm 1 evaluates to [q] at every frame in range, for any [acos] and
      [sin]: identity keys give the identity rotation. *)
Theorem interp_quat_constant w x y z D tm (keys : list qkey) frame :
    w * w + x * x + y * y + z * z == 1 ->
    Forall (fun k => qk_value k = Quat (fin w) (fin x) (fin y) (fin z) /\
                     exists t, qk_time k = fin t) keys ->
    (frame < length keys)%nat ->
    @interp_quat _ assimp_quat_interp (fin D) (fin tm) keys frame =
      Some (Quat (fin w) (fin x) (fin y) (fin z)).
  Proof.
    intros Hn Hk Hf. unfold interp_quat.
    destruct (lookup_lt_is_Some_2 keys frame Hf) as [k Ek].
    destruct (lookup_lt_is_Some_2 keys ((frame + 1) mod length keys)) as [k' Ek'];
      [apply Nat.mod_upper_bound; lia|].
    rewrite Ek, Ek'. cbn [mbind option_bind].
    destruct (proj1 (Forall_lookup _ _) Hk _ _ Ek) as [Hv [t Ht]].
    destruct (proj1 (Forall_lookup _ _) Hk _ _ Ek') as [Hv' [t' Ht']].
    rewrite Ht, Ht', Hv, Hv'. destruct (span_fin D t t') as [s ->].
    case_match eqn:Hs; [|done].
    destruct (interp_factor_fin tm t s Hs) as [f ->].
    f_equal. by apply Interpolate_same_rotation.
  Qed.
End ConstantRotation.



Lemma interp_quat_constant_turn :
  @interp_quat _ assimp_quat_interp (#2) (xfrac 1 2) turn_keys 0 =
    Some (Quat half_q half_q half_q half_q).
Proof.
  apply (interp_quat_constant (Qmake 1 2) (Qmake 1 2) (Qmake 1 2) (Qmake 1 2) 2 (Qmake 1 2));
    [reflexivity| |cbn; lia].
  unfold turn_keys.
  repeat (constructor; [split; [reflexivity|first [exists 0%Q; reflexivity|exists 1%Q; reflexivity]]|]).
  constructor.
Defined.
