(* ===== verification/Evaluator.v ===== *)
(** * Evaluator.v: [cAnimEvaluator], one animation and its pose evaluation

    [cAnimEvaluator] (cAnimationController.h, lines 32-49) owns the
    channels of one animation, the time of the previous evaluation
    [mLastTime], one cursor triple per channel [mLastPositions] (the frames
    where the position, rotation and scaling searches stopped last time)
    and the baked frames [Transforms].  This file models:
    - the constructor from an [aiAnimation] and the default constructor;
    - [Evaluate] (lines 139-236): scale and wrap the time, then for each
      channel whose bone is found run the three track blocks and write the
      bone's local transform; each block is [eval_track];
    - [GetFrameIndexAt] and [GetTransforms] (lines 40, 44-55).

    [Evaluate] writes through the bone pointers of the map it is given; the
    heap of bones is abstracted by the class [BoneHeap] (what the evaluator
    needs of the skeleton: to store a bone's local transform), implemented
    by the skeleton's heap in [Skeleton.v].

    The abstract specification [Evaluate_ref] evaluates every channel
    statelessly, searching each track from frame 0; the theorems show that
    [Evaluate] implements it whenever the cursor invariant
    [evaluator_inv] holds, that it keeps the invariant, and hence that the
    seek optimisation never changes a pose. *)

From S2P Require Import Prelude Float ExactFloat Channel.
From stdpp Require Import base list strings gmap.
From Stdlib Require Import ZArith NArith QArith Lqa Lia.
Close Scope Q_scope.

(** ** The assimp input *)

Module Ai.
Section Ai.
  Context `{FloatOps}.

  (** [aiNodeAnim]: the keys of one node in one animation. *)
Record aiNodeAnim := mkNodeAnim {
    mNodeName : string;
    mPositionKeys : list vkey;
    mRotationKeys : list qkey;
    mScalingKeys : list vkey }.

  (** [aiAnimation] ([mDuration] and [mTicksPerSecond] are doubles). *)
Record aiAnimation := mkAnimation {
    mName : string;
    mDuration : f64;
    mTicksPerSecond : f64;
    mChannels : list aiNodeAnim }.
End Ai.
Arguments aiNodeAnim {_}.
Arguments aiAnimation {_}.
End Ai.

(** ** The bone heap seen by the evaluator *)

(** [bonenode->second->LocalTransform = m] through a [cBone*]; [None] when
    the pointer does not designate a live bone (undefined behaviour). *)
Class BoneHeap `{FloatOps} (Hp : Type) := {
  set_local_transform : nat -> mat4 -> Hp -> option Hp
}.

(** What the skeleton promises: a live bone can be written and stays live. *)
Class BoneHeapLaws `{FloatOps} (Hp : Type) `{!BoneHeap Hp} := {
  bone_live : Hp -> nat -> Prop;
  set_local_live : forall h p m, bone_live h p ->
    exists h', set_local_transform p m h = Some h' /\
               (forall q, bone_live h q -> bone_live h' q)
}.

Section Evaluator.
  Context `{FloatOps} `{!QuatInterp}.

  (** [std::tuple<unsigned int, unsigned int, unsigned int>] *)
Definition cursor3 : Type := nat * nat * nat.
Definition get0 (c : cursor3) : nat := fst (fst c).
Definition get1 (c : cursor3) : nat := snd (fst c).
Definition get2 (c : cursor3) : nat := snd c.
Definition set0 (f : nat) (c : cursor3) : cursor3 := (f, get1 c, get2 c).
Definition set1 (f : nat) (c : cursor3) : cursor3 := (get0 c, f, get2 c).
Definition set2 (f : nat) (c : cursor3) : cursor3 := (get0 c, get1 c, f).

  (** [class cAnimEvaluator].  [PlayAnimationForward] is [None] while it
      holds an indeterminate value: the constructor from an [aiAnimation]
      does not initialise it. *)
Record cAnimEvaluator := mkEvaluator {
    Name : string;
    Channels : list cAnimationChannel;
    PlayAnimationForward : option bool;
    mLastTime : f32;
    TicksPerSecond : f32;
    Duration : f32;
    mLastPositions : list cursor3;
    Transforms : list (list mat4) }.

  (** [cAnimEvaluator()]: [mLastTime(0.0f), TicksPerSecond(0.0f),
      Duration(0.0f), PlayAnimationForward(true)]. *)
Definition default_cAnimEvaluator : cAnimEvaluator :=
    mkEvaluator "" [] (Some true) (#0) (#0) (#0) [] [].

Definition channel_of_ai (na : Ai.aiNodeAnim) : cAnimationChannel :=
    mkChannel (Ai.mNodeName na) (Ai.mPositionKeys na) (Ai.mRotationKeys na)
      (Ai.mScalingKeys na).

  (** [cAnimEvaluator(const aiAnimation* pAnim)] (lines 27-42). *)
Definition new_cAnimEvaluator (pAnim : Ai.aiAnimation) : cAnimEvaluator :=
    {| Name := Ai.mName pAnim;
       Channels := map channel_of_ai (Ai.mChannels pAnim);
       PlayAnimationForward := None;
       mLastTime := #0;
       TicksPerSecond :=
         f_of_d (if negb (deqb (Ai.mTicksPerSecond pAnim) (d_of_Z 0))
                 then Ai.mTicksPerSecond pAnim else d_of_Z 100);
       Duration := f_of_d (Ai.mDuration pAnim);
       mLastPositions := replicate (length (Ai.mChannels pAnim)) (0, 0, 0);
       Transforms := [] |}.

Definition set_eval_state (ev : cAnimEvaluator) (cur : list cursor3) (time : f32)
    : cAnimEvaluator :=
    mkEvaluator (Name ev) (Channels ev) (PlayAnimationForward ev) time
      (TicksPerSecond ev) (Duration ev) cur (Transforms ev).

  (** [ptime *= TicksPerSecond; time = 0; if (Duration > 0.0)
      time = fmod(ptime, Duration);] (lines 141-145 and 46-50). *)
Definition wrap_time (ev : cAnimEvaluator) (pTime : f32) : f32 :=
    let pTime := pTime *. TicksPerSecond ev in
    if d_of_Z 0 <.. d_of_f (Duration ev) then fmod pTime (Duration ev) else #0.

  (** ** One track block of [Evaluate]

      [if (keys.size() > 0) {
         unsigned int frame = (time >= mLastTime) ? std::get<i>(mLastPositions[a]) : 0;
         while (...) ...;
         value = ...;
         std::get<i>(mLastPositions[a]) = frame; }]
      The cursor is read only when [time >= mLastTime]; both accesses to
      [mLastPositions[a]] are undefined out of range. *)
Definition eval_track {K A : Type} (ktime : K -> f64)
      (interp : list K -> nat -> option A) (dflt : A)
      (get : cursor3 -> nat) (set : nat -> cursor3 -> cursor3)
      (lastTime time : f32) (keys : list K) (a : nat) (cur : list cursor3)
    : option (A * list cursor3) :=
    if 0 <? length keys then
      start ← (if lastTime <=. time then get <$> cur !! a else Some 0);
      frame ← seek ktime time keys start;
      v ← interp keys frame;
      cur' ← vec_alter a (set frame) cur;
      Some (v, cur')
    else Some (dflt, cur).

  (** [TransformMatrix(out, in)] (lines 4-24): the field-by-field copy of
      an [aiMatrix4x4] into the engine's [mat4]. *)
Definition TransformMatrix (m : mat4) : mat4 :=
    Mat4 (a1 m) (a2 m) (a3 m) (a4 m) (b1 m) (b2 m) (b3 m) (b4 m)
         (c1 m) (c2 m) (c3 m) (c4 m) (d1 m) (d2 m) (d3 m) (d4 m).

  (** Lines 225-231: the rotation matrix, its columns scaled by the
      scaling's components, the translation in the fourth column, then
      transposed. *)
Definition compose_local (pos : vec3) (rot : quat) (scl : vec3) : mat4 :=
    let m := quat_matrix rot in
    transpose
      (Mat4 (a1 m *. vx scl) (a2 m *. vy scl) (a3 m *. vz scl) (vx pos)
            (b1 m *. vx scl) (b2 m *. vy scl) (b3 m *. vz scl) (vy pos)
            (c1 m *. vx scl) (c2 m *. vy scl) (c3 m *. vz scl) (vz pos)
            (d1 m) (d2 m) (d3 m) (d4 m)).

  Context {Hp : Type} `{!BoneHeap Hp}.

  (** The body of the channel loop of [Evaluate] (lines 148-234). *)
Definition eval_channel (ev : cAnimEvaluator) (time : f32)
      (bones : gmap string nat) (a : nat) (ch : cAnimationChannel)
      (st : list cursor3 * Hp) : option (list cursor3 * Hp) :=
    let '(cur, h) := st in
    match bones !! Channel.Name ch with
    | None => Some (cur, h)
    | Some p =>
        '(pos, cur) ← eval_track vk_time (interp_vec (Duration ev) time) vzero
                        get0 set0 (mLastTime ev) time (mPositionKeys ch) a cur;
        '(rot, cur) ← eval_track qk_time (interp_quat (Duration ev) time) qidentity
                        get1 set1 (mLastTime ev) time (mRotationKeys ch) a cur;
        '(scl, cur) ← eval_track vk_time scale_value vone
                        get2 set2 (mLastTime ev) time (mScalingKeys ch) a cur;
        h' ← set_local_transform p (TransformMatrix (compose_local pos rot scl)) h;
        Some (cur, h')
    end.

  (** [void cAnimEvaluator::Evaluate(float pTime, std::map<std::string, cBone*>& bones)] *)
Definition Evaluate (ev : cAnimEvaluator) (pTime : f32)
      (bones : gmap string nat) (h : Hp) : option (cAnimEvaluator * Hp) :=
    let time := wrap_time ev pTime in
    '(cur, h') ← foldi_opt (eval_channel ev time bones) (Channels ev)
                   (mLastPositions ev, h);
    Some (set_eval_state ev cur time, h').

  (** ** The specification: stateless evaluation

      Every track is searched from frame 0; the new cursor of a track is
      the frame found (0 for an empty track); a channel without a bone is
      skipped. *)
Definition ref_track {K A : Type} (ktime : K -> f64)
      (interp : list K -> nat -> option A) (dflt : A) (time : f32) (keys : list K)
    : option A :=
    if 0 <? length keys then interp keys (seek_frame ktime time keys 0) else Some dflt.

Definition ref_frame {K : Type} (ktime : K -> f64) (time : f32) (keys : list K) : nat :=
    if 0 <? length keys then seek_frame ktime time keys 0 else 0.

Definition ref_cursor (bones : gmap string nat) (time : f32) (ch : cAnimationChannel)
    : cursor3 :=
    match bones !! Channel.Name ch with
    | None => (0, 0, 0)
    | Some _ => (ref_frame vk_time time (mPositionKeys ch),
                 ref_frame qk_time time (mRotationKeys ch),
                 ref_frame vk_time time (mScalingKeys ch))
    end.

Definition ref_local (ev : cAnimEvaluator) (time : f32) (ch : cAnimationChannel)
    : option mat4 :=
    pos ← ref_track vk_time (interp_vec (Duration ev) time) vzero time (mPositionKeys ch);
    rot ← ref_track qk_time (interp_quat (Duration ev) time) qidentity time (mRotationKeys ch);
    scl ← ref_track vk_time scale_value vone time (mScalingKeys ch);
    Some (TransformMatrix (compose_local pos rot scl)).

Definition ref_write (ev : cAnimEvaluator) (bones : gmap string nat) (time : f32)
      (ch : cAnimationChannel) (h : Hp) : option Hp :=
    match bones !! Channel.Name ch with
    | None => Some h
    | Some p => m ← ref_local ev time ch; set_local_transform p m h
    end.

Definition Evaluate_ref (ev : cAnimEvaluator) (pTime : f32)
      (bones : gmap string nat) (h : Hp) : option (cAnimEvaluator * Hp) :=
    let time := wrap_time ev pTime in
    (fun h' => (set_eval_state ev (map (ref_cursor bones time) (Channels ev)) time, h'))
      <$> fold_opt (ref_write ev bones time) (Channels ev) h.

  (** [mLastPositions] with every cursor back to frame 0. *)
Definition reset_cursors (ev : cAnimEvaluator) : cAnimEvaluator :=
    set_eval_state ev (replicate (length (Channels ev)) (0, 0, 0)) (mLastTime ev).

  (** ** The invariant

      Every cursor of a channel whose bone is found is valid at
      [mLastTime]; the cursors of the other channels are still 0 (they are
      never touched). *)
Definition channel_cursor_ok (lastTime : f32) (ch : cAnimationChannel) (c : cursor3)
    : Prop :=
    cursor_ok vk_time lastTime (mPositionKeys ch) (get0 c) /\
    cursor_ok qk_time lastTime (mRotationKeys ch) (get1 c) /\
    cursor_ok vk_time lastTime (mScalingKeys ch) (get2 c).

Definition channel_inv (bones : gmap string nat) (lastTime : f32)
      (ch : cAnimationChannel) (c : cursor3) : Prop :=
    match bones !! Channel.Name ch with
    | Some _ => channel_cursor_ok lastTime ch c
    | None => c = (0, 0, 0)
    end.

Definition evaluator_inv (bones : gmap string nat) (ev : cAnimEvaluator) : Prop :=
    length (mLastPositions ev) = length (Channels ev) /\
    forall a ch c, Channels ev !! a = Some ch -> mLastPositions ev !! a = Some c ->
      channel_inv bones (mLastTime ev) ch c.

  (** The invariant as a test. *)
Definition channel_invb (bones : gmap string nat) (lastTime : f32)
      (ch : cAnimationChannel) (c : cursor3) : bool :=
    match bones !! Channel.Name ch with
    | Some _ => cursor_okb vk_time lastTime (mPositionKeys ch) (get0 c)
                && cursor_okb qk_time lastTime (mRotationKeys ch) (get1 c)
                && cursor_okb vk_time lastTime (mScalingKeys ch) (get2 c)
    | None => bool_decide (c = (0, 0, 0))
    end.

Definition evaluator_invb (bones : gmap string nat) (ev : cAnimEvaluator) : bool :=
    (length (mLastPositions ev) =? length (Channels ev))
    && forallb (fun '(ch, c) => channel_invb bones (mLastTime ev) ch c)
         (zip (Channels ev) (mLastPositions ev)).

  (** A sequence of calls [Evaluate(t1); Evaluate(t2); ...] with the same
      bone map, for a given evaluation function. *)
Fixpoint run_evaluations
      (step : cAnimEvaluator -> f32 -> gmap string nat -> Hp -> option (cAnimEvaluator * Hp))
      (ev : cAnimEvaluator) (ts : list f32) (bones : gmap string nat) (h : Hp)
    : option (cAnimEvaluator * Hp) :=
    match ts with
    | [] => Some (ev, h)
    | t :: ts' => '(ev', h') ← step ev t bones h; run_evaluations step ev' ts' bones h'
    end.
End Evaluator.

(** A bone heap that records the writes in order: the model of the heap
    used to run [Evaluate] on concrete inputs. *)
#[export] Instance write_log_heap `{FloatOps} : BoneHeap (list (nat * mat4)) := {|
  set_local_transform p m log := Some (log ++ [(p, m)]) |}.

#[export] Program Instance write_log_heap_laws `{FloatOps} : BoneHeapLaws (list (nat * mat4)) := {|
  bone_live _ _ := True |}.
Next Obligation. intros. eexists. split; [reflexivity|]. done. Qed.

Arguments cAnimEvaluator {_}.

(** ** Frame lookup *)

Section Frames.
  Context `{FloatOps}.

  (** [unsigned int GetFrameIndexAt(float ptime)] (lines 44-55): the wrapped
      time as a fraction of the duration, inverted when playing backwards,
      times the number of baked frames, converted to [unsigned int]. *)
Definition GetFrameIndexAt (ev : cAnimEvaluator) (ptime : f32) : option N :=
    let time := wrap_time ev ptime in
    let percent := time /. Duration ev in
    match PlayAnimationForward ev with
    | None => None
    | Some fwd =>
        let percent := if fwd then percent else (percent -. #1) *. #(-1) in
        f_to_u32 (f_of_Z (Z.of_nat (length (Transforms ev))) *. percent)
    end.

  (** [std::vector<mat4>& GetTransforms(float dt)
      { return Transforms[GetFrameIndexAt(dt)]; }] *)
Definition GetTransforms (ev : cAnimEvaluator) (dt : f32) : option (list mat4) :=
    i ← GetFrameIndexAt ev dt;
    Transforms ev !! N.to_nat i.
End Frames.

(** ** Concrete animations (exact arithmetic) *)

Section Scenarios.
Definition xv (x y z : Z) : vec3 := Vec3 (#x) (#y) (#z).

  (** A row-vector translation matrix: what [compose_local] gives for the
      identity rotation, unit scaling and the position [(x, y, z)]. *)
Definition translation (x y z : Z) : mat4 :=
    Mat4 (#1) (#0) (#0) (#0) (#0) (#1) (#0) (#0) (#0) (#0) (#1) (#0) (#x) (#y) (#z) (#1).

  (** A scaling matrix [diag(x, y, z, 1)]. *)
Definition scaling (x y z : Z) : mat4 :=
    Mat4 (#x) (#0) (#0) (#0) (#0) (#y) (#0) (#0) (#0) (#0) (#z) (#0) (#0) (#0) (#0) (#1).

  (** Scaling keys [(1,1,1)] at tick 0 and [(3,3,3)] at tick 1. *)
Definition grow : Ai.aiAnimation :=
    Ai.mkAnimation "grow" (#1) (#1)
      [Ai.mkNodeAnim "hip" [] [] [VKey (#0) (xv 1 1 1); VKey (#1) (xv 3 3 3)]].

  (** One bone, ["hip"], at address 1. *)
Definition hip_bones : gmap string nat := {["hip" := 1]}.

  (** The specification's scenario: keys [{t=0, (0,0,0)}] and
      [{t=1, (10,0,0)}], duration 1, 1 tick per second. *)
Definition slide : Ai.aiAnimation :=
    Ai.mkAnimation "slide" (#1) (#1)
      [Ai.mkNodeAnim "hip" [VKey (#0) (xv 0 0 0); VKey (#1) (xv 10 0 0)] [] []].

  (** Three position keys over a duration of 3 ticks, not on one line (so
      that extrapolating from a wrong frame gives a different pose). *)
Definition walk : Ai.aiAnimation :=
    Ai.mkAnimation "walk" (#3) (#1)
      [Ai.mkNodeAnim "hip" [VKey (#0) (xv 0 0 0); VKey (#1) (xv 10 0 0);
                            VKey (#2) (xv 40 0 0)] [] []].

  (** The walk evaluated once, at 1.5 s: the position cursor is on frame 1
      and [mLastTime] is 1.5. *)
Definition walk_mid : cAnimEvaluator :=
    match Evaluate (new_cAnimEvaluator walk) (xfrac 3 2) hip_bones [] with
    | Some (ev, _) => ev
    | None => new_cAnimEvaluator walk
    end.

  (** An evaluator after baking: 90 frames (3 ticks at 30 frames per
      tick), played forwards or backwards. *)
Definition baked (fwd : bool) : cAnimEvaluator :=
    mkEvaluator "walk" [] (Some fwd) (#0) (#1) (#3) [] (replicate 90 []).
End Scenarios.

(** ** [Evaluate] implements the stateless evaluation *)

Section EvaluateProofs.
  Context `{FloatOps} `{!FloatLaws} `{!QuatInterp} {Hp : Type} `{!BoneHeap Hp}.

Lemma cursor_ok_empty {K} (ktime : K -> f64) t (keys : list K) c :
    (0 <? length keys) = false -> cursor_ok ktime t keys c -> c = 0.
  Proof.
    intros E Hc. destruct keys; [|done]. exact (cursor_ok_nil ktime t c Hc).
  Qed.

  (** One track block on a cursor vector [pre ++ c :: rest], at the index
      of [c]: the value and the cursor written are those of a search from
      frame 0, when the cursor read is valid. *)
Lemma eval_track_mid {K A} (ktime : K -> f64) (interp : list K -> nat -> option A)
      dflt get set lastTime time (keys : list K) (pre rest : list cursor3) c :
    cursor_ok ktime lastTime keys (get c) ->
    eval_track ktime interp dflt get set lastTime time keys (length pre) (pre ++ c :: rest)
    = if 0 <? length keys then
        (fun v => (v, pre ++ set (seek_frame ktime time keys 0) c :: rest))
          <$> interp keys (seek_frame ktime time keys 0)
      else Some (dflt, pre ++ c :: rest).
  Proof.
    intros Hc. unfold eval_track. destruct (0 <? length keys); [|done].
    assert (Hf : seek_frame ktime time keys (if lastTime <=. time then get c else 0) =
                 seek_frame ktime time keys 0).
    { destruct (lastTime <=. time) eqn:Hle; [|done].
      apply seek_from_cursor, (cursor_ok_mono ktime lastTime); done. }
    destruct (lastTime <=. time); rewrite ?list_lookup_middle by done;
      cbn [fmap option_fmap option_map mbind option_bind] in Hf |- *;
      rewrite (proj1 (seek_Some ktime _ _ _)); cbn [mbind option_bind]; try rewrite Hf;
      destruct (interp keys _); simpl; rewrite ?vec_alter_middle; done.
  Qed.

  (** The body of the channel loop rewrites the channel's own cursor to
      [ref_cursor] and performs [ref_write]. *)
Lemma eval_channel_mid ev time bones ch (pre rest : list cursor3) c h :
    channel_inv bones (mLastTime ev) ch c ->
    eval_channel ev time bones (length pre) ch (pre ++ c :: rest, h)
    = (fun h' => (pre ++ ref_cursor bones time ch :: rest, h'))
        <$> ref_write ev bones time ch h.
  Proof.
    unfold eval_channel, ref_write, ref_cursor, channel_inv.
    destruct (bones !! Channel.Name ch) as [p|]; [|intros ->; done].
    intros (Hc0 & Hc1 & Hc2). destruct c as [[x y] z]. unfold get0, get1, get2 in Hc0, Hc1, Hc2; simpl in Hc0, Hc1, Hc2.
    unfold ref_local, ref_track, ref_frame.
    rewrite (eval_track_mid vk_time) by exact Hc0.
    destruct (0 <? length (mPositionKeys ch)) eqn:E0;
      [destruct (interp_vec _ _ _ _) as [pos|]; simpl; [|done]
      |pose proof (cursor_ok_empty _ _ _ _ E0 Hc0) as ->; simpl];
    (rewrite (eval_track_mid qk_time) by exact Hc1);
    (destruct (0 <? length (mRotationKeys ch)) eqn:E1;
      [destruct (interp_quat _ _ _ _) as [rot|]; simpl; [|done]
      |pose proof (cursor_ok_empty _ _ _ _ E1 Hc1) as ->; simpl]);
    (rewrite (eval_track_mid vk_time) by exact Hc2);
    (destruct (0 <? length (mScalingKeys ch)) eqn:E2;
      [destruct (scale_value _ _) as [scl|]; simpl; [|done]
      |pose proof (cursor_ok_empty _ _ _ _ E2 Hc2) as ->; simpl]);
    by destruct (set_local_transform _ _ _).
  Qed.

Lemma Evaluate_eq_ref ev pTime bones h :
    evaluator_inv bones ev -> Evaluate ev pTime bones h = Evaluate_ref ev pTime bones h.
  Proof.
    intros [Hlen Hinv]. unfold Evaluate, Evaluate_ref, foldi_opt.
    rewrite <- (app_nil_l (mLastPositions ev)).
    rewrite (foldi_opt_from_pointwise (fun _ ch c => channel_inv bones (mLastTime ev) ch c)
               _ (ref_cursor bones (wrap_time ev pTime))
               (ref_write ev bones (wrap_time ev pTime))).
    - by destruct (fold_opt _ _ _).
    - done.
    - done.
    - intros k x c pre' rest' h' Hk Hl Hc. simpl in Hl. rewrite <- Hl.
      by apply eval_channel_mid.
    - intros k x c Hk Hc. eapply Hinv; eauto.
  Qed.

Lemma channel_inv_zero bones t ch : channel_inv bones t ch (0, 0, 0).
  Proof.
    unfold channel_inv. case_match; [|done].
    split; [|split]; apply cursor_ok_0.
  Qed.

Lemma ref_frame_ok {K} (ktime : K -> f64) t (keys : list K) :
    cursor_ok ktime t keys (ref_frame ktime t keys).
  Proof.
    unfold ref_frame. case_match; [|apply cursor_ok_0].
    apply seek_cursor_ok, cursor_ok_0.
  Qed.

Lemma ref_cursor_inv bones t ch : channel_inv bones t ch (ref_cursor bones t ch).
  Proof.
    unfold channel_inv, ref_cursor. case_match; [|done].
    split; [|split]; apply ref_frame_ok.
  Qed.

  (** The state [Evaluate_ref] leaves satisfies the invariant. *)
Lemma Evaluate_ref_inv ev pTime bones h ev' h' :
    Evaluate_ref ev pTime bones h = Some (ev', h') -> evaluator_inv bones ev'.
  Proof.
    unfold Evaluate_ref. destruct (fold_opt _ _ _); simpl; intros E; simplify_eq.
    split; simpl; [by rewrite length_map|].
    intros a ch c Hch Hc. rewrite list_lookup_fmap, Hch in Hc. simpl in Hc. simplify_eq.
    apply ref_cursor_inv.
  Qed.

Lemma reset_cursors_inv bones ev : evaluator_inv bones (reset_cursors ev).
  Proof.
    split; simpl; [by rewrite length_replicate|].
    intros a ch c _ Hc. apply lookup_replicate in Hc as [-> _]. apply channel_inv_zero.
  Qed.

Lemma Evaluate_ref_reset ev pTime bones h :
    Evaluate_ref (reset_cursors ev) pTime bones h = Evaluate_ref ev pTime bones h.
  Proof. reflexivity. Qed.
End EvaluateProofs.

Section InvariantTests.
  Context `{FloatOps} `{!FloatLaws}.

Lemma channel_invb_sound bones t ch c :
    channel_invb bones t ch c = true -> channel_inv bones t ch c.
  Proof.
    unfold channel_invb, channel_inv. case_match.
    - rewrite !andb_true_iff. intros [[Hp Hr] Hs].
      split_and!; by eapply cursor_okb_sound.
    - by rewrite bool_decide_eq_true.
  Qed.

Lemma evaluator_invb_sound bones ev :
    evaluator_invb bones ev = true -> evaluator_inv bones ev.
  Proof.
    unfold evaluator_invb. rewrite andb_true_iff, Nat.eqb_eq, forallb_forall.
    intros [Hlen Hall]. split; [done|]. intros a ch c Hch Hc.
    apply channel_invb_sound, (Hall (ch, c)), list_elem_of_In.
    apply (list_elem_of_lookup_2 _ a). by apply lookup_zip_Some.
  Qed.
End InvariantTests.

Section Definedness.
  Context `{FloatOps} `{!FloatLaws} `{!QuatInterp} {Hp : Type} `{!BoneHeap Hp}.

Lemma ref_track_defined {K A} (ktime : K -> f64) (interp : list K -> nat -> option A)
      dflt time (keys : list K) :
    (forall f, f < length keys -> is_Some (interp keys f)) ->
    is_Some (ref_track ktime interp dflt time keys).
  Proof.
    intros Hi. unfold ref_track. destruct (Nat.ltb_spec 0 (length keys)); [|eauto].
    apply Hi, seek_lt. done.
  Qed.

Lemma ref_local_defined ev time ch : is_Some (ref_local ev time ch).
  Proof.
    unfold ref_local.
    destruct (ref_track_defined vk_time (interp_vec (Duration ev) time) vzero time
                (mPositionKeys ch)) as [pos ->]; [apply interp_vec_defined|].
    destruct (ref_track_defined qk_time (interp_quat (Duration ev) time) qidentity time
                (mRotationKeys ch)) as [rot ->]; [apply interp_quat_defined|].
    destruct (ref_track_defined vk_time scale_value vone time
                (mScalingKeys ch)) as [scl ->]; [apply scale_value_defined|].
    simpl. eauto.
  Qed.

Lemma new_cAnimEvaluator_inv bones (pAnim : Ai.aiAnimation) :
    evaluator_inv bones (new_cAnimEvaluator pAnim).
  Proof.
    split; simpl; [by rewrite length_replicate, length_map|].
    intros a ch c _ Hc. apply lookup_replicate in Hc as [-> _]. apply channel_inv_zero.
  Qed.

  (** What every write of [Evaluate] keeps, [Evaluate] keeps. *)
Lemma Evaluate_heap_preserved (P : Hp -> Prop) ev pTime bones h ev' h' :
    (forall p m h1 h2, set_local_transform p m h1 = Some h2 -> P h1 -> P h2) ->
    evaluator_inv bones ev -> Evaluate ev pTime bones h = Some (ev', h') -> P h -> P h'.
  Proof.
    intros Hw Hinv. rewrite (Evaluate_eq_ref _ _ _ _ Hinv). unfold Evaluate_ref.
    destruct (fold_opt _ _ h) as [h1|] eqn:E; simpl; intros [= _ <-].
    apply (fold_opt_preserve P (ref_write ev bones (wrap_time ev pTime)) (Channels ev) h h1); [|done].
    intros ch t t' _. unfold ref_write.
    destruct (bones !! Channel.Name ch); [|by intros [= ->]].
    destruct (ref_local ev _ ch); simpl; [|done]. apply Hw.
  Qed.

  Context `{!BoneHeapLaws Hp}.

Lemma Evaluate_defined ev pTime bones h :
    evaluator_inv bones ev ->
    (forall n p, bones !! n = Some p -> bone_live h p) ->
    exists ev' h', Evaluate ev pTime bones h = Some (ev', h') /\
      evaluator_inv bones ev' /\ (forall q, bone_live h q -> bone_live h' q).
  Proof.
    intros Hinv Hlive. rewrite (Evaluate_eq_ref _ _ _ _ Hinv).
    destruct (fold_opt_inv (fun h' => forall q, bone_live h q -> bone_live h' q)
                (ref_write ev bones (wrap_time ev pTime)) (Channels ev) h)
      as (h' & Eh & Hh'); [|done|].
    - intros ch h1 _ Hh1. unfold ref_write.
      destruct (bones !! Channel.Name ch) as [p|] eqn:Ep; [|eauto].
      destruct (ref_local_defined ev (wrap_time ev pTime) ch) as [m ->]. simpl.
      destruct (set_local_live h1 p m (Hh1 p (Hlive _ _ Ep))) as (h2 & E2 & Hh2).
      eauto.
    - unfold Evaluate_ref. rewrite Eh. simpl.
      do 2 eexists. split; [done|]. split; [|done].
      eapply (Evaluate_ref_inv ev pTime bones h). unfold Evaluate_ref. by rewrite Eh.
  Qed.
End Definedness.

(** ** Theorems on [Evaluate] *)

Section EvaluateTheorems.
  Context `{FloatOps} `{!FloatLaws} `{!QuatInterp} {Hp : Type} `{!BoneHeap Hp}.

  (** C1. The seek optimisation of [Evaluate] is transparent: on an
      evaluator whose cursors satisfy the invariant, [Evaluate] computes the
      same bone transforms, the same cursors and the same [mLastTime] as on
      the same evaluator with every cursor reset to frame 0, for every
      time, forward or backward. *)
Theorem Evaluate_seek_transparent ev pTime bones h :
    evaluator_inv bones ev ->
    Evaluate ev pTime bones h = Evaluate (reset_cursors ev) pTime bones h.
  Proof.
    intros Hinv.
    rewrite (Evaluate_eq_ref _ _ _ _ Hinv), (Evaluate_eq_ref _ _ _ _ (reset_cursors_inv bones ev)).
    done.
  Qed.

  (** C2. Refinement over a whole playback: for any sequence of times, the
      successive calls of [Evaluate] with their cursor state produce, call
      after call, the transforms and states of the stateless evaluation
      [Evaluate_ref] that searches every track from frame 0. *)
Theorem Evaluate_run_refines ev ts bones h :
    evaluator_inv bones ev ->
    run_evaluations Evaluate ev ts bones h = run_evaluations Evaluate_ref ev ts bones h.
  Proof.
    revert ev h. induction ts as [|t ts IH]; intros ev h Hinv; simpl; [done|].
    rewrite (Evaluate_eq_ref _ _ _ _ Hinv).
    destruct (Evaluate_ref ev t bones h) as [[ev' h']|] eqn:E; simpl; [|done].
    apply IH. by eapply Evaluate_ref_inv.
  Qed.

  Context `{!BoneHeapLaws Hp}.

  (** C19. [Evaluate] is defined and keeps the invariant: on an evaluator
      satisfying the cursor invariant, with every bone pointer of the map
      live, every access of [Evaluate] is in range (the cursors, the keys,
      [mLastPositions]), it returns a state that satisfies the invariant
      again, and the bones stay live. *)
Theorem Evaluate_defined_inv ev pTime bones h :
    evaluator_inv bones ev ->
    (forall n p, bones !! n = Some p -> bone_live h p) ->
    exists ev' h', Evaluate ev pTime bones h = Some (ev', h') /\
      evaluator_inv bones ev' /\ (forall q, bone_live h q -> bone_live h' q).
  Proof. apply Evaluate_defined. Qed.
End EvaluateTheorems.

(** ** Scenarios and witnesses *)

Section EvaluateScenarios.

  (** The specification's interpolation scenario through the whole of
      [Evaluate]: with keys [(0,0,0)] at tick 0 and [(10,0,0)] at tick 1,
      duration 1 and 1 tick per second, evaluating at 0.5 s writes into the
      bone the local transform of the position [(5,0,0)] (identity rotation
      and unit scaling from the empty tracks). *)
Example Evaluate_slide_half :
    snd <$> Evaluate (new_cAnimEvaluator slide) (xfrac 1 2) hip_bones []
    = Some [(1, translation 5 0 0)].
  Proof. reflexivity. Qed.

  (** The loop seam: at 2.5 ticks of a 3-tick animation whose last key
      is at tick 2, [Evaluate] interpolates from the last key [(40,0,0)]
      towards the first key [(0,0,0)] reached again at tick 3 (span
      [0 - 2 + Duration = 1]), giving [(20,0,0)]; and 3.5 s wraps to the
      pose of 0.5 s. *)
Example Evaluate_walk_seam :
    snd <$> Evaluate walk_mid (xfrac 5 2) hip_bones [] = Some [(1, translation 20 0 0)]
    /\ snd <$> Evaluate walk_mid (xfrac 7 2) hip_bones []
       = snd <$> Evaluate walk_mid (xfrac 1 2) hip_bones [].
  Proof. split; reflexivity. Qed.

  (** The scaling track is not interpolated: half-way between the
      scaling keys [(1,1,1)] at tick 0 and [(3,3,3)] at tick 1, [Evaluate]
      writes the unit scaling of the first key, where the specification's
      linear interpolation of position and scaling gives [(2,2,2)]. *)
Example Evaluate_scaling_stepwise :
    snd <$> Evaluate (new_cAnimEvaluator grow) (xfrac 1 2) hip_bones []
    = Some [(1, scaling 1 1 1)].
  Proof. reflexivity. Qed.

Lemma Evaluate_seek_transparent_witness :
    evaluator_inv hip_bones walk_mid /\
    Evaluate walk_mid (xfrac 1 2) hip_bones []
    = Evaluate (reset_cursors walk_mid) (xfrac 1 2) hip_bones [].
  Proof.
    assert (Hinv : evaluator_inv hip_bones walk_mid)
      by (apply evaluator_invb_sound; reflexivity).
    split; [exact Hinv|]. apply Evaluate_seek_transparent. exact Hinv.
  Defined.

Lemma Evaluate_run_refines_witness :
    evaluator_inv hip_bones walk_mid /\
    run_evaluations Evaluate walk_mid [xfrac 5 2; xfrac 8 5; xfrac 1 2] hip_bones []
    = run_evaluations Evaluate_ref walk_mid [xfrac 5 2; xfrac 8 5; xfrac 1 2] hip_bones [].
  Proof.
    assert (Hinv : evaluator_inv hip_bones walk_mid)
      by (apply evaluator_invb_sound; reflexivity).
    split; [exact Hinv|]. apply Evaluate_run_refines. exact Hinv.
  Defined.

Lemma Evaluate_defined_inv_witness :
    evaluator_inv hip_bones walk_mid /\
    (forall n p, hip_bones !! n = Some p -> bone_live ([] : list (nat * mat4)) p) /\
    exists ev' h', Evaluate walk_mid (xfrac 5 2) hip_bones [] = Some (ev', h') /\
      evaluator_inv hip_bones ev' /\
      (forall q, bone_live ([] : list (nat * mat4)) q -> bone_live h' q).
  Proof.
    assert (Hinv : evaluator_inv hip_bones walk_mid)
      by (apply evaluator_invb_sound; reflexivity).
    assert (Hlive : forall n p, hip_bones !! n = Some p -> bone_live ([] : list (nat * mat4)) p)
      by (intros; simpl; exact I).
    split; [exact Hinv|]. split; [exact Hlive|].
    apply Evaluate_defined_inv; [exact Hinv|exact Hlive].
  Defined.
End EvaluateScenarios.

(** ** Frame lookup on exact arithmetic *)

Section FrameIndex.
  Local Open Scope Q_scope.

  (** For forward playback, positive duration, non-negative scaled time
      and between 1 and [2^32] frames, the index is below the frame count. *)
Lemma GetFrameIndexAt_forward_lt (ev : cAnimEvaluator) (d tps t : Q) :
    PlayAnimationForward ev = Some true ->
    Duration ev = XFin d -> 0 < d ->
    TicksPerSecond ev = XFin tps -> 0 <= t * tps ->
    (0 < length (Transforms ev))%nat ->
    (Z.of_nat (length (Transforms ev)) <= 2 ^ 32)%Z ->
    exists i, GetFrameIndexAt ev (XFin t) = Some i /\
              (N.to_nat i < length (Transforms ev))%nat.
  Proof.
    intros Hfwd Hd Hd0 Htps Ht Hn Hn32.
    unfold GetFrameIndexAt, wrap_time. rewrite Hfwd, Hd, Htps. cbn [fmul fdiv fmod dlt d_of_f d_of_Z f_of_Z exact_float_ops].
    assert (Hlt : xlt (XFin (inject_Z 0)) (XFin d) = true).
    { simpl. apply negb_true_iff, Qle_bool_false_iff. done. }
    rewrite Hlt.
    destruct (xmod_pos_range (Qred (t * tps)) d) as (r & Er & Hr0 & Hr1);
      [by rewrite Qred_correct|done|].
    change (xmul (XFin t) (XFin tps)) with (XFin (Qred (t * tps))).
    change (f_to_u32 ?x) with (xto_u32 x). rewrite Er.
    destruct (xdiv_unit r d Hr0 Hr1) as (p & Ep & Hp0 & Hp1). rewrite Ep.
    destruct (xmul_count_lt (Z.of_nat (length (Transforms ev))) p) as (m & Em & Hm0 & Hm1);
      [lia|done|done|].
    rewrite Em.
    destruct (xto_u32_lt m (Z.of_nat (length (Transforms ev)))) as (i & Ei & Hi); [done|done|done|].
    exists i. split; [exact Ei|]. lia.
  Qed.

  (** C20. The frame index stays in range for forward playback: with a
      positive duration, a non-negative scaled time and between 1 and
      [2^32] baked frames, [GetFrameIndexAt] converts a value in
      [[0, frames)] and returns an index of a baked frame, however large
      the time (it wraps). *)
Theorem GetFrameIndexAt_in_range (ev : cAnimEvaluator) (d tps t : Q) :
    PlayAnimationForward ev = Some true ->
    Duration ev = XFin d -> 0 < d ->
    TicksPerSecond ev = XFin tps -> 0 <= t * tps ->
    (0 < length (Transforms ev))%nat ->
    (Z.of_nat (length (Transforms ev)) <= 2 ^ 32)%Z ->
    exists i, GetFrameIndexAt ev (XFin t) = Some i /\
              (N.to_nat i < length (Transforms ev))%nat.
  Proof. apply GetFrameIndexAt_forward_lt. Qed.

  (** C34. A negative time is not wrapped into [[0, Duration)]: for
      forward playback, a scaled time [a] in [(-Duration, 0]] is kept by
      [fmod], the percent is [a / Duration], and as soon as
      [frames * a <= -Duration] the conversion of [frames * percent <= -1]
      to [unsigned int] is undefined. *)
Theorem GetFrameIndexAt_negative_time (ev : cAnimEvaluator) (d tps t : Q) :
    PlayAnimationForward ev = Some true ->
    Duration ev = XFin d -> 0 < d ->
    TicksPerSecond ev = XFin tps -> - d < t * tps ->
    t * tps * inject_Z (Z.of_nat (length (Transforms ev))) <= - d ->
    GetFrameIndexAt ev (XFin t) = None.
  Proof.
    intros Hfwd Hd Hd0 Htps Ht1 Ht2.
    assert (Ht0 : t * tps <= 0).
    { set (n := inject_Z (Z.of_nat (length (Transforms ev)))) in * .
      assert (0 <= n) by (unfold n; change 0 with (inject_Z 0); rewrite <- Zle_Qle; lia). nra. }
    unfold GetFrameIndexAt, wrap_time. rewrite Hfwd, Hd, Htps. cbn [fmul fdiv fmod dlt d_of_f d_of_Z f_of_Z exact_float_ops].
    assert (Hlt : xlt (XFin (inject_Z 0)) (XFin d) = true).
    { simpl. apply negb_true_iff, Qle_bool_false_iff. done. }
    rewrite Hlt. change (xmul (XFin t) (XFin tps)) with (XFin (Qred (t * tps))).
    change (f_to_u32 ?x) with (xto_u32 x).
    rewrite xmod_neg_small by (rewrite ?Qred_correct; lra).
    unfold xdiv, xmul, ExactFloat.fin. rewrite qzero_b_pos by done. apply xto_u32_neg.
    rewrite !Qred_correct. set (n := inject_Z (Z.of_nat (length (Transforms ev)))) in * .
    assert (E : n * (t * tps / d) * d == t * tps * n) by (field; lra).
    nra.
  Qed.
  (** C31. Backward playback reads past the baked frames: at a scaled
      time that is a whole number of durations, [fmod] gives 0, the
      inverted percent is 1 and [GetFrameIndexAt] returns the number of
      frames, so [GetTransforms] indexes one past the end of [Transforms]
      (undefined behaviour). *)
Theorem GetTransforms_backward_at_zero (ev : cAnimEvaluator) (d tps t : Q) (k : Z) :
    PlayAnimationForward ev = Some false ->
    Duration ev = XFin d -> 0 < d -> TicksPerSecond ev = XFin tps ->
    t * tps == inject_Z k * d ->
    (Z.of_nat (length (Transforms ev)) < 2 ^ 32)%Z ->
    GetFrameIndexAt ev (XFin t) = Some (N.of_nat (length (Transforms ev))) /\
    GetTransforms ev (XFin t) = None.
  Proof.
    intros Hbwd Hd Hd0 Htps Hk Hn.
    assert (Hi : GetFrameIndexAt ev (XFin t) = Some (N.of_nat (length (Transforms ev)))).
    { unfold GetFrameIndexAt, wrap_time. rewrite Hbwd, Hd, Htps.
      cbn [fmul fdiv fsub fmod dlt d_of_f d_of_Z f_of_Z exact_float_ops].
      assert (Hlt : xlt (XFin (inject_Z 0)) (XFin d) = true).
      { simpl. apply negb_true_iff, Qle_bool_false_iff. done. }
      rewrite Hlt. change (xmul (XFin t) (XFin tps)) with (XFin (Qred (t * tps))).
      change (f_to_u32 ?x) with (xto_u32 x).
      rewrite (xmod_multiple _ _ k) by (rewrite ?Qred_correct; done).
      unfold xdiv. rewrite qzero_b_pos by done.
      rewrite (fin_Qeq (0 / d) 0) by (field; lra).
      set (n := Z.of_nat (length (Transforms ev))).
      assert (E : xmul (XFin (inject_Z n)) (xmul (xsub (ExactFloat.fin 0) (XFin (inject_Z 1)))
                                             (XFin (inject_Z (-1)))) = ExactFloat.fin (inject_Z n)).
      { cbn -[Qred]. unfold ExactFloat.fin. f_equal. apply Qred_complete. rewrite !Qred_correct. ring. }
      rewrite E, xto_u32_int by lia. f_equal. unfold n. lia. }
    split; [exact Hi|]. unfold GetTransforms. rewrite Hi. cbn [mbind option_bind].
    apply lookup_ge_None_2. lia.
  Qed.
End FrameIndex.

Section FrameIndexErrors.

Lemma GetFrameIndexAt_in_range_witness :
    exists i, GetFrameIndexAt (baked true) (XFin {| Qnum := 1000001; Qden := 2 |}) = Some i /\
              (N.to_nat i < length (Transforms (baked true)))%nat.
  Proof.
    apply (GetFrameIndexAt_in_range (baked true) 3 1); try reflexivity; simpl; (lra || lia).
  Defined.

Lemma GetTransforms_backward_at_zero_baked :
    GetFrameIndexAt (baked false) (XFin 3) = Some (N.of_nat (length (Transforms (baked false)))) /\
    GetTransforms (baked false) (XFin 3) = None.
  Proof. apply (GetTransforms_backward_at_zero _ 3 1 3 1); reflexivity. Defined.

Lemma GetFrameIndexAt_negative_time_half :
    GetFrameIndexAt (baked true) (XFin (Qmake (-1) 2)) = None.
  Proof.
    apply (GetFrameIndexAt_negative_time _ 3 1); try reflexivity. apply Qle_bool_iff. reflexivity.
  Defined.

  (** C35. With a zero duration the percent is [0/0], NaN, and the
      conversion of [frames * NaN] to [unsigned int] is undefined, whatever
      the time, the direction and the number of frames. *)
Theorem GetFrameIndexAt_zero_duration (ev : cAnimEvaluator) t fwd :
    Duration ev = XFin 0 -> PlayAnimationForward ev = Some fwd ->
    GetFrameIndexAt ev t = None.
  Proof.
    intros Hd Hf. unfold GetFrameIndexAt, wrap_time. rewrite Hd, Hf. simpl.
    by destruct fwd.
  Qed.

Lemma GetFrameIndexAt_zero_duration_witness :
    Duration (mkEvaluator "pose" [] (Some false) (#0) (#1) (#0) [] [[]]) = XFin 0 /\
    PlayAnimationForward (mkEvaluator "pose" [] (Some false) (#0) (#1) (#0) [] [[]]) = Some false /\
    GetFrameIndexAt (mkEvaluator "pose" [] (Some false) (#0) (#1) (#0) [] [[]]) (#5) = None.
  Proof.
    split; [reflexivity|]. split; [reflexivity|].
    apply (GetFrameIndexAt_zero_duration _ (#5) false); reflexivity.
  Defined.
End FrameIndexErrors.

Section ConstructorErrors.
  Context `{FloatOps}.

  (** The constructor from an [aiAnimation] leaves
      [PlayAnimationForward] uninitialised, so [GetFrameIndexAt] (and every
      [GetTransforms]) on an evaluator built by it reads an indeterminate
      value until [PlayAnimationForward()] or [PlayAnimationBackward()] is
      called. *)
Theorem new_cAnimEvaluator_frame_index_undefined (pAnim : Ai.aiAnimation) t :
    GetFrameIndexAt (new_cAnimEvaluator pAnim) t = None.
  Proof. reflexivity. Qed.
End ConstructorErrors.
