(* ===== verification/Skeleton.v ===== *)
(** * Skeleton.v: the bone tree ([cBone]) and its global transforms

    [cBone] (cAnimationController.h, lines 13-23) is a node of the
    skeleton: a name, four matrices, a raw [Parent] pointer and a vector of
    owned [Children] pointers.  The model keeps the bones in a heap: a map
    from addresses to [cBone] cells and the next fresh address ([new cBone]
    never reuses an address).  Pointers are addresses; a null [Parent] is
    [None].  This file models the methods of [SceneAnimator] that build and
    walk the tree:
    - [CreateBoneTree] (cAnimationController.cpp, lines 427-443): allocate
      a bone per node of the imported [aiNode] tree, in pre-order, register
      it in [BonesByName], set its local transform (transposed), compute its
      global transform, then build and attach the children;
    - [CalculateBoneToWorldTransform] (lines 455-462): the global transform
      is the local one multiplied on the right by the local transform of
      every ancestor, walking the [Parent] pointers up to the root;
    - [UpdateTransforms] (lines 447-451): recompute the global transform of
      a node and, recursively, of its children.

    The heap implements the [BoneHeap] interface the evaluator writes
    through.  The parent walk and the recursion over children are bounded
    by the number of addresses allocated: on a well-formed heap (parents at
    smaller addresses, children at larger ones, the shape [CreateBoneTree]
    builds) every walk ends within it (theorems [UpdateTransforms_correct]
    and [CreateBoneTree_wf]). *)

From S2P Require Import Prelude Float ExactFloat Channel Evaluator.
From stdpp Require Import base list strings gmap.
From Stdlib Require Import Lia.

Section Skeleton.
  Context `{FloatOps}.

  (** [class cBone] *)
Record cBone := mkBone {
    Name : string;
    Offset : mat4;
    LocalTransform : mat4;
    GlobalTransform : mat4;
    OriginalLocalTransform : mat4;
    Parent : option nat;
    Children : list nat }.

  (** [cBone() : Parent(0) {}]: the matrices are default-constructed. *)
Definition new_cBone : cBone :=
    mkBone "" mat_identity mat_identity mat_identity mat_identity None [].

Definition set_Name (s : string) (b : cBone) : cBone :=
    mkBone s (Offset b) (LocalTransform b) (GlobalTransform b)
      (OriginalLocalTransform b) (Parent b) (Children b).
Definition set_Parent (p : option nat) (b : cBone) : cBone :=
    mkBone (Name b) (Offset b) (LocalTransform b) (GlobalTransform b)
      (OriginalLocalTransform b) p (Children b).
Definition set_Offset (m : mat4) (b : cBone) : cBone :=
    mkBone (Name b) m (LocalTransform b) (GlobalTransform b)
      (OriginalLocalTransform b) (Parent b) (Children b).
Definition set_Local (m : mat4) (b : cBone) : cBone :=
    mkBone (Name b) (Offset b) m (GlobalTransform b)
      (OriginalLocalTransform b) (Parent b) (Children b).
Definition set_Global (m : mat4) (b : cBone) : cBone :=
    mkBone (Name b) (Offset b) (LocalTransform b) m
      (OriginalLocalTransform b) (Parent b) (Children b).
Definition set_Original (m : mat4) (b : cBone) : cBone :=
    mkBone (Name b) (Offset b) (LocalTransform b) (GlobalTransform b)
      m (Parent b) (Children b).
  (** [Children.push_back(c)] *)
Definition push_child (c : nat) (b : cBone) : cBone :=
    mkBone (Name b) (Offset b) (LocalTransform b) (GlobalTransform b)
      (OriginalLocalTransform b) (Parent b) (Children b ++ [c]).

  (** The heap of bones. *)
Record bone_heap := mkHeap {
    cells : gmap nat cBone;
    next_addr : nat }.

  (** [new cBone()] *)
Definition bone_new (h : bone_heap) : nat * bone_heap :=
    (next_addr h, mkHeap (<[next_addr h := new_cBone]> (cells h)) (S (next_addr h))).

  (** [p->field = ...] through a pointer: undefined on a dangling pointer. *)
Definition bone_update (a : nat) (f : cBone -> cBone) (h : bone_heap) : option bone_heap :=
    b ← cells h !! a;
    Some (mkHeap (<[a := f b]> (cells h)) (next_addr h)).

  (** [while (parent) { child->GlobalTransform *= parent->LocalTransform;
      parent = parent->Parent; }] *)
Fixpoint parent_walk (fuel : nat) (cs : gmap nat cBone) (acc : mat4)
      (parent : option nat) : option mat4 :=
    match parent with
    | None => Some acc
    | Some p =>
        match fuel with
        | O => None
        | S fuel' => b ← cs !! p; parent_walk fuel' cs (mat_mul acc (LocalTransform b)) (Parent b)
        end
    end.

  (** [void SceneAnimator::CalculateBoneToWorldTransform(cBone* child)] *)
Definition CalculateBoneToWorldTransform (child : nat) (h : bone_heap) : option bone_heap :=
    b ← cells h !! child;
    g ← parent_walk (next_addr h) (cells h) (LocalTransform b) (Parent b);
    bone_update child (set_Global g) h.

  (** [void SceneAnimator::UpdateTransforms(cBone* pNode)] *)
Fixpoint update_transforms (fuel : nat) (h : bone_heap) (n : nat) : option bone_heap :=
    match fuel with
    | O => None
    | S fuel' =>
        h ← CalculateBoneToWorldTransform n h;
        b ← cells h !! n;
        fold_opt (fun c h => update_transforms fuel' h c) (Children b) h
    end.

Definition UpdateTransforms (n : nat) (h : bone_heap) : option bone_heap :=
    update_transforms (S (next_addr h)) h n.

  (** [aiNode]: the imported scene graph (assimp). *)
Inductive aiNode := mkAiNode (mName : string) (mTransformation : mat4) (mChildren : list aiNode).

  (** The loop of [CreateBoneTree] over the children of a node:
      [for (a < pNode->mNumChildren)
         internalNode->Children.push_back(CreateBoneTree(pNode->mChildren[a], internalNode));]
      with the recursive call as a parameter. *)
Fixpoint build_children
      (create : aiNode -> option nat -> bone_heap * gmap string nat ->
                option (nat * (bone_heap * gmap string nat)))
      (a : nat) (kids : list aiNode) (st : bone_heap * gmap string nat)
    : option (bone_heap * gmap string nat) :=
    match kids with
    | [] => Some st
    | k :: ks =>
        '(c, (h, byname)) ← create k (Some a) st;
        h ← bone_update a (push_child c) h;
        build_children create a ks (h, byname)
    end.

  (** [cBone* SceneAnimator::CreateBoneTree(aiNode* pNode, cBone* pParent)]:
      returns the new bone's address; [BonesByName] is threaded along. *)
Fixpoint CreateBoneTree (n : aiNode) (parent : option nat)
      (st : bone_heap * gmap string nat) : option (nat * (bone_heap * gmap string nat)) :=
    let '(mkAiNode name tr kids) := n in
    let '(h, byname) := st in
    let '(a, h) := bone_new h in
    h ← bone_update a (fun b => set_Parent parent (set_Name name b)) h;
    let byname := <[name := a]> byname in
    let local := transpose (TransformMatrix tr) in
    h ← bone_update a (fun b => set_Original local (set_Local local b)) h;
    h ← CalculateBoneToWorldTransform a h;
    st ← build_children (fun k => CreateBoneTree k) a kids (h, byname);
    Some (a, st).

  (** ** Well-formedness and the specification of global transforms *)

  (** Every allocated bone is below [next_addr]; its parent is at a smaller
      address and its children at larger ones, all allocated. *)
Definition heap_wf (h : bone_heap) : Prop :=
    forall a b, cells h !! a = Some b ->
      a < next_addr h /\
      (forall p, Parent b = Some p -> p < a /\ is_Some (cells h !! p)) /\
      (forall c, c ∈ Children b -> a < c /\ is_Some (cells h !! c)).

  (** [heap_wf] as a boolean, to check it on a concrete heap. *)
Definition heap_wfb (h : bone_heap) : bool :=
    forallb (fun '(a, b) =>
      (a <? next_addr h) &&
      match Parent b with
      | Some p => (p <? a) && bool_decide (is_Some (cells h !! p))
      | None => true
      end &&
      forallb (fun c => (a <? c) && bool_decide (is_Some (cells h !! c))) (Children b))
      (map_to_list (cells h)).

  (** [names_ok] as a boolean. *)
Definition names_okb (h : bone_heap) (byname : gmap string nat) : bool :=
    forallb (fun '(k, x) =>
      match cells h !! x with Some b => String.eqb (Name b) k | None => false end)
      (map_to_list byname).

  (** The heap before any bone is built. *)
Definition empty_bone_heap : bone_heap := mkHeap ∅ 0.

  (** [chain cs acc parent g]: [g] is [acc] multiplied on the right by the
      local transforms of [parent] and its ancestors, in that order. *)
Inductive chain (cs : gmap nat cBone) : mat4 -> option nat -> mat4 -> Prop :=
  | chain_root acc : chain cs acc None acc
  | chain_up acc p b g :
      cs !! p = Some b ->
      chain cs (mat_mul acc (LocalTransform b)) (Parent b) g ->
      chain cs acc (Some p) g.

  (** The global transform of [a] is the one its ancestors determine. *)
Definition global_ok (cs : gmap nat cBone) (a : nat) : Prop :=
    exists b, cs !! a = Some b /\ chain cs (LocalTransform b) (Parent b) (GlobalTransform b).

  (** The nodes reachable from [r] through [Children]. *)
Inductive in_subtree (cs : gmap nat cBone) (r : nat) : nat -> Prop :=
  | sub_root : in_subtree cs r r
  | sub_child a b c :
      in_subtree cs r a -> cs !! a = Some b -> c ∈ Children b -> in_subtree cs r c.

  (** A heap with every global transform forgotten, and the equivalence
      of heaps that differ only in their global transforms (what
      [CalculateBoneToWorldTransform] and [UpdateTransforms] change). *)
Definition erase (h : bone_heap) : gmap nat cBone * nat :=
    (set_Global mat_identity <$> cells h, next_addr h).

Definition same_shape (h h' : bone_heap) : Prop := erase h = erase h'.

  (** [cs'] extends [cs]: every bone of [cs] is in [cs'] with the same
      local and global transforms and parent ([Children] may grow).  What
      building more of the tree does to the bones already built. *)
Definition bone_extends (cs cs' : gmap nat cBone) : Prop :=
    forall a b, cs !! a = Some b -> exists b', cs' !! a = Some b' /\
      LocalTransform b' = LocalTransform b /\ GlobalTransform b' = GlobalTransform b /\
      Parent b' = Parent b.

  (** Every bone [BonesByName] names is allocated and carries that name. *)
Definition names_ok (h : bone_heap) (byname : gmap string nat) : Prop :=
    forall k x, byname !! k = Some x -> exists b, cells h !! x = Some b /\ Name b = k.

  (** What [CreateBoneTree] promises for a node [k]: from a well-formed
      heap and a parent that is allocated, it is defined, returns the next
      address, keeps the heap well formed and the names allocated, allocates
      at least that bone, leaves the bones already built as they were,
      every bone it allocates has a correct global transform, and the bone
      at the returned address has the given parent. *)
Definition create_ok
      (create : aiNode -> option nat -> bone_heap * gmap string nat ->
                option (nat * (bone_heap * gmap string nat))) (k : aiNode) : Prop :=
    forall p h byname, heap_wf h -> names_ok h byname ->
      (forall q, p = Some q -> is_Some (cells h !! q)) ->
      exists h' byname', create k p (h, byname) = Some (next_addr h, (h', byname')) /\
        heap_wf h' /\ names_ok h' byname' /\ next_addr h < next_addr h' /\
        bone_extends (cells h) (cells h') /\
        (forall x, next_addr h <= x < next_addr h' -> global_ok (cells h') x) /\
        (exists b, cells h' !! next_addr h = Some b /\ Parent b = p).
End Skeleton.

Arguments cBone {_}.
Arguments bone_heap {_}.
Arguments aiNode {_}.

(** The skeleton's heap is the bone heap [Evaluate] writes through. *)
#[export] Instance skeleton_bone_heap `{FloatOps} : BoneHeap bone_heap := {|
  set_local_transform p m h := bone_update p (set_Local m) h |}.

(** ** A concrete skeleton (exact arithmetic) *)

Section SkeletonScenarios.
  (** An imported node whose transformation is a translation: assimp's
      column-vector matrix, which [CreateBoneTree] transposes into the
      engine's row-vector [translation]. *)
Definition trans_node (name : string) (x y z : Z) (kids : list aiNode) : aiNode :=
    mkAiNode name (transpose (translation x y z)) kids.

  (** [root] (moved by [(1,0,0)]) with children [arm] (by [(0,2,0)]),
      itself the parent of [hand] (by [(0,0,3)]), and [tail] (by [(5,0,0)]). *)
Definition arm_tree : aiNode :=
    trans_node "root" 1 0 0
      [trans_node "arm" 0 2 0 [trans_node "hand" 0 0 3 []]; trans_node "tail" 5 0 0 []].

  (** [Skeleton = CreateBoneTree(pScene->mRootNode, NULL)] on an empty heap. *)
Definition arm_skeleton : bone_heap * gmap string nat :=
    match CreateBoneTree arm_tree None (empty_bone_heap, ∅) with
    | Some (_, st) => st
    | None => (empty_bone_heap, ∅)
    end.

  (** The skeleton after an animation wrote a new local transform into
      [arm] (address 1) through [BoneHeap], before [UpdateTransforms]. *)
Definition arm_posed : bone_heap :=
    default (fst arm_skeleton) (set_local_transform 1 (translation 0 5 0) (fst arm_skeleton)).

Definition global_of (h : bone_heap) (a : nat) : option mat4 := GlobalTransform <$> cells h !! a.
End SkeletonScenarios.

(** ** Heaps of the same shape *)

#[export] Instance same_shape_equiv `{FloatOps} : Equivalence (@same_shape _).
Proof. unfold same_shape. split; [done | by intros ?? -> | by intros ??? -> ->]. Qed.

Section Shape.
  Context `{FloatOps}.
  Implicit Types h : bone_heap.

Lemma set_Global_Global g b : set_Global g b = set_Global g (set_Global mat_identity b).
Proof. by destruct b. Qed.

Lemma same_shape_next h h' : same_shape h h' -> next_addr h = next_addr h'.
Proof. by intros [=]. Qed.

  (** A bone of one heap has, in a heap of the same shape, a bone at the
      same address that differs at most in its global transform. *)
Lemma same_shape_lookup h h' a b :
    same_shape h h' -> cells h !! a = Some b -> exists g, cells h' !! a = Some (set_Global g b).
Proof.
    intros [= E _] Hb. assert (L := f_equal (lookup a) E). rewrite !lookup_fmap, Hb in L.
    destruct (cells h' !! a) as [b'|]; simpl in L; [|done].
    exists (GlobalTransform b'). injection L. destruct b, b'; simpl. intros; by simplify_eq.
Qed.

Lemma same_shape_is_Some h h' a :
    same_shape h h' -> is_Some (cells h !! a) -> is_Some (cells h' !! a).
Proof. intros E [b Hb]. destruct (same_shape_lookup _ _ _ _ E Hb) as [g ->]. by eexists. Qed.

Lemma chain_shape h h' acc p g :
    same_shape h h' -> chain (cells h) acc p g -> chain (cells h') acc p g.
Proof.
    intros E Hc. induction Hc as [|acc q b g Hq Hc IH]; [constructor|].
    destruct (same_shape_lookup _ _ _ _ E Hq) as [g' Hq'].
    eapply chain_up; [exact Hq'|]. by destruct b.
Qed.

Lemma in_subtree_shape h h' r a :
    same_shape h h' -> in_subtree (cells h) r a -> in_subtree (cells h') r a.
Proof.
    intros E Hs. induction Hs as [|a b c Hs IH Hb Hc]; [constructor|].
    destruct (same_shape_lookup _ _ _ _ E Hb) as [g Hb'].
    eapply sub_child; [exact IH | exact Hb' | by destruct b].
Qed.

Lemma heap_wf_shape h h' : same_shape h h' -> heap_wf h -> heap_wf h'.
Proof.
    intros E Hwf a b' Hb'. rewrite <- (same_shape_next _ _ E).
    destruct (same_shape_lookup _ _ _ _ (symmetry E) Hb') as [g Hb].
    destruct (Hwf _ _ Hb) as (Ha & Hp & Hc).
    split_and!; [done| |].
    - intros p Hpp. destruct (Hp p Hpp). split; [done|]. by eapply same_shape_is_Some.
    - intros c Hcc. destruct (Hc c Hcc). split; [done|]. by eapply same_shape_is_Some.
Qed.
End Shape.

#[export] Instance heap_wf_proper `{FloatOps} : Proper (same_shape ==> iff) heap_wf.
Proof. intros h h' E. split; apply heap_wf_shape; [done | by symmetry]. Qed.

(** ** The parent walk and [CalculateBoneToWorldTransform] *)

Section Calc.
  Context `{FloatOps}.
  Implicit Types h : bone_heap.

Lemma bone_update_spec a f h b :
    cells h !! a = Some b -> bone_update a f h = Some (mkHeap (<[a := f b]> (cells h)) (next_addr h)).
Proof. intros Hb. unfold bone_update. by rewrite Hb. Qed.

  (** Writing a global transform keeps the shape of the heap. *)
Lemma set_Global_shape h a b g :
    cells h !! a = Some b -> same_shape h (mkHeap (<[a := set_Global g b]> (cells h)) (next_addr h)).
Proof.
    intros Hb. unfold same_shape, erase; simpl. f_equal. rewrite fmap_insert.
    replace (set_Global mat_identity (set_Global g b)) with (set_Global mat_identity b) by (by destruct b).
    symmetry. apply insert_id. by rewrite lookup_fmap, Hb.
Qed.

Lemma parent_walk_sound fuel cs acc p g :
    parent_walk fuel cs acc p = Some g -> chain cs acc p g.
Proof.
    revert acc p. induction fuel as [|f IH]; intros acc [q|]; simpl; intros E; simplify_eq;
      try constructor.
    destruct (cs !! q) as [b|] eqn:Hq; simpl in E; [|done].
    eapply chain_up; [done|]. by apply IH.
Qed.

  (** On a well-formed heap the walk from a parent below [fuel] ends: every
      step goes to a smaller address. *)
Lemma parent_walk_complete h fuel acc p :
    heap_wf h -> (forall q, p = Some q -> q < fuel /\ is_Some (cells h !! q)) ->
    is_Some (parent_walk fuel (cells h) acc p).
Proof.
    intros Hwf. revert acc p. induction fuel as [|f IH]; intros acc [q|] Hp; simpl;
      try by eexists.
    - destruct (Hp q eq_refl). lia.
    - destruct (Hp q eq_refl) as [Hq [b Hb]]. rewrite Hb; simpl. apply IH.
      intros q' Hq'. destruct (Hwf _ _ Hb) as (_ & Hpar & _).
      destruct (Hpar q' Hq'). split; [lia|done].
Qed.

  (** [CalculateBoneToWorldTransform x] is defined on an allocated bone of a
      well-formed heap, sets the global transform of [x] to the product
      along its ancestors, and changes nothing else. *)
Lemma calc_spec h x b :
    heap_wf h -> cells h !! x = Some b ->
    exists h', CalculateBoneToWorldTransform x h = Some h' /\ same_shape h h' /\
      global_ok (cells h') x /\ forall a, a <> x -> cells h' !! a = cells h !! a.
Proof.
    intros Hwf Hb. unfold CalculateBoneToWorldTransform. rewrite Hb; simpl.
    destruct (parent_walk_complete h (next_addr h) (LocalTransform b) (Parent b)) as [g Hg];
      [done| |].
    { intros q Hq. destruct (Hwf _ _ Hb) as (Hx & Hpar & _). destruct (Hpar q Hq). split; [lia|done]. }
    rewrite Hg; simpl. rewrite (bone_update_spec _ _ _ _ Hb).
    eexists; split_and!; [reflexivity | by apply set_Global_shape | |].
    - exists (set_Global g b). split; [simpl; by rewrite lookup_insert_eq|].
      apply (chain_shape h (mkHeap (<[x := set_Global g b]> (cells h)) (next_addr h)));
        [by apply set_Global_shape|].
      by apply parent_walk_sound with (next_addr h).
    - intros a Ha. simpl. by rewrite lookup_insert_ne.
Qed.

  (** A bone whose cell is unchanged keeps a correct global transform. *)
Lemma global_ok_frame h h' a :
    same_shape h h' -> cells h' !! a = cells h !! a -> global_ok (cells h) a -> global_ok (cells h') a.
Proof.
    intros E Ha (b & Hb & Hc). exists b. split; [by rewrite Ha|]. by apply (chain_shape h).
Qed.
End Calc.

(** The skeleton keeps the promise [Evaluate] relies on: a write into an
    allocated bone is defined and frees nothing. *)
#[export] Program Instance skeleton_bone_heap_laws `{FloatOps} : BoneHeapLaws bone_heap := {|
  bone_live h p := is_Some (cells h !! p) |}.
Next Obligation.
  intros ? h p m [b Hb]. simpl. rewrite (bone_update_spec _ _ _ _ Hb).
  eexists. split; [done|]. intros q Hq. simpl. apply lookup_insert_is_Some'. by right.
Qed.

(** ** [UpdateTransforms] *)

Section Update.
  Context `{FloatOps}.
  Implicit Types h : bone_heap.

Lemma in_subtree_inv cs r a :
    in_subtree cs r a ->
    a = r \/ exists b c, cs !! r = Some b /\ c ∈ Children b /\ in_subtree cs c a.
Proof.
    induction 1 as [|a b c Hs IH Hb Hc]; [by left|right].
    destruct IH as [-> | (b' & c' & Hr & Hc' & Hs')].
    - exists b, c. split_and!; [done|done|constructor].
    - exists b', c'. split_and!; [done|done|]. by eapply sub_child.
Qed.

  (** [update_transforms fuel h n], on a bone [n] of a well-formed heap with
      fuel above [next_addr - n], is defined, keeps the shape, makes the
      global transform of every bone below [n] correct and keeps every
      correct one correct.  By induction on the fuel; the loop over the
      children by [fold_opt_prefix]. *)
Lemma update_transforms_spec fuel : forall h n b,
    heap_wf h -> cells h !! n = Some b -> next_addr h <= n + fuel ->
    exists h', update_transforms fuel h n = Some h' /\ same_shape h h' /\
      (forall a, in_subtree (cells h) n a -> global_ok (cells h') a) /\
      (forall a, global_ok (cells h) a -> global_ok (cells h') a).
Proof.
    induction fuel as [|f IH]; intros h n b Hwf Hb Hfuel.
    { destruct (Hwf _ _ Hb). lia. }
    simpl. destruct (calc_spec h n b Hwf Hb) as (h1 & -> & E1 & Hok1 & Hfr1). simpl.
    destruct (same_shape_lookup _ _ _ _ E1 Hb) as [g ->]. simpl.
    destruct (fold_opt_prefix (fun pre s => same_shape h s /\
        (forall c a, c ∈ pre -> in_subtree (cells h) c a -> global_ok (cells s) a) /\
        (forall a, global_ok (cells h1) a -> global_ok (cells s) a))
        (fun c h => update_transforms f h c) (Children b) h1)
      as (h3 & -> & E3 & Hsub3 & Hmono3).
    - split_and!; [done | by intros ?? []%elem_of_nil | done].
    - intros pre c post s Hl (Es & Hsub & Hmono).
      assert (Hc : c ∈ Children b) by (rewrite Hl; set_solver).
      destruct (Hwf _ _ Hb) as (Hn & _ & Hch). destruct (Hch c Hc) as [Hnc [bc Hbc]].
      destruct (same_shape_lookup _ _ _ _ Es Hbc) as [gc Hbc'].
      destruct (IH s c _ (heap_wf_shape _ _ Es Hwf) Hbc') as (s' & -> & Es' & Hsub' & Hmono').
      { rewrite <- (same_shape_next _ _ Es). lia. }
      exists s'. split_and!; [done | by etransitivity | |].
      + intros c' a Hc' Ha. apply elem_of_app in Hc' as [Hc'|Hc'%list_elem_of_singleton]; [|subst c'].
        * apply Hmono'. by apply (Hsub c').
        * apply Hsub'. by apply (in_subtree_shape h).
      + intros a Ha. by apply Hmono', Hmono.
    - exists h3. split_and!; [done | by etransitivity | |].
      + intros a Ha. apply in_subtree_inv in Ha as [-> | (b' & c & Hb' & Hc & Ha)].
        * by apply Hmono3.
        * rewrite Hb in Hb'. simplify_eq. by apply (Hsub3 c).
      + intros a Ha. apply Hmono3. destruct (decide (a = n)) as [->|Hne]; [done|].
        eapply global_ok_frame; [done | by apply Hfr1 | done].
Qed.
End Update.

(** ** Building the tree *)

#[export] Instance bone_extends_preorder `{FloatOps} : PreOrder (@bone_extends _).
Proof.
  split.
  - intros cs a b Hb. by exists b.
  - intros cs1 cs2 cs3 E12 E23 a b Hb.
    destruct (E12 a b Hb) as (b2 & Hb2 & ? & ? & ?).
    destruct (E23 a b2 Hb2) as (b3 & Hb3 & ? & ? & ?). exists b3. split_and!; congruence.
Qed.

Section Build.
  Context `{FloatOps}.
  Implicit Types h : bone_heap.

Lemma chain_extends cs cs' acc p g : bone_extends cs cs' -> chain cs acc p g -> chain cs' acc p g.
Proof.
    intros E Hc. induction Hc as [|acc q b g Hq Hc IH]; [constructor|].
    destruct (E q b Hq) as (b' & Hq' & HL & _ & HP).
    eapply chain_up; [exact Hq'|]. by rewrite HL, HP.
Qed.

Lemma global_ok_extends cs cs' x : bone_extends cs cs' -> global_ok cs x -> global_ok cs' x.
Proof.
    intros E (b & Hb & Hc). destruct (E x b Hb) as (b' & Hb' & HL & HG & HP).
    exists b'. split; [done|]. rewrite HL, HG, HP. by eapply chain_extends.
Qed.

Lemma bone_extends_is_Some cs cs' x : bone_extends cs cs' -> is_Some (cs !! x) -> is_Some (cs' !! x).
Proof. intros E [b Hb]. destruct (E x b Hb) as (b' & -> & _). by eexists. Qed.

  (** A map that agrees with [cs] outside an address [cs] does not hold
      extends it. *)
Lemma bone_extends_fresh cs cs' a :
    cs !! a = None -> (forall x, x <> a -> cs' !! x = cs !! x) -> bone_extends cs cs'.
Proof.
    intros Ha Hfr x b Hb. exists b. split; [|done].
    rewrite Hfr; [done|]. intros ->. congruence.
Qed.

Lemma bone_extends_insert cs a b b' :
    cs !! a = Some b -> LocalTransform b' = LocalTransform b ->
    GlobalTransform b' = GlobalTransform b -> Parent b' = Parent b ->
    bone_extends cs (<[a := b']> cs).
Proof.
    intros Hb HL HG HP x c Hc. destruct (decide (x = a)) as [->|Hne].
    - rewrite Hb in Hc. simplify_eq. exists b'. by rewrite lookup_insert_eq.
    - exists c. by rewrite lookup_insert_ne.
Qed.

Lemma heap_wf_fresh h : heap_wf h -> cells h !! next_addr h = None.
Proof. intros Hwf. destruct (cells h !! next_addr h) as [b|] eqn:Hb; [|done]. destruct (Hwf _ _ Hb); lia. Qed.

  (** Writing a cell keeps the heap well formed when the cell's parent and
      children are where [heap_wf] wants them. *)
Lemma heap_wf_insert h a b' n :
    heap_wf h -> next_addr h <= n -> a < n ->
    (forall p, Parent b' = Some p -> p < a /\ is_Some (cells h !! p)) ->
    (forall c, c ∈ Children b' -> a < c /\ is_Some (cells h !! c)) ->
    heap_wf (mkHeap (<[a := b']> (cells h)) n).
Proof.
    intros Hwf Hn Ha HP HC x b. simpl. rewrite lookup_insert_Some.
    intros [[<- <-] | [Hne Hb]].
    - split_and!; [done| |].
      + intros p Hp. destruct (HP p Hp). split; [done|]. apply lookup_insert_is_Some'. by right.
      + intros c Hc. destruct (HC c Hc). split; [done|]. apply lookup_insert_is_Some'. by right.
    - destruct (Hwf _ _ Hb) as (Hx & Hp & Hc). split_and!; [lia| |].
      + intros p Hpp. destruct (Hp p Hpp). split; [done|]. apply lookup_insert_is_Some'. by right.
      + intros c Hcc. destruct (Hc c Hcc). split; [done|]. apply lookup_insert_is_Some'. by right.
Qed.

Lemma heap_wf_frame h a b b' :
    heap_wf h -> cells h !! a = Some b -> Parent b' = Parent b -> Children b' = Children b ->
    heap_wf (mkHeap (<[a := b']> (cells h)) (next_addr h)).
Proof.
    intros Hwf Hb HP HC. destruct (Hwf _ _ Hb) as (Ha & Hp & Hc).
    apply heap_wf_insert; [done|done|done| rewrite HP; apply Hp | rewrite HC; apply Hc].
Qed.

  (** Writing a cell keeps the names when it keeps the cell's name (or the
      cell was free). *)
Lemma names_ok_insert h byname a b' n :
    (forall b, cells h !! a = Some b -> Name b' = Name b) ->
    names_ok h byname -> names_ok (mkHeap (<[a := b']> (cells h)) n) byname.
Proof.
    intros Hname Hn k x Hx. destruct (Hn k x Hx) as (b & Hb & <-). simpl.
    destruct (decide (x = a)) as [->|Hne].
    - exists b'. rewrite lookup_insert_eq. split; [done|]. by apply Hname.
    - exists b. by rewrite lookup_insert_ne.
Qed.

Lemma names_ok_shape h h' byname : same_shape h h' -> names_ok h byname -> names_ok h' byname.
Proof.
    intros E Hn k x Hx. destruct (Hn k x Hx) as (b & Hb & <-).
    destruct (same_shape_lookup _ _ _ _ E Hb) as [g Hb']. exists (set_Global g b).
    split; [done|]. by destruct b.
Qed.

  (** [Children.push_back(c)] of a child at a larger, allocated address
      keeps the heap well formed and the names. *)
Lemma heap_wf_push_child h a b c :
    heap_wf h -> cells h !! a = Some b -> a < c -> is_Some (cells h !! c) ->
    heap_wf (mkHeap (<[a := push_child c b]> (cells h)) (next_addr h)).
Proof.
    intros Hwf Hb Hac Hc. destruct (Hwf _ _ Hb) as (Ha & Hp & Hcs).
    apply heap_wf_insert; [done|done|done|done|].
    intros c' Hc'. apply elem_of_app in Hc' as [Hc'|Hc'%list_elem_of_singleton]; [by apply Hcs|by subst].
Qed.

Lemma names_ok_push_child h byname a b c n :
    names_ok h byname -> cells h !! a = Some b ->
    names_ok (mkHeap (<[a := push_child c b]> (cells h)) n) byname.
Proof. intros Hn Hb. apply names_ok_insert; [|done]. intros b0 Hb0. rewrite Hb in Hb0. by simplify_eq. Qed.

  (** A new bone at [next_addr h] with an allocated parent and no children
      keeps the heap well formed. *)
Lemma heap_wf_new_bone h p b :
    heap_wf h -> (forall q, p = Some q -> is_Some (cells h !! q)) -> Parent b = p -> Children b = [] ->
    heap_wf (mkHeap (<[next_addr h := b]> (cells h)) (S (next_addr h))).
Proof.
    intros Hwf Hp HP HC. apply heap_wf_insert; [done|simpl; lia|lia| |by rewrite HC; intros ? []%elem_of_nil].
    rewrite HP. intros q Hq. destruct (Hp q Hq) as [bq Hbq]. destruct (Hwf _ _ Hbq). split; [done|by eexists].
Qed.

  (** Registering the new bone's name after its global transform is
      computed keeps [BonesByName] correct. *)
Lemma names_ok_new_bone h byname b h' :
    heap_wf h -> names_ok h byname ->
    same_shape (mkHeap (<[next_addr h := b]> (cells h)) (S (next_addr h))) h' ->
    names_ok h' (<[Name b := next_addr h]> byname).
Proof.
    intros Hwf Hn E k x Hk. apply lookup_insert_Some in Hk as [[<- <-]|[_ Hk]].
    - destruct (same_shape_lookup _ h' (next_addr h) b E) as [g Hg]; [apply lookup_insert_eq|].
      exists (set_Global g b). split; [done|by destruct b].
    - eapply names_ok_shape; [exact E| |exact Hk]. apply names_ok_insert; [|done].
      intros b0 Hb0. pose proof (heap_wf_fresh h Hwf). congruence.
Qed.
End Build.

Section BuildTree.
  Context `{FloatOps}.
  Implicit Types h : bone_heap.

  (** Induction on [aiNode] with a hypothesis for every child. *)
Lemma aiNode_ind' (P : aiNode -> Prop) :
    (forall name tr kids, Forall P kids -> P (mkAiNode name tr kids)) -> forall n, P n.
Proof.
    intros Hn. fix IH 1. intros [name tr kids]. apply Hn.
    induction kids as [|k ks IHk]; constructor; [apply IH | apply IHk].
Qed.

  (** The loop over the children: every child is built as [create_ok]
      promises and attached to [a]. *)
Lemma build_children_spec create a kids : Forall (create_ok create) kids ->
    forall h byname, heap_wf h -> names_ok h byname -> is_Some (cells h !! a) ->
    exists h' byname', build_children create a kids (h, byname) = Some (h', byname') /\
      heap_wf h' /\ names_ok h' byname' /\ next_addr h <= next_addr h' /\
      bone_extends (cells h) (cells h') /\
      (forall x, next_addr h <= x < next_addr h' -> global_ok (cells h') x).
Proof.
    induction 1 as [|k ks Hk Hks IH]; intros h byname Hwf Hn Ha; simpl.
    { exists h, byname. split_and!; [done|done|done|done|done|lia]. }
    destruct (Hk (Some a) h byname Hwf Hn) as (h1 & m1 & -> & Hwf1 & Hn1 & Hlt1 & E1 & Hok1 & _);
      [by intros q [= <-]|]. simpl.
    destruct (bone_extends_is_Some _ _ _ E1 Ha) as [b1 Hb1].
    rewrite (bone_update_spec _ _ _ _ Hb1). simpl.
    set (h2 := mkHeap (<[a := push_child (next_addr h) b1]> (cells h1)) (next_addr h1)).
    assert (E2 : bone_extends (cells h1) (cells h2)) by (by eapply bone_extends_insert).
    assert (Hwf2 : heap_wf h2).
    { destruct Ha as [b Hb]. destruct (Hwf _ _ Hb) as [Ha _].
      apply heap_wf_push_child; [done|done|done|]. destruct (Hok1 (next_addr h)) as (? & ? & _); [lia|by eexists]. }
    assert (Hn2 : names_ok h2 m1) by (by apply names_ok_push_child).
    destruct (IH h2 m1 Hwf2 Hn2) as (h3 & m3 & -> & Hwf3 & Hn3 & Hle3 & E3 & Hok3).
    { simpl. apply lookup_insert_is_Some'. by left. }
    exists h3, m3. simpl in Hle3. split_and!; [done|done|done|lia| by etransitivity; [|etransitivity] |].
    intros x Hx. destruct (decide (x < next_addr h1)).
    - apply (global_ok_extends (cells h2)); [done|]. apply (global_ok_extends (cells h1)); [done|].
      apply Hok1. lia.
    - apply Hok3. simpl. lia.
Qed.

  (** Every call of [CreateBoneTree] keeps its promise: by induction on the
      node, the children through [build_children_spec]. *)
Lemma CreateBoneTree_ok n : create_ok CreateBoneTree n.
Proof.
  revert n. apply aiNode_ind'. intros name tr kids Hkids p h byname Hwf Hn Hp.
  cbn [CreateBoneTree bone_new]. set (a := next_addr h).
  rewrite (bone_update_spec a _ _ new_cBone) by (simpl; apply lookup_insert_eq). simpl.
  rewrite insert_insert_eq.
  set (b2 := set_Parent p (set_Name name new_cBone)).
  rewrite (bone_update_spec a _ _ b2) by (simpl; apply lookup_insert_eq). simpl.
  rewrite insert_insert_eq.
  set (L := transpose (TransformMatrix tr)).
  set (h3 := mkHeap (<[a := set_Original L (set_Local L b2)]> (cells h)) (S a)).
  assert (Hwf3 : heap_wf h3) by (by apply (heap_wf_new_bone h p)).
  destruct (calc_spec h3 a (set_Original L (set_Local L b2))) as (h4 & -> & E34 & Hok4 & Hfr4);
    [done|apply lookup_insert_eq|]. simpl.
  assert (Hn4 : names_ok h4 (<[name := a]> byname)) by exact (names_ok_new_bone h byname _ h4 Hwf Hn E34).
  assert (E4 : bone_extends (cells h) (cells h4)).
  { apply (bone_extends_fresh _ _ a); [by apply heap_wf_fresh|].
    intros x Hx. rewrite Hfr4 by done. simpl. by rewrite lookup_insert_ne. }
  assert (Hnext4 : next_addr h4 = S a) by (by rewrite <- (same_shape_next _ _ E34)).
  destruct (build_children_spec (fun k => CreateBoneTree k) a kids Hkids h4 (<[name := a]> byname))
    as (h5 & m5 & -> & Hwf5 & Hn5 & Hle5 & E5 & Hok5);
    [by rewrite <- E34 | done | destruct Hok4 as (b & Hb & _); by eexists |].
  simpl. exists h5, m5. split_and!; [done|done|done|lia|by etransitivity| |].
  - intros x Hx. destruct (decide (x = a)) as [->|Hne].
    + by apply (global_ok_extends (cells h4)).
    + apply Hok5. lia.
  - destruct (same_shape_lookup _ _ a _ E34 (lookup_insert_eq _ _ _)) as [g Hg].
    destruct (E5 _ _ Hg) as (b' & Hb' & _ & _ & Hp'). by exists b'.
Qed.

Lemma heap_wfb_sound h : heap_wfb h = true -> heap_wf h.
Proof.
    unfold heap_wfb. rewrite forallb_forall. intros Hall a b Hb.
    assert (Hab := Hall (a, b)). rewrite <- list_elem_of_In, elem_of_map_to_list in Hab.
    specialize (Hab Hb). apply andb_true_iff in Hab as [Hab Hc]. apply andb_true_iff in Hab as [Ha Hp].
    split_and!; [by apply Nat.ltb_lt|..].
    - intros p Ep. rewrite Ep in Hp. apply andb_true_iff in Hp as [Hp1 Hp2].
      apply Nat.ltb_lt in Hp1. by apply bool_decide_eq_true in Hp2.
    - intros c Hcc. rewrite forallb_forall in Hc. rewrite list_elem_of_In in Hcc.
      apply Hc, andb_true_iff in Hcc as [Hc1 Hc2].
      apply Nat.ltb_lt in Hc1. by apply bool_decide_eq_true in Hc2.
Qed.

Lemma names_okb_sound h byname : names_okb h byname = true -> names_ok h byname.
Proof.
    unfold names_okb. rewrite forallb_forall. intros Hall k x Hx.
    assert (Hkx := Hall (k, x)). rewrite <- list_elem_of_In, elem_of_map_to_list in Hkx.
    specialize (Hkx Hx). destruct (cells h !! x) as [b|]; [|done].
    exists b. split; [done|]. by apply String.eqb_eq.
Qed.

Lemma heap_wf_empty : heap_wf empty_bone_heap.
Proof. intros a b Hb. simpl in Hb. by rewrite lookup_empty in Hb. Qed.

Lemma names_ok_empty h : names_ok h ∅.
Proof. intros k x Hx. by rewrite lookup_empty in Hx. Qed.
End BuildTree.

(** ** Theorems on the skeleton *)

Section SkeletonTheorems.
  Context `{FloatOps}.

  (** C4. [CreateBoneTree] builds a well-formed tree with correct global
      transforms: from a well-formed heap whose [BonesByName] entries are
      allocated, and an allocated (or null) parent, it is defined, returns
      the next fresh address, leaves the heap well formed (parents below,
      children above, all allocated) and every name allocated, does not
      change a bone built before, every bone it creates has the global
      transform its chain of ancestors determines, and the bone it returns
      has the given parent ([internalNode->Parent = pParent]). *)
Theorem CreateBoneTree_correct n p h byname :
    heap_wf h -> names_ok h byname -> (forall q, p = Some q -> is_Some (cells h !! q)) ->
    exists h' byname', CreateBoneTree n p (h, byname) = Some (next_addr h, (h', byname')) /\
      heap_wf h' /\ names_ok h' byname' /\ next_addr h < next_addr h' /\
      bone_extends (cells h) (cells h') /\
      (forall x, next_addr h <= x < next_addr h' -> global_ok (cells h') x) /\
      (exists b, cells h' !! next_addr h = Some b /\ Parent b = p).
Proof. intros. by apply CreateBoneTree_ok. Qed.

  (** C5. [UpdateTransforms] terminates and is correct: on a well-formed
      heap and an allocated bone [r], it is defined, changes only global
      transforms, gives every bone of the subtree of [r] the global
      transform its ancestors determine, and keeps every other correct
      global transform correct. *)
Theorem UpdateTransforms_correct h r :
    heap_wf h -> is_Some (cells h !! r) ->
    exists h', UpdateTransforms r h = Some h' /\ same_shape h h' /\
      (forall a, in_subtree (cells h) r a -> global_ok (cells h') a) /\
      (forall a, global_ok (cells h) a -> global_ok (cells h') a).
Proof.
    intros Hwf [b Hb]. unfold UpdateTransforms.
    apply (update_transforms_spec _ h r b); [done|done|lia].
Qed.
End SkeletonTheorems.

Section SkeletonExamples.

Lemma CreateBoneTree_correct_witness :
    heap_wf empty_bone_heap /\ names_ok empty_bone_heap ∅ /\
    exists h' byname', CreateBoneTree arm_tree None (empty_bone_heap, ∅) = Some (0, (h', byname')) /\
      heap_wf h' /\ names_ok h' byname' /\ 0 < next_addr h' /\
      bone_extends (cells empty_bone_heap) (cells h') /\
      (forall x, 0 <= x < next_addr h' -> global_ok (cells h') x) /\
      (exists b, cells h' !! 0 = Some b /\ Parent b = None).
Proof.
    split; [apply heap_wf_empty|]. split; [apply names_ok_empty|].
    apply (CreateBoneTree_correct arm_tree None empty_bone_heap ∅);
      [apply heap_wf_empty | apply names_ok_empty | discriminate].
Defined.

Lemma UpdateTransforms_correct_witness :
    heap_wf arm_posed /\ is_Some (cells arm_posed !! 0) /\
    exists h', UpdateTransforms 0 arm_posed = Some h' /\ same_shape arm_posed h' /\
      (forall a, in_subtree (cells arm_posed) 0 a -> global_ok (cells h') a) /\
      (forall a, global_ok (cells arm_posed) a -> global_ok (cells h') a).
Proof.
    assert (Hwf : heap_wf arm_posed) by (apply heap_wfb_sound; reflexivity).
    assert (H0 : is_Some (cells arm_posed !! 0)) by (eexists; reflexivity).
    split; [exact Hwf|]. split; [exact H0|].
    apply UpdateTransforms_correct; [exact Hwf | exact H0].
Defined.

  (** The skeleton of a concrete scene: [CreateBoneTree] allocates the
      bones in pre-order ([root], [arm], [hand], [tail] at addresses 0 to
      3), registers each name, and the global transform of [hand] composes
      the translations of [hand], [arm] and [root] into [(1,2,3)].  After an
      animation moves [arm] to [(0,5,0)], the global transform of [hand] is
      stale until [UpdateTransforms] recomputes it as [(1,5,3)]. *)
Example CreateBoneTree_arm_tree :
    snd arm_skeleton = {["root" := 0; "arm" := 1; "hand" := 2; "tail" := 3]} /\
    (Children <$> cells (fst arm_skeleton) !! 0) = Some [1; 3] /\
    global_of (fst arm_skeleton) 2 = Some (translation 1 2 3) /\
    global_of arm_posed 2 = Some (translation 1 2 3) /\
    (UpdateTransforms 0 arm_posed ≫= fun h => global_of h 2) = Some (translation 1 5 3).
Proof. split_and!; reflexivity. Qed.
End SkeletonExamples.
