(* ===== verification/Animator.v ===== *)
(** * Animator.v: [SceneAnimator], the owner of the skeleton and the animations

    [SceneAnimator] (cAnimationController.h, lines 52-112) owns the bone
    tree ([Skeleton]), the evaluators ([Animations]), the index of the
    current one, and four tables: [BonesByName] (every node of the tree by
    name), [Bones] and [BonesToIndex] (the bones a mesh is skinned to, in
    the order of the matrices given to the renderer) and
    [AnimationNameToId].  The module [Scene] models its state as a record
    over the bone heap of [Skeleton.v] and its methods:
    - [Init] (cAnimationController.cpp, lines 244-293): [Release], build the
      tree, extract the animations, attach the mesh bones (de-duplicated
      by name), then bake every animation at 30 frames per second;
    - [Release] (lines 238-243) with the recursive destructor of [cBone]
      (header, line 22);
    - [SetAnimIndex], [SetAnimation], [ExtractAnimations], [Calculate],
      [CalcBoneMatrices] (lines 362-393, 408-421) and the inline queries and
      setters of the header (lines 55-85).
    [int32_t] and [size_t] are integers with their conversions written out
    ([to_int32], [to_size]).  The loops over meshes, bones and animations
    are folds; the bake loop over float ticks is given fuel, and running
    out of it stands for a loop that does not end. *)

From S2P Require Import Prelude Float ExactFloat Channel Evaluator Skeleton.
From stdpp Require Import base list strings gmap.
From Stdlib Require Import ZArith QArith Qround Lqa Lia.
Close Scope Q_scope.

(** ** The assimp scene *)

Module AiScene.
Section AiScene.
  Context `{FloatOps}.

  (** [aiBone]: a mesh's reference to a node, with its bind-pose offset. *)
Record aiBone := mkAiBone { mName : string; mOffsetMatrix : mat4 }.

  (** [aiMesh], reduced to its bones. *)
Record aiMesh := mkAiMesh { mBones : list aiBone }.

  (** [aiScene]: the node tree, the animations and the meshes. *)
Record aiScene := mkAiScene {
    mRootNode : aiNode;
    mAnimations : list Ai.aiAnimation;
    mMeshes : list aiMesh }.

  (** [aiScene::HasAnimations()]: [mAnimations != NULL && mNumAnimations > 0]. *)
Definition HasAnimations (sc : aiScene) : bool := 0 <? length (mAnimations sc).
End AiScene.
Arguments aiBone {_}.
Arguments aiMesh {_}.
Arguments aiScene {_}.
End AiScene.

(** ** Machine integers *)

(** The [int32_t] a wider integer converts to (two's complement). *)
Definition to_int32 (z : Z) : Z := ((z + 2 ^ 31) mod 2 ^ 32 - 2 ^ 31)%Z.

(** The [size_t] (64 bits) an [int32_t] converts to in a comparison with
    [size()] or as an index. *)
Definition to_size (z : Z) : Z := (z mod 2 ^ 64)%Z.

Module Scene.
Section Scene.
  Context `{FloatOps} `{!QuatInterp}.

  (** [class SceneAnimator]: [Skeleton] points into [Heap]; [Bones] and the
      values of [BonesByName] are addresses of [Heap] too. *)
Record SceneAnimator := mkAnimator {
    Animations : list cAnimEvaluator;
    CurrentAnimIndex : Z;
    Skeleton : option nat;
    Heap : bone_heap;
    BonesByName : gmap string nat;
    BonesToIndex : gmap string nat;
    AnimationNameToId : gmap string nat;
    Bones : list nat;
    Transforms : list mat4 }.

  (** [SceneAnimator(): Skeleton(0), CurrentAnimIndex(-1) {}] *)
Definition new_SceneAnimator : SceneAnimator :=
    mkAnimator [] (-1) None empty_bone_heap ∅ ∅ ∅ [] [].

Definition set_Animations (l : list cAnimEvaluator) (st : SceneAnimator) : SceneAnimator :=
    mkAnimator l (CurrentAnimIndex st) (Skeleton st) (Heap st) (BonesByName st)
      (BonesToIndex st) (AnimationNameToId st) (Bones st) (Transforms st).
Definition set_CurrentAnimIndex (i : Z) (st : SceneAnimator) : SceneAnimator :=
    mkAnimator (Animations st) i (Skeleton st) (Heap st) (BonesByName st)
      (BonesToIndex st) (AnimationNameToId st) (Bones st) (Transforms st).
Definition set_Heap (h : bone_heap) (st : SceneAnimator) : SceneAnimator :=
    mkAnimator (Animations st) (CurrentAnimIndex st) (Skeleton st) h (BonesByName st)
      (BonesToIndex st) (AnimationNameToId st) (Bones st) (Transforms st).
  (** [Skeleton = CreateBoneTree(...)], with the heap and [BonesByName] the
      construction changed. *)
Definition set_tree (root : option nat) (h : bone_heap) (byname : gmap string nat)
      (st : SceneAnimator) : SceneAnimator :=
    mkAnimator (Animations st) (CurrentAnimIndex st) root h byname
      (BonesToIndex st) (AnimationNameToId st) (Bones st) (Transforms st).
Definition set_AnimationNameToId (m : gmap string nat) (st : SceneAnimator) : SceneAnimator :=
    mkAnimator (Animations st) (CurrentAnimIndex st) (Skeleton st) (Heap st) (BonesByName st)
      (BonesToIndex st) m (Bones st) (Transforms st).
Definition set_bones (bs : list nat) (idx : gmap string nat) (st : SceneAnimator) : SceneAnimator :=
    mkAnimator (Animations st) (CurrentAnimIndex st) (Skeleton st) (Heap st) (BonesByName st)
      idx (AnimationNameToId st) bs (Transforms st).
Definition set_Transforms (ts : list mat4) (st : SceneAnimator) : SceneAnimator :=
    mkAnimator (Animations st) (CurrentAnimIndex st) (Skeleton st) (Heap st) (BonesByName st)
      (BonesToIndex st) (AnimationNameToId st) (Bones st) ts.

  (** Writes into one evaluator. *)
Definition set_TicksPerSecond (tps : f32) (ev : cAnimEvaluator) : cAnimEvaluator :=
    mkEvaluator (Evaluator.Name ev) (Channels ev) (PlayAnimationForward ev) (mLastTime ev)
      tps (Duration ev) (mLastPositions ev) (Evaluator.Transforms ev).
Definition set_PlayAnimationForward (fwd : bool) (ev : cAnimEvaluator) : cAnimEvaluator :=
    mkEvaluator (Evaluator.Name ev) (Channels ev) (Some fwd) (mLastTime ev)
      (TicksPerSecond ev) (Duration ev) (mLastPositions ev) (Evaluator.Transforms ev).
  (** [Animations[i].Transforms.push_back(...)] with the frame filled in. *)
Definition push_frame (frame : list mat4) (ev : cAnimEvaluator) : cAnimEvaluator :=
    mkEvaluator (Evaluator.Name ev) (Channels ev) (PlayAnimationForward ev) (mLastTime ev)
      (TicksPerSecond ev) (Duration ev) (mLastPositions ev) (Evaluator.Transforms ev ++ [frame]).

  (** ** [Release] *)

  (** [delete p] on a bone: [~cBone()] deletes the children in order, then
      the cell is freed.  Reading a freed or never allocated cell is
      undefined. *)
Fixpoint delete_bone (fuel : nat) (a : nat) (h : bone_heap) : option bone_heap :=
    match fuel with
    | O => None
    | S fuel' =>
        b ← cells h !! a;
        h ← fold_opt (delete_bone fuel') (Children b) h;
        Some (mkHeap (delete a (cells h)) (next_addr h))
    end.

  (** [delete Skeleton]: nothing on a null pointer. *)
Definition delete_skeleton (root : option nat) (h : bone_heap) : option bone_heap :=
    match root with
    | None => Some h
    | Some r => delete_bone (S (next_addr h)) r h
    end.

  (** [void SceneAnimator::Release()]: [CurrentAnimIndex = -1;
      Animations.clear(); delete Skeleton; Skeleton = NULL;].  The four
      tables are left as they are. *)
Definition Release (st : SceneAnimator) : option SceneAnimator :=
    h ← delete_skeleton (Skeleton st) (Heap st);
    Some (mkAnimator [] (-1) None h (BonesByName st) (BonesToIndex st)
            (AnimationNameToId st) (Bones st) (Transforms st)).

  (** ** Selecting the animation *)

  (** [bool SetAnimIndex(int32_t pAnimIndex)]: the comparison with
      [Animations.size()] converts the index to [size_t]. *)
Definition SetAnimIndex (pAnimIndex : Z) (st : SceneAnimator) : bool * SceneAnimator :=
    if (Z.of_nat (length (Animations st)) <=? to_size pAnimIndex)%Z then (false, st)
    else (negb (CurrentAnimIndex st =? pAnimIndex)%Z, set_CurrentAnimIndex pAnimIndex st).

  (** [bool SetAnimation(const std::string& name)] *)
Definition SetAnimation (name : string) (st : SceneAnimator) : bool * SceneAnimator :=
    let oldindex := CurrentAnimIndex st in
    let st := match AnimationNameToId st !! name with
              | Some i => set_CurrentAnimIndex (to_int32 (Z.of_nat i)) st
              | None => st
              end in
    (negb (oldindex =? CurrentAnimIndex st)%Z, st).

  (** [std::map::insert]: no effect when the key is present. *)
Definition insert_absent (k : string) (v : nat) (m : gmap string nat) : gmap string nat :=
    match m !! k with Some _ => m | None => <[k := v]> m end.

  (** [for (i < Animations.size()) AnimationNameToId.insert({Animations[i].Name, i});] *)
Definition register_names (anims : list cAnimEvaluator) (m : gmap string nat) : gmap string nat :=
    foldl (fun m '(i, ev) => insert_absent (Evaluator.Name ev) i m) m
      (zip (seq 0 (length anims)) anims).

  (** [void ExtractAnimations(const aiScene* pScene)] (lines 362-372). *)
Definition ExtractAnimations (sc : AiScene.aiScene) (st : SceneAnimator) : SceneAnimator :=
    let anims := Animations st ++ map new_cAnimEvaluator (AiScene.mAnimations sc) in
    let st := set_Animations anims st in
    let st := set_AnimationNameToId (register_names anims (AnimationNameToId st)) st in
    snd (SetAnimation "Idle" (set_CurrentAnimIndex 0 st)).

  (** ** Attaching the mesh bones (lines 251-275) *)

  (** [for (j < Bones.size()) if (Bones[j]->Name == bname) { skip = true; break; }] *)
Fixpoint bone_listed (h : bone_heap) (bname : string) (l : list nat) : option bool :=
    match l with
    | [] => Some false
    | q :: l' =>
        b ← cells h !! q;
        if String.eqb (Name b) bname then Some true else bone_listed h bname l'
    end.

  (** The body of the loop over a mesh's bones: a bone found in
      [BonesByName] and not yet in [Bones] gets its offset (transposed) and
      is appended to [Bones] and [BonesToIndex]. *)
Definition attach_bone (bone : AiScene.aiBone) (st : SceneAnimator) : option SceneAnimator :=
    let bname := AiScene.mName bone in
    match BonesByName st !! bname with
    | None => Some st
    | Some p =>
        skipped ← bone_listed (Heap st) bname (Bones st);
        if (skipped : bool) then Some st else
        (h ← bone_update p (set_Offset (transpose (TransformMatrix (AiScene.mOffsetMatrix bone))))
               (Heap st);
         Some (set_bones (Bones st ++ [p]) (<[bname := length (Bones st)]> (BonesToIndex st))
                 (set_Heap h st)))
    end.

Definition attach_meshes (meshes : list AiScene.aiMesh) (st : SceneAnimator)
    : option SceneAnimator :=
    fold_opt (fun mesh st => fold_opt attach_bone (AiScene.mBones mesh) st) meshes st.

  (** ** Evaluation and baking *)

  (** [(CurrentAnimIndex < 0) | (CurrentAnimIndex >= Animations.size())],
      negated. *)
Definition anim_index_ok (st : SceneAnimator) : bool :=
    (0 <=? CurrentAnimIndex st)%Z
    && (to_size (CurrentAnimIndex st) <? Z.of_nat (length (Animations st)))%Z.

  (** [void Calculate(float pTime)] (lines 388-393): evaluate the current
      animation into the bones named in [BonesByName], then
      [UpdateTransforms(Skeleton)], undefined on a null [Skeleton]. *)
Definition Calculate (pTime : f32) (st : SceneAnimator) : option SceneAnimator :=
    if negb (anim_index_ok st) then Some st else
    let i := Z.to_nat (CurrentAnimIndex st) in
    ev ← Animations st !! i;
    '(ev', h) ← Evaluate ev pTime (BonesByName st) (Heap st);
    root ← Skeleton st;
    h ← UpdateTransforms root h;
    Some (set_Heap h (set_Animations (<[i := ev']> (Animations st)) st)).

  (** [Bones[a]->Offset * Bones[a]->GlobalTransform] *)
Definition bone_matrix (st : SceneAnimator) (a : nat) : option mat4 :=
    q ← Bones st !! a;
    b ← cells (Heap st) !! q;
    Some (mat_mul (Offset b) (GlobalTransform b)).

  (** [for (a < Transforms.size()) ... bone_matrix(a)]: one baked frame. *)
Definition frame_matrices (st : SceneAnimator) : option (list mat4) :=
    mapM (bone_matrix st) (seq 0 (length (Transforms st))).

  (** [void CalcBoneMatrices()] (lines 408-421). *)
Definition CalcBoneMatrices (st : SceneAnimator) : option SceneAnimator :=
    ts ← frame_matrices st;
    Some (set_Transforms ts st).

  (** [float timestep = 1.0f/30.0f;] *)
Definition timestep : f32 := #1 /. #30.

  (** [for (float ticks = 0; ticks < Animations[i].Duration;
            ticks += Animations[i].TicksPerSecond/30.0f)
         { dt += timestep; Calculate(dt); push the frame; }]
      One unit of fuel per iteration; [None] when it runs out. *)
Fixpoint bake_loop (fuel : nat) (i : nat) (ticks dt : f32) (st : SceneAnimator)
    : option SceneAnimator :=
    match fuel with
    | O => None
    | S fuel' =>
        ev ← Animations st !! i;
        if ticks <. Duration ev then
          let dt := dt +. timestep in
          st ← Calculate dt st;
          frame ← frame_matrices st;
          ev ← Animations st !! i;
          let st := set_Animations (<[i := push_frame frame ev]> (Animations st)) st in
          bake_loop fuel' i (ticks +. TicksPerSecond ev /. #30) dt st
        else Some st
    end.

  (** One iteration of the loop over the animations: [SetAnimIndex(i)],
      [float dt = 0], then the bake loop. *)
Definition bake_animation (fuel : nat) (i : nat) (st : SceneAnimator) : option SceneAnimator :=
    let st := snd (SetAnimIndex (to_int32 (Z.of_nat i)) st) in
    bake_loop fuel i (#0) (#0) st.

Definition bake_all (fuel : nat) (st : SceneAnimator) : option SceneAnimator :=
    fold_opt (bake_animation fuel) (seq 0 (length (Animations st))) st.

  (** [void Init(const aiScene* pScene)] (lines 244-293), each bake loop
      with [fuel] iterations at most. *)
Definition Init (fuel : nat) (sc : AiScene.aiScene) (st : SceneAnimator) : option SceneAnimator :=
    if negb (AiScene.HasAnimations sc) then Some st else
    st ← Release st;
    '(root, (h, byname)) ← CreateBoneTree (AiScene.mRootNode sc) None (Heap st, BonesByName st);
    let st := ExtractAnimations sc (set_tree (Some root) h byname st) in
    st ← attach_meshes (AiScene.mMeshes sc) st;
    let st := set_Transforms (resize (length (Bones st)) mat_identity (Transforms st)) st in
    bake_all fuel st.

  (** ** Queries and setters of the header (lines 60-85) *)

  (** [Animations[CurrentAnimIndex]]: the index converts to [size_t]. *)
Definition current_anim (st : SceneAnimator) : option cAnimEvaluator :=
    if (CurrentAnimIndex st <? 0)%Z then None
    else Animations st !! Z.to_nat (CurrentAnimIndex st).

Definition update_current (f : cAnimEvaluator -> cAnimEvaluator) (st : SceneAnimator)
    : option SceneAnimator :=
    ev ← current_anim st;
    Some (set_Animations (<[Z.to_nat (CurrentAnimIndex st) := f ev]> (Animations st)) st).

Definition PlayAnimationForward (st : SceneAnimator) : option SceneAnimator :=
    update_current (set_PlayAnimationForward true) st.
Definition PlayAnimationBackward (st : SceneAnimator) : option SceneAnimator :=
    update_current (set_PlayAnimationForward false) st.

  (** [TicksPerSecond *= percent/100.0f] *)
Definition AdjustAnimationSpeedBy (percent : f32) (st : SceneAnimator) : option SceneAnimator :=
    update_current (fun ev => set_TicksPerSecond (TicksPerSecond ev *. (percent /. #100)) ev) st.
Definition AdjustAnimationSpeedTo (tps : f32) (st : SceneAnimator) : option SceneAnimator :=
    update_current (set_TicksPerSecond tps) st.
Definition GetAnimationSpeed (st : SceneAnimator) : option f32 :=
    TicksPerSecond <$> current_anim st.

  (** [int32_t GetAnimationIndex() const { return CurrentAnimIndex; }] *)
Definition GetAnimationIndex (st : SceneAnimator) : Z := CurrentAnimIndex st.

  (** [std::string GetAnimationName() const { return Animations[CurrentAnimIndex].Name; }] *)
Definition GetAnimationName (st : SceneAnimator) : option string :=
    Evaluator.Name <$> current_anim st.

  (** [bool HasSkeleton() const { return !Bones.empty(); }] *)
Definition HasSkeleton (st : SceneAnimator) : bool := 0 <? length (Bones st).

  (** [std::vector<mat4>& GetTransforms(float dt)] *)
Definition GetTransforms (dt : f32) (st : SceneAnimator) : option (list mat4) :=
    ev ← current_anim st;
    Evaluator.GetTransforms ev dt.

  (** [int GetBoneIndex(const std::string& bname)]: the [unsigned int] of
      [BonesToIndex] returned as [int], or [-1]. *)
Definition GetBoneIndex (bname : string) (st : SceneAnimator) : Z :=
    match BonesToIndex st !! bname with
    | Some i => to_int32 (Z.of_nat i)
    | None => (-1)%Z
    end.

  (** [mat4 GetBoneTransform(float dt, const std::string& bname)]: the
      identity [mat4()] for an unknown name. *)
Definition GetBoneTransform (dt : f32) (bname : string) (st : SceneAnimator) : option mat4 :=
    let bindex := GetBoneIndex bname st in
    if (bindex =? -1)%Z then Some mat_identity
    else ts ← GetTransforms dt st; ts !! Z.to_nat (to_size bindex).

  (** [mat4 GetBoneTransform(float dt, unsigned int bindex)] *)
Definition GetBoneTransform_at (dt : f32) (bindex : nat) (st : SceneAnimator) : option mat4 :=
    ts ← GetTransforms dt st; ts !! bindex.

  (** ** The order of the attached bones *)

  (** The names of the bones of the meshes, mesh after mesh. *)
Definition mesh_bone_names (ms : list AiScene.aiMesh) : list string :=
    ms ≫= fun m => AiScene.mName <$> AiScene.mBones m.

  (** The names kept so far, after meeting [n]: kept when it names a node
      and was not kept before. *)
Definition attach_step (byname : gmap string nat) (acc : list string) (n : string) : list string :=
    match byname !! n with
    | Some _ => if bool_decide (n ∈ acc) then acc else acc ++ [n]
    | None => acc
    end.

  (** The specification of the attachment order: the names found in
      [BonesByName], each at its first occurrence. *)
Definition attach_order (byname : gmap string nat) (names : list string) : list string :=
    foldl (attach_step byname) [] names.

  (** [Bones] and [BonesToIndex] hold the bones of [acc], in order. *)
Definition attach_inv (byname : gmap string nat) (st : SceneAnimator) (acc : list string) : Prop :=
    BonesByName st = byname /\ names_ok (Heap st) byname /\
    (forall m, m ∈ acc -> is_Some (byname !! m)) /\
    Bones st = omap (byname !!.) acc /\ length (Bones st) = length acc /\ NoDup acc /\
    (forall j n, acc !! j = Some n -> BonesToIndex st !! n = Some j).

  (** ** Invariants of the scene *)

  (** The number of iterations of [for (ticks = 0; ticks < D; ticks += step)],
      [None] when it does not end within [fuel]. *)
Fixpoint tick_count (fuel : nat) (ticks D step : f32) : option nat :=
    match fuel with
    | O => None
    | S fuel' => if ticks <. D then S <$> tick_count fuel' (ticks +. step) D step else Some 0
    end.

  (** The value of [ticks] after [k] iterations of [ticks += step] from
      [float ticks = 0]. *)
Definition tick_after (k : nat) (step : f32) : f32 := Nat.iter k (fun t => t +. step) (#0).

  (** An evaluator with the same clip: duration, speed and baked frames. *)
Definition same_clip (ev ev' : cAnimEvaluator) : Prop :=
    Duration ev' = Duration ev /\ TicksPerSecond ev' = TicksPerSecond ev /\
    Evaluator.Transforms ev' = Evaluator.Transforms ev.

Definition clips_kept (l l' : list cAnimEvaluator) : Prop :=
    length l' = length l /\
    forall j ev, l !! j = Some ev -> exists ev', l' !! j = Some ev' /\ same_clip ev ev'.

  (** The heap of a scene: well formed, the root, the named bones and the
      attached bones allocated, the names right. *)
Definition heap_ok (byname : gmap string nat) (bones : list nat) (root : nat) (h : bone_heap) : Prop :=
    heap_wf h /\ names_ok h byname /\ is_Some (cells h !! root) /\
    Forall (fun q => is_Some (cells h !! q)) bones.

  (** What [Calculate] and a bake iteration need: a skeleton, a heap as
      above, every evaluator's cursors valid, [Transforms] no longer than
      [Bones], an [int32_t] current index. *)
Definition scene_inv (st : SceneAnimator) : Prop :=
    (exists r, Skeleton st = Some r /\ heap_ok (BonesByName st) (Bones st) r (Heap st)) /\
    Forall (evaluator_inv (BonesByName st)) (Animations st) /\
    length (Transforms st) <= length (Bones st) /\ (CurrentAnimIndex st < 2 ^ 31)%Z.

  (** [heap_ok] and [scene_inv] as tests. *)
Definition heap_okb (byname : gmap string nat) (bones : list nat) (root : nat) (h : bone_heap) : bool :=
    heap_wfb h && names_okb h byname && bool_decide (is_Some (cells h !! root)) &&
    forallb (fun q => bool_decide (is_Some (cells h !! q))) bones.

Definition scene_invb (st : SceneAnimator) : bool :=
    match Skeleton st with
    | Some r => heap_okb (BonesByName st) (Bones st) r (Heap st)
    | None => false
    end &&
    forallb (evaluator_invb (BonesByName st)) (Animations st) &&
    (length (Transforms st) <=? length (Bones st)) && (CurrentAnimIndex st <? 2 ^ 31)%Z.
End Scene.

(** ** A concrete scene (exact arithmetic) *)

Section Scenarios.
  (** The arm of [arm_tree] moves from [(0,2,0)] to [(0,4,0)] over one
      tick; one tick per second. *)
Definition wave : Ai.aiAnimation :=
    Ai.mkAnimation "wave" (#1) (#1)
      [Ai.mkNodeAnim "arm" [VKey (#0) (xv 0 2 0); VKey (#1) (xv 0 4 0)] [] []].

  (** Two meshes: the first skinned to [hand] and [arm], the second to
      [hand] again and to a name that is not a node. *)
Definition arm_meshes : list AiScene.aiMesh :=
    [AiScene.mkAiMesh [AiScene.mkAiBone "hand" mat_identity; AiScene.mkAiBone "arm" mat_identity];
     AiScene.mkAiMesh [AiScene.mkAiBone "hand" mat_identity; AiScene.mkAiBone "nope" mat_identity]].

Definition arm_scene : AiScene.aiScene := AiScene.mkAiScene arm_tree [wave] arm_meshes.

  (** The animator of [Init] right after [Skeleton = CreateBoneTree(...)]. *)
Definition arm_built : SceneAnimator :=
    set_tree (Some 0) (fst arm_skeleton) (snd arm_skeleton) new_SceneAnimator.
  (** [Init] up to the bake: the tree built, the animation extracted, the
      bones attached, [Transforms] resized; then [SetAnimIndex(0)]. *)
Definition arm_attached : SceneAnimator :=
    match attach_meshes arm_meshes (ExtractAnimations arm_scene arm_built) with
    | Some st => set_Transforms (resize (length (Bones st)) mat_identity (Transforms st)) st
    | None => arm_built
    end.

Definition arm_prebake : SceneAnimator := snd (SetAnimIndex 0 arm_attached).

  (** The bake loop of that animation, computed once. *)
Definition arm_baked : SceneAnimator :=
    Eval vm_compute in default arm_prebake (bake_loop 40 0 (#0) (#0) arm_prebake).

  (** The whole of [Init] on the scene, from a new animator. *)
Definition arm_ready : option SceneAnimator := Init 40 arm_scene new_SceneAnimator.

  (** Its result and the animator after [Release], computed once. *)
Definition arm_inited : SceneAnimator := Eval vm_compute in default new_SceneAnimator arm_ready.
Definition arm_released : SceneAnimator :=
    Eval vm_compute in default new_SceneAnimator (Release arm_inited).

  (** The same animation with a negative speed. *)
Definition reversed_wave : Ai.aiAnimation :=
    Ai.mkAnimation "wave" (#1) (#(-1))
      [Ai.mkNodeAnim "arm" [VKey (#0) (xv 0 2 0); VKey (#1) (xv 0 4 0)] [] []].

Definition reversed_prebake : SceneAnimator :=
    set_Animations [new_cAnimEvaluator reversed_wave] arm_prebake.

  (** The arm scene before the bake, with the speed set to 0 by
      [AdjustAnimationSpeedTo(0)]. *)
Definition stopped_prebake : SceneAnimator :=
    default arm_prebake (AdjustAnimationSpeedTo (#0) arm_prebake).

  (** A row-vector translation by exact values. *)
Definition translation_at (x y z : xq) : mat4 :=
    Mat4 (#1) (#0) (#0) (#0) (#0) (#1) (#0) (#0) (#0) (#0) (#1) (#0) x y z (#1).

  (** Two scenes over the same tree and without skinned meshes: the first
      has the animations ["Idle"] and ["run"], the second only ["run"]. *)
Definition idle_anim : Ai.aiAnimation := Ai.mkAnimation "Idle" (#1) (#1) [].
Definition run_anim : Ai.aiAnimation := Ai.mkAnimation "run" (#1) (#1) [].
Definition idle_run_scene : AiScene.aiScene := AiScene.mkAiScene arm_tree [idle_anim; run_anim] [].
Definition run_scene : AiScene.aiScene := AiScene.mkAiScene arm_tree [run_anim] [].

  (** The scene after [Init] of [idle_run_scene], computed once. *)
Definition idle_run_inited : SceneAnimator :=
    Eval vm_compute in default new_SceneAnimator (Init 40 idle_run_scene new_SceneAnimator).

  (** Then [Init] of [run_scene] on it. *)
Definition run_reinited : SceneAnimator :=
    Eval vm_compute in default new_SceneAnimator (Init 40 run_scene idle_run_inited).
End Scenarios.

(** ** Attaching the mesh bones *)

Section AttachProofs.
  Context `{FloatOps} `{!QuatInterp}.
  Implicit Types st : SceneAnimator.

  (** The scan of [Bones] for a name: on bones named as [BonesByName]
      says, it tells whether the name was attached. *)
Lemma bone_listed_spec h byname acc n :
    names_ok h byname -> (forall m, m ∈ acc -> is_Some (byname !! m)) ->
    bone_listed h n (omap (byname !!.) acc) = Some (bool_decide (n ∈ acc)).
Proof.
    intros Hn. induction acc as [|m acc IH]; intros Hf; simpl.
    { reflexivity. }
    destruct (Hf m) as [q Hq]; [by left|]. rewrite Hq. csimpl.
    destruct (Hn _ _ Hq) as (b & -> & Hname). csimpl. rewrite Hname.
    destruct (String.eqb_spec m n) as [->|Hne].
    - f_equal. symmetry. apply bool_decide_eq_true. by left.
    - rewrite IH by (intros; apply Hf; by right). f_equal. apply bool_decide_ext.
      rewrite elem_of_cons. naive_solver.
Qed.

Lemma attach_bone_inv byname st acc bone :
    attach_inv byname st acc ->
    exists st', attach_bone bone st = Some st' /\
      attach_inv byname st' (attach_step byname acc (AiScene.mName bone)).
Proof.
    intros (Eb & Hn & Hf & EB & Hlen & Hnd & Hidx). unfold attach_bone, attach_step. rewrite Eb.
    set (n := AiScene.mName bone).
    destruct (byname !! n) as [p|] eqn:Ep; [|by exists st].
    rewrite EB, (bone_listed_spec _ _ _ _ Hn Hf).
    destruct (bool_decide (n ∈ acc)) eqn:Ed; simpl; [by exists st|].
    apply bool_decide_eq_false in Ed. destruct (Hn _ _ Ep) as (b & Hb & Hname).
    rewrite (bone_update_spec _ _ _ _ Hb). simpl. eexists; split; [reflexivity|].
    split_and!; simpl.
    - done.
    - apply names_ok_insert; [|done]. intros b0 Hb0. rewrite Hb in Hb0. injection Hb0 as <-.
      by destruct b.
    - intros m [Hm|Hm%list_elem_of_singleton]%elem_of_app; [by apply Hf | subst m; by eexists].
    - rewrite omap_app. simpl. by rewrite Ep.
    - rewrite !length_app, <- EB, Hlen. simpl. lia.
    - apply NoDup_app. split_and!; [done | by intros x Hx Hx'%list_elem_of_singleton; subst x | apply NoDup_singleton].
    - intros j m [Hj | [Hj Hm]]%lookup_app_Some.
      + rewrite lookup_insert_ne; [by apply Hidx|]. intros ->. apply Ed. by eapply list_elem_of_lookup_2.
      + apply list_lookup_singleton_Some in Hm as [Hj0 <-]. rewrite lookup_insert_eq, <- EB, Hlen.
        f_equal. lia.
Qed.

  (** The loops over the meshes and their bones attach the names of
      [attach_order], extending the names attached before. *)
Lemma attach_meshes_inv byname ms st acc :
    attach_inv byname st acc ->
    exists st', attach_meshes ms st = Some st' /\
      attach_inv byname st' (foldl (attach_step byname) acc (mesh_bone_names ms)).
Proof.
    intros Hinv. unfold attach_meshes.
    destruct (fold_opt_prefix (fun pre st => attach_inv byname st
                 (foldl (attach_step byname) acc (mesh_bone_names pre)))
                 (fun mesh st => fold_opt attach_bone (AiScene.mBones mesh) st) ms st)
      as (st' & -> & Hst'); [done | | by exists st'].
    intros pre mesh post t _ Ht.
    destruct (fold_opt_prefix (fun preb t' => attach_inv byname t'
                 (foldl (attach_step byname) acc (mesh_bone_names pre ++ (AiScene.mName <$> preb))))
                 attach_bone (AiScene.mBones mesh) t) as (t' & -> & Ht').
    - by rewrite app_nil_r.
    - intros preb bone postb u _ Hu. destruct (attach_bone_inv _ _ _ bone Hu) as (u' & -> & Hu').
      exists u'. split; [done|]. by rewrite fmap_app, app_assoc, foldl_app.
    - exists t'. split; [done|]. unfold mesh_bone_names in Ht' |- * ; by rewrite bind_app, bind_singleton.
Qed.

Lemma attach_step_elem byname acc m n :
    n ∈ attach_step byname acc m <-> n ∈ acc \/ (n = m /\ is_Some (byname !! m)).
Proof.
    unfold attach_step. destruct (byname !! m) eqn:E; [case_bool_decide|];
      rewrite ?elem_of_app, ?list_elem_of_singleton; naive_solver.
Qed.

  (** The names [attach_order] keeps: those of the list found in
      [BonesByName]. *)
Lemma attach_order_elem byname names n :
    n ∈ attach_order byname names <-> n ∈ names /\ is_Some (byname !! n).
Proof.
    unfold attach_order.
    cut (forall acc, n ∈ foldl (attach_step byname) acc names <->
           n ∈ acc \/ (n ∈ names /\ is_Some (byname !! n))).
    { intros Hc. rewrite Hc, elem_of_nil. naive_solver. }
    induction names as [|m names IH]; intros acc; simpl.
    - rewrite elem_of_nil. naive_solver.
    - rewrite IH, attach_step_elem, elem_of_cons. naive_solver.
Qed.
End AttachProofs.

Section AttachTheorems.
  Context `{FloatOps} `{!QuatInterp}.

  (** C16. Bone attachment de-duplicates in the order of first encounter:
      on an animator whose [BonesByName] names live bones of those names
      and whose [Bones] is empty (a first [Init]), the loops over the
      meshes and their bones are defined; [Bones] then holds the bones of
      [attach_order], the names of the mesh bones found in [BonesByName],
      each once, at its first occurrence, mesh after mesh; [BonesToIndex]
      maps each of these names to its position in [Bones]. *)
Theorem attach_meshes_order ms st :
    names_ok (Heap st) (BonesByName st) -> Bones st = [] ->
    exists st', attach_meshes ms st = Some st' /\
      Bones st' = omap (BonesByName st !!.) (attach_order (BonesByName st) (mesh_bone_names ms)) /\
      NoDup (attach_order (BonesByName st) (mesh_bone_names ms)) /\
      (forall n, n ∈ attach_order (BonesByName st) (mesh_bone_names ms) <->
                 n ∈ mesh_bone_names ms /\ is_Some (BonesByName st !! n)) /\
      (forall j n, attach_order (BonesByName st) (mesh_bone_names ms) !! j = Some n ->
                   BonesToIndex st' !! n = Some j).
Proof.
    intros Hn HB.
    destruct (attach_meshes_inv (BonesByName st) ms st []) as (st' & -> & (_ & _ & _ & EB & _ & Hnd & Hidx)).
    { split_and!; [done|done| by intros ? []%elem_of_nil | by rewrite HB | by rewrite HB | constructor |].
      by intros ? ? ?. }
    exists st'. split_and!; [done|done|done| |done]. intros n. apply attach_order_elem.
Qed.

End AttachTheorems.

Section AttachExamples.

Lemma attach_meshes_order_witness :
    names_ok (Heap arm_built) (BonesByName arm_built) /\ Bones arm_built = [] /\
    exists st', attach_meshes arm_meshes arm_built = Some st' /\
      Bones st' = omap (BonesByName arm_built !!.)
                    (attach_order (BonesByName arm_built) (mesh_bone_names arm_meshes)) /\
      NoDup (attach_order (BonesByName arm_built) (mesh_bone_names arm_meshes)) /\
      (forall n, n ∈ attach_order (BonesByName arm_built) (mesh_bone_names arm_meshes) <->
                 n ∈ mesh_bone_names arm_meshes /\ is_Some (BonesByName arm_built !! n)) /\
      (forall j n, attach_order (BonesByName arm_built) (mesh_bone_names arm_meshes) !! j = Some n ->
                   BonesToIndex st' !! n = Some j).
Proof.
    assert (Hn : names_ok (Heap arm_built) (BonesByName arm_built))
      by (apply names_okb_sound; reflexivity).
    split; [exact Hn|]. split; [reflexivity|].
    apply attach_meshes_order; [exact Hn | reflexivity].
Defined.
End AttachExamples.
(** ** [Calculate] *)

Section CalcProofs.
  Context `{FloatOps} `{!FloatLaws} `{!QuatInterp}.
  Implicit Types st : SceneAnimator.

Lemma scene_invb_sound st : scene_invb st = true -> scene_inv st.
Proof.
    unfold scene_invb, heap_okb. destruct (Skeleton st) as [r|] eqn:Er; [|done].
    rewrite !andb_true_iff, Nat.leb_le, Z.ltb_lt, bool_decide_eq_true.
    intros [[[[[[Hwf Hn] Hr] Hbs] Hevs] Hlen] Hcur].
    rewrite forallb_forall in Hbs. rewrite forallb_forall in Hevs.
    split_and!; [|apply Forall_forall|done|done].
    - exists r. split; [done|]. split_and!; [by apply heap_wfb_sound | by apply names_okb_sound | done |].
      apply Forall_forall. intros q Hq.
      apply (bool_decide_eq_true (is_Some _)), Hbs. by apply list_elem_of_In.
    - intros ev Hev. apply evaluator_invb_sound, Hevs. by apply list_elem_of_In.
Qed.

Lemma Evaluate_same_clip ev t bones (h : bone_heap) ev' h' :
    Evaluate ev t bones h = Some (ev', h') -> same_clip ev ev'.
Proof.
    unfold Evaluate. destruct (foldi_opt _ _ _) as [[cur h1]|]; simpl; [|done].
    intros [= <- _]. done.
Qed.

  (** A write of a local transform keeps the heap of a scene. *)
Lemma heap_ok_local_write byname bones r p m h h' :
    set_local_transform p m h = Some h' -> heap_ok byname bones r h -> heap_ok byname bones r h'.
Proof.
    simpl. unfold bone_update. destruct (cells h !! p) as [b|] eqn:Hb; simpl; [|done].
    intros [= <-] (Hwf & Hn & Hr & Hbs). split_and!.
    - apply (heap_wf_frame _ _ b); [done|done|by destruct b|by destruct b].
    - apply names_ok_insert; [|done]. intros b0 Hb0. rewrite Hb in Hb0. injection Hb0 as <-. by destruct b.
    - simpl. apply lookup_insert_is_Some'. by right.
    - eapply Forall_impl; [done|]. intros q Hq. simpl. apply lookup_insert_is_Some'. by right.
Qed.

Lemma heap_ok_shape byname bones r h h' :
    same_shape h h' -> heap_ok byname bones r h -> heap_ok byname bones r h'.
Proof.
    intros E (Hwf & Hn & Hr & Hbs). split_and!.
    - by rewrite <- E.
    - by eapply names_ok_shape.
    - by eapply same_shape_is_Some.
    - eapply Forall_impl; [done|]. intros q Hq. by eapply same_shape_is_Some.
Qed.

Lemma clips_kept_refl l : clips_kept l l.
Proof. split; [done|]. intros j ev ->. by exists ev. Qed.

Lemma clips_kept_insert l i ev ev' :
    l !! i = Some ev -> same_clip ev ev' -> clips_kept l (<[i := ev']> l).
Proof.
    intros Hi Hc. split; [apply length_insert|]. intros j e He.
    destruct (decide (i = j)) as [<-|Hne].
    - rewrite Hi in He. simplify_eq. exists ev'. rewrite list_lookup_insert_eq; [done|].
      by eapply lookup_lt_Some.
    - exists e. by rewrite list_lookup_insert_ne.
Qed.

  (** [Calculate] on a scene satisfying the invariant is defined, keeps the
      invariant and the clips, and when an animation is current, leaves the
      global transform of every bone of the skeleton correct. *)
Lemma Calculate_inv t st :
    scene_inv st ->
    exists st', Calculate t st = Some st' /\ scene_inv st' /\
      clips_kept (Animations st) (Animations st') /\
      Bones st' = Bones st /\ Transforms st' = Transforms st /\ Skeleton st' = Skeleton st /\
      (anim_index_ok st = true -> forall r, Skeleton st = Some r ->
         forall a, in_subtree (cells (Heap st')) r a -> global_ok (cells (Heap st')) a).
Proof.
    intros Hinv. pose proof Hinv as ((r & Er & Hok) & Hevs & Hlen & Hcur).
    unfold Calculate. destruct (anim_index_ok st) eqn:Eok; simpl;
      [|exists st; split_and!; [done|done|apply clips_kept_refl|done|done|done|discriminate]].
    set (i := Z.to_nat (CurrentAnimIndex st)).
    assert (Hi : i < length (Animations st)).
    { unfold anim_index_ok, to_size in Eok. apply andb_true_iff in Eok as [E1 E2].
      apply Z.leb_le in E1. apply Z.ltb_lt in E2. rewrite Z.mod_small in E2 by lia. unfold i. lia. }
    destruct (lookup_lt_is_Some_2 _ _ Hi) as [ev Hev]. rewrite Hev. simpl.
    destruct Hok as (Hwf & Hn & Hr & Hbs).
    destruct (Evaluate_defined ev t (BonesByName st) (Heap st)) as (ev' & h1 & E1 & Hinv' & _).
    { by eapply Forall_lookup_1. }
    { intros k p Hk. destruct (Hn _ _ Hk) as (b & Hb & _). simpl. by eexists. }
    rewrite E1. simpl. rewrite Er. simpl.
    assert (Hok1 : heap_ok (BonesByName st) (Bones st) r h1).
    { eapply (Evaluate_heap_preserved (heap_ok (BonesByName st) (Bones st) r)); [| |done|done].
      - intros p m h2 h3. apply heap_ok_local_write.
      - by eapply Forall_lookup_1. }
    destruct Hok1 as (Hwf1 & Hn1 & [b1 Hr1] & Hbs1).
    destruct (update_transforms_spec (S (next_addr h1)) h1 r b1) as (h2 & E2 & E12 & Hsub & _);
      [done|done|lia|].
    unfold UpdateTransforms. rewrite E2. simpl.
    eexists. split_and!; [reflexivity| | | done | done | done |].
    - split_and!; simpl; [|by apply Forall_insert|done|done].
      exists r. split; [done|]. apply (heap_ok_shape _ _ _ h1); [done|]. split_and!; [done|done|by eexists|done].
    - apply (clips_kept_insert _ _ ev); [done|]. by eapply Evaluate_same_clip.
    - intros _ r' Er' a Ha. injection Er' as <-. apply Hsub.
      by apply (in_subtree_shape h2); [symmetry|].
Qed.
End CalcProofs.
(** ** The bake loop *)

Section BakeProofs.
  Context `{FloatOps} `{!FloatLaws} `{!QuatInterp}.
  Implicit Types st : SceneAnimator.

Lemma Calculate_clips t st st' : Calculate t st = Some st' -> clips_kept (Animations st) (Animations st').
Proof.
    unfold Calculate. destruct (anim_index_ok st); simpl; [|intros [= <-]; apply clips_kept_refl].
    destruct (Animations st !! _) as [ev|] eqn:Hev; simpl; [|done].
    destruct (Evaluate ev _ _ _) as [[ev' h1]|] eqn:E; simpl; [|done].
    destruct (Skeleton st); simpl; [|done]. destruct (UpdateTransforms _ _); simpl; [|done].
    intros [= <-]. simpl. eapply clips_kept_insert; [done|]. by eapply Evaluate_same_clip.
Qed.

  (** One baked frame has one matrix per entry of [Transforms]. *)
Lemma frame_matrices_defined st :
    scene_inv st -> exists fr, frame_matrices st = Some fr /\ length fr = length (Transforms st).
Proof.
    intros ((r & _ & _ & _ & _ & Hbs) & _ & Hlen & _). unfold frame_matrices.
    destruct (mapM_is_Some_2 (bone_matrix st) (seq 0 (length (Transforms st)))) as [fr Hfr].
    - apply Forall_forall. intros a Ha%elem_of_seq. unfold bone_matrix. simpl.
      destruct (lookup_lt_is_Some_2 (Bones st) a) as [q Hq]; [lia|]. rewrite Hq. simpl.
      destruct (Forall_lookup_1 _ _ _ _ Hbs Hq) as [b Hb]. rewrite Hb. by eexists.
    - exists fr. split; [done|]. apply mapM_Some_1, Forall2_length in Hfr.
      by rewrite length_seq in Hfr.
Qed.

Lemma scene_inv_push st i ev fr :
    scene_inv st -> Animations st !! i = Some ev ->
    scene_inv (set_Animations (<[i := push_frame fr ev]> (Animations st)) st).
Proof.
    intros (Hr & Hevs & Hlen & Hcur) Hev. split_and!; [done| |done|done].
    simpl. apply Forall_insert; [done|]. exact (Forall_lookup_1 _ _ _ _ Hevs Hev).
Qed.

Lemma SetAnimIndex_animations p st : Animations (SetAnimIndex p st).2 = Animations st.
Proof. unfold SetAnimIndex. by case_match. Qed.

  (** [Calculate] changes the heap and one animation, or nothing. *)
Lemma Calculate_shape t st st' :
    Calculate t st = Some st' ->
    st' = st \/ exists h i ev, st' = set_Heap h (set_Animations (<[i := ev]> (Animations st)) st).
Proof.
    unfold Calculate. destruct (anim_index_ok st); simpl; [|intros [= <-]; by left].
    destruct (Animations st !! _) as [ev|]; simpl; [|done].
    destruct (Evaluate ev _ _ _) as [[ev' h1]|]; simpl; [|done].
    destruct (Skeleton st); simpl; [|done]. destruct (UpdateTransforms _ _) as [h2|]; simpl; [|done].
    intros [= <-]. right. eauto.
Qed.

  (** A field that neither the heap nor the write of one animation
      changes is kept by the bake loop. *)
Lemma bake_loop_keeps {T} (f : SceneAnimator -> T) fuel :
    (forall h st, f (set_Heap h st) = f st) ->
    (forall j ev st, f (set_Animations (<[j := ev]> (Animations st)) st) = f st) ->
    forall i ticks dt st st', bake_loop fuel i ticks dt st = Some st' -> f st' = f st.
Proof.
    intros Hh Ha. induction fuel as [|fuel IH]; intros i ticks dt st st' E; simpl in E; [done|].
    destruct (Animations st !! i) as [ev|]; simpl in E; [|done].
    destruct (ticks <. Duration ev); [|by simplify_eq].
    destruct (Calculate _ st) as [st1|] eqn:Ec; simpl in E; [|done].
    destruct (frame_matrices st1); simpl in E; [|done].
    destruct (Animations st1 !! i); simpl in E; [|done].
    apply IH in E as ->. rewrite Ha.
    by destruct (Calculate_shape _ _ _ Ec) as [->|(h & j & e & ->)]; [|rewrite Hh, Ha].
Qed.

  (** The bake loop keeps the selection and the number of animations. *)
Lemma bake_loop_index fuel i ticks dt st st' :
    bake_loop fuel i ticks dt st = Some st' ->
    CurrentAnimIndex st' = CurrentAnimIndex st /\ length (Animations st') = length (Animations st).
Proof.
    intros E. split; [by eapply (bake_loop_keeps CurrentAnimIndex)|].
    eapply (bake_loop_keeps (fun s => length (Animations s))); [done| |exact E].
    intros. cbn. apply length_insert.
Qed.

  (** [SetAnimIndex(i)] then the bake loop of animation [i] leaves [i]
      selected. *)
Lemma bake_animation_index fuel i st st' :
    i < length (Animations st) -> (Z.of_nat i < 2 ^ 31)%Z ->
    bake_animation fuel i st = Some st' ->
    CurrentAnimIndex st' = Z.of_nat i /\ length (Animations st') = length (Animations st).
Proof.
    intros Hi Hi31 E. apply bake_loop_index in E as [-> ->]. unfold SetAnimIndex.
    assert (Ei : to_int32 (Z.of_nat i) = Z.of_nat i).
    { unfold to_int32. rewrite Z.mod_small by lia. lia. }
    rewrite Ei. unfold to_size. rewrite Z.mod_small by lia.
    destruct (Z.leb_spec (Z.of_nat (length (Animations st))) (Z.of_nat i)); [lia|done].
Qed.

  (** The loop over the animations ends with the last one selected. *)
Lemma bake_all_last fuel st st' :
    bake_all fuel st = Some st' -> Animations st ≠ [] ->
    (Z.of_nat (length (Animations st)) <= 2 ^ 31)%Z ->
    CurrentAnimIndex st' = (Z.of_nat (length (Animations st)) - 1)%Z.
Proof.
    unfold bake_all. intros E Hne H31. set (n := length (Animations st)) in * .
    assert (Hn : n = S (n - 1)) by (destruct (Animations st); [done|unfold n; simpl; lia]).
    rewrite Hn, seq_S, fold_opt_app in E. cbn [fold_opt] in E.
    destruct (fold_opt _ (seq 0 (n - 1)) st) as [t|] eqn:Et; simpl in E; [|done].
    assert (Hlt : length (Animations t) = n).
    { eapply (fold_opt_preserve (fun u => length (Animations u) = n)); [|exact Et|reflexivity].
      intros x u u' _ Eu Hu. apply bake_loop_index in Eu as [_ ->].
      by rewrite SetAnimIndex_animations. }
    destruct (bake_animation fuel (n - 1) t) as [u|] eqn:Eu; simpl in E; [|done].
    injection E as <-. apply bake_animation_index in Eu as [-> _]; lia.
Qed.

  (** A bake loop that ends has run the loop over the ticks to its end:
      [Calculate] and the frames change neither the duration nor the speed
      of the animation. *)
Lemma bake_loop_sound fuel : forall i ticks dt st st' ev,
    bake_loop fuel i ticks dt st = Some st' -> Animations st !! i = Some ev ->
    is_Some (tick_count fuel ticks (Duration ev) (TicksPerSecond ev /. #30)).
Proof.
    induction fuel as [|f IH]; intros i ticks dt st st' ev E Hev; [done|].
    simpl in E. rewrite Hev in E. simpl in E. simpl.
    destruct (ticks <. Duration ev) eqn:Ec; [|by eexists].
    destruct (Calculate _ st) as [st1|] eqn:E1; simpl in E; [|done].
    destruct (frame_matrices st1) as [fr|]; simpl in E; [|done].
    destruct (Animations st1 !! i) as [ev1|] eqn:Hev1; simpl in E; [|done].
    destruct (proj2 (Calculate_clips _ _ _ E1) i ev Hev) as (ev1' & Hev1' & HD & HT & _).
    rewrite Hev1 in Hev1'. injection Hev1' as <-.
    destruct (IH _ _ _ _ _ (push_frame fr ev1) E) as [n Hn].
    { simpl. apply list_lookup_insert_eq. by eapply lookup_lt_Some. }
    simpl in Hn. rewrite HD, HT in Hn. rewrite Hn. by eexists.
Qed.

  (** On a scene satisfying the invariant, the bake loop runs exactly as
      the loop over the ticks does: it ends when that loop ends, having
      appended one frame per iteration, of one matrix per bone. *)
Lemma bake_loop_complete fuel : forall i ticks dt st ev n,
    scene_inv st -> Animations st !! i = Some ev ->
    tick_count fuel ticks (Duration ev) (TicksPerSecond ev /. #30) = Some n ->
    exists st' ev' frames, bake_loop fuel i ticks dt st = Some st' /\
      Animations st' !! i = Some ev' /\
      Evaluator.Transforms ev' = Evaluator.Transforms ev ++ frames /\ length frames = n /\
      Forall (fun fr => length fr = length (Transforms st)) frames /\
      Duration ev' = Duration ev /\ TicksPerSecond ev' = TicksPerSecond ev /\
      scene_inv st' /\ Transforms st' = Transforms st.
Proof.
    induction fuel as [|f IH]; intros i ticks dt st ev n Hinv Hev Hn; [done|].
    simpl in Hn; simpl. rewrite Hev. simpl.
    destruct (ticks <. Duration ev) eqn:Ec.
    2:{ injection Hn as <-. exists st, ev, []. rewrite app_nil_r.
        split_and!; done. }
    destruct (tick_count f _ _ _) as [n'|] eqn:Hn'; simpl in Hn; [|done]. injection Hn as <-.
    destruct (Calculate_inv (dt +. timestep) st Hinv) as (st1 & -> & Hinv1 & Hclips & _ & ET1 & _ & _).
    simpl. destruct (frame_matrices_defined st1 Hinv1) as (fr & -> & Hfr). simpl.
    destruct (proj2 Hclips i ev Hev) as (ev1 & Hev1 & HD & HT & HF). rewrite Hev1. simpl.
    set (st2 := set_Animations (<[i := push_frame fr ev1]> (Animations st1)) st1).
    assert (Hev2 : Animations st2 !! i = Some (push_frame fr ev1)).
    { simpl. apply list_lookup_insert_eq. by eapply lookup_lt_Some. }
    destruct (IH i (ticks +. TicksPerSecond ev1 /. #30) (dt +. timestep) st2 (push_frame fr ev1) n')
      as (st' & ev' & frames & -> & Hev' & EF & Hlen & Hall & HD' & HT' & Hinv' & ET');
      [by apply scene_inv_push | done | simpl; by rewrite HD, HT, Hn' |].
    exists st', ev', (fr :: frames). split_and!; [done|done| |simpl; lia| | | |done|].
    - rewrite EF. simpl. by rewrite HF, <- app_assoc.
    - constructor; [by rewrite Hfr, ET1|]. unfold st2 in Hall. simpl in Hall. by rewrite ET1 in Hall.
    - rewrite HD'. simpl. done.
    - rewrite HT'. simpl. done.
    - unfold st2 in ET'. simpl in ET'. by rewrite ET', ET1.
Qed.
  (** The bake loop only appends to the frames of its animation. *)
Lemma bake_loop_prefix fuel : forall i ticks dt st st' ev,
    bake_loop fuel i ticks dt st = Some st' -> Animations st !! i = Some ev ->
    exists ev' rest, Animations st' !! i = Some ev' /\
      Evaluator.Transforms ev' = Evaluator.Transforms ev ++ rest.
Proof.
    induction fuel as [|f IH]; intros i ticks dt st st' ev E Hev; [done|].
    simpl in E. rewrite Hev in E. simpl in E.
    destruct (ticks <. Duration ev); [|injection E as <-; exists ev, []; by rewrite app_nil_r].
    destruct (Calculate _ st) as [st1|] eqn:E1; simpl in E; [|done].
    destruct (frame_matrices st1) as [fr|]; simpl in E; [|done].
    destruct (Animations st1 !! i) as [ev1|] eqn:Hev1; simpl in E; [|done].
    destruct (proj2 (Calculate_clips _ _ _ E1) i ev Hev) as (ev1' & Hev1' & _ & _ & HF).
    rewrite Hev1 in Hev1'. injection Hev1' as <-.
    destruct (IH _ _ _ _ _ (push_frame fr ev1) E) as (ev' & rest & Hev' & EF).
    { simpl. apply list_lookup_insert_eq. by eapply lookup_lt_Some. }
    exists ev', (fr :: rest). split; [done|]. rewrite EF. simpl. by rewrite HF, <- app_assoc.
Qed.

  (** A field that neither the bone list nor the heap changes is kept by
      the attachment of the mesh bones. *)
Lemma attach_meshes_keeps {T} (f : SceneAnimator -> T) ms st st' :
    (forall bs idx st, f (set_bones bs idx st) = f st) -> (forall h st, f (set_Heap h st) = f st) ->
    attach_meshes ms st = Some st' -> f st' = f st.
Proof.
    intros Hb Hh E. eapply (fold_opt_preserve (fun u => f u = f st)); [|exact E|done].
    intros m u u' _ Eu Hu. rewrite <- Hu.
    eapply (fold_opt_preserve (fun v => f v = f u)); [|exact Eu|done].
    intros b v v' _ Ev Hv. rewrite <- Hv. unfold attach_bone in Ev.
    destruct (BonesByName v !! _); [|by simplify_eq].
    destruct (bone_listed _ _ _) as [[]|]; simpl in Ev; [by simplify_eq| |done].
    destruct (bone_update _ _ _); simpl in Ev; [|done]. injection Ev as <-. by rewrite Hb, Hh.
Qed.

Lemma attach_meshes_animations ms st st' :
    attach_meshes ms st = Some st' -> Animations st' = Animations st.
Proof. by apply attach_meshes_keeps. Qed.

Lemma ExtractAnimations_animations sc st :
    Animations (ExtractAnimations sc st) = Animations st ++ map new_cAnimEvaluator (AiScene.mAnimations sc).
Proof. unfold ExtractAnimations, SetAnimation. by case_match. Qed.

Lemma Release_animations st st' : Release st = Some st' -> Animations st' = [].
Proof. unfold Release. destruct (delete_skeleton _ _); simpl; by intros [= <-]. Qed.

  (** [std::map::insert] never replaces: registering names keeps the
      entries already there. *)
Lemma register_names_keep anims m k i :
    m !! k = Some i -> register_names anims m !! k = Some i.
Proof.
    unfold register_names. generalize (zip (seq 0 (length anims)) anims) as l.
    intros l. revert m. induction l as [|[j ev] l IH]; intros m Hm; [done|].
    cbn [foldl]. apply IH. unfold insert_absent. case_match eqn:E; [done|].
    rewrite lookup_insert_ne; [done|]. intros Hk. rewrite Hk in E. congruence.
Qed.

Lemma bake_all_names fuel st st' :
    bake_all fuel st = Some st' -> AnimationNameToId st' = AnimationNameToId st.
Proof.
    intros E. eapply (fold_opt_preserve (fun u => AnimationNameToId u = AnimationNameToId st)); [|exact E|done].
    intros x u u' _ Eu Hu. rewrite <- Hu.
    apply (bake_loop_keeps AnimationNameToId) in Eu; [|done|done].
    rewrite Eu. unfold SetAnimIndex. by case_match.
Qed.
  (** The loop over the ticks never ends once an iterate below the
      duration absorbs the step: from there [ticks += step] leaves [ticks]
      as it is. *)
Lemma tick_count_absorbed D step k :
    (forall j, j <= k -> tick_after j step <. D = true) ->
    tick_after (S k) step = tick_after k step ->
    forall fuel, tick_count fuel (#0) D step = None.
Proof.
    unfold tick_after. intros Hlt Hfix fuel. change (#0) with (Nat.iter 0 (fun t => t +. step) (#0)).
    assert (Hk0 : 0 <= k) by lia. revert Hk0. generalize 0. induction fuel as [|f IH]; intros m Hm; [done|].
    cbn [tick_count]. rewrite (Hlt m Hm).
    destruct (decide (m = k)) as [->|Hne].
    - change (Nat.iter k (fun t => t +. step) (#0) +. step) with (Nat.iter (S k) (fun t => t +. step) (#0)).
      rewrite Hfix, (IH k); done.
    - change (Nat.iter m (fun t => t +. step) (#0) +. step) with (Nat.iter (S m) (fun t => t +. step) (#0)).
      rewrite (IH (S m)); [done|lia].
Qed.
End BakeProofs.

(** ** [Release] and the destructor *)

Section ReleaseProofs.
  Context `{FloatOps} `{!QuatInterp}.
  Implicit Types (h : bone_heap) (M : gmap nat cBone).

Lemma in_subtree_child M r b c a :
    M !! r = Some b -> c ∈ Children b -> in_subtree M c a -> in_subtree M r a.
Proof.
    intros Hr Hc. induction 1 as [|a b' c' _ IH Hb' Hc']; [by eapply sub_child; [constructor| |]|].
    by eapply sub_child.
Qed.

  (** The recursive destructor frees the whole subtree of its bone, the
      subtree read in any heap [M] that contains the current one, and frees
      nothing else than bones of the heap.  The loop over the children is
      done by [fold_opt_Some_ind]. *)
Lemma delete_bone_frees fuel : forall a M h h',
    cells h ⊆ M -> delete_bone fuel a h = Some h' ->
    cells h' ⊆ cells h /\ forall x, in_subtree M a x -> cells h' !! x = None.
Proof.
    induction fuel as [|fuel IH]; intros a M h h' Hsub E; [done|]. simpl in E.
    destruct (cells h !! a) as [b|] eqn:Ea; simpl in E; [|done].
    destruct (fold_opt _ _ _) as [hn|] eqn:Ef; simpl in E; [|done]. injection E as <-.
    assert (Hn : cells hn ⊆ cells h /\ forall c, c ∈ Children b ->
              forall x, in_subtree M c x -> cells hn !! x = None).
    { revert Ef. apply (fold_opt_Some_ind (fun pre t => cells t ⊆ cells h /\ forall c, c ∈ pre ->
                          forall x, in_subtree M c x -> cells t !! x = None)); [set_solver|].
      intros pre c post t t' _ [Ht Hpre] Et.
      destruct (IH c M t t') as [Ht' Hc]; [by etrans|done|].
      split; [by etrans|]. intros c' [Hc'|Hc']%elem_of_app x Hx.
      + eapply lookup_weaken_None; [by apply (Hpre c')|done].
      + apply list_elem_of_singleton in Hc' as ->. by apply Hc. }
    destruct Hn as [Hn Hkids]. cbn [cells]. split; [etrans; [apply delete_subseteq|done]|].
    intros x Hx. apply in_subtree_inv in Hx as [->|(b' & c & Hb' & Hc & Hx)]; [apply lookup_delete_eq|].
    rewrite (lookup_weaken _ _ _ _ Ea Hsub) in Hb'. injection Hb' as <-.
    apply lookup_delete_None. right. by apply (Hkids c).
Qed.

  (** C26. [Release] frees the skeleton, every bone under its root, but
      keeps [Bones] and [BonesByName]: every attached bone of the skeleton
      is left dangling, and a second [Init] (or [Load]) that scans
      [Bones[j]->Name] reads freed memory. *)
Theorem Release_frees st st' r :
    Skeleton st = Some r -> Release st = Some st' ->
    Bones st' = Bones st /\ BonesByName st' = BonesByName st /\
    forall q, in_subtree (cells (Heap st)) r q -> cells (Heap st') !! q = None.
Proof.
    unfold Release, delete_skeleton. intros ->.
    destruct (delete_bone _ r (Heap st)) as [h'|] eqn:E; simpl; [|done]. intros [= <-].
    split_and!; [done|done|]. cbn [Heap]. by apply (delete_bone_frees _ r _ _ _ (reflexivity _) E).
Qed.
End ReleaseProofs.
(** ** The bake loop on exact arithmetic *)

Section BakeExact.
  Local Open Scope Q_scope.

  (** On exact values, the loop [for (ticks = 0; ticks < d; ticks += s)]
      with [s > 0] runs [ceil(d/s)] times (none when [d <= 0]); the fuel
      needed is one more. *)
Lemma tick_count_S fuel (t D st : xq) :
    tick_count (S fuel) t D st = if t <. D then S <$> tick_count fuel (t +. st) D st else Some O.
Proof. reflexivity. Qed.

Lemma xlt_fin (t d : Q) : (XFin t <. XFin d) = negb (Qle_bool d t).
Proof. reflexivity. Qed.

Lemma xadd_fin (t s : Q) : (XFin t +. XFin s) = XFin (Qred (t + s)).
Proof. reflexivity. Qed.

Lemma tick_count_exact d s (Hs : 0 < s) : forall m k t,
    (Z.of_nat (k + m) = Z.max 0 (Qceiling (d / s)))%Z -> t == inject_Z (Z.of_nat k) * s ->
    tick_count (S m) (XFin t) (XFin d) (XFin s) = Some m.
Proof.
    pose proof (Qle_ceiling (d / s)) as Hc1. pose proof (Qceiling_lt (d / s)) as Hc2.
    assert (Hds : d == d / s * s) by (field; lra).
    induction m as [|m IH]; intros k t Hk Ht; rewrite tick_count_S, xlt_fin.
    - assert (Hle : d <= t).
      { assert (Hk' : inject_Z (Qceiling (d / s)) <= inject_Z (Z.of_nat k)) by (rewrite <- Zle_Qle; lia).
        rewrite Ht, Hds. apply Qmult_le_r; [done|]. lra. }
      apply Qle_bool_iff in Hle. by rewrite Hle.
    - assert (Hlt : t < d).
      { assert (Hk' : inject_Z (Z.of_nat k) <= inject_Z (Qceiling (d / s) - 1)) by (rewrite <- Zle_Qle; lia).
        rewrite Ht, Hds. apply Qmult_lt_r; [done|]. lra. }
      destruct (Qle_bool d t) eqn:E; [apply Qle_bool_iff in E; lra|]. simpl negb. cbv iota.
      rewrite xadd_fin, (IH (S k)); [done|lia|]. rewrite Qred_correct, Ht, Nat2Z.inj_succ.
      rewrite <- Z.add_1_r, inject_Z_plus. ring.
Qed.

  (** With [s <= 0 < d] the loop never ends: the ticks never reach [d]. *)
Lemma tick_count_diverges d s : s <= 0 -> 0 < d -> forall fuel t, t <= 0 ->
    tick_count fuel (XFin t) (XFin d) (XFin s) = None.
Proof.
    intros Hs Hd. induction fuel as [|f IH]; intros t Ht; [done|]. rewrite tick_count_S, xlt_fin.
    destruct (Qle_bool d t) eqn:E; [apply Qle_bool_iff in E; lra|]. simpl negb. cbv iota.
    rewrite xadd_fin, IH; [done|]. rewrite Qred_correct. lra.
Qed.
  (** The loop over the ticks of the bake, at [tps / 30] ticks per frame,
      runs [ceil(30 d / tps)] times. *)
Lemma tick_count_frames d tps : 0 < tps ->
    tick_count (S (Z.to_nat (Qceiling (30 * d / tps)))) (#0) (XFin d) (XFin tps /. #30) =
      Some (Z.to_nat (Qceiling (30 * d / tps))).
Proof.
    intros Htps. set (N := Z.to_nat (Qceiling (30 * d / tps))).
    assert (Hs : 0 < Qred (tps / inject_Z 30)).
    { rewrite Qred_correct. apply Qlt_shift_div_l; [reflexivity|]. lra. }
    change (@fdiv exact_float_ops (XFin tps) (@f_of_Z exact_float_ops 30)) with (XFin (Qred (tps / inject_Z 30))).
    apply (tick_count_exact d _ Hs N 0).
    - rewrite (Qceiling_comp (d / Qred (tps / inject_Z 30)) (30 * d / tps)); [unfold N; lia|].
      rewrite Qred_correct. field. intros Hz. lra.
    - simpl. reflexivity.
Qed.
End BakeExact.
(** ** Theorems on the scene animator *)

Section SceneTheorems.
  Context `{FloatOps} `{!FloatLaws} `{!QuatInterp}.

  (** C7. The bake loop refines the loop over the ticks: on a scene
      satisfying the invariant, the bake loop of animation [i] ends exactly
      when [for (ticks = ...; ticks < Duration; ticks += TicksPerSecond/30)]
      ends, and then it has appended to the animation's [Transforms] one
      frame per iteration, each with one matrix per entry of the scene's
      [Transforms] (one per attached bone). *)
Theorem bake_loop_frames fuel i ticks dt st ev :
    scene_inv st -> Animations st !! i = Some ev ->
    (is_Some (bake_loop fuel i ticks dt st) <->
     is_Some (tick_count fuel ticks (Duration ev) (TicksPerSecond ev /. #30))) /\
    forall n, tick_count fuel ticks (Duration ev) (TicksPerSecond ev /. #30) = Some n ->
      exists st' ev' frames, bake_loop fuel i ticks dt st = Some st' /\
        Animations st' !! i = Some ev' /\
        Evaluator.Transforms ev' = Evaluator.Transforms ev ++ frames /\ length frames = n /\
        Forall (fun fr => length fr = length (Transforms st)) frames.
Proof.
    intros Hinv Hev. split; [split|].
    - intros [st' E]. by eapply bake_loop_sound.
    - intros [n Hn]. destruct (bake_loop_complete fuel i ticks dt st ev n) as (st' & _ & _ & -> & _);
        [done..|]. by eexists.
    - intros n Hn. destruct (bake_loop_complete fuel i ticks dt st ev n)
        as (st' & ev' & frames & E & Hev' & EF & Hlen & Hall & _); [done..|].
      exists st', ev', frames. done.
Qed.

  (** C6. [Calculate] is defined and correct: on a scene satisfying the
      invariant it is defined, keeps the invariant, and when an animation
      is selected it leaves every bone of the skeleton with the global
      transform its ancestors' new local transforms determine. *)
Theorem Calculate_correct t st :
    scene_inv st ->
    exists st', Calculate t st = Some st' /\ scene_inv st' /\
      (anim_index_ok st = true -> forall r, Skeleton st = Some r ->
         forall a, in_subtree (cells (Heap st')) r a -> global_ok (cells (Heap st')) a).
Proof.
    intros Hinv. destruct (Calculate_inv t st Hinv) as (st' & E & Hinv' & _ & _ & _ & _ & Hok).
    by exists st'.
Qed.

  (** C23. [SetAnimIndex] on an [int32_t]: converted to [size_t] for the
      comparison, a negative index is out of range, so the call selects the
      animation exactly when [0 <= p < Animations.size()] and returns
      whether the selection changed; otherwise it changes nothing and
      returns [false]. *)
Theorem SetAnimIndex_range p st :
    (- 2 ^ 31 <= p < 2 ^ 31)%Z -> (Z.of_nat (length (Animations st)) < 2 ^ 31)%Z ->
    SetAnimIndex p st =
      if (0 <=? p)%Z && (p <? Z.of_nat (length (Animations st)))%Z
      then (negb (CurrentAnimIndex st =? p)%Z, set_CurrentAnimIndex p st)
      else (false, st).
Proof.
    intros Hp Hl. unfold SetAnimIndex, to_size.
    assert (Hm : (p mod 2 ^ 64 = if (0 <=? p) then p else p + 2 ^ 64)%Z).
    { destruct (Z.leb_spec 0 p); [apply Z.mod_small; lia|].
      rewrite <- (Z.mod_add p 1 (2 ^ 64)) by lia. apply Z.mod_small; lia. }
    rewrite Hm. Z_cases; reflexivity.
Qed.

  (** C33. [Init] ends with the last animation selected:
      [ExtractAnimations] selects 0 and then ["Idle"], but the bake loop
      calls [SetAnimIndex(i)] for every animation in turn, so after an
      [Init] that returns, [CurrentAnimIndex] is the index of the last
      animation of the scene, whatever their names. *)
Theorem Init_selects_last_animation fuel sc st st' :
    Init fuel sc st = Some st' -> AiScene.HasAnimations sc = true ->
    (Z.of_nat (length (AiScene.mAnimations sc)) <= 2 ^ 31)%Z ->
    CurrentAnimIndex st' = (Z.of_nat (length (AiScene.mAnimations sc)) - 1)%Z.
Proof.
    intros E Ha H31. unfold Init in E. rewrite Ha in E. simpl in E.
    destruct (Release st) as [st1|] eqn:Er; simpl in E; [|done].
    destruct (CreateBoneTree _ _ _) as [[root [h byname]]|]; simpl in E; [|done].
    destruct (attach_meshes _ _) as [st2|] eqn:Ea; simpl in E; [|done].
    apply attach_meshes_animations in Ea.
    rewrite ExtractAnimations_animations in Ea. cbn [Animations set_tree] in Ea.
    rewrite (Release_animations _ _ Er) in Ea.
    rewrite (bake_all_last _ _ _ E); cbn [Animations set_Transforms]; rewrite Ea; cbn [app].
    - by rewrite length_map.
    - unfold AiScene.HasAnimations in Ha. by destruct (AiScene.mAnimations sc).
    - by rewrite length_map.
Qed.
  (** C28. [Release] does not clear [AnimationNameToId] and
      [std::map::insert] does not replace a key: an [Init] that returns
      keeps every name of the previous scene at its old index, even when
      the new scene has fewer animations, so [SetAnimation] of that name
      selects a stale index. *)
Theorem Init_stale_animation_ids fuel sc st st' name i :
    Init fuel sc st = Some st' -> AnimationNameToId st !! name = Some i ->
    AnimationNameToId st' !! name = Some i.
Proof.
    intros E Hi. unfold Init in E. destruct (negb (AiScene.HasAnimations sc)); [by simplify_eq|].
    destruct (Release st) as [st1|] eqn:Er; simpl in E; [|done].
    destruct (CreateBoneTree _ _ _) as [[root [h byname]]|]; simpl in E; [|done].
    destruct (attach_meshes _ _) as [st2|] eqn:Ea; simpl in E; [|done].
    apply bake_all_names in E as ->. cbn [AnimationNameToId set_Transforms].
    apply (attach_meshes_keeps AnimationNameToId) in Ea as ->; [|done|done].
    unfold ExtractAnimations, SetAnimation. case_match; cbn; apply register_names_keep.
    all: unfold Release in Er; destruct (delete_skeleton _ _); simpl in Er; [|done]; by injection Er as <-.
Qed.

  (** C36. Without an animation the queries index [Animations[-1]]: [Init]
      of a scene without animations returns at once, so a
      [SceneAnimator] whose [CurrentAnimIndex] is negative (the [-1] of
      the constructor) keeps it, and [GetTransforms],
      [PlayAnimationForward], [PlayAnimationBackward],
      [AdjustAnimationSpeedBy], [AdjustAnimationSpeedTo] and
      [GetAnimationSpeed] are undefined.  The specification asks every
      query to treat [-1] as "no animation". *)
Theorem no_animation_queries_undefined fuel sc st dt p :
    AiScene.HasAnimations sc = false -> (CurrentAnimIndex st < 0)%Z ->
    Init fuel sc st = Some st /\ GetTransforms dt st = None /\
    PlayAnimationForward st = None /\ PlayAnimationBackward st = None /\
    AdjustAnimationSpeedBy p st = None /\ AdjustAnimationSpeedTo p st = None /\
    GetAnimationSpeed st = None.
Proof.
    intros Ha Hi. assert (Hc : current_anim st = None).
    { unfold current_anim. by destruct (Z.ltb_spec (CurrentAnimIndex st) 0); [|lia]. }
    unfold Init, GetTransforms, PlayAnimationForward, PlayAnimationBackward,
      AdjustAnimationSpeedBy, AdjustAnimationSpeedTo, GetAnimationSpeed, update_current.
    rewrite Ha, Hc. split_and!; done.
Qed.
  (** C32. The baked frames are one step late, for every scene: [dt] is
      incremented before [Calculate(dt)], so the first frame the bake loop
      appends to an animation of positive duration is the frame of the
      scene after [Calculate(0 + timestep)], the pose at 1/30 s, and not
      the pose at time 0.  It stays the first new frame of the animation
      whatever the later iterations do. *)
Theorem bake_loop_first_frame fuel i st st' ev :
    bake_loop fuel i (#0) (#0) st = Some st' ->
    Animations st !! i = Some ev -> (#0 <. Duration ev) = true ->
    exists st1 fr ev', Calculate (#0 +. timestep) st = Some st1 /\ frame_matrices st1 = Some fr /\
      Animations st' !! i = Some ev' /\
      Evaluator.Transforms ev' !! length (Evaluator.Transforms ev) = Some fr.
Proof.
    intros E Hev Hpos. destruct fuel as [|f]; [done|]. cbn [bake_loop] in E.
    rewrite Hev in E. cbn [mbind option_bind] in E. rewrite Hpos in E.
    destruct (Calculate _ st) as [st1|] eqn:E1; simpl in E; [|done].
    destruct (frame_matrices st1) as [fr|] eqn:Efr; simpl in E; [|done].
    destruct (Animations st1 !! i) as [ev1|] eqn:Hev1; simpl in E; [|done].
    destruct (proj2 (Calculate_clips _ _ _ E1) i ev Hev) as (ev1' & Hev1' & _ & _ & HF).
    rewrite Hev1 in Hev1'. injection Hev1' as <-.
    destruct (bake_loop_prefix _ _ _ _ _ _ (push_frame fr ev1) E) as (ev' & rest & Hev' & EF).
    { simpl. apply list_lookup_insert_eq. by eapply lookup_lt_Some. }
    exists st1, fr, ev'. split_and!; [done|done|done|]. rewrite EF. simpl. rewrite HF, <- app_assoc.
    rewrite lookup_app_r, Nat.sub_diag by lia. done.
Qed.
  (** C8. The bake loop stalls when the float addition absorbs the step:
      in any float arithmetic, if an iterate [t] of [ticks +=
      TicksPerSecond / 30.0f] from 0, with every iterate up to it below the
      duration, satisfies [t + TicksPerSecond / 30.0f = t] (in [float] once
      the step is below half a unit in the last place of [ticks]), the bake
      loop of the animation never ends: no fuel is enough. *)
Theorem bake_loop_absorbed st i ev k dt :
    Animations st !! i = Some ev ->
    (forall j, j <= k -> tick_after j (TicksPerSecond ev /. #30) <. Duration ev = true) ->
    tick_after (S k) (TicksPerSecond ev /. #30) = tick_after k (TicksPerSecond ev /. #30) ->
    forall fuel, bake_loop fuel i (#0) dt st = None.
Proof.
    intros Hev Hlt Hfix fuel. destruct (bake_loop fuel i (#0) dt st) as [st'|] eqn:E; [|done].
    destruct (bake_loop_sound _ _ _ _ _ _ ev E Hev) as [n Hn].
    by rewrite (tick_count_absorbed _ _ k Hlt Hfix fuel) in Hn.
Qed.
End SceneTheorems.
Section SceneExact.

  (** C24. With a negative (or zero) speed the bake loop never ends: for
      an animation of positive duration and [TicksPerSecond <= 0] (the
      constructor only replaces a zero read from the file by 100), the
      ticks never reach the duration and no fuel is enough. *)
Theorem bake_loop_diverges st i ev d tps dt :
    Animations st !! i = Some ev -> Duration ev = XFin d -> TicksPerSecond ev = XFin tps ->
    (0 < d)%Q -> (tps <= 0)%Q -> forall fuel, bake_loop fuel i (#0) dt st = None.
Proof.
    intros Hev HD HT Hd Htps fuel. destruct (bake_loop fuel i (#0) dt st) as [st'|] eqn:E; [|done].
    destruct (bake_loop_sound _ _ _ _ _ _ _ E Hev) as [n Hn].
    rewrite HD, HT in Hn. change (@fdiv exact_float_ops (XFin tps) (@f_of_Z exact_float_ops 30)) with (XFin (Qred (tps / inject_Z 30))) in Hn.
    change (@f_of_Z exact_float_ops 0) with (XFin (inject_Z 0)) in Hn.
    assert (Hneg : (Qred (tps / inject_Z 30) <= 0)%Q).
    { rewrite Qred_correct. apply Qle_shift_div_r; [reflexivity|]. lra. }
    rewrite (tick_count_diverges d _ Hneg Hd _ _ (Qle_refl _)) in Hn.
    discriminate Hn.
Qed.

  (** The baked frames are one step late: [dt] is incremented before
      [Calculate(dt)], so the first frame holds the pose at 1/30 s and
      [GetTransforms(0)] returns it.  On the scene, where [arm] moves from
      [(0,2,0)] to [(0,4,0)] during the first tick, [hand] is baked at
      [(1, 31/15, 3)] for time 0, while the pose at time 0 puts it at
      [(1,2,3)].  The specification asks the loop to start from time 0. *)
Example Init_first_frame_late :
    ((arm_ready ≫= PlayAnimationForward) ≫= GetBoneTransform (#0) "hand")
    = Some (translation_at (#1) (xfrac 31 15) (#3)) /\
    (Calculate (#0) arm_prebake ≫= fun st => bone_matrix st 0) = Some (translation 1 2 3).
Proof. split; reflexivity. Qed.

  (** After [Init] of the arm scene, [Bones] holds [hand] and [arm] at
      addresses 2 and 1; [Release] frees them and the root but keeps
      [Bones], and a second [Init] reads [Bones[j]->Name] through them (use
      after free: undefined). *)
Lemma Release_frees_arm :
    arm_ready = Some arm_inited /\ Bones arm_inited = [2; 1] /\
    Bones arm_released = Bones arm_inited /\ BonesByName arm_released = BonesByName arm_inited /\
    cells (Heap arm_released) !! 0 = None /\
    cells (Heap arm_released) !! 1 = None /\ cells (Heap arm_released) !! 2 = None /\
    (arm_ready ≫= Init 40 arm_scene) = None.
Proof.
    assert (E : Release arm_inited = Some arm_released) by reflexivity.
    destruct (Release_frees arm_inited arm_released 0 eq_refl E) as (Hb & Hn & Hf).
    split_and!; [reflexivity|reflexivity|exact Hb|exact Hn| | | |reflexivity]; apply Hf.
    - constructor.
    - eapply (sub_child _ _ 0); [constructor|reflexivity|cbn; set_solver].
    - eapply (sub_child _ _ 1); [|reflexivity|cbn; set_solver].
      eapply (sub_child _ _ 0); [constructor|reflexivity|cbn; set_solver].
Defined.

  (** With ["Idle"] at 0 and ["run"] at 1, the current index after [Init]
      is 1. *)
Lemma Init_selects_last_animation_idle_run :
    (Init 40 idle_run_scene new_SceneAnimator
       ≫= fun st => Some (CurrentAnimIndex st, AnimationNameToId st !! "Idle"))
    = Some (1%Z, Some O).
Proof.
    assert (E : Init 40 idle_run_scene new_SceneAnimator = Some idle_run_inited) by reflexivity.
    rewrite E. cbn [mbind option_bind]. rewrite (Init_selects_last_animation _ _ _ _ E); [|reflexivity|simpl; lia].
    reflexivity.
Defined.

  (** After [Init] with ["Idle"] and ["run"] and again with only
      ["run"], ["run"] keeps the stale index 1: [SetAnimation("run")]
      selects it, past the single animation, reports a change, and
      [GetTransforms] reads out of range. *)
Lemma Init_stale_animation_ids_run :
    AnimationNameToId run_reinited !! "run" = Some 1 /\
    ((Init 40 idle_run_scene new_SceneAnimator ≫= Init 40 run_scene)
       ≫= fun st => let '(changed, st') := SetAnimation "run" st in
                    Some (changed, CurrentAnimIndex st', length (Animations st'),
                          GetTransforms (#0) st'))
    = Some (true, 1%Z, 1, None).
Proof.
    assert (E : Init 40 run_scene idle_run_inited = Some run_reinited) by reflexivity.
    split; [|reflexivity].
    apply (Init_stale_animation_ids _ _ _ _ _ _ E). reflexivity.
Defined.

  (** [Init] on a scene without animations changes nothing: on a new
      [SceneAnimator] the queries are undefined, and only
      [GetBoneTransform] of an unknown name returns the identity. *)
Lemma no_animation_queries_undefined_new :
    Init 40 (AiScene.mkAiScene arm_tree [] arm_meshes) new_SceneAnimator = Some new_SceneAnimator /\
    GetTransforms (#0) new_SceneAnimator = None /\ PlayAnimationForward new_SceneAnimator = None /\
    PlayAnimationBackward new_SceneAnimator = None /\
    AdjustAnimationSpeedBy (#50) new_SceneAnimator = None /\
    AdjustAnimationSpeedTo (#50) new_SceneAnimator = None /\
    GetAnimationSpeed new_SceneAnimator = None /\
    GetBoneTransform (#0) "hand" new_SceneAnimator = Some mat_identity.
Proof.
    destruct (no_animation_queries_undefined 40 (AiScene.mkAiScene arm_tree [] arm_meshes)
                new_SceneAnimator (#0) (#50)) as (H1 & H2 & H3 & H4 & H5 & H6 & H7);
      [reflexivity|reflexivity|].
    split_and!; (assumption || reflexivity).
Defined.

Lemma bake_loop_frames_witness :
    scene_inv arm_prebake /\ Animations arm_prebake !! 0 = Some (new_cAnimEvaluator wave) /\
    (is_Some (bake_loop 31 0 (#0) (#0) arm_prebake) <->
     is_Some (tick_count 31 (#0) (Duration (new_cAnimEvaluator wave))
                (TicksPerSecond (new_cAnimEvaluator wave) /. #30))) /\
    forall n, tick_count 31 (#0) (Duration (new_cAnimEvaluator wave))
                (TicksPerSecond (new_cAnimEvaluator wave) /. #30) = Some n ->
      exists st' ev' frames, bake_loop 31 0 (#0) (#0) arm_prebake = Some st' /\
        Animations st' !! 0 = Some ev' /\
        Evaluator.Transforms ev' = Evaluator.Transforms (new_cAnimEvaluator wave) ++ frames /\
        length frames = n /\ Forall (fun fr => length fr = length (Transforms arm_prebake)) frames.
Proof.
    assert (Hinv : scene_inv arm_prebake) by (apply scene_invb_sound; reflexivity).
    assert (Hev : Animations arm_prebake !! 0 = Some (new_cAnimEvaluator wave)) by reflexivity.
    split; [exact Hinv|]. split; [exact Hev|].
    apply bake_loop_frames; [exact Hinv | exact Hev].
Defined.

Lemma Calculate_correct_witness :
    scene_inv arm_prebake /\
    exists st', Calculate (xfrac 1 2) arm_prebake = Some st' /\ scene_inv st' /\
      (anim_index_ok arm_prebake = true -> forall r, Skeleton arm_prebake = Some r ->
         forall a, in_subtree (cells (Heap st')) r a -> global_ok (cells (Heap st')) a).
Proof.
    assert (Hinv : scene_inv arm_prebake) by (apply scene_invb_sound; reflexivity).
    split; [exact Hinv|]. apply Calculate_correct. exact Hinv.
Defined.

Lemma SetAnimIndex_range_witness :
    (- 2 ^ 31 <= -1 < 2 ^ 31)%Z /\ (Z.of_nat (length (Animations arm_prebake)) < 2 ^ 31)%Z /\
    SetAnimIndex (-1) arm_prebake =
      if (0 <=? -1)%Z && (-1 <? Z.of_nat (length (Animations arm_prebake)))%Z
      then (negb (CurrentAnimIndex arm_prebake =? -1)%Z, set_CurrentAnimIndex (-1) arm_prebake)
      else (false, arm_prebake).
Proof.
    assert (Hp : (- 2 ^ 31 <= -1 < 2 ^ 31)%Z) by lia.
    assert (Hl : (Z.of_nat (length (Animations arm_prebake)) < 2 ^ 31)%Z) by (vm_compute; reflexivity).
    split; [exact Hp|]. split; [exact Hl|]. apply SetAnimIndex_range; [exact Hp | exact Hl].
Defined.

  (** The arm scene with its speed set to 0: the step [0 / 30] is absorbed
      at [ticks = 0], below the duration 1, and the bake loop does not end within 100
      iterations (nor within any other fuel). *)
Lemma bake_loop_absorbed_stopped : bake_loop 100 0 (#0) (#0) stopped_prebake = None.
Proof.
    refine (bake_loop_absorbed stopped_prebake 0
              (default (new_cAnimEvaluator wave) (Animations stopped_prebake !! 0)) 0 (#0) _ _ _ 100);
      [reflexivity| |reflexivity].
    intros j Hj. assert (j = 0) as -> by lia. reflexivity.
Defined.

Lemma bake_loop_diverges_witness :
    Animations reversed_prebake !! 0 = Some (new_cAnimEvaluator reversed_wave) /\
    Duration (new_cAnimEvaluator reversed_wave) = XFin 1 /\
    TicksPerSecond (new_cAnimEvaluator reversed_wave) = XFin (-1) /\
    (0 < 1)%Q /\ (-1 <= 0)%Q /\
    forall fuel, bake_loop fuel 0 (#0) (#0) reversed_prebake = None.
Proof.
    assert (Hev : Animations reversed_prebake !! 0 = Some (new_cAnimEvaluator reversed_wave))
      by reflexivity.
    assert (HD : Duration (new_cAnimEvaluator reversed_wave) = XFin 1) by reflexivity.
    assert (HT : TicksPerSecond (new_cAnimEvaluator reversed_wave) = XFin (-1)) by reflexivity.
    assert (H1 : (0 < 1)%Q) by reflexivity.
    assert (H2 : (-1 <= 0)%Q) by (vm_compute; discriminate).
    split; [exact Hev|]. split; [exact HD|]. split; [exact HT|]. split; [exact H1|]. split; [exact H2|].
    apply bake_loop_diverges with (ev := new_cAnimEvaluator reversed_wave) (d := 1%Q) (tps := (-1)%Q);
      [exact Hev | exact HD | exact HT | exact H1 | exact H2].
Defined.
  (** The first frame baked for [wave] is the scene at [dt = 1/30]. *)
Lemma bake_loop_first_frame_arm :
    exists st1 fr ev', Calculate (#0 +. timestep) arm_prebake = Some st1 /\ frame_matrices st1 = Some fr /\
      Animations arm_baked !! 0 = Some ev' /\ Evaluator.Transforms ev' !! 0 = Some fr.
Proof.
    apply (bake_loop_first_frame 40 0 arm_prebake arm_baked (new_cAnimEvaluator wave));
      reflexivity.
Defined.
End SceneExact.
End Scene.
