(* ===== verification/InitBake.v ===== *)
(** * InitBake.v: [SceneAnimator::Init] end to end

    [Init] (cAnimationController.cpp, lines 244-293) composes every part of
    the controller: [Release], [CreateBoneTree] on the bone heap of
    [Skeleton.v], [ExtractAnimations] with the evaluator constructor of
    [Evaluator.v], the attachment of the mesh bones, the resize of
    [Transforms], and the loop over the animations that bakes each one
    with [SetAnimIndex] and the bake loop of [Animator.v].  This file proves
    what the composition gives on a new [SceneAnimator]:
    - [Init_prebake]: before the bake, the scene satisfies [scene_inv] of
      [Animator.v], and its evaluators are those the constructor builds
      from the scene, with no frame baked;
    - [bake_all_frames]: the loop over the animations keeps [scene_inv],
      and bakes into each animation [i] exactly the frames of its own bake
      loop, leaving the others' frames as they were;
    - [Init_bakes_tick_loop]: in any float arithmetic, every animation
      receives one frame of one matrix per attached bone per iteration of
      its loop over the ticks, when that loop ends within the fuel; on
      exact arithmetic, where the count is [ceil(30 d / tps)], after
      [PlayAnimationForward] every [GetTransforms(t)], [t >= 0], returns one
      of them;
    - [Init_animation_ids]: [AnimationNameToId] maps each name to the
      index of its first animation ([register_names_first]);
    - a second [Init], on the scene the first one left, is undefined:
      [Release] frees the skeleton but keeps [Bones], [CreateBoneTree] only
      allocates fresh addresses ([CreateBoneTree_grows]), and the duplicate
      scan of the attachment reads the freed [Bones[0]]. *)

From stdpp Require Import base list strings gmap.
From Stdlib Require Import ZArith QArith Qround Lqa Lia.
From S2P Require Import Prelude Float ExactFloat Channel Evaluator Skeleton Animator.
Close Scope Q_scope.

Import Scene.

(** ** What the bake does to the evaluators *)

Section Baked.
  Context `{FloatOps} `{!QuatInterp}.

  (** [ev'] is [ev] with [n] frames of [w] matrices appended. *)
Definition baked_from (n w : nat) (ev ev' : cAnimEvaluator) : Prop :=
    Duration ev' = Duration ev /\ TicksPerSecond ev' = TicksPerSecond ev /\
    exists frames, Evaluator.Transforms ev' = Evaluator.Transforms ev ++ frames /\
      length frames = n /\ Forall (fun fr => length fr = w) frames.

  (** The loop over the animations after the indices [pre]: the scene
      keeps the invariant, [Transforms] and the number of animations; each
      animation of [pre] is the one of [st0] with its [n] frames baked,
      each other one still has the clip of [st0]. *)
Definition bake_progress (st0 : SceneAnimator) (ns : list nat) (pre : list nat) (u : SceneAnimator) : Prop :=
    scene_inv u /\ Transforms u = Transforms st0 /\
    length (Animations u) = length (Animations st0) /\
    forall i ev n, Animations st0 !! i = Some ev -> ns !! i = Some n ->
      exists ev', Animations u !! i = Some ev' /\
        (i ∈ pre -> baked_from n (length (Transforms st0)) ev ev') /\
        (i ∉ pre -> same_clip ev ev').
End Baked.

(** ** What building a tree leaves free *)

Section Grows.
  Context `{FloatOps}.

  (** [h'] allocates no address below [next_addr h] that [h] left free. *)
Definition heap_grows (h h' : bone_heap) : Prop :=
    next_addr h <= next_addr h' /\
    forall x, x < next_addr h -> cells h !! x = None -> cells h' !! x = None.

  (** What a tree builder [create] keeps on node [k]: the heap grows and
      every name of [BonesByName] stays registered. *)
Definition create_grows
      (create : aiNode -> option nat -> bone_heap * gmap string nat ->
                option (nat * (bone_heap * gmap string nat))) (k : aiNode) : Prop :=
    forall p h byname a h' byname', create k p (h, byname) = Some (a, (h', byname')) ->
      heap_grows h h' /\ forall n, is_Some (byname !! n) -> is_Some (byname' !! n).
End Grows.

(** ** A scene with a repeated animation name *)

Section RunTwice.

  (** ["run"], ["Idle"], then ["run"] again. *)
Definition run_twice_scene : AiScene.aiScene :=
    AiScene.mkAiScene arm_tree [run_anim; idle_anim; run_anim] [].

  (** [Init] of it on a new animator, computed once. *)
Definition run_twice_inited : SceneAnimator :=
    Eval vm_compute in default new_SceneAnimator (Init 40 run_twice_scene new_SceneAnimator).
End RunTwice.

(** ** The scene before the bake *)

Section Prebake.
  Context `{FloatOps} `{!FloatLaws} `{!QuatInterp}.
  Implicit Types st : SceneAnimator.

  (** Writing a bone's offset keeps the heap well formed and its cells
      allocated. *)
Lemma bone_update_offset_heap p m h h' :
    heap_wf h -> bone_update p (set_Offset m) h = Some h' ->
    heap_wf h' /\ forall x, is_Some (cells h' !! x) <-> is_Some (cells h !! x).
Proof.
    intros Hwf. unfold bone_update. destruct (cells h !! p) as [b|] eqn:Hb; simpl; [|done].
    intros [= <-]. split; [by eapply heap_wf_frame|]. intros x. simpl.
    rewrite lookup_insert. case_decide; [subst; rewrite Hb|]; done.
Qed.

  (** The attachment of the mesh bones writes offsets only: the heap stays
      well formed, with the same cells allocated. *)
Lemma attach_meshes_heap ms st st' :
    heap_wf (Heap st) -> attach_meshes ms st = Some st' ->
    heap_wf (Heap st') /\ forall x, is_Some (cells (Heap st') !! x) <-> is_Some (cells (Heap st) !! x).
Proof.
    intros Hwf E.
    set (P u := heap_wf (Heap u) /\ forall x, is_Some (cells (Heap u) !! x) <-> is_Some (cells (Heap st) !! x)).
    eapply (fold_opt_preserve P); [|exact E|done].
    intros m u u' _ Eu Hu. eapply (fold_opt_preserve P); [|exact Eu|done].
    intros b v v' _ Ev [Hv Hd]. unfold attach_bone in Ev.
    destruct (BonesByName v !! _); [|by simplify_eq].
    destruct (bone_listed _ _ _) as [[]|]; simpl in Ev; [by simplify_eq| |done].
    destruct (bone_update _ _ _) as [h|] eqn:Eh; simpl in Ev; [|done]. injection Ev as <-.
    destruct (bone_update_offset_heap _ _ _ _ Hv Eh) as [Hwf' Hd']. split; [done|].
    intros x. simpl. by rewrite Hd'.
Qed.

  (** [SetAnimation] and [SetAnimIndex] leave an [int32_t] index. *)
Lemma to_int32_lt z : (to_int32 z < 2 ^ 31)%Z.
Proof. unfold to_int32. pose proof (Z.mod_pos_bound (z + 2 ^ 31) (2 ^ 32)). lia. Qed.

Lemma ExtractAnimations_index sc st : (CurrentAnimIndex (ExtractAnimations sc st) < 2 ^ 31)%Z.
Proof.
    unfold ExtractAnimations, SetAnimation. simpl. case_match; simpl; [apply to_int32_lt|lia].
Qed.

  (** A field that neither the index, the evaluators nor the table of
      animation names changes is kept by [ExtractAnimations]. *)
Lemma ExtractAnimations_keeps {T} (f : SceneAnimator -> T) sc st :
    (forall i st, f (set_CurrentAnimIndex i st) = f st) ->
    (forall l st, f (set_Animations l st) = f st) ->
    (forall m st, f (set_AnimationNameToId m st) = f st) ->
    f (ExtractAnimations sc st) = f st.
Proof.
    intros Hi Hl Hm. unfold ExtractAnimations, SetAnimation. cbv zeta.
    case_match; cbn [snd]; by rewrite ?Hi, Hm, Hl.
Qed.

  (** On a new [SceneAnimator], [Init] of a scene with animations builds
      the tree, extracts the animations and attaches the mesh bones into a
      scene satisfying [scene_inv], whose evaluators are the constructor's
      and whose [Transforms] has one matrix per attached bone; then it
      bakes. *)
Lemma Init_prebake fuel sc :
    AiScene.HasAnimations sc = true ->
    exists st0, Init fuel sc new_SceneAnimator = bake_all fuel st0 /\ scene_inv st0 /\
      Animations st0 = map new_cAnimEvaluator (AiScene.mAnimations sc) /\
      length (Transforms st0) = length (Bones st0).
Proof.
    intros Ha. unfold Init. rewrite Ha. simpl.
    destruct (CreateBoneTree_ok (AiScene.mRootNode sc) None empty_bone_heap ∅)
      as (h & byname & Ec & Hwf & Hn & Hnext & _ & Hglob & _);
      [apply heap_wf_empty | apply names_ok_empty | done |].
    rewrite Ec. simpl. set (st1 := ExtractAnimations sc (set_tree (Some 0) h byname _)).
    assert (Hat : attach_inv byname st1 []).
    { unfold st1, ExtractAnimations, SetAnimation. case_match; split_and!; simpl;
        first [done | constructor | intros ? ? Hj; by rewrite lookup_nil in Hj | intros ? Hm; set_solver]. }
    destruct (attach_meshes_inv byname (AiScene.mMeshes sc) st1 [] Hat)
      as (st2 & E2 & (Eb & Hn2 & Hf & EB & _)). rewrite E2. simpl.
    assert (Hh1 : Heap st1 = h) by (by apply (ExtractAnimations_keeps Heap)).
    destruct (attach_meshes_heap _ st1 st2 ltac:(by rewrite Hh1) E2) as [Hwf2 Hd2].
    eexists. split; [reflexivity|]. split_and!;
      [| by simpl; rewrite (attach_meshes_animations _ _ _ E2); unfold st1; rewrite ExtractAnimations_animations
       | by simpl; rewrite length_resize].
    unfold scene_inv. simpl. split_and!.
    - exists 0. split.
      { rewrite (attach_meshes_keeps Skeleton _ _ _ (fun _ _ _ => eq_refl) (fun _ _ => eq_refl) E2).
        by apply (ExtractAnimations_keeps Skeleton). }
      split_and!; [done|by rewrite Eb| |].
      + rewrite Hd2, Hh1. destruct (Hglob 0) as (b & Hb & _); [simpl in *; lia|]. by eexists.
      + rewrite EB. apply Forall_forall. intros q (m & _ & Hq)%list_elem_of_omap.
        destruct (Hn2 _ _ Hq) as (b & Hb & _). by eexists.
    - rewrite (attach_meshes_animations _ _ _ E2). unfold st1.
      rewrite ExtractAnimations_animations. simpl. apply Forall_forall.
      intros ev (a & -> & _)%list_elem_of_fmap. apply new_cAnimEvaluator_inv.
    - rewrite length_resize. lia.
    - rewrite (attach_meshes_keeps CurrentAnimIndex _ _ _ (fun _ _ _ => eq_refl)
                 (fun _ _ => eq_refl) E2). apply ExtractAnimations_index.
Qed.
End Prebake.

(** ** The loop over the animations *)

Section BakeAll.
  Context `{FloatOps} `{!FloatLaws} `{!QuatInterp}.
  Implicit Types st : SceneAnimator.

  (** Having the same clip is an equivalence of evaluators. *)
#[export] Instance same_clip_equiv : Equivalence same_clip.
Proof.
    split.
    - intros ev. by split_and!.
    - intros ev ev' (? & ? & ?). by split_and!.
    - intros ev1 ev2 ev3 (E1 & E2 & E3) (F1 & F2 & F3). split_and!; congruence.
Qed.

  (** The bake loop of animation [i] keeps the clip of every other one. *)
Lemma bake_loop_others fuel : forall i ticks dt st st' j ev,
    bake_loop fuel i ticks dt st = Some st' -> j ≠ i -> Animations st !! j = Some ev ->
    exists ev', Animations st' !! j = Some ev' /\ same_clip ev ev'.
Proof.
    induction fuel as [|f IH]; intros i ticks dt st st' j ev E Hj Hev; simpl in E; [done|].
    destruct (Animations st !! i) as [e|]; simpl in E; [|done].
    destruct (ticks <. Duration e); [|simplify_eq; by exists ev].
    destruct (Calculate _ st) as [st1|] eqn:Ec; simpl in E; [|done].
    destruct (frame_matrices st1); simpl in E; [|done].
    destruct (Animations st1 !! i); simpl in E; [|done].
    destruct (proj2 (Calculate_clips _ _ _ Ec) j ev Hev) as (ev1 & Hev1 & Hc1).
    destruct (IH _ _ _ _ _ j ev1 E Hj) as (ev' & Hev' & Hc'); [simpl; by rewrite list_lookup_insert_ne|].
    exists ev'. split; [done|]. by transitivity ev1.
Qed.

  (** The fuel of [tick_count] is a bound: more of it gives the same count. *)
Lemma tick_count_mono fuel fuel' t D s n :
    tick_count fuel t D s = Some n -> fuel <= fuel' -> tick_count fuel' t D s = Some n.
Proof.
    revert fuel' t n. induction fuel as [|f IH]; intros [|f'] t n E Hle; simpl in *; try done; [lia|].
    destruct (t <. D); [|done].
    destruct (tick_count f _ _ _) as [m|] eqn:Em; simpl in E; [|done].
    by rewrite (IH f' _ m Em); [|lia].
Qed.

  (** [SetAnimIndex] keeps the invariant: it leaves an [int32_t] index or
      the scene as it was. *)
Lemma SetAnimIndex_inv p st : scene_inv st -> (p < 2 ^ 31)%Z -> scene_inv (SetAnimIndex p st).2.
Proof.
    intros Hinv Hp. unfold SetAnimIndex. case_match; [done|].
    destruct Hinv as (Hr & Hevs & Hlen & _). by split_and!.
Qed.
Lemma SetAnimIndex_Transforms p st : Transforms (SetAnimIndex p st).2 = Transforms st.
Proof. unfold SetAnimIndex. by case_match. Qed.

Lemma baked_from_clip n w ev ev1 ev2 :
    baked_from n w ev ev1 -> same_clip ev1 ev2 -> baked_from n w ev ev2.
Proof.
    intros (HD & HT & frames & EF & Hl & Hf) (HD' & HT' & EF').
    split_and!; [congruence|congruence|]. exists frames. by rewrite EF'.
Qed.

  (** One iteration of the loop over the animations, at an index [j] not
      baked yet: [SetAnimIndex(j)] and the bake loop of [j], which ends
      when its loop over the ticks does. *)
Lemma bake_animation_step fuel st0 ns pre j t :
    Forall2 (fun ev n => tick_count fuel (#0) (Duration ev) (TicksPerSecond ev /. #30) = Some n)
      (Animations st0) ns ->
    j ∉ pre -> j < length (Animations st0) -> bake_progress st0 ns pre t ->
    exists t', bake_animation fuel j t = Some t' /\ bake_progress st0 ns (pre ++ [j]) t'.
Proof.
    intros Hns Hj Hlt (Hinv & ET & Hlen & Hall). unfold bake_animation.
    set (u1 := (SetAnimIndex (to_int32 (Z.of_nat j)) t).2).
    assert (Hinv1 : scene_inv u1) by (apply SetAnimIndex_inv; [done|apply to_int32_lt]).
    assert (HA1 : Animations u1 = Animations t) by apply SetAnimIndex_animations.
    assert (HT1 : Transforms u1 = Transforms t) by apply SetAnimIndex_Transforms.
    destruct (lookup_lt_is_Some_2 (Animations st0) j Hlt) as [e0 He0].
    destruct (Forall2_lookup_l _ _ _ _ _ Hns He0) as (nj & Hnj & Htc).
    destruct (Hall j e0 nj He0 Hnj) as (et & Het & _ & Hc); specialize (Hc Hj).
    destruct Hc as (HD & HT & EF).
    destruct (bake_loop_complete fuel j (#0) (#0) u1 et nj Hinv1)
      as (t' & ev' & frames & E & Hev' & EF' & Hl & Hfr & HD' & HT' & Hinv' & ET');
      [by rewrite HA1 | by rewrite HD, HT |].
    exists t'. split; [done|]. split_and!; [done| | |].
    - by rewrite ET', HT1.
    - apply bake_loop_index in E as [_ ->]. by rewrite HA1.
    - intros i ev n Hev Hn. destruct (decide (i = j)) as [->|Hij].
      + rewrite He0 in Hev. rewrite Hnj in Hn. simplify_eq. exists ev'. split_and!; [done| |].
        * intros _. split_and!; [congruence|congruence|]. exists frames.
          rewrite EF', EF. split_and!; [done|done|]. by rewrite HT1, ET in Hfr.
        * intros Hn. exfalso. apply Hn. apply elem_of_app. right. by apply list_elem_of_singleton.
      + destruct (Hall i ev n Hev Hn) as (ei & Hei & Hb & Hc).
        destruct (bake_loop_others _ _ _ _ _ _ i ei E Hij) as (ei' & Hei' & Hc');
          [by rewrite HA1|].
        exists ei'. split_and!; [done| |].
        * intros [Hi|Hi%list_elem_of_singleton]%elem_of_app; [|done]. by eapply baked_from_clip; [apply Hb|].
        * intros Hi. rewrite elem_of_app in Hi. transitivity ei; [|done]. apply Hc. tauto.
Qed.
  (** The loop over the animations, when the loop over the ticks of
      animation [i] ends within the fuel after [n_i] iterations: it keeps
      the invariant and bakes [n_i] frames of one matrix per entry of
      [Transforms] into each animation [i]. *)
Lemma bake_all_frames fuel st0 ns :
    scene_inv st0 ->
    Forall2 (fun ev n => tick_count fuel (#0) (Duration ev) (TicksPerSecond ev /. #30) = Some n)
      (Animations st0) ns ->
    exists st', bake_all fuel st0 = Some st' /\ scene_inv st' /\ Transforms st' = Transforms st0 /\
      length (Animations st') = length (Animations st0) /\
      forall i ev n, Animations st0 !! i = Some ev -> ns !! i = Some n ->
        exists ev', Animations st' !! i = Some ev' /\ baked_from n (length (Transforms st0)) ev ev'.
Proof.
    intros Hinv Hns. unfold bake_all.
    destruct (fold_opt_prefix (bake_progress st0 ns) (bake_animation fuel)
                (seq 0 (length (Animations st0))) st0) as (st' & E & (Hinv' & ET & Hlen & Hall)).
    - split_and!; [done|done|done|]. intros i ev n Hev _. exists ev. split_and!; [done| |done].
      intros Hi. by apply elem_of_nil in Hi.
    - intros pre j post t Hl Ht. apply bake_animation_step; [done| | |done].
      + assert (Hnd : NoDup (pre ++ j :: post)) by (rewrite <- Hl; apply NoDup_seq).
        apply NoDup_app in Hnd as (_ & Hd & _). intros Hj. apply (Hd j Hj). by left.
      + assert (Hj : j ∈ seq 0 (length (Animations st0))) by (rewrite Hl; set_solver).
        apply elem_of_seq in Hj. lia.
    - exists st'. split_and!; [done..|]. intros i ev n Hev Hn.
      destruct (Hall i ev n Hev Hn) as (ev' & Hev' & Hb & _). exists ev'. split; [done|].
      apply Hb, elem_of_seq. apply lookup_lt_Some in Hev. lia.
Qed.
  (** The loop over the animations fails when the loop over the ticks of
      one animation does not end within the fuel: the animations before it
      keep its clip. *)
Lemma bake_all_hangs fuel st i ev :
    Animations st !! i = Some ev ->
    tick_count fuel (#0) (Duration ev) (TicksPerSecond ev /. #30) = None -> bake_all fuel st = None.
Proof.
    intros Hev Htc. destruct (bake_all fuel st) as [st'|] eqn:E; [exfalso|done].
    assert (Hi : i ∈ seq 0 (length (Animations st))) by (apply elem_of_seq; apply lookup_lt_Some in Hev; lia).
    unfold bake_all in E.
    eapply (fold_opt_Some_ind (fun pre t => (i ∉ pre) /\ (exists e, Animations t !! i = Some e /\ same_clip ev e)))
      in E; [by destruct E as [Hn _] | split; [set_solver|by exists ev] |].
    intros pre x post t t' _ [Hn (e & He & Hc)] Et.
    unfold bake_animation in Et. destruct (decide (x = i)) as [->|Hxi].
    - exfalso. destruct (bake_loop_sound _ _ _ _ _ _ e Et) as [k Hk]; [by rewrite SetAnimIndex_animations|].
      destruct Hc as (HD & HT & _). rewrite HD, HT, Htc in Hk. done.
    - destruct (bake_loop_others _ _ _ _ _ _ i e Et) as (e' & He' & Hc'); [done|by rewrite SetAnimIndex_animations|].
      split; [set_solver|]. exists e'. split; [done|]. by transitivity e.
Qed.
End BakeAll.

(** ** [Init] from a new animator *)

Section InitBakes.
  Context `{FloatOps} `{!FloatLaws} `{!QuatInterp}.

  (** The loop over the animations keeps the attached bones. *)
Lemma bake_all_bones fuel st st' : bake_all fuel st = Some st' -> Bones st' = Bones st.
Proof.
    intros E. eapply (fold_opt_preserve (fun u => Bones u = Bones st)); [|exact E|done].
    intros x u u' _ Eu Hu. rewrite <- Hu.
    apply (bake_loop_keeps Bones) in Eu; [|done|done]. rewrite Eu. unfold SetAnimIndex. by case_match.
Qed.

  (** [Init] of a scene with animations on a new animator, when each
      animation's loop over the ticks ends within the fuel after [n_i]
      iterations: it is defined, leaves the scene invariant, one matrix of
      [Transforms] per attached bone, and the constructor's evaluator of
      each animation [i] with [n_i] frames of that many matrices. *)
Lemma Init_bakes fuel sc ns :
    AiScene.HasAnimations sc = true ->
    Forall2 (fun a n => tick_count fuel (#0) (Duration (new_cAnimEvaluator a))
                          (TicksPerSecond (new_cAnimEvaluator a) /. #30) = Some n)
      (AiScene.mAnimations sc) ns ->
    exists st', Init fuel sc new_SceneAnimator = Some st' /\ scene_inv st' /\
      length (Transforms st') = length (Bones st') /\
      length (Animations st') = length (AiScene.mAnimations sc) /\
      ((Z.of_nat (length (AiScene.mAnimations sc)) <= 2 ^ 31)%Z ->
       CurrentAnimIndex st' = (Z.of_nat (length (AiScene.mAnimations sc)) - 1)%Z) /\
      forall i a n, AiScene.mAnimations sc !! i = Some a -> ns !! i = Some n ->
        exists ev', Animations st' !! i = Some ev' /\
          baked_from n (length (Bones st')) (new_cAnimEvaluator a) ev'.
Proof.
    intros Ha Hns. destruct (Init_prebake fuel sc Ha) as (st0 & -> & Hinv0 & EA & Hlen0).
    destruct (bake_all_frames fuel st0 ns Hinv0) as (st' & E & Hinv' & ET & Hlen & Hall).
    { rewrite EA. by apply Forall2_fmap_l. }
    pose proof (bake_all_bones _ _ _ E) as EB.
    exists st'. split_and!; [done|done|by rewrite ET, EB|by rewrite Hlen, EA, length_map| |].
    { intros H31. rewrite (bake_all_last _ _ _ E); rewrite EA, ?length_map; [done| |done].
      unfold AiScene.HasAnimations in Ha. destruct (AiScene.mAnimations sc); [discriminate|done]. }
    intros i a n Ha' Hn. rewrite EB, <- Hlen0.
    apply (Hall i); [by rewrite EA, list_lookup_fmap, Ha'|done].
Qed.
  (** C9. [Init] on a new animator bakes every animation completely, in any
      float arithmetic: when, for each animation [i] of the scene, the
      bake's loop [for (ticks = 0.0f; ticks < Duration; ticks +=
      TicksPerSecond / 30.0f)] ends within the fuel after [n_i] iterations,
      [Init] is defined, leaves the scene invariant ([scene_inv]: a
      well-formed skeleton, valid cursors, an [int32_t] index) with one
      matrix of [Transforms] per attached bone, and animation [i] keeps the
      duration and speed of the scene's [i]-th animation and holds [n_i]
      baked frames, each of one matrix per attached bone. *)
Theorem Init_bakes_tick_loop fuel sc ns :
    AiScene.HasAnimations sc = true ->
    Forall2 (fun a n => tick_count fuel (#0) (Duration (new_cAnimEvaluator a))
                          (TicksPerSecond (new_cAnimEvaluator a) /. #30) = Some n)
      (AiScene.mAnimations sc) ns ->
    exists st', Init fuel sc new_SceneAnimator = Some st' /\ scene_inv st' /\
      length (Transforms st') = length (Bones st') /\
      length (Animations st') = length (AiScene.mAnimations sc) /\
      forall i a n, AiScene.mAnimations sc !! i = Some a -> ns !! i = Some n ->
        exists ev', Animations st' !! i = Some ev' /\
          Duration ev' = Duration (new_cAnimEvaluator a) /\
          TicksPerSecond ev' = TicksPerSecond (new_cAnimEvaluator a) /\
          length (Evaluator.Transforms ev') = n /\
          Forall (fun fr => length fr = length (Bones st')) (Evaluator.Transforms ev').
Proof.
    intros Ha Hns. destruct (Init_bakes fuel sc ns Ha Hns) as (st' & E & Hinv & Hlen & HlenA & _ & Hb).
    exists st'. split_and!; [done..|]. intros i a n Ha' Hn.
    destruct (Hb i a n Ha' Hn) as (ev' & Hev' & HD' & HT' & frames & EF & Hl & Hf).
    exists ev'. rewrite EF. split_and!; [done..| |done]. by rewrite length_app, Hl.
Qed.
End InitBakes.

(** ** On exact arithmetic *)

Section InitExact.

  (** On exact values, the loop over the ticks of each evaluator of
      positive speed runs [ceil(30 d / tps)] times within the fuel. *)
Lemma exact_tick_counts fuel (evs : list cAnimEvaluator) :
    Forall (fun ev => exists d tps, Duration ev = XFin d /\ TicksPerSecond ev = XFin tps /\
              (0 < tps)%Q /\ (Z.to_nat (Qceiling (30 * d / tps)) < fuel)%nat) evs ->
    exists ns, Forall2 (fun ev n =>
        tick_count fuel (#0) (Duration ev) (TicksPerSecond ev /. #30) = Some n /\
        forall d tps, @Duration exact_float_ops ev = XFin d ->
          @TicksPerSecond exact_float_ops ev = XFin tps -> n = Z.to_nat (Qceiling (30 * d / tps))) evs ns.
Proof.
    intros Hall. apply Forall_choose. eapply Forall_impl; [exact Hall|]. intros ev (d & tps & HD & HT & Htps & Hf).
    exists (Z.to_nat (Qceiling (30 * d / tps))). rewrite HD, HT. split.
    - eapply tick_count_mono; [by apply tick_count_frames|lia].
    - intros d' tps' [= <-] [= <-]. done.
Qed.


  (** The number of frames of an animation of positive duration and speed
      is positive. *)
Lemma frame_count_pos d tps : (0 < d)%Q -> (0 < tps)%Q -> (0 < Z.to_nat (Qceiling (30 * d / tps)))%nat.
Proof.
    intros Hd Htps. assert (Hq : (0 < 30 * d / tps)%Q).
    { apply Qlt_shift_div_l; [done|]. lra. }
    pose proof (Qle_ceiling (30 * d / tps)) as Hc.
    assert (Hz : (0 < Qceiling (30 * d / tps))%Z).
    { apply Z.lt_nge. intros Hle. rewrite Zle_Qle in Hle. change (inject_Z 0) with 0%Q in Hle. lra. }
    lia.
Qed.
End InitExact.

(** ** Playing the baked animation *)

Section PlayExact.

  (** C10. After [Init] on a new animator and [PlayAnimationForward], the
      renderer always gets a frame of one matrix per attached bone: for a
      scene of at most [2^31] animations, each of positive duration and
      speed, with fuel at most [2^32] and above each bake count, [Init] and
      [PlayAnimationForward] are defined, and [GetTransforms(t)] at every
      time [t >= 0] returns a baked frame of the current (last) animation
      with [Bones.size()] matrices. *)
Theorem Init_play_forward_frames fuel sc :
    AiScene.HasAnimations sc = true ->
    (Z.of_nat (length (AiScene.mAnimations sc)) <= 2 ^ 31)%Z -> (Z.of_nat fuel <= 2 ^ 32)%Z ->
    Forall (fun a => exists d tps, Duration (new_cAnimEvaluator a) = XFin d /\
              TicksPerSecond (new_cAnimEvaluator a) = XFin tps /\ (0 < d)%Q /\ (0 < tps)%Q /\
              (Z.to_nat (Qceiling (30 * d / tps)) < fuel)%nat)
      (AiScene.mAnimations sc) ->
    exists st st2, Init fuel sc new_SceneAnimator = Some st /\ PlayAnimationForward st = Some st2 /\
      forall t, (0 <= t)%Q ->
        exists fr, GetTransforms (XFin t) st2 = Some fr /\ length fr = length (Bones st2).
Proof.
    intros Ha H31 H32 Hall.
    destruct (exact_tick_counts fuel (map new_cAnimEvaluator (AiScene.mAnimations sc))) as [ns Hns%Forall2_fmap_l].
    { apply Forall_fmap. eapply Forall_impl; [exact Hall|]. intros a (d & tps & ? & ? & _ & ? & ?). by exists d, tps. }
    destruct (Init_bakes fuel sc ns Ha) as (st & E & _ & _ & HlenA & Hidx & Hb);
      [by eapply Forall2_impl; [exact Hns|]; intros ? ? []|].
    specialize (Hidx H31). set (n := length (AiScene.mAnimations sc)) in * .
    assert (Hn : (0 < n)%nat) by (unfold AiScene.HasAnimations in Ha; by apply Nat.ltb_lt).
    destruct (lookup_lt_is_Some_2 (AiScene.mAnimations sc) (n - 1)) as [a Ha']; [lia|].
    destruct (Forall_lookup_1 _ _ _ _ Hall Ha') as (d & tps & HD & HT & Hd & Htps & Hfu).
    destruct (Forall2_lookup_l _ _ _ _ _ Hns Ha') as (k & Hk & _ & Hkd).
    destruct (Hb _ a k Ha' Hk) as (ev & Hev & HD' & HT' & frames & EF & Hl & Hfr).
    rewrite (Hkd d tps HD HT) in Hl. simpl in EF.
    assert (Hcur : current_anim st = Some ev).
    { unfold current_anim. rewrite Hidx. destruct (Z.ltb_spec (Z.of_nat n - 1) 0); [lia|].
      by rewrite <- Hev; f_equal; lia. }
    set (ev2 := set_PlayAnimationForward true ev).
    exists st, (set_Animations (<[n - 1 := ev2]> (Animations st)) st). split_and!; [done| |].
    { unfold PlayAnimationForward, update_current. rewrite Hcur. cbn [mbind option_bind].
      do 3 f_equal. rewrite Hidx. lia. }
    intros t Ht. unfold GetTransforms, current_anim. cbn [CurrentAnimIndex set_Animations Animations].
    rewrite Hidx. destruct (Z.ltb_spec (Z.of_nat n - 1) 0); [lia|].
    replace (Z.to_nat (Z.of_nat n - 1)) with (n - 1) by lia.
    rewrite list_lookup_insert_eq by lia. cbn [mbind option_bind].
    destruct (GetFrameIndexAt_forward_lt ev2 d tps t) as (i & Ei & Hi);
      [done | by rewrite <- HD | done | by rewrite <- HT |
       apply Qmult_le_0_compat; [done | by apply Qlt_le_weak] |
       unfold ev2; cbn; rewrite EF, Hl; by apply frame_count_pos |
       unfold ev2; cbn; rewrite EF, Hl; lia |].
    unfold Evaluator.GetTransforms. rewrite Ei. cbn [mbind option_bind].
    destruct (lookup_lt_is_Some_2 (Evaluator.Transforms ev2) (N.to_nat i) Hi) as [fr Hfr'].
    exists fr. split; [done|]. unfold ev2 in Hfr'. cbn in Hfr'. rewrite EF in Hfr'.
    exact (Forall_lookup_1 _ _ _ _ Hfr Hfr').
Qed.
End PlayExact.

Section InitExamples.

  (** On the arm scene, the one-tick animation at one tick per second runs
      its loop over the ticks 30 times on exact values and is baked into 30
      frames with fuel 40. *)
Lemma Init_bakes_tick_loop_arm :
    exists st', Init 40 arm_scene new_SceneAnimator = Some st' /\ scene_inv st' /\
      length (Transforms st') = length (Bones st') /\
      length (Animations st') = length (AiScene.mAnimations arm_scene) /\
      forall i a n, AiScene.mAnimations arm_scene !! i = Some a -> [30] !! i = Some n ->
        exists ev', Animations st' !! i = Some ev' /\
          Duration ev' = Duration (new_cAnimEvaluator a) /\
          TicksPerSecond ev' = TicksPerSecond (new_cAnimEvaluator a) /\
          length (Evaluator.Transforms ev') = n /\
          Forall (fun fr => length fr = length (Bones st')) (Evaluator.Transforms ev').
Proof.
    apply (Init_bakes_tick_loop 40 arm_scene [30]); [reflexivity|].
    constructor; [reflexivity|constructor].
Defined.

  (** On the arm scene, played forward from [Init], every time [t >= 0]
      reads a frame of one matrix per attached bone. *)
Lemma Init_play_forward_frames_arm :
    exists st st2, Init 40 arm_scene new_SceneAnimator = Some st /\ PlayAnimationForward st = Some st2 /\
      forall t, (0 <= t)%Q ->
        exists fr, GetTransforms (XFin t) st2 = Some fr /\ length fr = length (Bones st2).
Proof.
    apply (Init_play_forward_frames 40 arm_scene); [reflexivity | simpl; lia | simpl; lia |].
    constructor; [|constructor]. eexists _, _. split_and!; [reflexivity..|].
    apply Nat.ltb_lt. reflexivity.
Defined.
End InitExamples.

(** ** The table of animation names *)

Section Names.
  Context `{FloatOps} `{!QuatInterp}.

Lemma list_find_cons {A} (P : A -> Prop) `{!forall x, Decision (P x)} x l :
    list_find P (x :: l) = if decide (P x) then Some (0, x) else prod_map S id <$> list_find P l.
Proof. reflexivity. Qed.

  (** The loop of [ExtractAnimations] over the animations from index [k]:
      a name already in the table keeps its index, a new one gets the index
      of its first occurrence. *)
Lemma register_names_from (l : list cAnimEvaluator) : forall k m n,
    foldl (fun m '(i, ev) => insert_absent (Evaluator.Name ev) i m) m (zip (seq k (length l)) l) !! n =
      match m !! n with
      | Some i => Some i
      | None => (fun p => k + p.1) <$> list_find (fun ev => Evaluator.Name ev = n) l
      end.
Proof.
    induction l as [|x l IH]; intros k m n; [simpl; by destruct (m !! n)|].
    cbn [length seq zip foldl]. rewrite IH, list_find_cons. unfold insert_absent.
    destruct (m !! Evaluator.Name x) as [j|] eqn:Ex; [|destruct (decide (Evaluator.Name x = n)) as [<-|Hne]].
    - destruct (m !! n) eqn:En; [done|]. rewrite decide_False by (intros <-; congruence).
      destruct (list_find _ l) as [[]|]; simpl; [f_equal; lia|done].
    - rewrite lookup_insert_eq, Ex. simpl. f_equal. lia.
    - rewrite lookup_insert_ne by done. destruct (m !! n); [done|].
      destruct (list_find _ l) as [[]|]; simpl; [f_equal; lia|done].
Qed.

  (** Registered into an empty table, every name gets the index of its
      first occurrence ([std::map::insert] never replaces). *)
Lemma register_names_first anims n :
    register_names anims ∅ !! n = fst <$> list_find (fun ev => Evaluator.Name ev = n) anims.
Proof.
    unfold register_names. rewrite register_names_from, lookup_empty.
    by destruct (list_find _ anims).
Qed.
End Names.

Section NameClaims.
  Context `{FloatOps} `{!FloatLaws} `{!QuatInterp}.

  (** C22. After [Init] on a new [SceneAnimator], [AnimationNameToId] maps
      every name to the index of the first animation of the scene with that
      name, and no other name: [ExtractAnimations] registers the names in
      order with [std::map::insert], which never replaces, so of two
      animations with one name the later cannot be selected by
      [SetAnimation]. *)
Theorem Init_animation_ids fuel sc st' n :
    Init fuel sc new_SceneAnimator = Some st' ->
    AnimationNameToId st' !! n = fst <$> list_find (fun a => Ai.mName a = n) (AiScene.mAnimations sc).
Proof.
    unfold Init. destruct (AiScene.HasAnimations sc) eqn:Ha; cbn [negb].
    2: { intros [= <-]. unfold AiScene.HasAnimations in Ha.
         by destruct (AiScene.mAnimations sc). }
    cbn [Release delete_skeleton Skeleton new_SceneAnimator mbind option_bind Heap BonesByName].
    destruct (CreateBoneTree _ None _) as [[root [h bn]]|]; cbn [mbind option_bind]; [|done].
    destruct (attach_meshes _ _) as [st2|] eqn:Ea; cbn [mbind option_bind]; [|done].
    intros Eb. rewrite (bake_all_names _ _ _ Eb). cbn [AnimationNameToId set_Transforms].
    rewrite (attach_meshes_keeps AnimationNameToId _ _ _ (fun _ _ _ => eq_refl) (fun _ _ => eq_refl) Ea).
    unfold ExtractAnimations, SetAnimation. cbv zeta.
    case_match; cbn [snd AnimationNameToId set_CurrentAnimIndex set_AnimationNameToId set_Animations
                     set_tree Animations app].
    all: rewrite register_names_first, list_find_fmap; by destruct (list_find _ (AiScene.mAnimations sc)).
Qed.
End NameClaims.

Section NameExamples.

  (** Of the two animations named ["run"], the first (index 0) keeps the
      name. *)
Lemma Init_animation_ids_run_twice : AnimationNameToId run_twice_inited !! "run" = Some 0.
Proof. rewrite (Init_animation_ids 40 run_twice_scene run_twice_inited "run"); reflexivity. Defined.
End NameExamples.

(** ** A second [Init] *)

Section Reinit.
  Context `{FloatOps} `{!QuatInterp}.
  Implicit Types h : bone_heap.

#[export] Instance heap_grows_preorder : PreOrder heap_grows.
Proof.
    split.
    - intros h. by split.
    - intros h1 h2 h3 [Hn1 Hf1] [Hn2 Hf2]. split; [lia|]. intros x Hx Hx1. apply Hf2; [lia|]. by apply Hf1.
Qed.

Lemma bone_update_grows a f h h' : bone_update a f h = Some h' -> heap_grows h h'.
Proof.
    unfold bone_update. destruct (cells h !! a) eqn:Ea; simpl; [|done]. intros [= <-].
    split; [done|]. intros x _ Hx. simpl. rewrite lookup_insert_ne; [done|]. congruence.
Qed.

Lemma bone_new_grows h : heap_grows h (bone_new h).2.
Proof. split; simpl; [lia|]. intros x Hx Hn. rewrite lookup_insert_ne; [done|lia]. Qed.

Lemma CalculateBoneToWorldTransform_grows a h h' :
    CalculateBoneToWorldTransform a h = Some h' -> heap_grows h h'.
Proof.
    unfold CalculateBoneToWorldTransform. destruct (cells h !! a); simpl; [|done].
    destruct (parent_walk _ _ _ _); simpl; [apply bone_update_grows|done].
Qed.

Lemma build_children_grows create a kids : Forall (create_grows create) kids ->
    forall h byname h' byname', build_children create a kids (h, byname) = Some (h', byname') ->
      heap_grows h h' /\ forall n, is_Some (byname !! n) -> is_Some (byname' !! n).
Proof.
    induction 1 as [|k ks Hk Hks IH]; intros h byname h' byname' E; simpl in E; [by simplify_eq|].
    destruct (create k _ _) as [[c [h1 m1]]|] eqn:E1; simpl in E; [|done].
    destruct (bone_update a _ h1) as [h2|] eqn:E2; simpl in E; [|done].
    destruct (Hk _ _ _ _ _ _ E1) as [G1 N1]. destruct (IH _ _ _ _ E) as [G3 N3].
    split; [by etrans; [|etrans; [apply (bone_update_grows _ _ _ _ E2)|]]|auto].
Qed.

  (** [CreateBoneTree] allocates fresh addresses only and registers names
      on top of those of [BonesByName]. *)
Lemma CreateBoneTree_grows n : create_grows CreateBoneTree n.
Proof.
    revert n. apply aiNode_ind'. intros name tr kids Hkids p h byname a h' byname' E.
    cbn [CreateBoneTree] in E. destruct (bone_new h) as [a0 h0] eqn:E0.
    destruct (bone_update a0 _ h0) as [h1|] eqn:E1; simpl in E; [|done].
    destruct (bone_update a0 _ h1) as [h2|] eqn:E2; simpl in E; [|done].
    destruct (CalculateBoneToWorldTransform a0 h2) as [h3|] eqn:E3; simpl in E; [|done].
    destruct (build_children _ _ _ _) as [[h4 m4]|] eqn:E4; simpl in E; [|done]. simplify_eq.
    destruct (build_children_grows _ _ _ Hkids _ _ _ _ E4) as [G4 N4].
    pose proof (bone_new_grows h) as G0. rewrite E0 in G0. simpl in G0.
    split.
    - etrans; [exact G0|]. etrans; [exact (bone_update_grows _ _ _ _ E1)|].
      etrans; [exact (bone_update_grows _ _ _ _ E2)|].
      etrans; [exact (CalculateBoneToWorldTransform_grows _ _ _ E3)|exact G4].
    - intros m Hm. apply N4. rewrite lookup_insert_is_Some'. by right.
Qed.

  (** The destructor keeps the next address. *)
Lemma delete_bone_next fuel : forall a h h', delete_bone fuel a h = Some h' -> next_addr h' = next_addr h.
Proof.
    induction fuel as [|fuel IH]; intros a h h' E; simpl in E; [done|].
    destruct (cells h !! a) as [b|]; simpl in E; [|done].
    destruct (fold_opt _ _ _) as [hn|] eqn:Ef; simpl in E; [|done]. injection E as <-. simpl.
    eapply (fold_opt_preserve (fun t => next_addr t = next_addr h)); [|exact Ef|done].
    intros c t t' _ Et <-. by eapply IH.
Qed.
  (** The scan of [Bones] reads the first attached bone first. *)
Lemma bone_listed_freed h n q l : cells h !! q = None -> bone_listed h n (q :: l) = None.
Proof. intros Hq. simpl. by rewrite Hq. Qed.

  (** The attachment reaches the first bone of the first mesh first. *)
Lemma attach_meshes_first ms m ms' b bs st :
    ms = m :: ms' -> AiScene.mBones m = b :: bs -> attach_bone b st = None -> attach_meshes ms st = None.
Proof. intros -> Hb Eb. unfold attach_meshes. cbn [fold_opt]. rewrite Hb. cbn [fold_opt]. by rewrite Eb. Qed.
End Reinit.

Section ReinitClaims.
  Context `{FloatOps} `{!QuatInterp}.

  (** C27. A second [Init] is a use after free: on a scene satisfying the
      invariant (as [Init] leaves it) whose first attached bone is in the
      skeleton, [Init] of a scene with animations whose first mesh starts
      with a bone named in [BonesByName] is undefined.  [Release] frees the
      skeleton but keeps [Bones] and [BonesByName], [CreateBoneTree] only
      allocates fresh addresses, and the duplicate scan of the attachment
      reads [Bones[0]->Name] from the freed bone. *)
Theorem Init_again_use_after_free fuel sc st r q bones m ms b bs :
    scene_inv st -> Skeleton st = Some r -> Bones st = q :: bones ->
    in_subtree (cells (Heap st)) r q ->
    AiScene.HasAnimations sc = true -> AiScene.mMeshes sc = m :: ms -> AiScene.mBones m = b :: bs ->
    is_Some (BonesByName st !! AiScene.mName b) ->
    Init fuel sc st = None.
Proof.
    intros ((r' & _ & Hwf & _ & _ & Hbones) & _) HS HB Hq Ha Hm Hb Hn.
    rewrite HB in Hbones. apply Forall_cons in Hbones as [[bq Hbq] _].
    destruct (Hwf q bq Hbq) as [Hlt _].
    unfold Init. rewrite Ha. cbn [negb]. unfold Release, delete_skeleton. rewrite HS.
    destruct (delete_bone _ r (Heap st)) as [h1|] eqn:Ed; cbn [mbind option_bind]; [|done].
    destruct (delete_bone_frees _ r (cells (Heap st)) _ _ (reflexivity _) Ed) as [_ Hfree].
    pose proof (delete_bone_next _ _ _ _ Ed) as Hnext.
    match goal with |- context [CreateBoneTree ?n None ?s] =>
      destruct (CreateBoneTree n None s) as [[root [h2 bn2]]|] eqn:Ec; cbn [mbind option_bind]; [|done] end.
    cbn [Heap BonesByName] in Ec. destruct (CreateBoneTree_grows _ _ _ _ _ _ _ Ec) as [[_ Hg] Hkeys].
    set (st2 := ExtractAnimations sc _).
    rewrite (attach_meshes_first _ _ _ _ _ st2 Hm Hb); [done|].
    assert (EN : BonesByName st2 = bn2) by (by apply (ExtractAnimations_keeps BonesByName)).
    assert (EH : Heap st2 = h2) by (by apply (ExtractAnimations_keeps Heap)).
    assert (EB : Bones st2 = q :: bones) by (rewrite <- HB; unfold st2; by rewrite (ExtractAnimations_keeps Bones)).
    destruct (Hkeys _ Hn) as [p Hp]. unfold attach_bone. rewrite EN, Hp, EB, EH, bone_listed_freed; [done|].
    apply Hg; [simpl in Hnext; lia|]. by apply Hfree.
Qed.
End ReinitClaims.

Section ReinitExamples.

  (** [Init] of the arm scene a second time: [Bones] is [[2; 1]] and bone
      2 ("hand", under the root 0) was freed by [Release]. *)
Lemma Init_again_use_after_free_arm : Init 40 arm_scene arm_inited = None.
Proof.
    eapply (Init_again_use_after_free 40 arm_scene arm_inited 0 2 [1]);
      [apply scene_invb_sound; reflexivity | reflexivity | reflexivity | |
       reflexivity | reflexivity | reflexivity | eexists; reflexivity].
    eapply (sub_child _ _ 1); [|reflexivity|cbn; set_solver].
    eapply (sub_child _ _ 0); [constructor|reflexivity|cbn; set_solver].
Defined.
End ReinitExamples.
