(* ===== verification/Persist.v ===== *)
(** * Persist.v: the binary files of [Save] and [Load]

    [SceneAnimator::Save] (cAnimationController.cpp, lines 294-314) writes
    the skeleton ([SaveSkeleton], lines 465-475: name, offset, original
    local transform, number of children, children), the animations
    ([cAnimEvaluator::Save], lines 56-91: name, duration, speed, channels
    and their keys) and the names of the attached bones, each count and
    length as a little-endian [uint32_t].  [Load] (lines 315-361) reads
    them back ([LoadSkeleton], lines 476-500; [cAnimEvaluator::Load],
    lines 92-136), finds the attached bones by name, and bakes again as
    [Init] does.

    A file is a list of bytes; a write appends to it.  [Load] is a parser
    in a small error monad: [Undefined] is undefined behaviour (a name of
    250 bytes or more overflows [char temp[250]], a bone name missing from
    [BonesByName] dereferences [end()]), [ShortRead] a file that ends
    early; on a short read the C++ stream enters its fail state and the
    code goes on with what it read, which the model does not follow. *)

From S2P Require Import Prelude Float ExactFloat Channel Evaluator Skeleton Animator Codec.
From stdpp Require Import base list strings gmap.
From Stdlib Require Strings.String.
From coqutil Require Import Byte Word.LittleEndianList.
From Stdlib Require Import ZArith Lia.

(** ** Writing *)

Section Write.
  Context `{FloatOps} `{!FloatCodec}.

  (** [static_cast<uint32_t>(n)] *)
Definition u32 (n : nat) : nat := Z.to_nat (Z.of_nat n mod 2 ^ 32).

  (** [file.write(reinterpret_cast<char*>(&nsize), sizeof(uint32_t))] *)
Definition write_u32 (n : nat) : list byte := le_split 4 (Z.of_nat n).

  (** [nsize = s.size(); write(&nsize); file.write(s.c_str(), nsize);] *)
Definition write_string (s : string) : list byte :=
    let bs := String.list_byte_of_string s in
    write_u32 (length bs) ++ take (u32 (length bs)) bs.

Definition write_vec3 (v : vec3) : list byte :=
    f32_bytes (vx v) ++ f32_bytes (vy v) ++ f32_bytes (vz v).

  (** [aiQuaternion] is laid out [w, x, y, z]. *)
Definition write_quat (q : quat) : list byte :=
    f32_bytes (qw q) ++ f32_bytes (qx q) ++ f32_bytes (qy q) ++ f32_bytes (qz q).

Definition mat4_elems (m : mat4) : list f32 :=
    [a1 m; a2 m; a3 m; a4 m; b1 m; b2 m; b3 m; b4 m;
     c1 m; c2 m; c3 m; c4 m; d1 m; d2 m; d3 m; d4 m].

  (** [file.write(reinterpret_cast<char*>(&m), sizeof(m))]: sixteen floats. *)
Definition write_mat4 (m : mat4) : list byte := mat4_elems m ≫= f32_bytes.

  (** [mTime] (a [double]) then [mValue]. *)
Definition write_vkey (k : vkey) : list byte := f64_bytes (vk_time k) ++ write_vec3 (vk_value k).
Definition write_qkey (k : qkey) : list byte := f64_bytes (qk_time k) ++ write_quat (qk_value k).

  (** [nsize = keys.size(); write(&nsize); for (i < nsize) write key i;] *)
Definition write_keys {K} (wk : K -> list byte) (keys : list K) : list byte :=
    write_u32 (length keys) ++ (take (u32 (length keys)) keys ≫= wk).

Definition write_channel (ch : cAnimationChannel) : list byte :=
    write_string (Channel.Name ch) ++ write_keys write_vkey (mPositionKeys ch) ++
    write_keys write_qkey (mRotationKeys ch) ++ write_keys write_vkey (mScalingKeys ch).

  (** [void cAnimEvaluator::Save(std::ofstream& file)] (lines 56-91). *)
Definition cAnimEvaluator_Save (ev : cAnimEvaluator) : list byte :=
    write_string (Evaluator.Name ev) ++ f32_bytes (Duration ev) ++ f32_bytes (TicksPerSecond ev) ++
    write_u32 (length (Channels ev)) ++ (Channels ev ≫= write_channel).

  (** [void SceneAnimator::SaveSkeleton(std::ofstream& file, cBone* parent)]
      (lines 465-475), through the heap. *)
Fixpoint SaveSkeleton (fuel : nat) (h : bone_heap) (a : nat) : option (list byte) :=
    match fuel with
    | O => None
    | S fuel' =>
        b ← cells h !! a;
        kids ← mapM (SaveSkeleton fuel' h) (Children b);
        Some (write_string (Name b) ++ write_mat4 (Offset b) ++
              write_mat4 (OriginalLocalTransform b) ++ write_u32 (length (Children b)) ++
              concat kids)
    end.

  (** [void SceneAnimator::Save(std::ofstream& file)] (lines 294-314). *)
Definition Save (st : Scene.SceneAnimator) : option (list byte) :=
    let h := Scene.Heap st in
    sk ← match Scene.Skeleton st with
         | Some r => SaveSkeleton (S (next_addr h)) h r
         | None => Some []
         end;
    names ← mapM (fun q => b ← cells h !! q; Some (write_string (Name b))) (Scene.Bones st);
    Some (sk ++ write_u32 (length (Scene.Animations st)) ++
          (take (u32 (length (Scene.Animations st))) (Scene.Animations st) ≫= cAnimEvaluator_Save) ++
          write_u32 (length (Scene.Bones st)) ++ concat names).
End Write.

(** ** Reading

    [parser A] reads an [A] from the front of the file and returns the
    rest; it fails with [Undefined] on undefined behaviour and with
    [ShortRead] when the file ends before the read. *)

Inductive load_error := Undefined | ShortRead.

Definition parser (A : Type) : Type := list byte -> load_error + (A * list byte).

#[export] Instance parser_ret : MRet parser := fun A x s => inr (x, s).
#[export] Instance parser_bind : MBind parser := fun A B k m s =>
  match m s with inl e => inl e | inr (x, s') => k x s' end.

Definition fail {A} (e : load_error) : parser A := fun _ => inl e.

(** An operation of the model inside a read: [None] is undefined. *)
Definition lift {A} (o : option A) : parser A := fun s =>
  match o with Some x => inr (x, s) | None => inl Undefined end.

(** The number of bytes left in the file. *)
Definition remaining : parser nat := fun s => inr (length s, s).

(** [file.read(p, n)] *)
Definition read_bytes (n : nat) : parser (list byte) := fun s =>
  if decide (n <= length s) then inr (take n s, drop n s) else inl ShortRead.

(** [n] reads in a row. *)
Fixpoint read_n {A} (n : nat) (p : parser A) : parser (list A) :=
  match n with
  | O => mret []
  | S n' => x ← p; xs ← read_n n' p; mret (x :: xs)
  end.

(** A read into each element of a vector, in order. *)
Fixpoint read_each {A} (p : A -> parser A) (l : list A) : parser (list A) :=
  match l with
  | [] => mret []
  | x :: l' => y ← p x; ys ← read_each p l'; mret (y :: ys)
  end.

(** [std::string s = temp;]: the bytes up to the first NUL. *)
Fixpoint until_nul (bs : list byte) : list byte :=
  match bs with
  | [] => []
  | b :: bs' => if Byte.eqb b Byte.x00 then [] else b :: until_nul bs'
  end.

Section Read.
  Context `{FloatOps} `{!FloatCodec}.

Definition read_u32 : parser nat := bs ← read_bytes 4; mret (Z.to_nat (le_combine bs)).

  (** [file.read(temp, nsize); temp[nsize] = 0; Name = temp;] with
      [char temp[250]]: [nsize >= 250] writes past the array. *)
Definition read_name : parser string :=
    n ← read_u32;
    if decide (250 <= n) then fail Undefined
    else bs ← read_bytes n; mret (String.string_of_list_byte (until_nul bs)).

Definition read_f32 : parser f32 := bs ← read_bytes 4; mret (f32_of_bytes bs).
Definition read_f64 : parser f64 := bs ← read_bytes 8; mret (f64_of_bytes bs).

Definition read_vec3 : parser vec3 :=
    x ← read_f32; y ← read_f32; z ← read_f32; mret (Vec3 x y z).
Definition read_quat : parser quat :=
    w ← read_f32; x ← read_f32; y ← read_f32; z ← read_f32; mret (Quat w x y z).

Definition mat4_of_elems (l : list f32) : option mat4 :=
    match l with
    | [a1; a2; a3; a4; b1; b2; b3; b4; c1; c2; c3; c4; d1; d2; d3; d4] =>
        Some (Mat4 a1 a2 a3 a4 b1 b2 b3 b4 c1 c2 c3 c4 d1 d2 d3 d4)
    | _ => None
    end.

Definition read_mat4 : parser mat4 := l ← read_n 16 read_f32; lift (mat4_of_elems l).

Definition read_vkey : parser vkey := t ← read_f64; v ← read_vec3; mret (VKey t v).
Definition read_qkey : parser qkey := t ← read_f64; q ← read_quat; mret (QKey t q).

  (** [read(&nsize); keys.resize(nsize); for (i < nsize) read key i;] *)
Definition read_keys {K} (rk : parser K) : parser (list K) := n ← read_u32; read_n n rk.

Definition read_channel : parser cAnimationChannel :=
    name ← read_name;
    pos ← read_keys read_vkey; rot ← read_keys read_qkey; scl ← read_keys read_vkey;
    mret (mkChannel name pos rot scl).

  (** [void cAnimEvaluator::Load(std::ifstream& file)] (lines 92-136): the
      fields the file does not hold keep their values. *)
Definition cAnimEvaluator_Load (ev : cAnimEvaluator) : parser cAnimEvaluator :=
    name ← read_name; dur ← read_f32; tps ← read_f32;
    n ← read_u32; chans ← read_n n read_channel;
    mret (mkEvaluator name chans (PlayAnimationForward ev) (mLastTime ev) tps dur
            (resize (length chans) (0, 0, 0) (mLastPositions ev)) (Evaluator.Transforms ev)).
End Read.

Section LoadScene.
  Context `{FloatOps} `{!FloatCodec} `{!QuatInterp}.
  Import Scene.

  (** The loop of [LoadSkeleton] over the children, with the recursive call
      as a parameter:
      [for (a < nsize && file; a++)
         internalNode->Children.push_back(LoadSkeleton(file, internalNode));] *)
Fixpoint load_children
      (load : option nat -> bone_heap * gmap string nat ->
              parser (nat * (bone_heap * gmap string nat)))
      (a n : nat) (st : bone_heap * gmap string nat) : parser (bone_heap * gmap string nat) :=
    match n with
    | O => mret st
    | S n' =>
        '(c, (h, byname)) ← load (Some a) st;
        h ← lift (bone_update a (push_child c) h);
        load_children load a n' (h, byname)
    end.

  (** [cBone* SceneAnimator::LoadSkeleton(std::ifstream& file, cBone* parent)]
      (lines 476-500).  Every call reads at least 136 bytes before its
      children, so [fuel] larger than the file never runs out
      ([LoadSkeleton_fuel]). *)
Fixpoint LoadSkeleton (fuel : nat) (parent : option nat)
      (st : bone_heap * gmap string nat) : parser (nat * (bone_heap * gmap string nat)) :=
    match fuel with
    | O => fail ShortRead
    | S fuel' =>
        let '(h, byname) := st in
        let '(a, h) := bone_new h in
        h ← lift (bone_update a (set_Parent parent) h);
        name ← read_name;
        h ← lift (bone_update a (set_Name name) h);
        let byname := <[name := a]> byname in
        off ← read_mat4;
        h ← lift (bone_update a (set_Offset off) h);
        orig ← read_mat4;
        h ← lift (bone_update a (set_Original orig) h);
        h ← lift (bone_update a (fun b => set_Local (OriginalLocalTransform b) b) h);
        h ← lift (CalculateBoneToWorldTransform a h);
        n ← read_u32;
        st ← load_children (LoadSkeleton fuel') a n (h, byname);
        mret (a, st)
    end.

  (** [file.read(bname, nsize); ... found = BonesByName.find(bname);
      ... found->second]: [end()] is dereferenced when the name is missing. *)
Definition load_bone_name (byname : gmap string nat) : parser (string * nat) :=
    name ← read_name;
    match byname !! name with
    | Some q => mret (name, q)
    | None => fail Undefined
    end.

  (** [BonesToIndex[found->first] = i;] for each bone in order. *)
Definition index_bones (entries : list (string * nat)) (idx : gmap string nat) : gmap string nat :=
    foldl (fun m '(i, (name, _)) => <[name := i]> m) idx (zip (seq 0 (length entries)) entries).

  (** [void SceneAnimator::Load(std::ifstream& file)] (lines 315-361), up
      to the bake loop. *)
Definition Load_data (st : SceneAnimator) : parser SceneAnimator :=
    st ← lift (Release st);
    len ← remaining;
    '(root, (h, byname)) ← LoadSkeleton (S len) None (Heap st, BonesByName st);
    let st := set_tree (Some root) h byname st in
    n ← read_u32;
    anims ← read_each cAnimEvaluator_Load (resize n default_cAnimEvaluator (Animations st));
    let st := set_Animations anims st in
    let st := set_AnimationNameToId (register_names anims (AnimationNameToId st)) st in
    let st := if decide (0 < length anims) then set_CurrentAnimIndex 0 st else st in
    nb ← read_u32;
    entries ← read_n nb (load_bone_name (BonesByName st));
    mret (set_bones (map snd entries) (index_bones entries (BonesToIndex st)) st).

  (** [Load], with the bake loop of [Init]. *)
Definition Load (fuel : nat) (st : SceneAnimator) : parser SceneAnimator :=
    st ← Load_data st;
    let st := set_Transforms (resize (length (Bones st)) mat_identity (Transforms st)) st in
    lift (bake_all fuel st).
End LoadScene.

(** ** What a file holds

    The conditions under which a value reads back as itself: a name of
    fewer than 250 bytes without a NUL, floats that read back exactly, and
    counts below [2^32]. *)

Section Format.
  Context `{FloatOps} `{!FloatCodec}.

Definition name_ok (s : string) : Prop :=
    length (String.list_byte_of_string s) < 250 /\ Byte.x00 ∉ String.list_byte_of_string s.
Definition count_ok {A} (l : list A) : Prop := (Z.of_nat (length l) < 2 ^ 32)%Z.
Definition vec3_exact (v : vec3) : Prop := Forall f32_exact [vx v; vy v; vz v].
Definition quat_exact (q : quat) : Prop := Forall f32_exact [qw q; qx q; qy q; qz q].
Definition mat4_exact (m : mat4) : Prop := Forall f32_exact (mat4_elems m).
Definition vkey_exact (k : vkey) : Prop := f64_exact (vk_time k) /\ vec3_exact (vk_value k).
Definition qkey_exact (k : qkey) : Prop := f64_exact (qk_time k) /\ quat_exact (qk_value k).

Definition channel_ok (ch : cAnimationChannel) : Prop :=
    name_ok (Channel.Name ch) /\
    count_ok (mPositionKeys ch) /\ Forall vkey_exact (mPositionKeys ch) /\
    count_ok (mRotationKeys ch) /\ Forall qkey_exact (mRotationKeys ch) /\
    count_ok (mScalingKeys ch) /\ Forall vkey_exact (mScalingKeys ch).

Definition anim_ok (ev : cAnimEvaluator) : Prop :=
    name_ok (Evaluator.Name ev) /\ f32_exact (Duration ev) /\ f32_exact (TicksPerSecond ev) /\
    count_ok (Channels ev) /\ Forall channel_ok (Channels ev).

  (** The fields of an evaluator the file holds. *)
Definition saved_part (ev : cAnimEvaluator) : string * f32 * f32 * list cAnimationChannel :=
    (Evaluator.Name ev, Duration ev, TicksPerSecond ev, Channels ev).

  (** The evaluator [cAnimEvaluator::Load] makes of [ev0] from the bytes
      of [ev]. *)
Definition reload (ev0 ev : cAnimEvaluator) : cAnimEvaluator :=
    mkEvaluator (Evaluator.Name ev) (Channels ev) (PlayAnimationForward ev0) (mLastTime ev0)
      (TicksPerSecond ev) (Duration ev) (resize (length (Channels ev)) (0, 0, 0) (mLastPositions ev0))
      (Evaluator.Transforms ev0).

  (** The names of the attached bones, [Bones[i]->Name]. *)
Definition bone_names (st : Scene.SceneAnimator) : option (list string) :=
    mapM (fun q => Name <$> cells (Scene.Heap st) !! q) (Scene.Bones st).

  (** A read that returns a suffix of its input. *)
Definition shrinks {A} (m : parser A) : Prop :=
    forall s x s', m s = inr (x, s') -> length s' <= length s.

  (** A value [p] reads back from the bytes [w] writes for it. *)
Definition reads_back {A} (p : parser A) (w : A -> list byte) (valid : A -> Prop) : Prop :=
    forall x s, valid x -> p (w x ++ s) = inr (x, s).

  (** What [LoadSkeleton] keeps on any input at all: when it returns, the
      heap is well formed, [BonesByName] names allocated bones with their
      names, the returned bone is new and allocated, and the bones already
      there are as they were (children may grow). *)
Definition load_safe
      (L : option nat -> bone_heap * gmap string nat -> parser (nat * (bone_heap * gmap string nat))) : Prop :=
    forall p h byname s a h' m' s', heap_wf h -> names_ok h byname ->
      (forall q, p = Some q -> is_Some (cells h !! q)) ->
      L p (h, byname) s = inr ((a, (h', m')), s') ->
      heap_wf h' /\ names_ok h' m' /\ next_addr h <= a /\ is_Some (cells h' !! a) /\
      bone_extends (cells h) (cells h') /\ next_addr h <= next_addr h'.
End Format.


(** ** Scenarios (exact arithmetic) *)

Section PersistScenarios.
  Import Scene.

  (** The scene of [Animator.v] after [Init]: the arm skeleton, the
      animation ["wave"] baked, [hand] and [arm] attached. *)
Definition arm_saved : SceneAnimator := Eval vm_compute in default new_SceneAnimator arm_ready.

  (** The file [Save] writes for it (661 bytes). *)
Definition arm_bytes : list byte := Eval vm_compute in default [] (Save arm_saved).

  (** What a new [SceneAnimator] loads from it, before the bake. *)
Definition arm_loaded : SceneAnimator := Eval vm_compute in
    match Load_data new_SceneAnimator arm_bytes with inr (st, _) => st | inl _ => new_SceneAnimator end.

  (** A skeleton of one bone named [name]. *)
Definition one_bone_scene (name : string) : SceneAnimator :=
    mkAnimator [] (-1) (Some 0) (mkHeap {[0 := set_Name name new_cBone]} 1) ∅ ∅ ∅ [] [].

  (** A name of [n] letters ['a']. *)
Definition long_name (n : nat) : string := String.string_of_list_byte (repeat Byte.x61 n).

  (** ["a\0b"]: a name with a NUL inside. *)
Definition nul_name : string := String.string_of_list_byte [Byte.x61; Byte.x00; Byte.x62].

  (** One animation and no skeleton. *)
Definition skeletonless : SceneAnimator := set_Animations [new_cAnimEvaluator wave] new_SceneAnimator.

  (** [Save] into a file, then [Load] of it into a new [SceneAnimator]. *)
Definition save_then_load (st : SceneAnimator) : option (load_error + SceneAnimator * list byte) :=
    bs ← Save st; Some (Load_data new_SceneAnimator bs).
End PersistScenarios.

(** ** Reading back what was written *)

Create HintDb roundtrip discriminated.

Lemma bind_inr {A B} (m : parser A) (k : A -> parser B) s x s' :
  m s = inr (x, s') -> mbind k m s = k x s'.
Proof. intros Hm. unfold mbind, parser_bind. by rewrite Hm. Qed.

Lemma read_bytes_app n bs s : length bs = n -> read_bytes n (bs ++ s) = inr (bs, s).
Proof.
  intros <-. unfold read_bytes. rewrite decide_True by (rewrite length_app; lia).
  by rewrite take_app_length, drop_app_length.
Qed.

Lemma until_nul_id bs : Byte.x00 ∉ bs -> until_nul bs = bs.
Proof.
  induction bs as [|b bs IH]; intros Hn; [done|]. simpl.
  destruct (Byte.eqb b Byte.x00) eqn:E.
  - apply Byte.byte_dec_bl in E as ->. destruct Hn. by left.
  - rewrite IH; [done|]. intros Hin. apply Hn. by right.
Qed.

Lemma u32_small n : (Z.of_nat n < 2 ^ 32)%Z -> u32 n = n.
Proof. intros Hn. unfold u32. rewrite Z.mod_small by lia. lia. Qed.

(** Each read consumes its input step by step: rewrite the first read of
    the goal with a lemma of [roundtrip]. *)
Ltac reads :=
  repeat (rewrite <- ?app_assoc; erewrite bind_inr by (eauto with roundtrip nocore); cbv beta zeta).


Section Values.
  Context `{FloatOps} `{!FloatCodec}.

(** A count is written as [static_cast<uint32_t>] and read back modulo
    [2^32]: four bytes, and a count of [2^32] or more reads back wrapped. *)
Lemma read_u32_wrap n s :
    length (write_u32 n) = 4 /\ read_u32 (write_u32 n ++ s) = inr (u32 n, s).
Proof.
    split; [apply length_le_split|]. unfold read_u32, write_u32.
    rewrite (bind_inr _ _ _ _ _ (read_bytes_app _ _ _ (length_le_split 4 _))).
    unfold mret, parser_ret. by rewrite le_combine_split.
Qed.

Lemma read_u32_back n s : (Z.of_nat n < 2 ^ 32)%Z -> read_u32 (write_u32 n ++ s) = inr (n, s).
Proof.
  intros Hn. unfold read_u32, write_u32.
  rewrite (bind_inr _ _ _ _ _ (read_bytes_app _ _ _ (length_le_split 4 _))).
  unfold mret, parser_ret. rewrite le_combine_split, Z.mod_small by lia. by rewrite Nat2Z.id.
Qed.

Lemma read_f32_back x s : f32_exact x -> read_f32 (f32_bytes x ++ s) = inr (x, s).
Proof.
  intros Hx. unfold read_f32. rewrite (bind_inr _ _ _ _ _ (read_bytes_app _ _ _ (length_f32_bytes x))).
  unfold mret, parser_ret. by rewrite Hx.
Qed.

Lemma read_f64_back x s : f64_exact x -> read_f64 (f64_bytes x ++ s) = inr (x, s).
Proof.
  intros Hx. unfold read_f64. rewrite (bind_inr _ _ _ _ _ (read_bytes_app _ _ _ (length_f64_bytes x))).
  unfold mret, parser_ret. by rewrite Hx.
Qed.

Lemma read_name_back name s : name_ok name -> read_name (write_string name ++ s) = inr (name, s).
Proof.
  intros [Hlen Hnul]. unfold read_name, write_string. rewrite u32_small by lia.
  rewrite take_ge by lia. rewrite <- app_assoc. erewrite bind_inr by (apply read_u32_back; lia).
  rewrite decide_False by lia. rewrite (bind_inr _ _ _ _ _ (read_bytes_app _ _ _ eq_refl)).
  unfold mret, parser_ret. by rewrite until_nul_id, String.string_of_list_byte_of_string.
Qed.

(** C29. A name written by [Save] (its byte length fitting [uint32_t])
    reads back through [char temp[250]] and [Name = temp]: undefined when
    it has 250 bytes or more, otherwise truncated at its first NUL byte,
    with the rest of the file untouched. *)
Theorem read_name_write_string name s :
  (Z.of_nat (length (String.list_byte_of_string name)) < 2 ^ 32)%Z ->
  read_name (write_string name ++ s) =
    if decide (250 <= length (String.list_byte_of_string name)) then inl Undefined
    else inr (String.string_of_list_byte (until_nul (String.list_byte_of_string name)), s).
Proof.
  intros Hlen. unfold read_name, write_string. rewrite u32_small by lia.
  rewrite take_ge by lia. rewrite <- app_assoc. erewrite bind_inr by (apply read_u32_back; lia).
  case_decide; [done|]. by rewrite (bind_inr _ _ _ _ _ (read_bytes_app _ _ _ eq_refl)).
Qed.

Lemma lift_Some {A} (x : A) s : lift (Some x) s = inr (x, s).
Proof. done. Qed.

Lemma lift_bone_update_insert a f b cs n s :
    lift (bone_update a f (mkHeap (<[a := b]> cs) n)) s = inr (mkHeap (<[a := f b]> cs) n, s).
Proof. unfold bone_update. cbn [cells next_addr]. rewrite lookup_insert_eq. simpl. by rewrite insert_insert_eq. Qed.
End Values.

#[export] Hint Resolve lift_Some lift_bone_update_insert : roundtrip.
#[export] Hint Resolve read_u32_back read_f32_back read_f64_back read_name_back : roundtrip.

Section Records.
  Context `{FloatOps} `{!FloatCodec}.

Lemma read_n_back {A} (p : parser A) (w : A -> list byte) (valid : A -> Prop) l s :
  reads_back p w valid -> Forall valid l -> read_n (length l) p ((l ≫= w) ++ s) = inr (l, s).
Proof.
  intros Hp Hl. induction Hl as [|x l Hx Hl IH]; [done|]. simpl.
  rewrite <- app_assoc, (bind_inr _ _ _ _ _ (Hp _ _ Hx)), (bind_inr _ _ _ _ _ IH). done.
Qed.

Lemma read_vec3_back v s : vec3_exact v -> read_vec3 (write_vec3 v ++ s) = inr (v, s).
Proof.
  destruct v as [x y z]. intros Hv. repeat (apply Forall_cons in Hv as [? Hv]).
  unfold read_vec3, write_vec3. by reads.
Qed.

Lemma read_quat_back q s : quat_exact q -> read_quat (write_quat q ++ s) = inr (q, s).
Proof.
  destruct q as [w x y z]. intros Hq. repeat (apply Forall_cons in Hq as [? Hq]).
  unfold read_quat, write_quat. by reads.
Qed.

Lemma read_mat4_back m s : mat4_exact m -> read_mat4 (write_mat4 m ++ s) = inr (m, s).
Proof.
  intros Hm. unfold read_mat4, write_mat4.
  rewrite (bind_inr _ _ _ _ _ (read_n_back _ _ _ (mat4_elems m) s (fun x s => read_f32_back x s) Hm)).
  by destruct m.
Qed.

#[local] Hint Resolve read_vec3_back read_quat_back : roundtrip.

Lemma read_vkey_back k s : vkey_exact k -> read_vkey (write_vkey k ++ s) = inr (k, s).
Proof.
  destruct k as [t v]. intros [Ht Hv]. unfold read_vkey, write_vkey.
  by reads.
Qed.

Lemma read_qkey_back k s : qkey_exact k -> read_qkey (write_qkey k ++ s) = inr (k, s).
Proof.
  destruct k as [t q]. intros [Ht Hq]. unfold read_qkey, write_qkey.
  by reads.
Qed.
End Records.

#[export] Hint Resolve read_vec3_back read_quat_back read_mat4_back read_vkey_back read_qkey_back : roundtrip.

Section Animations.
  Context `{FloatOps} `{!FloatCodec}.

Lemma read_keys_back {K} (rk : parser K) (wk : K -> list byte) (valid : K -> Prop) keys s :
  reads_back rk wk valid -> count_ok keys -> Forall valid keys ->
  read_keys rk (write_keys wk keys ++ s) = inr (keys, s).
Proof.
  intros Hk Hc Hv. unfold read_keys, write_keys. rewrite u32_small, take_ge by (done || lia).
  rewrite <- app_assoc, (bind_inr _ _ _ _ _ (read_u32_back _ _ Hc)). by apply (read_n_back _ _ valid).
Qed.

Lemma vkey_reads_back : reads_back read_vkey write_vkey vkey_exact.
Proof. intros ??. apply read_vkey_back. Qed.
Lemma qkey_reads_back : reads_back read_qkey write_qkey qkey_exact.
Proof. intros ??. apply read_qkey_back. Qed.
#[local] Hint Resolve read_keys_back vkey_reads_back qkey_reads_back : roundtrip.

Lemma read_channel_back ch s : channel_ok ch -> read_channel (write_channel ch ++ s) = inr (ch, s).
Proof.
  destruct ch as [name pos rot scl]. intros (Hn & Hpc & Hp & Hrc & Hr & Hsc & Hs).
  unfold read_channel, write_channel. by reads.
Qed.

Lemma channel_reads_back : reads_back read_channel write_channel channel_ok.
Proof. intros ??. apply read_channel_back. Qed.

  (** [cAnimEvaluator::Load] reads back what [cAnimEvaluator::Save] wrote:
      the name, duration, speed and channels; the fields the file does not
      hold keep the values of the evaluator read into. *)
Lemma cAnimEvaluator_Load_back ev0 ev s : anim_ok ev ->
  cAnimEvaluator_Load ev0 (cAnimEvaluator_Save ev ++ s) = inr (reload ev0 ev, s).
Proof.
  intros (Hn & Hd & Ht & Hc & Hch). unfold cAnimEvaluator_Load, cAnimEvaluator_Save. reads.
  rewrite (bind_inr _ _ _ _ _ (read_n_back _ _ _ _ _ channel_reads_back Hch)). done.
Qed.
End Animations.

#[export] Hint Resolve read_keys_back vkey_reads_back qkey_reads_back read_channel_back channel_reads_back : roundtrip.

(** ** The fuel of [LoadSkeleton]

    Every call reads at least the four bytes of its name's length before
    its children, so a call never sees more bytes than its caller minus
    four: fuel larger than the file is never exhausted, and any two such
    fuels give the same result. *)

Create HintDb shrink discriminated.

Lemma bind_ext {A B} (m : parser A) (k1 k2 : A -> parser B) s :
    (forall x s', m s = inr (x, s') -> k1 x s' = k2 x s') -> mbind k1 m s = mbind k2 m s.
Proof. intros Hk. unfold mbind, parser_bind. destruct (m s) as [e|[x s']]; [done|]. by apply Hk. Qed.

Lemma bind_input {A B} (m1 m2 : parser A) (k : A -> parser B) s :
    m1 s = m2 s -> mbind k m1 s = mbind k m2 s.
Proof. intros E. unfold mbind, parser_bind. by rewrite E. Qed.

Lemma bind_shrinks {A B} (m : parser A) (k : A -> parser B) :
    shrinks m -> (forall x, shrinks (k x)) -> shrinks (mbind k m).
Proof.
    intros Hm Hk s y s''. unfold mbind, parser_bind. destruct (m s) as [e|[x s']] eqn:E; [done|].
    intros E'. etransitivity; [exact (Hk x _ _ _ E')|exact (Hm _ _ _ E)].
Qed.

Lemma ret_shrinks {A} (x : A) : shrinks (mret x).
Proof. intros s y s' [= _ <-]. done. Qed.

Lemma lift_shrinks {A} (o : option A) : shrinks (lift o).
Proof. intros s y s'. unfold lift. destruct o; [by intros [= _ <-]|done]. Qed.

Lemma read_bytes_consumes n s x s' : read_bytes n s = inr (x, s') -> length s' + n = length s.
Proof. unfold read_bytes. case_decide; [|done]. intros [= _ <-]. rewrite length_drop. lia. Qed.

Lemma read_bytes_shrinks n : shrinks (read_bytes n).
Proof. intros s x s' E. apply read_bytes_consumes in E. lia. Qed.

Lemma read_n_shrinks {A} n (p : parser A) : shrinks p -> shrinks (read_n n p).
Proof.
    intros Hp. induction n as [|n IH]; cbn [read_n]; [apply ret_shrinks|].
    apply bind_shrinks; [done|intros x]. apply bind_shrinks; [done|intros xs]. apply ret_shrinks.
Qed.

#[export] Hint Resolve bind_shrinks ret_shrinks lift_shrinks read_bytes_shrinks read_n_shrinks : shrink.

Section Fuel.
  Context `{FloatOps} `{!FloatCodec}.

Lemma read_u32_consumes s x s' : read_u32 s = inr (x, s') -> length s' + 4 = length s.
Proof.
    unfold read_u32, mbind, parser_bind. destruct (read_bytes 4 s) as [e|[bs s1]] eqn:E; [done|].
    intros [= _ <-]. by apply read_bytes_consumes in E.
Qed.

Lemma read_name_consumes s x s' : read_name s = inr (x, s') -> length s' + 4 <= length s.
Proof.
    unfold read_name at 1, mbind at 1, parser_bind at 1. destruct (read_u32 s) as [e|[n s1]] eqn:E; [done|].
    apply read_u32_consumes in E. case_decide; [done|].
    intros E'. assert (length s' <= length s1); [|lia].
    revert E'. apply bind_shrinks; eauto with shrink.
Qed.

Lemma read_f32_shrinks : shrinks read_f32.
Proof. unfold read_f32. eauto with shrink. Qed.

Lemma read_mat4_shrinks : shrinks read_mat4.
Proof. unfold read_mat4. auto using read_f32_shrinks with shrink. Qed.

Lemma read_u32_shrinks : shrinks read_u32.
Proof. intros s x s' E. apply read_u32_consumes in E. lia. Qed.

Lemma read_name_shrinks : shrinks read_name.
Proof. intros s x s' E. apply read_name_consumes in E. lia. Qed.

#[local] Hint Resolve read_mat4_shrinks read_u32_shrinks read_name_shrinks : shrink.
#[local] Opaque read_name read_u32 read_mat4.

  (** [load_children] with two readers that agree on every input no longer
      than [s] and return suffixes. *)
Lemma load_children_agree (L1 L2 : option nat -> bone_heap * gmap string nat ->
                                     parser (nat * (bone_heap * gmap string nat))) a n st s :
    (forall q st', shrinks (L1 q st')) ->
    (forall q st' s', length s' <= length s -> L1 q st' s' = L2 q st' s') ->
    load_children L1 a n st s = load_children L2 a n st s.
Proof.
    revert st s. induction n as [|n IH]; intros st s Hsh Hag; [done|]. cbn [load_children].
    etransitivity; [apply bind_input, Hag; done|]. apply bind_ext. intros [c [h byname]] s1 E.
    assert (Hs1 : length s1 <= length s) by (rewrite <- Hag in E by done; exact (Hsh _ _ _ _ _ E)).
    apply bind_ext. intros h' s2 E2. assert (length s2 <= length s1) by exact (lift_shrinks _ _ _ _ E2).
    apply IH; [done|]. intros q st' s' Hs'. apply Hag. lia.
Qed.

Lemma LoadSkeleton_shrinks fuel p st : shrinks (LoadSkeleton fuel p st).
Proof.
    revert p st. induction fuel as [|f IH]; intros p [h byname]; [by intros ???|]. simpl.
    assert (Hc : forall a n st', shrinks (load_children (LoadSkeleton f) a n st')).
    { intros a n. induction n as [|n IHn]; intros st'; simpl; [apply ret_shrinks|].
      apply bind_shrinks; [apply IH|]. intros [c [h' m']]. apply bind_shrinks; auto with shrink. }
    repeat (apply bind_shrinks; [auto with shrink|intros ?]); auto with shrink.
Qed.

  (** One read of the body of [LoadSkeleton], with the bytes it consumed. *)
Ltac same_read :=
    apply bind_ext; let E := fresh "E" in intros ?? E; cbv beta zeta;
    first [ apply read_name_consumes in E | apply read_u32_consumes in E
          | apply read_mat4_shrinks in E | apply lift_shrinks in E ].

(** The fuel of [LoadSkeleton] is enough: with any two fuels larger
    than the number of bytes left in the file, [LoadSkeleton] gives the
    same result, so the fuel [Load] passes (the length of the file plus
    one) never cuts the recursion short. *)
Theorem LoadSkeleton_fuel f1 f2 p st s :
    length s < f1 -> length s < f2 -> LoadSkeleton f1 p st s = LoadSkeleton f2 p st s.
Proof.
    revert f2 p st s. induction f1 as [|f1 IH]; intros f2 p [h byname] s H1 H2; [lia|].
    destruct f2 as [|f2]; [lia|]. cbn [LoadSkeleton bone_new]. repeat same_read.
    apply bind_input, load_children_agree; [intros; apply LoadSkeleton_shrinks|].
    intros q st' s9 Hs9. apply IH; lia.
Qed.
End Fuel.

(** ** Safety of [Load] on any file

    Whatever the bytes, a [Load] into a new [SceneAnimator] that returns
    leaves no dangling pointer: the skeleton is well formed and every
    attached bone is allocated. *)

Lemma bind_inr_inv {A B} (m : parser A) (k : A -> parser B) s y s'' :
    mbind k m s = inr (y, s'') -> exists x s', m s = inr (x, s') /\ k x s' = inr (y, s'').
Proof. unfold mbind, parser_bind. destruct (m s) as [e|[x s']]; [done|]. eauto. Qed.

Lemma lift_inr_inv {A} (o : option A) s x s' : lift o s = inr (x, s') -> o = Some x /\ s' = s.
Proof. unfold lift. destruct o; [by intros [= -> ->]|done]. Qed.

(** Take apart a read that returned: one hypothesis per step. *)
Ltac inv_reads H :=
  repeat match type of H with
  | mbind _ _ _ = inr _ =>
      let Hm := fresh "Hm" in apply bind_inr_inv in H as (? & ? & Hm & H); cbv beta zeta iota in H
  end.

Lemma read_n_Forall {A} (P : A -> Prop) (p : parser A) n s xs s' :
    (forall s x s', p s = inr (x, s') -> P x) -> read_n n p s = inr (xs, s') -> Forall P xs.
Proof.
    intros Hp. revert s xs s'. induction n as [|n IH]; intros s xs s' E; cbn [read_n] in E.
    - injection E as <- _. constructor.
    - inv_reads E. injection E as <- _. constructor; [by eapply Hp|by eapply IH].
Qed.

Section Safety.
  Context `{FloatOps} `{!FloatCodec}.

Lemma bone_update_inv a f h h' :
    bone_update a f h = Some h' -> exists b, cells h !! a = Some b /\ h' = mkHeap (<[a := f b]> (cells h)) (next_addr h).
Proof. unfold bone_update. destruct (cells h !! a) as [b|]; [intros [= <-]; by eexists|done]. Qed.

Lemma load_children_safe L a n : load_safe L ->
    forall h byname s h' m' s', heap_wf h -> names_ok h byname -> is_Some (cells h !! a) ->
    load_children L a n (h, byname) s = inr ((h', m'), s') ->
    heap_wf h' /\ names_ok h' m' /\ is_Some (cells h' !! a) /\
    bone_extends (cells h) (cells h') /\ next_addr h <= next_addr h'.
Proof.
    intros HL. induction n as [|n IH]; intros h byname s h' m' s' Hwf Hn Ha E; cbn [load_children] in E.
    { injection E as <- <- _. split_and!; done. }
    inv_reads E. destruct x as [c [h1 m1]].
    destruct Ha as [b Hb]. assert (Ha := proj1 (Hwf _ _ Hb)).
    apply HL in Hm as (Hwf1 & Hn1 & Hc & Hca & E1 & Hle1); [|done|done|intros q [= <-]; by eexists].
    cbv beta iota in E. inv_reads E. apply lift_inr_inv in Hm as [Hu ->]. apply bone_update_inv in Hu as (b1 & Hb1 & ->).
    destruct (IH _ _ _ _ _ _ (heap_wf_push_child h1 a b1 c Hwf1 Hb1 ltac:(lia) Hca)
                (names_ok_push_child _ _ _ _ _ _ Hn1 Hb1) ltac:(simpl; rewrite lookup_insert_eq; by eexists) E)
      as (Hwf' & Hn' & Ha' & E' & Hle').
    split_and!; [done|done|done| |simpl in Hle'; lia].
    etransitivity; [exact E1|]. etransitivity; [|exact E'].
    simpl. by apply (bone_extends_insert _ _ b1).
Qed.

  (** [LoadSkeleton] is safe on every input, at every fuel. *)
Lemma LoadSkeleton_safe fuel : load_safe (LoadSkeleton fuel).
Proof.
    induction fuel as [|f IH]; intros p h byname s a h' m' s' Hwf Hn Hp E; [done|].
    cbn [LoadSkeleton bone_new] in E. inv_reads E.
    repeat match goal with
    | Hu : lift (bone_update _ _ (mkHeap (<[_ := _]> _) _)) _ = inr _ |- _ =>
        rewrite lift_bone_update_insert in Hu; injection Hu as <- <-
    end.
    match goal with Hl : lift (CalculateBoneToWorldTransform _ _) _ = inr _ |- _ =>
      apply lift_inr_inv in Hl as [Hc ->] end.
    match type of Hc with CalculateBoneToWorldTransform _ (mkHeap (<[_ := ?b]> _) _) = _ =>
      set (b5 := b) in Hc end.
    assert (Hwf5 : heap_wf (mkHeap (<[next_addr h := b5]> (cells h)) (S (next_addr h))))
      by (by apply (heap_wf_new_bone h p)).
    destruct (calc_spec _ _ b5 Hwf5 (lookup_insert_eq _ _ _)) as (h6 & Hc' & E56 & _ & Hfr6).
    rewrite Hc in Hc'. injection Hc' as ->.
    match goal with Hl : load_children _ _ _ _ _ = inr (?st, _) |- _ => rename Hl into Hch; destruct st as [h7 m7] end.
    injection E as <- <- <- _.
    assert (Hn6 := names_ok_new_bone h byname b5 h6 Hwf Hn E56).
    destruct (load_children_safe _ _ _ IH _ _ _ _ _ _ (heap_wf_shape _ _ E56 Hwf5) Hn6
                (same_shape_is_Some _ _ _ E56 ltac:(simpl; rewrite lookup_insert_eq; by eexists)) Hch)
      as (Hwf' & Hn' & Ha' & E' & Hle').
    rewrite <- (same_shape_next _ _ E56) in Hle'. simpl in Hle'.
    split_and!; [done|done|done|done| |lia].
    etransitivity; [|exact E']. apply (bone_extends_fresh _ _ (next_addr h)); [by apply heap_wf_fresh|].
    intros y Hy. rewrite Hfr6 by done. simpl. by rewrite lookup_insert_ne.
Qed.

Lemma load_bone_name_found byname s e s' : load_bone_name byname s = inr (e, s') -> byname !! e.1 = Some e.2.
Proof.
    unfold load_bone_name. intros E. inv_reads E.
    destruct (byname !! _) as [q|] eqn:Hq; [|done]. by injection E as <- _.
Qed.

Lemma read_each_Forall {A} (P : A -> Prop) (p : A -> parser A) l s ys s' :
    (forall x s y s', x ∈ l -> p x s = inr (y, s') -> P y) -> read_each p l s = inr (ys, s') -> Forall P ys.
Proof.
    intros Hp. revert s ys s'. induction l as [|x l IH]; intros s ys s' E; cbn [read_each] in E.
    - injection E as <- _. constructor.
    - inv_reads E. injection E as <- _. constructor.
      + eapply Hp; [by left|eassumption].
      + eapply IH; [|eassumption]. intros x' s0 y s1 Hx. apply Hp. by right.
Qed.

  (** An evaluator loaded into a default one has its cursors at frame 0,
      valid for any bone map. *)
Lemma cAnimEvaluator_Load_inv byname s ev s' :
    cAnimEvaluator_Load default_cAnimEvaluator s = inr (ev, s') -> evaluator_inv byname ev.
Proof.
    unfold cAnimEvaluator_Load. intros E. inv_reads E. injection E as <- _.
    unfold evaluator_inv. cbn [mLastPositions Channels default_cAnimEvaluator].
    rewrite resize_nil, length_replicate. split; [done|].
    intros a ch c _ Hc. apply lookup_replicate in Hc as [-> _]. apply channel_inv_zero.
Qed.

(** [Load_data] into a new [SceneAnimator] leaves the scene invariant
    once [Transforms] is resized. *)
Lemma Load_data_inv bs st' s' :
    Load_data Scene.new_SceneAnimator bs = inr (st', s') ->
    Scene.scene_inv (Scene.set_Transforms
      (resize (length (Scene.Bones st')) mat_identity (Scene.Transforms st')) st').
Proof.
    unfold Load_data. intros E. inv_reads E.
    apply lift_inr_inv in Hm as [Hr ->].
    replace (Scene.Release Scene.new_SceneAnimator)
      with (Some (Scene.mkAnimator [] (-1) None empty_bone_heap ∅ ∅ ∅ [] [])) in Hr by reflexivity.
    injection Hr as <-. destruct x3 as [root [h m]]. cbv beta iota in E. inv_reads E.
    apply LoadSkeleton_safe in Hm1 as (Hwf & Hn & _ & Hroot & _ & _);
      [|apply heap_wf_empty|apply names_ok_empty|done].
    match goal with Hl : read_each _ _ _ = inr _ |- _ =>
      apply (read_each_Forall (evaluator_inv m)) in Hl; [|intros ev0 s0 ev s1 Hin] end.
    2: { cbn [Scene.Animations Scene.set_tree] in Hin. rewrite resize_nil in Hin.
         apply elem_of_replicate in Hin as [-> _]. apply cAnimEvaluator_Load_inv. }
    case_decide; injection E as <- _.
    all: match goal with Hl : read_n _ (load_bone_name _) _ = inr _ |- _ =>
      cbn [Scene.BonesByName Scene.set_CurrentAnimIndex Scene.set_AnimationNameToId Scene.set_Animations
           Scene.set_tree] in Hl;
      apply (read_n_Forall (fun e => m !! e.1 = Some e.2)) in Hl; [|apply load_bone_name_found] end.
    all: unfold Scene.scene_inv; cbn [Scene.set_bones Scene.set_CurrentAnimIndex
      Scene.set_AnimationNameToId Scene.set_Animations Scene.set_tree Scene.set_Transforms Scene.Heap
      Scene.BonesByName Scene.Skeleton Scene.Bones Scene.Animations Scene.Transforms Scene.CurrentAnimIndex].
    all: split_and!; [exists root; split; [done|]; unfold Scene.heap_ok; split_and!; [done|done|done|]|done|rewrite length_resize; lia|lia].
    all: apply Forall_map; eapply Forall_impl; [eassumption|]; intros [k q] Hq; simpl in Hq.
    all: destruct (Hn _ _ Hq) as (b & Hb & _); by eexists.
Qed.

(** C11. [Load] into a new [SceneAnimator] leaves a scene ready for its
    bake, whatever the file holds: when the reads return and [Transforms]
    is resized to [Bones.size()], the scene invariant holds, so the
    skeleton is well formed, [BonesByName] names allocated bones with those
    names, the root and every attached bone are allocated (no dangling
    pointer), every loaded evaluator has valid cursors and the current
    index is an [int32_t]. *)
Theorem Load_data_safe bs st' s' :
    Load_data Scene.new_SceneAnimator bs = inr (st', s') ->
    Scene.scene_inv (Scene.set_Transforms
      (resize (length (Scene.Bones st')) mat_identity (Scene.Transforms st')) st').
Proof. apply Load_data_inv. Qed.

End Safety.

(** The conditions of the round trip on concrete values, by computation. *)
Ltac nul_free :=
  let Hin := fresh in
  intros Hin; vm_compute in Hin;
  repeat (apply elem_of_cons in Hin as [Hin|Hin]; [discriminate|]); by apply elem_of_nil in Hin.
Ltac saveable :=
  repeat match goal with
  | |- _ /\ _ => split
  | |- Forall _ _ => constructor
  | |- True => exact I
  | |- name_ok _ => split; [vm_compute; lia | nul_free]
  | |- count_ok _ => unfold count_ok; simpl; lia
  | |- f32_exact _ => reflexivity
  | |- f64_exact _ => reflexivity
  | |- mat4_exact _ => unfold mat4_exact; cbn [mat4_elems]
  | |- vec3_exact _ => unfold vec3_exact
  | |- quat_exact _ => unfold quat_exact
  | |- vkey_exact _ => unfold vkey_exact
  | |- qkey_exact _ => unfold qkey_exact
  | |- anim_ok _ => unfold anim_ok
  | |- channel_ok _ => unfold channel_ok
  end.

Section PersistClaims.
  Import Scene.

(** A name of 250 bytes or more is written by [Save] but overflows
    [char temp[250]] in [LoadSkeleton] ([temp[nsize] = 0] at index 250 or
    more): [Load] is undefined, while a name of 249 bytes reads back.  The
    specification asks [Load] to check the length and fail. *)
Example Load_long_name_undefined :
    (save_then_load (one_bone_scene (long_name 250))
       ≫= fun r => match r with inl e => Some e | inr _ => None end) = Some Undefined /\
    (save_then_load (one_bone_scene (long_name 249))
       ≫= fun r => match r with inr (st, _) => Name <$> cells (Heap st) !! 0 | inl _ => None end)
    = Some (long_name 249).
Proof. split; reflexivity. Qed.

(** A name with a NUL byte is saved with its full length but read
    back through [Name = temp], which stops at the NUL: the bone ["a\0b"]
    comes back as ["a"], against the round trip the specification asks. *)
Example Load_truncates_at_nul :
    (save_then_load (one_bone_scene nul_name)
       ≫= fun r => match r with inr (st, _) => Name <$> cells (Heap st) !! 0 | inl _ => None end)
    = Some "a".
Proof. reflexivity. Qed.

(** [Save] writes the skeleton only when there is one, but [Load]
    always reads one first: the 87 bytes saved from a scene with one
    animation and no skeleton are read as a skeleton and the file ends
    before [Load] is done. *)
Example Load_without_skeleton_short_read :
    length <$> Save skeletonless = Some 87 /\
    (save_then_load skeletonless ≫= fun r => match r with inl e => Some e | inr _ => None end)
    = Some ShortRead.
Proof. split; reflexivity. Qed.

(** A rotation key is written as the bytes of [aiQuaternion], whose
    members are [w, x, y, z]: the key [(t = 0, w = 1)] is eight bytes of
    time, then [w] as the float [1.0f] ([00 00 80 3F]) and three zeros.
    The specification lists the value as [(x, y, z, w)]. *)
Example write_qkey_wxyz :
    write_qkey (QKey (d_of_Z 0) (Quat (#1) (#0) (#0) (#0))) =
    repeat Byte.x00 10 ++ [Byte.x80; Byte.x3f] ++ repeat Byte.x00 12.
Proof. reflexivity. Qed.

(** [Load] of the saved arm scene bakes again as [Init] did: the same
    frames for every animation, the same attached bones and the same
    current animation. *)
Example Load_rebakes_Init :
    (Save arm_saved ≫= fun bs => match Load 40 new_SceneAnimator bs with
       | inr (st, _) => Some (map Evaluator.Transforms (Animations st), Bones st, CurrentAnimIndex st)
       | inl _ => None end)
    = Some (map Evaluator.Transforms (Animations arm_saved), Bones arm_saved, CurrentAnimIndex arm_saved).
Proof. reflexivity. Qed.

Lemma cAnimEvaluator_Load_back_wave :
    exists ev, Animations arm_saved !! 0 = Some ev /\
      cAnimEvaluator_Load default_cAnimEvaluator (cAnimEvaluator_Save ev) =
      inr (reload default_cAnimEvaluator ev, []).
Proof.
    eexists. split; [reflexivity|]. rewrite <- (app_nil_r (cAnimEvaluator_Save _)).
    apply cAnimEvaluator_Load_back. saveable.
Defined.

Lemma Load_data_safe_arm :
    Load_data new_SceneAnimator arm_bytes = inr (arm_loaded, []) /\
    scene_inv (set_Transforms (resize (length (Bones arm_loaded)) mat_identity (Transforms arm_loaded))
                 arm_loaded).
Proof.
    assert (E : Load_data new_SceneAnimator arm_bytes = inr (arm_loaded, [])) by reflexivity.
    split; [exact E|]. exact (Load_data_safe _ _ _ E).
Defined.

Lemma read_name_write_string_nul :
    (Z.of_nat (length (String.list_byte_of_string nul_name)) < 2 ^ 32)%Z /\
    read_name (write_string nul_name ++ []) = inr ("a", []).
Proof.
    assert (Hl : (Z.of_nat (length (String.list_byte_of_string nul_name)) < 2 ^ 32)%Z)
      by (vm_compute; reflexivity).
    split; [exact Hl|]. rewrite (read_name_write_string _ _ Hl). reflexivity.
Defined.
End PersistClaims.
