(* ===== verification/SaveLoad.v ===== *)
(** * SaveLoad.v: [Load] reads back what [Save] wrote

    The skeleton in a file is a tree of the saved fields of each bone
    ([btree]): name, offset, original local transform, children.
    [SaveSkeleton] writes the bytes [tree_bytes] of the tree [bone_tree]
    walks ([SaveSkeleton_tree]); [LoadSkeleton] on those bytes allocates
    one bone per node in pre-order, stores the tree ([tree_in]), computes
    the global transforms and registers the names ([LoadSkeleton_ok]).
    With the animations and bone names ([Persist.v]) this gives the round
    trip of a scene ([Save_Load_roundtrip]): a new [SceneAnimator] that
    loads a saved scene has the same skeleton, the same saved fields of
    its animations and bones of the same names, provided every name is
    shorter than 250 bytes without a NUL, every float reads back exactly
    and every count fits [uint32_t]. *)

From S2P Require Import Prelude Float ExactFloat Codec Channel Evaluator Skeleton Animator Persist.
From stdpp Require Import base list strings gmap.
From Stdlib Require Strings.String.
From coqutil Require Import Byte Word.LittleEndianList.
From Stdlib Require Import ZArith Lia.

Section Tree.
  Context `{FloatOps} `{!FloatCodec}.

Inductive btree := BNode (name : string) (offset original : mat4) (kids : list btree).

Fixpoint tree_bytes (t : btree) : list byte :=
    let '(BNode name off orig kids) := t in
    write_string name ++ write_mat4 off ++ write_mat4 orig ++ write_u32 (length kids) ++
    concat (map tree_bytes kids).

  (** The saved fields of the bones reachable from [a]. *)
Fixpoint bone_tree (fuel : nat) (h : bone_heap) (a : nat) : option btree :=
    match fuel with
    | O => None
    | S fuel' =>
        b ← cells h !! a;
        kids ← mapM (bone_tree fuel' h) (Children b);
        Some (BNode (Name b) (Offset b) (OriginalLocalTransform b) kids)
    end.

Fixpoint tree_size (t : btree) : nat :=
    let '(BNode _ _ _ kids) := t in S (sum_list (map tree_size kids)).
Fixpoint tree_height (t : btree) : nat :=
    let '(BNode _ _ _ kids) := t in S (max_list (map tree_height kids)).
Fixpoint tree_names (t : btree) : list string :=
    let '(BNode name _ _ kids) := t in name :: concat (map tree_names kids).

  (** [t] is stored at [a] in [h], every bone of it in [[lo, hi)]. *)
Inductive tree_in (h : bone_heap) (lo hi : nat) : nat -> btree -> Prop :=
  | tree_in_node a b kids :
      lo <= a < hi -> cells h !! a = Some b ->
      Forall2 (tree_in h lo hi) (Children b) kids ->
      tree_in h lo hi a (BNode (Name b) (Offset b) (OriginalLocalTransform b) kids).

Fixpoint tree_ok (t : btree) : Prop :=
    let '(BNode name off orig kids) := t in
    name_ok name /\ mat4_exact off /\ mat4_exact orig /\ count_ok kids /\
    (fix all (l : list btree) : Prop :=
       match l with [] => True | k :: l' => tree_ok k /\ all l' end) kids.

  (** [b] after [Children.push_back] of each of [cs]. *)
Definition add_children (cs : list nat) (b : cBone) : cBone :=
    mkBone (Name b) (Offset b) (LocalTransform b) (GlobalTransform b)
      (OriginalLocalTransform b) (Parent b) (Children b ++ cs).

  (** What [LoadSkeleton] promises on the bytes of a tree [t]: from a
      well-formed heap and an allocated parent it reads exactly those
      bytes, returns the next address, allocates [tree_size t] bones that
      store [t], leaves the bones below untouched, keeps the heap well
      formed and [BonesByName] correct, registers every name of [t], and
      computes every new bone's global transform. *)
Definition load_ok (fuel : nat) (t : btree) : Prop :=
    forall p h byname s, heap_wf h -> names_ok h byname ->
      (forall q, p = Some q -> is_Some (cells h !! q)) ->
      exists h' byname',
        LoadSkeleton fuel p (h, byname) (tree_bytes t ++ s) = inr ((next_addr h, (h', byname')), s) /\
        heap_wf h' /\ names_ok h' byname' /\ next_addr h' = next_addr h + tree_size t /\
        (forall x, x < next_addr h -> cells h' !! x = cells h !! x) /\
        tree_in h' (next_addr h) (next_addr h') (next_addr h) t /\
        (forall x, next_addr h <= x < next_addr h' -> global_ok (cells h') x) /\
        (forall k, k ∈ tree_names t -> is_Some (byname' !! k)) /\
        (forall k, is_Some (byname !! k) -> is_Some (byname' !! k)).
End Tree.

Arguments btree {_}.

Section TreeScenarios.
  Import Scene.

  (** Its skeleton as saved. *)
Definition arm_saved_tree : btree := Eval vm_compute in
    default (BNode "" mat_identity mat_identity []) (bone_tree 5 (Heap arm_saved) 0).
End TreeScenarios.

(** ** The skeleton as a tree *)

Section Trees.
  Context `{FloatOps} `{!FloatCodec}.

Lemma btree_ind' (P : btree -> Prop) :
    (forall name off orig kids, Forall P kids -> P (BNode name off orig kids)) -> forall t, P t.
Proof.
    intros Hn. fix IH 1. intros [name off orig kids]. apply Hn.
    induction kids as [|k ks IHk]; constructor; [apply IH | apply IHk].
Qed.

Lemma tree_ok_node name off orig kids :
    tree_ok (BNode name off orig kids) <->
    name_ok name /\ mat4_exact off /\ mat4_exact orig /\ count_ok kids /\ Forall tree_ok kids.
Proof.
    simpl. do 4 (apply and_iff_compat_l).
    induction kids as [|k ks IH]; [split; [constructor|done]|]. rewrite Forall_cons. tauto.
Qed.

  (** A relation between lists strengthened along a property of the right
      list. *)
Lemma Forall2_Forall_impl {A B} (P : B -> Prop) (R R' : A -> B -> Prop) l k :
    Forall P k -> Forall2 R l k -> (forall x y, P y -> R x y -> R' x y) -> Forall2 R' l k.
Proof. intros HP HR Himp. induction HR; inversion HP; subst; constructor; auto. Qed.

Lemma mapM_fmap_option {A B C} (f : A -> option C) (g : A -> option B) (w : B -> C) l :
    (forall x, f x = w <$> g x) -> mapM f l = fmap (map w) (mapM g l).
Proof.
    intros Hf. induction l as [|x l IH]; [done|]. simpl. rewrite Hf, IH.
    by destruct (g x), (mapM g l).
Qed.

  (** [SaveSkeleton] writes the bytes of the tree it walks. *)
Lemma SaveSkeleton_tree fuel h a : SaveSkeleton fuel h a = tree_bytes <$> bone_tree fuel h a.
Proof.
    revert a. induction fuel as [|f IH]; intros a; [done|]. simpl.
    destruct (cells h !! a) as [b|]; [simpl|done].
    rewrite (mapM_fmap_option _ (bone_tree f h) tree_bytes _ IH).
    destruct (mapM (bone_tree f h) (Children b)) as [kids|] eqn:Hk; [simpl|done].
    by rewrite (Forall2_length _ _ _ (mapM_Some_1 _ _ _ Hk)).
Qed.

  (** A tree stored in a range stays stored when the range grows and the
      cells in it do not change. *)
Lemma tree_in_frame t : forall h h' lo hi lo' hi' a,
    tree_in h lo hi a t -> lo' <= lo -> hi <= hi' ->
    (forall x, lo <= x < hi -> cells h' !! x = cells h !! x) -> tree_in h' lo' hi' a t.
Proof.
    induction t as [name off orig kids IH] using btree_ind'.
    intros h h' lo hi lo' hi' a Ht Hlo Hhi Hfr. inversion Ht as [a' b kids' Ha Hb Hkids]; subst.
    rewrite <- (Hfr a Ha) in Hb. constructor; [lia|done|].
    eapply Forall2_Forall_impl; [exact IH|exact Hkids|]. intros c k IHk Hc. eauto.
Qed.

Lemma tree_height_size t : tree_height t <= tree_size t.
Proof.
    induction t as [name off orig kids IH] using btree_ind'. simpl.
    assert (max_list (map tree_height kids) <= sum_list (map tree_size kids)); [|lia].
    induction IH as [|k ks Hk Hks IHks]; simpl; lia.
Qed.

Lemma tree_height_kid k kids : k ∈ kids -> tree_height k <= max_list (map tree_height kids).
Proof. intros Hk. apply max_list_elem_of_le, list_elem_of_In, in_map, list_elem_of_In, Hk. Qed.

  (** A stored tree is what [bone_tree] reads back, with fuel its height. *)
Lemma tree_in_bone_tree t : forall h lo hi a fuel,
    tree_in h lo hi a t -> tree_height t <= fuel -> bone_tree fuel h a = Some t.
Proof.
    induction t as [name off orig kids IH] using btree_ind'.
    intros h lo hi a fuel Ht Hf. inversion Ht as [a' b kids' Ha Hb Hkids]; subst.
    destruct fuel as [|f]; simpl in Hf; [lia|]. simpl. rewrite Hb. simpl.
    rewrite (mapM_Some_2 _ _ kids); [done|].
    assert (IH' : Forall (fun k => (forall h lo hi a fuel, tree_in h lo hi a k ->
                   tree_height k <= fuel -> bone_tree fuel h a = Some k) /\ tree_height k <= f) kids).
    { apply Forall_forall. intros k Hk. split; [exact (proj1 (Forall_forall _ _) IH k Hk)|].
      pose proof (tree_height_kid k kids Hk). lia. }
    eapply Forall2_Forall_impl; [exact IH'|exact Hkids|]. intros c k [IHk Hk] Hc. eauto.
Qed.

  (** A tree's bytes are at least as many as its height. *)
Lemma tree_height_bytes t : tree_height t <= length (tree_bytes t).
Proof.
    induction t as [name off orig kids IH] using btree_ind'. simpl.
    rewrite !length_app.
    assert (max_list (map tree_height kids) <= length (concat (map tree_bytes kids))); [|cbn [length]; lia].
    induction IH as [|k ks Hk Hks IHks]; [simpl; lia|]. simpl. rewrite length_app. lia.
Qed.

Lemma bone_tree_S n h a :
    bone_tree (S n) h a =
    (b ← cells h !! a; kids ← mapM (bone_tree n h) (Children b);
     Some (BNode (Name b) (Offset b) (OriginalLocalTransform b) kids)).
Proof. done. Qed.

  (** On a well-formed heap the walk of [SaveSkeleton] is defined: children
      are at larger addresses, so [next_addr - a] bounds the depth below
      [a]. *)
Lemma bone_tree_defined h : heap_wf h ->
    forall n a, is_Some (cells h !! a) -> next_addr h <= a + n -> is_Some (bone_tree (S n) h a).
Proof.
    intros Hwf. induction n as [|n IH]; intros a [b Hb] Hn; rewrite bone_tree_S, Hb; cbn [mbind option_bind].
    - destruct (Children b) as [|c cs] eqn:Hc; [by eexists|].
      destruct (proj2 (proj2 (Hwf _ _ Hb)) c) as [Hac [bc Hbc]]; [rewrite Hc; by left|].
      destruct (Hwf _ _ Hbc). lia.
    - destruct (mapM_is_Some_2 (bone_tree (S n) h) (Children b)) as [kids ->]; [|by eexists].
      apply Forall_forall. intros c Hc. destruct (proj2 (proj2 (Hwf _ _ Hb)) c Hc) as [Hac Hcl].
      apply IH; [done|lia].
Qed.
End Trees.

(** ** [LoadSkeleton] rebuilds the saved tree *)

Section LoadTree.
  Context `{FloatOps} `{!FloatCodec}.

Lemma add_children_push c cs b : add_children cs (push_child c b) = add_children (c :: cs) b.
Proof. unfold add_children, push_child. simpl. by rewrite <- app_assoc. Qed.

Lemma tree_in_node' h lo hi a b name off orig kids :
    lo <= a < hi -> cells h !! a = Some b -> Name b = name -> Offset b = off ->
    OriginalLocalTransform b = orig -> Forall2 (tree_in h lo hi) (Children b) kids ->
    tree_in h lo hi a (BNode name off orig kids).
Proof. intros ?? <- <- <- ?. by constructor. Qed.

  (** A heap that differs from [h] only by children added to [a] and by
      bones beyond [next_addr h] extends it. *)
Lemma bone_extends_frame h h' a :
    heap_wf h -> (forall x, x < next_addr h -> x <> a -> cells h' !! x = cells h !! x) ->
    (forall b, cells h !! a = Some b -> exists cs, cells h' !! a = Some (add_children cs b)) ->
    bone_extends (cells h) (cells h').
Proof.
    intros Hwf Hfr Ha x b Hb. destruct (decide (x = a)) as [->|Hne].
    - destruct (Ha b Hb) as [cs Hcs]. by eexists.
    - exists b. rewrite Hfr; [done| |done]. by destruct (Hwf _ _ Hb).
Qed.
  (** The loop over the children: each child is read where the previous
      one ended, its bone pushed onto [a]. *)
Lemma load_children_spec fuel a kids : Forall (load_ok fuel) kids ->
    forall h byname s b, heap_wf h -> names_ok h byname -> cells h !! a = Some b ->
    exists h' byname' cs,
      load_children (LoadSkeleton fuel) a (length kids) (h, byname)
        (concat (map tree_bytes kids) ++ s) = inr ((h', byname'), s) /\
      heap_wf h' /\ names_ok h' byname' /\
      next_addr h' = next_addr h + sum_list (map tree_size kids) /\
      (forall x, x < next_addr h -> x <> a -> cells h' !! x = cells h !! x) /\
      cells h' !! a = Some (add_children cs b) /\
      Forall2 (tree_in h' (next_addr h) (next_addr h')) cs kids /\
      (forall x, next_addr h <= x < next_addr h' -> global_ok (cells h') x) /\
      (forall k, k ∈ concat (map tree_names kids) -> is_Some (byname' !! k)) /\
      (forall k, is_Some (byname !! k) -> is_Some (byname' !! k)).
Proof.
    induction 1 as [|t ts Ht Hts IH]; intros h byname s b Hwf Hn Hb.
    { exists h, byname, []. unfold add_children. rewrite app_nil_r.
      split_and!; try done; try lia; [by destruct b|intros k Hk; by apply elem_of_nil in Hk]. }
    destruct (Ht (Some a) h byname (concat (map tree_bytes ts) ++ s) Hwf Hn)
      as (h1 & m1 & E1 & Hwf1 & Hn1 & Hnext1 & Hfr1 & Htr1 & Hok1 & Hnm1 & Hmono1);
      [intros q [= <-]; by eexists|].
    assert (Ha : a < next_addr h) by (by destruct (Hwf _ _ Hb)).
    simpl. rewrite <- app_assoc, (bind_inr _ _ _ _ _ E1). cbv beta iota.
    rewrite (bone_update_spec _ _ _ b) by (by rewrite Hfr1). rewrite (bind_inr _ _ _ _ _ (lift_Some _ _)).
    set (h2 := mkHeap (<[a := push_child (next_addr h) b]> (cells h1)) (next_addr h1)).
    assert (Hwf2 : heap_wf h2).
    { apply heap_wf_push_child; [done|by rewrite Hfr1|lia|]. inversion Htr1; subst. by eexists. }
    assert (Hn2 : names_ok h2 m1) by (apply names_ok_push_child; [done|by rewrite Hfr1]).
    destruct (IH h2 m1 s (push_child (next_addr h) b) Hwf2 Hn2 (lookup_insert_eq _ _ _))
      as (h' & m' & cs & -> & Hwf' & Hn' & Hnext' & Hfr' & Ha' & Htr' & Hok' & Hnm' & Hmono').
    simpl in Hnext', Hfr'.
    assert (Hfr12 : forall x, x < next_addr h1 -> x <> a -> cells h' !! x = cells h1 !! x).
    { intros x Hx Hxa. rewrite Hfr' by done. by rewrite lookup_insert_ne. }
    assert (E2 : bone_extends (cells h2) (cells h')).
    { apply (bone_extends_frame _ _ a); [done|done|]. intros b0 Hb0. exists cs.
      simpl in Hb0. rewrite lookup_insert_eq in Hb0. by simplify_eq. }
    exists h', m', (next_addr h :: cs). split_and!; try done.
    - simpl. lia.
    - intros x Hx Hxa. rewrite Hfr12, Hfr1 by lia. done.
    - by rewrite Ha', add_children_push.
    - constructor.
      + eapply tree_in_frame; [exact Htr1|lia|lia|]. intros x Hx. apply Hfr12; lia.
      + eapply Forall2_impl; [exact Htr'|]. intros c k Hc.
        eapply tree_in_frame; [exact Hc|simpl; lia|lia|done].
    - intros x Hx. destruct (decide (x < next_addr h1)).
      + apply (global_ok_extends (cells h2)); [done|].
        apply (global_ok_extends (cells h1)); [simpl; apply (bone_extends_insert _ _ b); [by rewrite Hfr1|done..]|]. apply Hok1. lia.
      + apply Hok'. simpl. lia.
    - intros k Hk. simpl in Hk. apply elem_of_app in Hk as [Hk|Hk]; [|by apply Hnm'].
      apply Hmono'. by apply Hnm1.
    - intros k Hk. by apply Hmono', Hmono1.
Qed.
  (** The part of [LoadSkeleton] before the children: the new bone gets
      its parent, name, offset and local transforms from the file and its
      global transform from [CalculateBoneToWorldTransform]. *)
Lemma LoadSkeleton_head f p h byname name off orig kids s :
    heap_wf h -> names_ok h byname -> (forall q, p = Some q -> is_Some (cells h !! q)) ->
    name_ok name -> mat4_exact off -> mat4_exact orig -> count_ok kids ->
    exists h6 b6,
      LoadSkeleton (S f) p (h, byname) (tree_bytes (BNode name off orig kids) ++ s) =
        (st ← load_children (LoadSkeleton f) (next_addr h) (length kids)
                (h6, <[name := next_addr h]> byname); mret (next_addr h, st))
          (concat (map tree_bytes kids) ++ s) /\
      heap_wf h6 /\ names_ok h6 (<[name := next_addr h]> byname) /\ next_addr h6 = S (next_addr h) /\
      cells h6 !! next_addr h = Some b6 /\ Name b6 = name /\ Offset b6 = off /\
      OriginalLocalTransform b6 = orig /\ Children b6 = [] /\ global_ok (cells h6) (next_addr h) /\
      (forall x, x <> next_addr h -> cells h6 !! x = cells h !! x).
Proof.
    intros Hwf Hn Hp Hname Hoff Horig Hcnt. cbn [LoadSkeleton bone_new tree_bytes].
    set (a := next_addr h). reads.
    match goal with |- context [CalculateBoneToWorldTransform a (mkHeap (<[a := ?b]> _) _)] =>
      set (b5 := b) end.
    assert (Hwf5 : heap_wf (mkHeap (<[a := b5]> (cells h)) (S a))) by (by apply (heap_wf_new_bone h p)).
    destruct (calc_spec _ a b5 Hwf5 (lookup_insert_eq _ _ _)) as (h6 & Hc & E56 & Hok6 & Hfr6).
    destruct (same_shape_lookup _ _ a b5 E56 (lookup_insert_eq _ _ _)) as [g Hb6].
    rewrite Hc, (bind_inr _ _ _ _ _ (lift_Some _ _)). cbv beta. reads.
    exists h6, (set_Global g b5). split_and!; try done.
    - by rewrite <- E56.
    - exact (names_ok_new_bone h byname b5 h6 Hwf Hn E56).
    - by rewrite <- (same_shape_next _ _ E56).
    - intros x Hx. rewrite Hfr6 by done. simpl. by rewrite lookup_insert_ne.
Qed.

  (** [LoadSkeleton] keeps the promise [load_ok] on every tree that can be
      saved, with fuel at least the tree's height. *)
Lemma LoadSkeleton_ok t : forall fuel, tree_height t <= fuel -> tree_ok t -> load_ok fuel t.
Proof.
    induction t as [name off orig kids IH] using btree_ind'.
    intros fuel Hf Hok p h byname s Hwf Hn Hp.
    apply tree_ok_node in Hok as (Hname & Hoff & Horig & Hcnt & Hkids).
    destruct fuel as [|f]; [simpl in Hf; lia|].
    destruct (LoadSkeleton_head f p h byname name off orig kids s Hwf Hn Hp Hname Hoff Horig Hcnt)
      as (h6 & b6 & -> & Hwf6 & Hn6 & Hnext6 & Hb6 & Hname6 & Hoff6 & Horig6 & Hch6 & Hok6 & Hfr6).
    assert (IH' : Forall (load_ok f) kids).
    { apply Forall_forall. intros k Hk. apply (proj1 (Forall_forall _ _) IH k Hk).
      - pose proof (tree_height_kid k kids Hk). simpl in Hf. lia.
      - exact (proj1 (Forall_forall _ _) Hkids k Hk). }
    destruct (load_children_spec f (next_addr h) kids IH' h6 _ s b6 Hwf6 Hn6 Hb6)
      as (h' & m' & cs & E & Hwf' & Hn' & Hnext' & Hfr' & Ha' & Htr' & Hok' & Hnm' & Hmono').
    rewrite (bind_inr _ _ _ _ _ E). exists h', m'.
    assert (E6 : bone_extends (cells h6) (cells h')).
    { apply (bone_extends_frame _ _ (next_addr h)); [done|done|]. intros b0 Hb0. exists cs. congruence. }
    split_and!; try done.
    - simpl. lia.
    - intros x Hx. rewrite Hfr', Hfr6 by lia. done.
    - apply (tree_in_node' _ _ _ _ (add_children cs b6)); [lia|done|done|done|done|].
      simpl. rewrite Hch6. eapply Forall2_impl; [exact Htr'|]. intros c k Hc.
      eapply tree_in_frame; [exact Hc|lia|lia|done].
    - intros x Hx. destruct (decide (x = next_addr h)) as [->|Hne]; [by eapply global_ok_extends|].
      apply Hok'. lia.
    - intros k Hk. apply elem_of_cons in Hk as [->|Hk]; [|by apply Hnm'].
      apply Hmono'. rewrite lookup_insert_eq. by eexists.
    - intros k Hk. apply Hmono'. apply lookup_insert_is_Some'. by right.
Qed.
End LoadTree.

(** ** [Load] reads back what [Save] wrote *)

Section SceneRoundTrip.
  Context `{FloatOps} `{!FloatCodec}.
  Import Scene.

Lemma tree_ok_names t : tree_ok t -> Forall name_ok (tree_names t).
Proof.
    induction t as [name off orig kids IH] using btree_ind'.
    intros (Hn & _ & _ & _ & Hkids)%tree_ok_node. simpl. constructor; [done|].
    apply Forall_concat, Forall_forall. intros l Hl.
    apply list_elem_of_In, in_map_iff in Hl as (k & <- & Hk%list_elem_of_In).
    exact (proj1 (Forall_forall _ _) IH k Hk (proj1 (Forall_forall _ _) Hkids k Hk)).
Qed.

  (** [Animations.resize(nsize)] from empty, then [Animations[i].Load]. *)
Lemma read_animations ev0 anims s : Forall anim_ok anims ->
    read_each cAnimEvaluator_Load (replicate (length anims) ev0) ((anims ≫= cAnimEvaluator_Save) ++ s)
    = inr (map (reload ev0) anims, s).
Proof.
    induction 1 as [|ev anims Hev Hanims IH]; [done|]. cbn [read_each replicate length].
    change ((ev :: anims) ≫= cAnimEvaluator_Save) with (cAnimEvaluator_Save ev ++ (anims ≫= cAnimEvaluator_Save)).
    rewrite <- app_assoc, (bind_inr _ _ _ _ _ (cAnimEvaluator_Load_back ev0 ev _ Hev)).
    by rewrite (bind_inr _ _ _ _ _ IH).
Qed.

  (** The bone names [Save] writes are found again in a [BonesByName] that
      holds them, at bones with the same names. *)
Lemma read_bone_names h h' byname qs ws s : names_ok h' byname ->
    Forall (fun q => exists b, cells h !! q = Some b /\ name_ok (Name b) /\ is_Some (byname !! Name b)) qs ->
    mapM (fun q => b ← cells h !! q; Some (write_string (Name b))) qs = Some ws ->
    exists entries,
      read_n (length qs) (load_bone_name byname) (concat ws ++ s) = inr (entries, s) /\
      mapM (fun q => Name <$> cells h' !! q) (map snd entries) = mapM (fun q => Name <$> cells h !! q) qs.
Proof.
    intros Hn Hqs. revert ws. induction Hqs as [|q qs (b & Hb & Hname & [q' Hq']) Hqs IH];
      intros ws Hws; [injection Hws as <-; by exists []|].
    simpl in Hws. rewrite Hb in Hws. simpl in Hws.
    destruct (mapM _ qs) as [ws'|] eqn:Hws'; [|done]. injection Hws as <-.
    destruct (IH ws' eq_refl) as (entries & Hread & Hnames).
    destruct (Hn _ _ Hq') as (b' & Hb' & Hname').
    exists ((Name b, q') :: entries). split.
    - cbn [read_n length concat]. rewrite <- app_assoc.
      assert (E : load_bone_name byname (write_string (Name b) ++ concat ws' ++ s) =
                  inr ((Name b, q'), concat ws' ++ s)).
      { unfold load_bone_name. rewrite (bind_inr _ _ _ _ _ (read_name_back _ _ Hname)). by rewrite Hq'. }
      by rewrite (bind_inr _ _ _ _ _ E), (bind_inr _ _ _ _ _ Hread).
    - simpl. by rewrite Hb', Hb, Hnames; simpl; rewrite Hname'.
Qed.

  (** What [Save] writes for a scene whose skeleton is the tree [t]. *)
Lemma Save_bytes st r t ws :
    Skeleton st = Some r -> bone_tree (S (next_addr (Heap st))) (Heap st) r = Some t ->
    count_ok (Animations st) ->
    mapM (fun q => b ← cells (Heap st) !! q; Some (write_string (Name b))) (Bones st) = Some ws ->
    Save st = Some (tree_bytes t ++ write_u32 (length (Animations st)) ++
                    (Animations st ≫= cAnimEvaluator_Save) ++ write_u32 (length (Bones st)) ++ concat ws).
Proof.
    intros Hsk Hbt Hac Hws. unfold Save. rewrite Hsk, SaveSkeleton_tree, Hbt. simpl.
    rewrite Hws. simpl. by rewrite u32_small, take_ge by (done || lia).
Qed.

(** C3. The round trip of the binary format: for a scene whose skeleton
    is the tree [t] and whose names, floats and counts can be stored
    (names shorter than 250 bytes without a NUL, floats that read back
    exactly, counts below [2^32], attached bones named in the skeleton),
    [Save] is defined and a new [SceneAnimator] that [Load]s its bytes
    reads all of them and has the same skeleton tree (names, offsets,
    original local transforms, children in order), a well-formed heap
    whose every bone has the global transform of its ancestor chain, the
    same name, duration, speed and channels for every animation, attached
    bones with the same names in the same order, and animation 0
    selected when there is one. *)
Theorem Save_Load_roundtrip st r t :
    Skeleton st = Some r -> bone_tree (S (next_addr (Heap st))) (Heap st) r = Some t -> tree_ok t ->
    count_ok (Animations st) -> Forall anim_ok (Animations st) -> count_ok (Bones st) ->
    Forall (fun q => exists b, cells (Heap st) !! q = Some b /\ Name b ∈ tree_names t) (Bones st) ->
    exists bs st' r', Save st = Some bs /\ Load_data new_SceneAnimator bs = inr (st', []) /\
      Skeleton st' = Some r' /\ bone_tree (S (next_addr (Heap st'))) (Heap st') r' = Some t /\
      heap_wf (Heap st') /\ (forall x, is_Some (cells (Heap st') !! x) -> global_ok (cells (Heap st')) x) /\
      map saved_part (Animations st') = map saved_part (Animations st) /\
      bone_names st' = bone_names st /\
      CurrentAnimIndex st' = (if decide (Animations st = []) then (-1)%Z else 0%Z).
Proof.
    intros Hsk Hbt Htok Hac Hanims Hbc Hbones.
    destruct (mapM_is_Some_2 (fun q => b ← cells (Heap st) !! q; Some (write_string (Name b))) (Bones st))
      as [ws Hws].
    { eapply Forall_impl; [exact Hbones|]. intros q (b & Hb & _). simpl. rewrite Hb. by eexists. }
    set (rest := write_u32 (length (Animations st)) ++ (Animations st ≫= cAnimEvaluator_Save) ++
                 write_u32 (length (Bones st)) ++ concat ws).
    assert (Hh : tree_height t <= S (length (tree_bytes t ++ rest)))
      by (rewrite length_app; pose proof (tree_height_bytes t); lia).
    destruct (LoadSkeleton_ok t _ Hh Htok None empty_bone_heap ∅ rest heap_wf_empty (names_ok_empty _))
      as (h' & m' & E & Hwf' & Hn' & Hnext' & _ & Htr' & Hok' & Hnm' & _); [done|].
    assert (Hbn : Forall (fun q => exists b, cells (Heap st) !! q = Some b /\ name_ok (Name b) /\
                                           is_Some (m' !! Name b)) (Bones st)).
    { eapply Forall_impl; [exact Hbones|]. intros q (b & Hb & Hin). exists b. split_and!; [done| |by apply Hnm'].
      exact (proj1 (Forall_forall _ _) (tree_ok_names t Htok) _ Hin). }
    destruct (read_bone_names (Heap st) h' m' (Bones st) ws [] Hn' Hbn Hws) as (entries & Hread & Hnames).
    destruct (decide (0 < length (map (reload default_cAnimEvaluator) (Animations st)))) as [Hpos|Hpos].
    all: exists (tree_bytes t ++ rest); do 2 eexists; split; [exact (Save_bytes st r t ws Hsk Hbt Hac Hws)|].
    all: unfold Load_data; rewrite (bind_inr _ _ _ (mkAnimator [] (-1) None empty_bone_heap ∅ ∅ ∅ [] []) _ eq_refl);
    cbv beta; rewrite (bind_inr _ _ _ _ _ (eq_refl : remaining _ = inr (length _, _))); cbv beta;
    cbn [Heap BonesByName]; rewrite (bind_inr _ _ _ _ _ E); cbv beta iota; cbn [Animations set_tree];
    unfold rest; reads; rewrite resize_nil;
    rewrite (bind_inr _ _ _ _ _ (read_animations default_cAnimEvaluator _ _ Hanims)); cbv beta zeta;
    rewrite <- (app_nil_r (concat ws)).
    1: rewrite !(decide_True _ _ Hpos). 2: rewrite !(decide_False _ _ Hpos).
    all: cbn [BonesByName BonesToIndex set_CurrentAnimIndex set_AnimationNameToId set_Animations set_tree];
      reads; (split; [reflexivity|]);
      cbn [Skeleton Heap Animations Bones CurrentAnimIndex set_bones set_CurrentAnimIndex
           set_AnimationNameToId set_Animations set_tree]; rewrite length_map in Hpos.
    all: split_and!; [reflexivity| |done| |rewrite map_map; by apply map_ext|exact Hnames|].
    all: try (eapply tree_in_bone_tree; [exact Htr'|]; pose proof (tree_height_size t); simpl in *; lia).
    all: try (intros x [b Hb]; apply Hok'; destruct (Hwf' _ _ Hb); simpl; lia).
    all: destruct (Animations st); simpl in Hpos |- *; (lia || done).
Qed.

(** C13. [Save] performs no undefined access on a scene that satisfies the
    scene invariant: the recursion of [SaveSkeleton] stays in the
    allocated bones and ends, and every [Bones[i]->Name] it reads is
    allocated. *)
Theorem Save_defined st : scene_inv st -> is_Some (Save st).
Proof.
    intros ((r & Hr & Hwf & _ & Hroot & Hbones) & _).
    destruct Hroot as [b Hb]. destruct (Hwf _ _ Hb) as [Hlt _].
    destruct (bone_tree_defined _ Hwf (next_addr (Heap st)) r ltac:(by eexists) ltac:(lia)) as [t Ht].
    unfold Save. rewrite Hr, SaveSkeleton_tree, Ht. simpl.
    destruct (mapM_is_Some_2 (fun q => b ← cells (Heap st) !! q; Some (write_string (Name b))) (Bones st))
      as [ws ->]; [|by eexists].
    eapply Forall_impl; [exact Hbones|]. intros q [bq Hq]. simpl. rewrite Hq. by eexists.
Qed.
End SceneRoundTrip.


(** The conditions of the round trip on a concrete tree. *)
Ltac tree_saveable := repeat (first [rewrite tree_ok_node | progress saveable]).

Section TreeClaims.
  Import Scene.

Lemma Save_Load_roundtrip_arm :
    exists bs st', Save arm_saved = Some bs /\ Load_data new_SceneAnimator bs = inr (st', []) /\
      bone_names st' = bone_names arm_saved /\
      map saved_part (Animations st') = map saved_part (Animations arm_saved).
Proof.
    destruct (Save_Load_roundtrip arm_saved 0 arm_saved_tree)
      as (bs & st' & r' & Hs & Hl & _ & _ & _ & _ & Hm & Hb & _).
    - reflexivity.
    - reflexivity.
    - unfold arm_saved_tree. tree_saveable.
    - unfold count_ok. simpl. lia.
    - unfold arm_saved. cbn [Animations]. saveable.
    - unfold count_ok. simpl. lia.
    - change (Bones arm_saved) with [2; 1].
      repeat (constructor; [eexists; split; [reflexivity|]; apply list_elem_of_In; simpl; auto 10|]).
      constructor.
    - exists bs, st'. done.
Defined.

Lemma Save_defined_arm : scene_inv arm_saved /\ is_Some (Save arm_saved).
Proof.
    assert (Hinv : scene_inv arm_saved) by (apply scene_invb_sound; reflexivity).
    split; [exact Hinv|exact (Save_defined _ Hinv)].
Defined.
End TreeClaims.
