(* ===== verification/LoadBake.v ===== *)
(** * LoadBake.v: the bake at the end of [Load]

    [SceneAnimator::Load] (cAnimationController.cpp, lines 315-361) reads
    the skeleton, the animations and the attached bones ([Load_data] of
    [Persist.v]) and then, like [Init], bakes every animation with the
    loop of [Animator.v] ([Load]).  The speed it bakes with is the
    [TicksPerSecond] read from the file, which [cAnimEvaluator::Load] takes
    as it is: the constructor's replacement of a zero speed by 100 is not
    applied.  This file composes the safety of [Load_data]
    ([Load_data_inv]) with the loop over the animations of [InitBake.v]:
    - [Load_bakes_tick_loop]: in any float arithmetic, when the loop over
      the ticks of every loaded animation ends within the fuel, [Load] is
      defined, leaves the scene invariant and appends to each animation as
      many frames of one matrix per attached bone as its loop ran
      iterations;
    - [Load_nonpositive_speed_hangs]: a file holding an animation of
      positive duration and speed [<= 0] (the file [Save] writes after
      [AdjustAnimationSpeedTo(0)], for instance) makes [Load] run its bake
      loop for ever: no fuel is enough. *)

From stdpp Require Import base list strings gmap.
From Stdlib Require Import ZArith QArith Qround Lqa Lia.
From S2P Require Import Prelude Float ExactFloat Codec Channel Evaluator Skeleton Animator InitBake Persist.
Close Scope Q_scope.

Import Scene.

(** ** A file with a stopped animation *)

Section StoppedScenario.

  (** The arm scene after [Init], with the speed of its animation set to 0
      by [AdjustAnimationSpeedTo(0)]. *)
Definition arm_stopped : SceneAnimator :=
    Eval vm_compute in default arm_saved (AdjustAnimationSpeedTo (#0) arm_saved).

  (** The file [Save] writes for it. *)
Definition stopped_bytes : list Byte.byte := Eval vm_compute in default [] (Save arm_stopped).

  (** What [Load_data] reads from it into a new [SceneAnimator]. *)
Definition stopped_loaded : SceneAnimator := Eval vm_compute in
    match Load_data new_SceneAnimator stopped_bytes with inr (st, _) => st | inl _ => new_SceneAnimator end.
End StoppedScenario.

(** ** [Load] bakes like [Init] *)

Section LoadBakes.
  Context `{FloatOps} `{!FloatLaws} `{!FloatCodec} `{!QuatInterp}.

  (** C12. [Load] bakes every loaded animation completely, in any float
      arithmetic: when the reads of [Load] into a new [SceneAnimator]
      return and, for each loaded animation [i], the bake's loop over the
      ticks ([ticks += TicksPerSecond / 30.0f] from 0 while below
      [Duration]) ends within the fuel after [n_i] iterations, [Load] is
      defined, reads nothing more, leaves the scene invariant with one
      matrix of [Transforms] per attached bone, and appends [n_i] frames of
      one matrix per attached bone to animation [i], keeping its duration
      and speed. *)
Theorem Load_bakes_tick_loop fuel bs st' s' ns :
    Load_data new_SceneAnimator bs = inr (st', s') ->
    Forall2 (fun ev n => tick_count fuel (#0) (Duration ev) (TicksPerSecond ev /. #30) = Some n)
      (Animations st') ns ->
    exists st'', Load fuel new_SceneAnimator bs = inr (st'', s') /\ scene_inv st'' /\
      length (Transforms st'') = length (Bones st'') /\
      forall i ev n, Animations st' !! i = Some ev -> ns !! i = Some n ->
        exists ev' frames, Animations st'' !! i = Some ev' /\
          Duration ev' = Duration ev /\ TicksPerSecond ev' = TicksPerSecond ev /\
          Evaluator.Transforms ev' = Evaluator.Transforms ev ++ frames /\
          length frames = n /\
          Forall (fun fr => length fr = length (Bones st'')) frames.
Proof.
    intros E Hns. pose proof (Load_data_inv _ _ _ E) as Hinv.
    destruct (bake_all_frames fuel _ ns Hinv Hns) as (st'' & Eb & Hinv'' & ET & _ & Hb).
    pose proof (bake_all_bones _ _ _ Eb) as EB. cbn [Bones set_Transforms] in EB.
    exists st''. split_and!; [| done | |].
    - unfold Load. rewrite (bind_inr _ _ _ _ _ E). cbv beta zeta. unfold lift. by rewrite Eb.
    - rewrite ET, EB. cbn. apply length_resize.
    - intros i ev n Hev Hn. destruct (Hb i ev n Hev Hn) as (ev' & Hev' & HD' & HT' & frames & EF & Hl & Hf).
      exists ev', frames. rewrite EB. cbn [Transforms set_Transforms] in Hf.
      rewrite length_resize in Hf. split_and!; done.
Qed.
End LoadBakes.

Section LoadHangs.

  (** C25. [Load] of a file holding an animation of positive duration and
      a speed [<= 0] never ends: [cAnimEvaluator::Load] keeps the speed the
      file holds, the ticks of the bake loop never reach the duration, and
      for every fuel [Load] runs out of it.  The file [Save] writes after
      [AdjustAnimationSpeedTo(0)] is one. *)
Theorem Load_nonpositive_speed_hangs st bs st' s' i ev d tps :
    Load_data st bs = inr (st', s') ->
    Animations st' !! i = Some ev -> Duration ev = XFin d -> TicksPerSecond ev = XFin tps ->
    (0 < d)%Q -> (tps <= 0)%Q ->
    forall fuel, Load fuel st bs = inl Undefined.
Proof.
    intros E Hev HD HT Hd Htps fuel. unfold Load. rewrite (bind_inr _ _ _ _ _ E). cbv beta zeta.
    unfold lift. rewrite (bake_all_hangs fuel _ i ev); [done|done|].
    rewrite HD, HT.
    change (@fdiv exact_float_ops (XFin tps) (@f_of_Z exact_float_ops 30)) with (XFin (Qred (tps / inject_Z 30))).
    apply tick_count_diverges; [|done|done]. rewrite Qred_correct.
    apply Qle_shift_div_r; [reflexivity|]. lra.
Qed.
End LoadHangs.

Section LoadExamples.

  (** The arm scene saved and loaded back runs its loop over the ticks 30
      times on exact values and bakes its 30 frames again. *)
Lemma Load_bakes_tick_loop_arm :
    exists st'', Load 40 new_SceneAnimator arm_bytes = inr (st'', []) /\ scene_inv st'' /\
      length (Transforms st'') = length (Bones st'') /\
      forall i ev n, Animations arm_loaded !! i = Some ev -> [30] !! i = Some n ->
        exists ev' frames, Animations st'' !! i = Some ev' /\
          Duration ev' = Duration ev /\ TicksPerSecond ev' = TicksPerSecond ev /\
          Evaluator.Transforms ev' = Evaluator.Transforms ev ++ frames /\
          length frames = n /\
          Forall (fun fr => length fr = length (Bones st'')) frames.
Proof.
    apply (Load_bakes_tick_loop 40 arm_bytes arm_loaded [] [30]); [reflexivity|].
    constructor; [reflexivity|constructor].
Defined.

  (** The file of the stopped arm scene: [Load] never ends. *)
Lemma Load_nonpositive_speed_hangs_stopped : Load 1000 new_SceneAnimator stopped_bytes = inl Undefined.
Proof.
    eapply (Load_nonpositive_speed_hangs new_SceneAnimator stopped_bytes stopped_loaded [] 0);
      [reflexivity..| |]; cbn; lra.
Defined.
End LoadExamples.
